(** * Verification of the Claude adapter of the Nyx content-script layer

    Sources embedded here:
    - [pages/content/src/plugins/adapters/claude.adapter.ts]
      (class [ClaudeAdapter]);
    - the chat input handler for Claude ([findChatInputElement],
      [insertTextToChatInput], [submitChatInput]).

    JavaScript strings are modelled as [string] (sequences of code units
    below 256); the document is a forest of element and text nodes that is
    queried with an embedding of the CSS selectors the sources use; timers
    live in a finite map from handles to pending callbacks; a selector text
    that the sources split with [split(', ')] is given as the list of its
    pieces. *)

From Stdlib Require Import Ascii String ZArith Lia Bool.
From stdpp Require Import base option list strings gmap.

(** ** JavaScript string primitives *)

Module JsString.

(** Line feed and carriage return. *)
Definition LF : ascii := "010"%char.
Definition CR : ascii := "013"%char.

(** The separator ['\n\n'] used when text is appended to existing text. *)
Definition separator : string := String LF (String LF EmptyString).

(** [s ? a : b] on a string tests that [s] is not the empty string. *)
Definition truthy (s : string) : bool :=
  match s with
  | EmptyString => false
  | String _ _ => true
  end.

(** [hay.includes(needle)]. *)
Fixpoint includes (needle hay : string) : bool :=
  String.prefix needle hay ||
  match hay with
  | EmptyString => false
  | String _ hay' => includes needle hay'
  end.

(** White space and line terminators removed by [String.prototype.trim],
    among the code units below 256: TAB, LF, VT, FF, CR, SP and NBSP. *)
Definition is_white_space (c : ascii) : bool :=
  let n := nat_of_ascii c in
  (Nat.leb 9 n && Nat.leb n 13) || Nat.eqb n 32 || Nat.eqb n 160.

Fixpoint trim_start (s : string) : string :=
  match s with
  | EmptyString => EmptyString
  | String c s' => if is_white_space c then trim_start s' else s
  end.

(** [trim_end] drops trailing white space: a character is kept when it is
    not white space or when something is kept after it. *)
Fixpoint trim_end (s : string) : string :=
  match s with
  | EmptyString => EmptyString
  | String c s' =>
      match trim_end s' with
      | EmptyString => if is_white_space c then EmptyString else String c EmptyString
      | t => String c t
      end
  end.

Definition trim (s : string) : string := trim_end (trim_start s).

(** Line breaks normalised as for the value of a text area: every CR LF
    pair and every other CR is replaced by one LF. A CR before an LF is
    dropped, any other CR becomes an LF. *)
Fixpoint normalize_newlines (s : string) : string :=
  match s with
  | EmptyString => EmptyString
  | String c s' =>
      if Ascii.eqb c CR then
        match s' with
        | String c' _ =>
            if Ascii.eqb c' LF then normalize_newlines s'
            else String LF (normalize_newlines s')
        | EmptyString => String LF EmptyString
        end
      else String c (normalize_newlines s')
  end.

(** A string without carriage return. *)
Fixpoint no_CR (s : string) : bool :=
  match s with
  | EmptyString => true
  | String c s' => negb (Ascii.eqb c CR) && no_CR s'
  end.

End JsString.

(** ** Regular expressions

    The four literals of [supportedPatterns] use character atoms, the dot,
    the star, concatenation and the anchors [^] and [$]. Matching is by
    derivatives; [test] follows [RegExp.prototype.test] without flags. *)

Module RegExp.

Inductive regex : Type :=
| Void
| Eps
| Chr (c : ascii)
| Dot
| Seq (r1 r2 : regex)
| Alt (r1 r2 : regex)
| Star (r : regex).

(** The dot matches every character except line terminators. *)
Definition dot_matches (c : ascii) : bool :=
  negb (Ascii.eqb c JsString.LF || Ascii.eqb c JsString.CR).

Fixpoint nullable (r : regex) : bool :=
  match r with
  | Void | Chr _ | Dot => false
  | Eps | Star _ => true
  | Seq r1 r2 => nullable r1 && nullable r2
  | Alt r1 r2 => nullable r1 || nullable r2
  end.

Fixpoint deriv (c : ascii) (r : regex) : regex :=
  match r with
  | Void | Eps => Void
  | Chr d => if Ascii.eqb d c then Eps else Void
  | Dot => if dot_matches c then Eps else Void
  | Seq r1 r2 =>
      if nullable r1
      then Alt (Seq (deriv c r1) r2) (deriv c r2)
      else Seq (deriv c r1) r2
  | Alt r1 r2 => Alt (deriv c r1) (deriv c r2)
  | Star r1 => Seq (deriv c r1) (Star r1)
  end.

(** The whole of [s] is matched by [r]. *)
Fixpoint matches (r : regex) (s : string) : bool :=
  match s with
  | EmptyString => nullable r
  | String c s' => matches (deriv c r) s'
  end.

(** Some prefix of [s] is matched by [r]. *)
Fixpoint matches_prefix (r : regex) (s : string) : bool :=
  nullable r ||
  match s with
  | EmptyString => false
  | String c s' => matches_prefix (deriv c r) s'
  end.

(** A regular expression literal: [bol] records a leading [^], [eol] a
    trailing [$]. *)
Record pattern : Type := Pattern { bol : bool; body : regex; eol : bool }.

Definition match_here (p : pattern) (s : string) : bool :=
  if eol p then matches (body p) s else matches_prefix (body p) s.

Fixpoint match_somewhere (p : pattern) (s : string) : bool :=
  match_here p s ||
  match s with
  | EmptyString => false
  | String _ s' => match_somewhere p s'
  end.

(** [pattern.test(s)]. *)
Definition test (p : pattern) (s : string) : bool :=
  if bol p then match_here p s else match_somewhere p s.

(** The characters of [s], one after the other, followed by [r]. *)
Fixpoint chars_then (s : string) (r : regex) : regex :=
  match s with
  | EmptyString => r
  | String c s' => Seq (Chr c) (chars_then s' r)
  end.

End RegExp.

(** ** [ClaudeAdapter.isSupported] *)

(** The two fields of [window.location] the adapter reads. *)
Record Location : Type := { hostname : string; href : string }.

Module SupportedUrl.
Import RegExp.

(** [readonly hostnames = ['claude.ai']]. *)
Definition hostnames : list string := ["claude.ai"].

(** [/^https:\/\/claude\.ai\/chat\/.*/] *)
Definition chat_view : pattern :=
  Pattern true (chars_then "https://claude.ai/chat/" (Star Dot)) false.
(** [/^https:\/\/claude\.ai\/new.*/] *)
Definition new_view : pattern :=
  Pattern true (chars_then "https://claude.ai/new" (Star Dot)) false.
(** [/^https:\/\/claude\.ai\/project\/.*/] *)
Definition project_view : pattern :=
  Pattern true (chars_then "https://claude.ai/project/" (Star Dot)) false.
(** [/^https:\/\/claude\.ai$/] *)
Definition bare_root : pattern :=
  Pattern true (chars_then "https://claude.ai" Eps) true.

Definition supportedPatterns : list pattern :=
  [chat_view; new_view; project_view; bare_root].

Definition isSupported (loc : Location) : bool :=
  let currentHost := hostname loc in
  let currentUrl := href loc in
  let isClaudeHost :=
    existsb (fun h => JsString.includes h currentHost) hostnames in
  if negb isClaudeHost then false
  else existsb (fun p => test p currentUrl) supportedPatterns.

End SupportedUrl.

(** ** The document

    A document is the list of the children of the document node. Elements
    carry the attributes and the properties the sources read or write;
    positions in the tree are paths of child indices. *)

Module Dom.

Record File : Type := { file_name : string; file_type : string; file_size : N }.

Record ElemData : Type := {
  uid : nat;                        (* identity of the node object *)
  localName : string;               (* lower-case element name *)
  attrs : list (string * string);   (* content attributes, in order *)
  value : string;                   (* the value that a form control holds *)
  files : list File;                (* the [files] property of file inputs *)
  selectionStart : nat;             (* caret of a text control *)
  selectionEnd : nat;
  rect_width : N;                   (* getBoundingClientRect().width *)
  rect_height : N                   (* getBoundingClientRect().height *)
}.

#[local] Unset Elimination Schemes.
Inductive Node : Type :=
| Elem (d : ElemData) (kids : list Node)
| Text (data : string).
#[local] Set Elimination Schemes.

Abbreviation Document := (list Node).
Abbreviation Path := (list nat).

(** An element with the given identity, name, attributes and children,
    and default properties. *)
Definition element (u : nat) (name : string) (a : list (string * string))
    (kids : list Node) : Node :=
  Elem {| uid := u; localName := name; attrs := a; value := ""; files := [];
          selectionStart := 0; selectionEnd := 0;
          rect_width := 0; rect_height := 0 |} kids.

Definition is_element (n : Node) : bool :=
  match n with Elem _ _ => true | Text _ => false end.

(** *** Attributes and properties *)

Fixpoint assoc (k : string) (l : list (string * string)) : option string :=
  match l with
  | [] => None
  | (k', v) :: l' => if String.eqb k' k then Some v else assoc k l'
  end.

(** [element.getAttribute(name)]; [None] stands for [null]. *)
Definition getAttribute (d : ElemData) (name : string) : option string :=
  assoc name (attrs d).

Definition attr_is (d : ElemData) (name v : string) : bool :=
  match getAttribute d name with
  | Some x => String.eqb x v
  | None => false
  end.

Definition upper_char (c : ascii) : ascii :=
  let n := nat_of_ascii c in
  if Nat.leb 97 n && Nat.leb n 122 then ascii_of_nat (n - 32) else c.

Fixpoint to_upper (s : string) : string :=
  match s with
  | EmptyString => EmptyString
  | String c s' => String (upper_char c) (to_upper s')
  end.

(** [element.tagName] of an HTML element is its name in upper case. *)
Definition tagName (d : ElemData) : string := to_upper (localName d).

(** [button.disabled] reflects the presence of the [disabled] attribute. *)
Definition disabled (d : ElemData) : bool :=
  match getAttribute d "disabled" with Some _ => true | None => false end.

(** The white-space separated tokens of a [class] attribute. *)
Fixpoint tokens_aux (cur : string) (s : string) : list string :=
  match s with
  | EmptyString =>
      if JsString.truthy cur then [cur] else []
  | String c s' =>
      if JsString.is_white_space c
      then (if JsString.truthy cur then cur :: tokens_aux EmptyString s'
            else tokens_aux EmptyString s')
      else tokens_aux (cur +:+ String c EmptyString) s'
  end.

Definition tokens (s : string) : list string := tokens_aux EmptyString s.

(** [element.classList.contains(c)]. *)
Definition has_class (d : ElemData) (c : string) : bool :=
  match getAttribute d "class" with
  | Some v => existsb (String.eqb c) (tokens v)
  | None => false
  end.

(** [textarea.value]: the value of a text area is read with its line
    breaks normalised, so it holds no carriage return. *)
Definition textarea_value (d : ElemData) : string :=
  JsString.normalize_newlines (value d).

(** The names of the HTML elements whose interface has a [value]
    property (the test ['value' in element]). *)
Definition has_value_property (d : ElemData) : bool :=
  existsb (String.eqb (localName d))
    ["button"; "data"; "input"; "li"; "meter"; "option"; "output";
     "param"; "progress"; "select"; "textarea"].

(** [node.textContent]: the text of all descendant text nodes, in order. *)
Fixpoint textContent (n : Node) : string :=
  match n with
  | Text s => s
  | Elem _ kids =>
      (fix go (l : list Node) : string :=
         match l with
         | [] => EmptyString
         | k :: l' => textContent k +:+ go l'
         end) kids
  end.

(** *** Paths *)

Fixpoint node_at (p : Path) (f : list Node) : option Node :=
  match p with
  | [] => None
  | i :: p' =>
      match f !! i with
      | Some n =>
          match p' with
          | [] => Some n
          | _ => match n with
                 | Elem _ kids => node_at p' kids
                 | Text _ => None
                 end
          end
      | None => None
      end
  end.

Definition elem_at (p : Path) (f : list Node) : option (ElemData * list Node) :=
  match node_at p f with
  | Some (Elem d kids) => Some (d, kids)
  | _ => None
  end.

Definition has_elem_at (p : Path) (f : list Node) : bool :=
  match elem_at p f with Some _ => true | None => false end.

(** Apply [g] to the child list of the node at [p]; the empty path is the
    document node itself. *)
Fixpoint modify_children (p : Path) (g : list Node -> list Node)
    (f : list Node) : list Node :=
  match p with
  | [] => g f
  | i :: p' =>
      match f !! i with
      | Some (Elem d kids) => <[i := Elem d (modify_children p' g kids)]> f
      | _ => f
      end
  end.

(** Apply [g] to the data of the element at [p]. *)
Fixpoint modify_elem (p : Path) (g : ElemData -> ElemData)
    (f : list Node) : list Node :=
  match p with
  | [] => f
  | i :: p' =>
      match f !! i with
      | Some (Elem d kids) =>
          match p' with
          | [] => <[i := Elem (g d) kids]> f
          | _ => <[i := Elem d (modify_elem p' g kids)]> f
          end
      | _ => f
      end
  end.

Definition parent_path (p : Path) : Path := removelast p.

Definition child_index (p : Path) : nat := List.last p 0.

(** [parent.removeChild(node)] for the node at [p]. *)
Definition remove_at (p : Path) (f : list Node) : list Node :=
  match p with
  | [] => f
  | _ => modify_children (parent_path p) (delete (child_index p)) f
  end.

(** [container.appendChild(n)]. *)
Definition append_child (container : Path) (n : Node) (f : list Node) : list Node :=
  modify_children container (fun kids => kids ++ [n]) f.

(** [container.insertBefore(n, child.nextSibling)] for the child at index
    [i] of the container: [n] becomes the child at index [i + 1]. *)
Definition insert_after_child (container : Path) (i : nat) (n : Node)
    (f : list Node) : list Node :=
  modify_children container (fun kids => take (S i) kids ++ n :: drop (S i) kids) f.

(** *** Document order *)

(** What a selector can see of an element: its data, its children and
    whether it is the last element child of its parent. *)
Record Frame : Type := {
  f_data : ElemData;
  f_kids : list Node;
  f_last : bool
}.

(** An element in context: its path and frame, and the frames of its
    ancestors, nearest first. *)
Record Entry : Type := {
  e_path : Path;
  e_frame : Frame;
  e_ancestors : list Frame
}.

(** The elements below and including [n], in document order. [here] is
    the path of [n], [anc] the frames of its ancestors and [lastc] tells
    whether no element follows [n] among its siblings. *)
Fixpoint entries_node (here : Path) (anc : list Frame) (lastc : bool)
    (n : Node) {struct n} : list Entry :=
  match n with
  | Text _ => []
  | Elem d kids =>
      let fr := {| f_data := d; f_kids := kids; f_last := lastc |} in
      {| e_path := here; e_frame := fr; e_ancestors := anc |} ::
      (fix go (i : nat) (l : list Node) {struct l} : list Entry :=
         match l with
         | [] => []
         | k :: l' =>
             entries_node (here ++ [i]) (fr :: anc)
               (negb (existsb is_element l')) k ++ go (S i) l'
         end) 0 kids
  end.

Fixpoint entries_from (here : Path) (anc : list Frame) (i : nat)
    (l : list Node) : list Entry :=
  match l with
  | [] => []
  | k :: l' =>
      entries_node (here ++ [i]) anc (negb (existsb is_element l')) k
        ++ entries_from here anc (S i) l'
  end.

(** All elements of the document, in document order. *)
Definition entries (f : Document) : list Entry := entries_from [] [] 0 f.

(** The elements strictly below a frame, in document order (paths are
    relative to the frame). *)
Definition descendants (fr : Frame) : list Entry :=
  entries_from [] [fr] 0 (f_kids fr).

End Dom.

(** ** CSS selectors

    The fragment of the selector language that occurs in the sources:
    type, attribute, class, [:last-child] and [:has(...)] tests, the
    descendant combinator and comma-separated lists. *)

Module Selector.
Import Dom.

Inductive Atom : Type :=
| Tag (name : string)                 (* [button] *)
| AttrEq (name v : string)            (* [[type="submit"]] *)
| AttrContains (name v : string)      (* [[aria-label*="Send"]] *)
| Class (name : string)               (* [.composer-controls] *)
| LastChild.                          (* [:last-child] *)

(** A compound selector: a conjunction of atoms, and the compound inside
    [:has(...)] when there is one. *)
Record Compound : Type := {
  atoms : list Atom;
  has : option (list Atom)
}.

Definition simple (l : list Atom) : Compound := {| atoms := l; has := None |}.

Inductive Complex : Type :=
| Single (c : Compound)
| Descendant (ancestor : Compound) (c : Compound).   (* [button svg] *)

(** A selector list; an element matches when one member matches. *)
Abbreviation Selector := (list Complex).

Definition atom_matches (a : Atom) (fr : Frame) : bool :=
  let d := f_data fr in
  match a with
  | Tag name => String.eqb (localName d) name
  | AttrEq name v => attr_is d name v
  | AttrContains name v =>
      match getAttribute d name with
      | Some x => JsString.truthy v && JsString.includes v x
      | None => false
      end
  | Class name => has_class d name
  | LastChild => f_last fr
  end.

Definition compound_matches (c : Compound) (fr : Frame) : bool :=
  forallb (fun a => atom_matches a fr) (atoms c) &&
  match has c with
  | None => true
  | Some inner =>
      existsb (fun e => forallb (fun a => atom_matches a (e_frame e)) inner)
        (descendants fr)
  end.

Definition complex_matches (s : Complex) (fr : Frame) (anc : list Frame) : bool :=
  match s with
  | Single c => compound_matches c fr
  | Descendant a c =>
      compound_matches c fr && existsb (compound_matches a) anc
  end.

Definition selects (sel : Selector) (e : Entry) : bool :=
  existsb (fun s => complex_matches s (e_frame e) (e_ancestors e)) sel.

(** [document.querySelector(sel)]: the first match in document order. *)
Definition querySelector (sel : Selector) (f : Document) : option Entry :=
  List.find (selects sel) (entries f).

Fixpoint is_proper_prefix (p q : Path) : bool :=
  match p, q with
  | [], _ :: _ => true
  | i :: p', j :: q' => Nat.eqb i j && is_proper_prefix p' q'
  | _, _ => false
  end.

(** [element.querySelectorAll(sel)] for the element at [scope]: the
    matches strictly below it, in document order. *)
Definition querySelectorAll_in (scope : Path) (sel : Selector)
    (f : Document) : list Entry :=
  List.filter (fun e => is_proper_prefix scope (e_path e) && selects sel e)
    (entries f).

(** [element.querySelector(sel)]. *)
Definition querySelector_in (scope : Path) (sel : Selector)
    (f : Document) : option Entry :=
  head (querySelectorAll_in scope sel f).

Definition path_eqb (p q : Path) : bool :=
  bool_decide (p = q).

(** The entry of the element at path [p]. *)
Definition entry_at (p : Path) (f : Document) : option Entry :=
  List.find (fun e => path_eqb (e_path e) p) (entries f).

(** The element itself and its ancestors, nearest first, as entries. *)
Fixpoint self_and_ancestors (p : Path) (fr : Frame) (anc : list Frame)
    : list Entry :=
  {| e_path := p; e_frame := fr; e_ancestors := anc |} ::
  match anc with
  | [] => []
  | fr' :: anc' => self_and_ancestors (parent_path p) fr' anc'
  end.

(** [element.closest(sel)] for the element at [p]. *)
Definition closest (p : Path) (sel : Selector) (f : Document) : option Entry :=
  match entry_at p f with
  | Some e =>
      List.find (selects sel)
        (self_and_ancestors (e_path e) (e_frame e) (e_ancestors e))
  | None => None
  end.

Definition has_id (id : string) (e : Entry) : bool :=
  attr_is (f_data (e_frame e)) "id" id.

(** [document.getElementById(id)]. *)
Definition getElementById (id : string) (f : Document) : option Entry :=
  List.find (has_id id) (entries f).

(** The number of elements of the document that carry the id. *)
Definition count_id (id : string) (f : Document) : nat :=
  length (List.filter (has_id id) (entries f)).

(** [node.isConnected] for the node object with identity [u]. *)
Definition isConnected (u : nat) (f : Document) : bool :=
  existsb (fun e => Nat.eqb (uid (f_data (e_frame e))) u) (entries f).

End Selector.

(** ** Effects

    The operations run in a state monad with exceptions over a [World]:
    the document, the logs of what was dispatched, commanded and emitted,
    the callbacks the event loop still has to run, the adapter instance,
    and an oracle telling which DOM API calls raise. *)

Module Effects.
Import Dom Selector.

Inductive DomEvent : Type :=
| InputEvent                                   (* [new InputEvent('input')] *)
| ChangeEvent                                  (* [new Event('change')] *)
| ClickEvent                                   (* [button.click()] *)
| SubmitEvent                                  (* [new SubmitEvent('submit')] *)
| KeyboardEvent (type : string)                (* key [Enter] *)
| DragEvent (type : string) (payload : list File).

(** Events on the plugin host's event bus. The call id and the time
    stamp of the payloads are left out. *)
Inductive BusEvent : Type :=
| ExecutionCompleted (toolName : string) (detail : string)
| ExecutionFailed (toolName : string) (error : string)
| AdapterActivated (pluginName : string)
| AdapterDeactivated (pluginName : string)
| SiteChanged (site : string) (host : string).

(** The states of an adapter (field [currentStatus] of the base class). *)
Inductive Status : Type :=
| Uninitialized | Initializing | Active | Inactive | Disabled.

(** The private fields of [ClaudeAdapter]. A node object is held by its
    identity, a timer by its handle. *)
Record Adapter : Type := {
  currentStatus : Status;                         (* field of the base class *)
  lastUrl : string;
  urlCheckInterval : option nat;                  (* timer handle *)
  mcpPopoverContainer : option nat;               (* identity of the container node *)
  mcpPopoverRoot : option nat;                    (* render root, by the container it renders into *)
  mutationObserver : option bool;                 (* an observer; [true] once it observes the body *)
  popoverCheckInterval : option nat;              (* timer handle *)
  storeEventListenersSetup : bool;
  domObserversSetup : bool;
  uiIntegrationSetup : bool;
  claudeStylesInjected : bool
}.

(** A callback that the event loop still has to run: the callbacks given
    to [setInterval] and [setTimeout], with the variables they close
    over, and the reaction to the dynamic imports of
    [renderMCPPopover]. *)
Inductive Task : Type :=
| SubmitPoll (promise : nat) (chatInput : Path)
    (elapsedTime maxWaitTime : Z)              (* [setInterval(..., 200)] *)
| UrlCheck                                     (* [setInterval(..., 1000)] *)
| CheckReady (attempts : nat)                  (* [setTimeout(checkReady, 100 or 500)] *)
| AttemptInjection (attempt maxRetries : nat)  (* [setTimeout(..., 1000)] *)
| DelayedSetupUIIntegration                    (* [setTimeout(..., 1000)] *)
| DelayedCheckAndRestoreSidebar                (* [setTimeout(..., 1500)] *)
| RenderImported (container : nat).            (* [import(...).then(...)] *)

Definition is_interval (t : Task) : bool :=
  match t with
  | SubmitPoll _ _ _ _ | UrlCheck => true
  | _ => false
  end.

Definition is_timer (t : Task) : bool :=
  match t with
  | RenderImported _ => false
  | _ => true
  end.

Record World : Type := {
  document : Document;                            (* the tree of the page *)
  next_uid : nat;                                 (* identity of the next node created *)
  location : Location;                            (* [window.location] *)
  focused : option Path;                          (* [document.activeElement] *)
  caret : option Path;                            (* selection collapsed at the end of this element *)
  dispatched : list (Path * DomEvent);            (* DOM events dispatched, oldest first *)
  commands : list (string * string);              (* [execCommand(name, false, arg)], oldest first *)
  bus : list BusEvent;                            (* events emitted on the bus, oldest first *)
  bus_handlers : nat;                             (* handlers registered with [eventBus.on] *)
  calls : nat;                                    (* DOM API calls made so far *)
  fault_at : nat -> option string;                (* the call with this index raises *)
  lastFoundInputElement : option Path;            (* variable of the chat input handler *)
  pending : gmap nat Task;                        (* callbacks the event loop still has to run *)
  next_handle : nat;                              (* the next timer handle or promise id *)
  resolved : gmap nat (list bool);                (* per promise, the arguments [resolve] was called with *)
  activeSidebarManager : bool;                    (* [window.activeSidebarManager] is set *)
  adapter : Adapter                               (* the fields of the adapter instance *)
}.

Definition with_currentStatus (f : Status -> Status) (a : Adapter) : Adapter :=
  {| currentStatus := f (currentStatus a); lastUrl := lastUrl a;
     urlCheckInterval := urlCheckInterval a;
     mcpPopoverContainer := mcpPopoverContainer a;
     mcpPopoverRoot := mcpPopoverRoot a;
     mutationObserver := mutationObserver a;
     popoverCheckInterval := popoverCheckInterval a;
     storeEventListenersSetup := storeEventListenersSetup a;
     domObserversSetup := domObserversSetup a;
     uiIntegrationSetup := uiIntegrationSetup a;
     claudeStylesInjected := claudeStylesInjected a |}.

Definition with_lastUrl (f : string -> string) (a : Adapter) : Adapter :=
  {| currentStatus := currentStatus a; lastUrl := f (lastUrl a);
     urlCheckInterval := urlCheckInterval a;
     mcpPopoverContainer := mcpPopoverContainer a;
     mcpPopoverRoot := mcpPopoverRoot a;
     mutationObserver := mutationObserver a;
     popoverCheckInterval := popoverCheckInterval a;
     storeEventListenersSetup := storeEventListenersSetup a;
     domObserversSetup := domObserversSetup a;
     uiIntegrationSetup := uiIntegrationSetup a;
     claudeStylesInjected := claudeStylesInjected a |}.

Definition with_urlCheckInterval (f : (option nat) -> (option nat)) (a : Adapter) : Adapter :=
  {| currentStatus := currentStatus a; lastUrl := lastUrl a;
     urlCheckInterval := f (urlCheckInterval a);
     mcpPopoverContainer := mcpPopoverContainer a;
     mcpPopoverRoot := mcpPopoverRoot a;
     mutationObserver := mutationObserver a;
     popoverCheckInterval := popoverCheckInterval a;
     storeEventListenersSetup := storeEventListenersSetup a;
     domObserversSetup := domObserversSetup a;
     uiIntegrationSetup := uiIntegrationSetup a;
     claudeStylesInjected := claudeStylesInjected a |}.

Definition with_mcpPopoverContainer (f : (option nat) -> (option nat)) (a : Adapter) : Adapter :=
  {| currentStatus := currentStatus a; lastUrl := lastUrl a;
     urlCheckInterval := urlCheckInterval a;
     mcpPopoverContainer := f (mcpPopoverContainer a);
     mcpPopoverRoot := mcpPopoverRoot a;
     mutationObserver := mutationObserver a;
     popoverCheckInterval := popoverCheckInterval a;
     storeEventListenersSetup := storeEventListenersSetup a;
     domObserversSetup := domObserversSetup a;
     uiIntegrationSetup := uiIntegrationSetup a;
     claudeStylesInjected := claudeStylesInjected a |}.

Definition with_mcpPopoverRoot (f : (option nat) -> (option nat)) (a : Adapter) : Adapter :=
  {| currentStatus := currentStatus a; lastUrl := lastUrl a;
     urlCheckInterval := urlCheckInterval a;
     mcpPopoverContainer := mcpPopoverContainer a;
     mcpPopoverRoot := f (mcpPopoverRoot a);
     mutationObserver := mutationObserver a;
     popoverCheckInterval := popoverCheckInterval a;
     storeEventListenersSetup := storeEventListenersSetup a;
     domObserversSetup := domObserversSetup a;
     uiIntegrationSetup := uiIntegrationSetup a;
     claudeStylesInjected := claudeStylesInjected a |}.

Definition with_mutationObserver (f : (option bool) -> (option bool)) (a : Adapter) : Adapter :=
  {| currentStatus := currentStatus a; lastUrl := lastUrl a;
     urlCheckInterval := urlCheckInterval a;
     mcpPopoverContainer := mcpPopoverContainer a;
     mcpPopoverRoot := mcpPopoverRoot a;
     mutationObserver := f (mutationObserver a);
     popoverCheckInterval := popoverCheckInterval a;
     storeEventListenersSetup := storeEventListenersSetup a;
     domObserversSetup := domObserversSetup a;
     uiIntegrationSetup := uiIntegrationSetup a;
     claudeStylesInjected := claudeStylesInjected a |}.

Definition with_popoverCheckInterval (f : (option nat) -> (option nat)) (a : Adapter) : Adapter :=
  {| currentStatus := currentStatus a; lastUrl := lastUrl a;
     urlCheckInterval := urlCheckInterval a;
     mcpPopoverContainer := mcpPopoverContainer a;
     mcpPopoverRoot := mcpPopoverRoot a;
     mutationObserver := mutationObserver a;
     popoverCheckInterval := f (popoverCheckInterval a);
     storeEventListenersSetup := storeEventListenersSetup a;
     domObserversSetup := domObserversSetup a;
     uiIntegrationSetup := uiIntegrationSetup a;
     claudeStylesInjected := claudeStylesInjected a |}.

Definition with_storeEventListenersSetup (f : bool -> bool) (a : Adapter) : Adapter :=
  {| currentStatus := currentStatus a; lastUrl := lastUrl a;
     urlCheckInterval := urlCheckInterval a;
     mcpPopoverContainer := mcpPopoverContainer a;
     mcpPopoverRoot := mcpPopoverRoot a;
     mutationObserver := mutationObserver a;
     popoverCheckInterval := popoverCheckInterval a;
     storeEventListenersSetup := f (storeEventListenersSetup a);
     domObserversSetup := domObserversSetup a;
     uiIntegrationSetup := uiIntegrationSetup a;
     claudeStylesInjected := claudeStylesInjected a |}.

Definition with_domObserversSetup (f : bool -> bool) (a : Adapter) : Adapter :=
  {| currentStatus := currentStatus a; lastUrl := lastUrl a;
     urlCheckInterval := urlCheckInterval a;
     mcpPopoverContainer := mcpPopoverContainer a;
     mcpPopoverRoot := mcpPopoverRoot a;
     mutationObserver := mutationObserver a;
     popoverCheckInterval := popoverCheckInterval a;
     storeEventListenersSetup := storeEventListenersSetup a;
     domObserversSetup := f (domObserversSetup a);
     uiIntegrationSetup := uiIntegrationSetup a;
     claudeStylesInjected := claudeStylesInjected a |}.

Definition with_uiIntegrationSetup (f : bool -> bool) (a : Adapter) : Adapter :=
  {| currentStatus := currentStatus a; lastUrl := lastUrl a;
     urlCheckInterval := urlCheckInterval a;
     mcpPopoverContainer := mcpPopoverContainer a;
     mcpPopoverRoot := mcpPopoverRoot a;
     mutationObserver := mutationObserver a;
     popoverCheckInterval := popoverCheckInterval a;
     storeEventListenersSetup := storeEventListenersSetup a;
     domObserversSetup := domObserversSetup a;
     uiIntegrationSetup := f (uiIntegrationSetup a);
     claudeStylesInjected := claudeStylesInjected a |}.

Definition with_claudeStylesInjected (f : bool -> bool) (a : Adapter) : Adapter :=
  {| currentStatus := currentStatus a; lastUrl := lastUrl a;
     urlCheckInterval := urlCheckInterval a;
     mcpPopoverContainer := mcpPopoverContainer a;
     mcpPopoverRoot := mcpPopoverRoot a;
     mutationObserver := mutationObserver a;
     popoverCheckInterval := popoverCheckInterval a;
     storeEventListenersSetup := storeEventListenersSetup a;
     domObserversSetup := domObserversSetup a;
     uiIntegrationSetup := uiIntegrationSetup a;
     claudeStylesInjected := f (claudeStylesInjected a) |}.

Definition upd_document (f : Document -> Document) (w : World) : World :=
  {| document := f (document w); next_uid := next_uid w;
     location := location w; focused := focused w; caret := caret w;
     dispatched := dispatched w; commands := commands w; bus := bus w;
     bus_handlers := bus_handlers w; calls := calls w;
     fault_at := fault_at w;
     lastFoundInputElement := lastFoundInputElement w;
     pending := pending w; next_handle := next_handle w;
     resolved := resolved w;
     activeSidebarManager := activeSidebarManager w;
     adapter := adapter w |}.

Definition upd_next_uid (f : nat -> nat) (w : World) : World :=
  {| document := document w; next_uid := f (next_uid w);
     location := location w; focused := focused w; caret := caret w;
     dispatched := dispatched w; commands := commands w; bus := bus w;
     bus_handlers := bus_handlers w; calls := calls w;
     fault_at := fault_at w;
     lastFoundInputElement := lastFoundInputElement w;
     pending := pending w; next_handle := next_handle w;
     resolved := resolved w;
     activeSidebarManager := activeSidebarManager w;
     adapter := adapter w |}.

Definition upd_location (f : Location -> Location) (w : World) : World :=
  {| document := document w; next_uid := next_uid w;
     location := f (location w); focused := focused w; caret := caret w;
     dispatched := dispatched w; commands := commands w; bus := bus w;
     bus_handlers := bus_handlers w; calls := calls w;
     fault_at := fault_at w;
     lastFoundInputElement := lastFoundInputElement w;
     pending := pending w; next_handle := next_handle w;
     resolved := resolved w;
     activeSidebarManager := activeSidebarManager w;
     adapter := adapter w |}.

Definition upd_focused (f : (option Path) -> (option Path)) (w : World) : World :=
  {| document := document w; next_uid := next_uid w;
     location := location w; focused := f (focused w); caret := caret w;
     dispatched := dispatched w; commands := commands w; bus := bus w;
     bus_handlers := bus_handlers w; calls := calls w;
     fault_at := fault_at w;
     lastFoundInputElement := lastFoundInputElement w;
     pending := pending w; next_handle := next_handle w;
     resolved := resolved w;
     activeSidebarManager := activeSidebarManager w;
     adapter := adapter w |}.

Definition upd_caret (f : (option Path) -> (option Path)) (w : World) : World :=
  {| document := document w; next_uid := next_uid w;
     location := location w; focused := focused w; caret := f (caret w);
     dispatched := dispatched w; commands := commands w; bus := bus w;
     bus_handlers := bus_handlers w; calls := calls w;
     fault_at := fault_at w;
     lastFoundInputElement := lastFoundInputElement w;
     pending := pending w; next_handle := next_handle w;
     resolved := resolved w;
     activeSidebarManager := activeSidebarManager w;
     adapter := adapter w |}.

Definition upd_dispatched (f : (list (Path * DomEvent)) -> (list (Path * DomEvent))) (w : World) : World :=
  {| document := document w; next_uid := next_uid w;
     location := location w; focused := focused w; caret := caret w;
     dispatched := f (dispatched w); commands := commands w;
     bus := bus w; bus_handlers := bus_handlers w; calls := calls w;
     fault_at := fault_at w;
     lastFoundInputElement := lastFoundInputElement w;
     pending := pending w; next_handle := next_handle w;
     resolved := resolved w;
     activeSidebarManager := activeSidebarManager w;
     adapter := adapter w |}.

Definition upd_commands (f : (list (string * string)) -> (list (string * string))) (w : World) : World :=
  {| document := document w; next_uid := next_uid w;
     location := location w; focused := focused w; caret := caret w;
     dispatched := dispatched w; commands := f (commands w);
     bus := bus w; bus_handlers := bus_handlers w; calls := calls w;
     fault_at := fault_at w;
     lastFoundInputElement := lastFoundInputElement w;
     pending := pending w; next_handle := next_handle w;
     resolved := resolved w;
     activeSidebarManager := activeSidebarManager w;
     adapter := adapter w |}.

Definition upd_bus (f : (list BusEvent) -> (list BusEvent)) (w : World) : World :=
  {| document := document w; next_uid := next_uid w;
     location := location w; focused := focused w; caret := caret w;
     dispatched := dispatched w; commands := commands w;
     bus := f (bus w); bus_handlers := bus_handlers w; calls := calls w;
     fault_at := fault_at w;
     lastFoundInputElement := lastFoundInputElement w;
     pending := pending w; next_handle := next_handle w;
     resolved := resolved w;
     activeSidebarManager := activeSidebarManager w;
     adapter := adapter w |}.

Definition upd_bus_handlers (f : nat -> nat) (w : World) : World :=
  {| document := document w; next_uid := next_uid w;
     location := location w; focused := focused w; caret := caret w;
     dispatched := dispatched w; commands := commands w; bus := bus w;
     bus_handlers := f (bus_handlers w); calls := calls w;
     fault_at := fault_at w;
     lastFoundInputElement := lastFoundInputElement w;
     pending := pending w; next_handle := next_handle w;
     resolved := resolved w;
     activeSidebarManager := activeSidebarManager w;
     adapter := adapter w |}.

Definition upd_calls (f : nat -> nat) (w : World) : World :=
  {| document := document w; next_uid := next_uid w;
     location := location w; focused := focused w; caret := caret w;
     dispatched := dispatched w; commands := commands w; bus := bus w;
     bus_handlers := bus_handlers w; calls := f (calls w);
     fault_at := fault_at w;
     lastFoundInputElement := lastFoundInputElement w;
     pending := pending w; next_handle := next_handle w;
     resolved := resolved w;
     activeSidebarManager := activeSidebarManager w;
     adapter := adapter w |}.

Definition upd_fault_at (f : (nat -> option string) -> (nat -> option string)) (w : World) : World :=
  {| document := document w; next_uid := next_uid w;
     location := location w; focused := focused w; caret := caret w;
     dispatched := dispatched w; commands := commands w; bus := bus w;
     bus_handlers := bus_handlers w; calls := calls w;
     fault_at := f (fault_at w);
     lastFoundInputElement := lastFoundInputElement w;
     pending := pending w; next_handle := next_handle w;
     resolved := resolved w;
     activeSidebarManager := activeSidebarManager w;
     adapter := adapter w |}.

Definition upd_lastFoundInputElement (f : (option Path) -> (option Path)) (w : World) : World :=
  {| document := document w; next_uid := next_uid w;
     location := location w; focused := focused w; caret := caret w;
     dispatched := dispatched w; commands := commands w; bus := bus w;
     bus_handlers := bus_handlers w; calls := calls w;
     fault_at := fault_at w;
     lastFoundInputElement := f (lastFoundInputElement w);
     pending := pending w; next_handle := next_handle w;
     resolved := resolved w;
     activeSidebarManager := activeSidebarManager w;
     adapter := adapter w |}.

Definition upd_pending (f : (gmap nat Task) -> (gmap nat Task)) (w : World) : World :=
  {| document := document w; next_uid := next_uid w;
     location := location w; focused := focused w; caret := caret w;
     dispatched := dispatched w; commands := commands w; bus := bus w;
     bus_handlers := bus_handlers w; calls := calls w;
     fault_at := fault_at w;
     lastFoundInputElement := lastFoundInputElement w;
     pending := f (pending w); next_handle := next_handle w;
     resolved := resolved w;
     activeSidebarManager := activeSidebarManager w;
     adapter := adapter w |}.

Definition upd_next_handle (f : nat -> nat) (w : World) : World :=
  {| document := document w; next_uid := next_uid w;
     location := location w; focused := focused w; caret := caret w;
     dispatched := dispatched w; commands := commands w; bus := bus w;
     bus_handlers := bus_handlers w; calls := calls w;
     fault_at := fault_at w;
     lastFoundInputElement := lastFoundInputElement w;
     pending := pending w; next_handle := f (next_handle w);
     resolved := resolved w;
     activeSidebarManager := activeSidebarManager w;
     adapter := adapter w |}.

Definition upd_resolved (f : (gmap nat (list bool)) -> (gmap nat (list bool))) (w : World) : World :=
  {| document := document w; next_uid := next_uid w;
     location := location w; focused := focused w; caret := caret w;
     dispatched := dispatched w; commands := commands w; bus := bus w;
     bus_handlers := bus_handlers w; calls := calls w;
     fault_at := fault_at w;
     lastFoundInputElement := lastFoundInputElement w;
     pending := pending w; next_handle := next_handle w;
     resolved := f (resolved w);
     activeSidebarManager := activeSidebarManager w;
     adapter := adapter w |}.

Definition upd_activeSidebarManager (f : bool -> bool) (w : World) : World :=
  {| document := document w; next_uid := next_uid w;
     location := location w; focused := focused w; caret := caret w;
     dispatched := dispatched w; commands := commands w; bus := bus w;
     bus_handlers := bus_handlers w; calls := calls w;
     fault_at := fault_at w;
     lastFoundInputElement := lastFoundInputElement w;
     pending := pending w; next_handle := next_handle w;
     resolved := resolved w;
     activeSidebarManager := f (activeSidebarManager w);
     adapter := adapter w |}.

Definition upd_adapter (f : Adapter -> Adapter) (w : World) : World :=
  {| document := document w; next_uid := next_uid w;
     location := location w; focused := focused w; caret := caret w;
     dispatched := dispatched w; commands := commands w; bus := bus w;
     bus_handlers := bus_handlers w; calls := calls w;
     fault_at := fault_at w;
     lastFoundInputElement := lastFoundInputElement w;
     pending := pending w; next_handle := next_handle w;
     resolved := resolved w;
     activeSidebarManager := activeSidebarManager w;
     adapter := f (adapter w) |}.

(** *** The monad *)

Inductive Res (A : Type) : Type :=
| Ok (a : A)
| Throw (msg : string).
Arguments Ok {A} a.
Arguments Throw {A} msg.

Definition M (A : Type) : Type := World -> Res A * World.

Definition ret {A} (a : A) : M A := fun w => (Ok a, w).

Definition bind {A B} (m : M A) (k : A -> M B) : M B :=
  fun w =>
    match m w with
    | (Ok a, w') => k a w'
    | (Throw msg, w') => (Throw msg, w')
    end.

Definition throw {A} (msg : string) : M A := fun w => (Throw msg, w).

#[export] Instance M_ret : MRet M := @ret.
#[export] Instance M_bind : MBind M := fun A B k m => bind m k.

(** [try { body } catch (error) { handler(errorMessage) }]. *)
Definition try_catch {A} (body : M A) (handler : string -> M A) : M A :=
  fun w =>
    match body w with
    | (Ok a, w') => (Ok a, w')
    | (Throw msg, w') => handler msg w'
    end.

(** A call of a DOM API: it raises when the oracle says so, and has its
    effect otherwise. *)
Definition dom_call {A} (f : World -> A * World) : M A :=
  fun w =>
    let w1 := upd_calls S w in
    match fault_at w (calls w) with
    | Some msg => (Throw msg, w1)
    | None => let '(a, w2) := f w1 in (Ok a, w2)
    end.

(** A call of a DOM API made for its effect. *)
Definition dom_do (f : World -> World) : M unit :=
  dom_call (fun w => (tt, f w)).

(** A call of a DOM API made for its result. *)
Definition dom_get {A} (f : World -> A) : M A :=
  dom_call (fun w => (f w, w)).

(** A read of the state that is no API call (a property or field read). *)
Definition read {A} (f : World -> A) : M A := fun w => (Ok (f w), w).

(** A change of the state that is no DOM API call: a field assignment, a
    call of the plugin host, a timer function. *)
Definition modify (f : World -> World) : M unit := fun w => (Ok tt, f w).

(** The state after running [m]. *)
Definition exec {A} (m : M A) (w : World) : World := snd (m w).

(** No DOM API call raises. *)
Definition faultless (w : World) : Prop := forall n, fault_at w n = None.

(** *** Timers and promises *)

(** [setInterval(task, ms)] and [setTimeout(task, ms)]: the callback is
    registered under a fresh handle. *)
Definition setTimer (t : Task) : M nat :=
  fun w =>
    let h := next_handle w in
    (Ok h, upd_next_handle S (upd_pending (fun m => <[h := t]> m) w)).

(** [clearInterval(h)] and [clearTimeout(h)]. *)
Definition clearTimer (h : nat) : M unit :=
  modify (upd_pending (fun m => delete h m)).

(** [new Promise(...)]: a fresh promise, on which [resolve] was not yet
    called. *)
Definition newPromise : M nat :=
  fun w =>
    let h := next_handle w in
    (Ok h, upd_next_handle S (upd_resolved (fun m => <[h := []]> m) w)).

(** A call [resolve(b)] of the resolving function of promise [p]. *)
Definition resolve (p : nat) (b : bool) : M unit :=
  modify (upd_resolved (fun m => <[p := default [] (m !! p) ++ [b]]> m)).

(** The settled value of promise [p]: the argument of the first call of
    [resolve]; [None] while the promise is pending. *)
Definition settled (p : nat) (w : World) : option bool :=
  head (default [] (resolved w !! p)).

End Effects.

(** ** DOM API calls

    Every call of a method, a constructor or a property setter of the DOM
    goes through [dom_call] and so may raise; plain property reads do
    not. Elements are passed around as their paths. *)

Module DomApi.
Import Dom Selector Effects.

(** [document.querySelector(sel)]; the element is returned as its path. *)
Definition query (sel : Selector) : M (option Path) :=
  dom_get (fun w => e_path <$> querySelector sel (document w)).

Definition focus (p : Path) : M unit := dom_do (upd_focused (fun _ => Some p)).

Definition dispatchEvent (p : Path) (e : DomEvent) : M unit :=
  dom_do (upd_dispatched (fun l => l ++ [(p, e)])).

(** [element.value = v]. A text area keeps the value with its line
    breaks normalised (CR LF and CR become LF), and this is what
    [textarea.value] reads back. For another element the string is
    recorded as it is assigned; what an [input] element makes of it
    depends on its type and is not modelled. *)
Definition set_value (p : Path) (v : string) : M unit :=
  dom_do (upd_document (modify_elem p (fun d =>
    {| uid := uid d; localName := localName d; attrs := attrs d;
       value := (if String.eqb (tagName d) "TEXTAREA"
                 then JsString.normalize_newlines v else v);
       files := files d;
       selectionStart := selectionStart d; selectionEnd := selectionEnd d;
       rect_width := rect_width d; rect_height := rect_height d |}))).

Definition set_selectionEnd (p : Path) (n : nat) : M unit :=
  dom_do (upd_document (modify_elem p (fun d =>
    {| uid := uid d; localName := localName d; attrs := attrs d;
       value := value d; files := files d;
       selectionStart := selectionStart d; selectionEnd := n;
       rect_width := rect_width d; rect_height := rect_height d |}))).

Definition set_selectionStart (p : Path) (n : nat) : M unit :=
  dom_do (upd_document (modify_elem p (fun d =>
    {| uid := uid d; localName := localName d; attrs := attrs d;
       value := value d; files := files d;
       selectionStart := n; selectionEnd := selectionEnd d;
       rect_width := rect_width d; rect_height := rect_height d |}))).

Definition set_files (p : Path) (l : list File) : M unit :=
  dom_do (upd_document (modify_elem p (fun d =>
    {| uid := uid d; localName := localName d; attrs := attrs d;
       value := value d; files := l;
       selectionStart := selectionStart d; selectionEnd := selectionEnd d;
       rect_width := rect_width d; rect_height := rect_height d |}))).

(** [element.textContent = s]: the children are replaced by one text
    node, or by none when [s] is empty. *)
Definition set_textContent (p : Path) (s : string) : M unit :=
  dom_do (upd_document (modify_children p (fun _ =>
    if JsString.truthy s then [Text s] else []))).

(** [document.execCommand(name, false, arg)]. The change the editing
    engine makes to the tree is the browser's; the command is recorded. *)
Definition execCommand (cmd arg : string) : M unit :=
  dom_do (upd_commands (fun l => l ++ [(cmd, arg)])).

(** [selection = window.getSelection(); range = document.createRange();
    range.selectNodeContents(p); range.collapse(false);
    selection.removeAllRanges(); selection.addRange(range)]. *)
Definition move_caret_to_end (p : Path) : M unit :=
  dom_do id ;; dom_do id ;; dom_do id ;; dom_do id ;;
  dom_do (upd_caret (fun _ => None)) ;;
  dom_do (upd_caret (fun _ => Some p)).

(** The data and the children of the element at [p]; reading a property
    is no API call. A path that designates no element reads as an
    element without name or content. *)
Definition no_data : ElemData :=
  {| uid := 0; localName := ""; attrs := []; value := ""; files := [];
     selectionStart := 0; selectionEnd := 0;
     rect_width := 0; rect_height := 0 |}.

Definition data_at (p : Path) (w : World) : ElemData :=
  match elem_at p (document w) with
  | Some (d, _) => d
  | None => no_data
  end.

Definition kids_at (p : Path) (w : World) : list Node :=
  match elem_at p (document w) with
  | Some (_, kids) => kids
  | None => []
  end.

Definition textContent_at (p : Path) (w : World) : string :=
  match node_at p (document w) with
  | Some n => textContent n
  | None => ""
  end.

(** [button.click()]: a click event is dispatched at the button. *)
Definition click (p : Path) : M unit := dispatchEvent p ClickEvent.

(** [element.closest(sel)]. *)
Definition closest_of (p : Path) (sel : Selector) : M (option Path) :=
  dom_get (fun w => e_path <$> closest p sel (document w)).

(** [element.querySelector(sel)]. *)
Definition query_in (scope : Path) (sel : Selector) : M (option Path) :=
  dom_get (fun w => e_path <$> querySelector_in scope sel (document w)).

(** [document.getElementById(id)]. *)
Definition byId (id : string) : M (option Path) :=
  dom_get (fun w => e_path <$> getElementById id (document w)).

(** A constructor call such as [new DragEvent(...)]. *)
Definition construct : M unit := dom_do id.

End DomApi.

(** ** The operations of [ClaudeAdapter] on the chat input *)

Module ClaudeAdapter.
Import Dom Selector Effects DomApi.

(** [readonly name = 'ClaudeAdapter']. *)
Definition name : string := "ClaudeAdapter".

(** The table [selectors]. A selector text that the source splits with
    [split(', ')] is given as the list of its pieces. *)
Module selectors.
Definition contenteditable_true : Atom := AttrEq "contenteditable" "true".

Definition CHAT_INPUT : list Selector :=
  [ [Single (simple [Tag "div"; contenteditable_true;
                     AttrEq "data-testid" "composer-input"])];
    [Single (simple [Tag "div"; contenteditable_true])];
    [Single (simple [Tag "textarea"; AttrContains "placeholder" "Reply"])];
    [Single (simple [Tag "textarea"; AttrContains "placeholder" "Talk"])] ].

Definition SUBMIT_BUTTON : list Selector :=
  [ [Single (simple [Tag "button"; AttrContains "aria-label" "Send"])];
    [Single (simple [Tag "button"; AttrEq "type" "submit"])];
    [Single {| atoms := [Tag "button"];
               has := Some [Tag "svg"; AttrEq "viewBox" "0 0 16 16"] |}] ].

Definition FILE_INPUT : Selector :=
  [Single (simple [Tag "input"; AttrEq "type" "file"])].

Definition DROP_ZONE : list Selector :=
  [ [Single (simple [AttrEq "data-testid" "composer-input"])];
    [Single (simple [Class "composer-container"])];
    [Single (simple [Class "input-container"])] ].
End selectors.

(** *** Events on the bus *)

Definition emitExecutionCompleted (toolName detail : string) : M unit :=
  modify (upd_bus (fun l => l ++ [ExecutionCompleted toolName detail])).

Definition emitExecutionFailed (toolName error : string) : M unit :=
  modify (upd_bus (fun l => l ++ [ExecutionFailed toolName error])).

(** *** [insertText] *)

(** [for (const selector of selectors) { element =
    document.querySelector(selector.trim()); if (element) break; }] *)
Fixpoint first_match (sels : list Selector) : M (option Path) :=
  match sels with
  | [] => ret None
  | sel :: rest =>
      r ← query sel;
      match r with
      | Some p => ret (Some p)
      | None => first_match rest
      end
  end.

(** The element lookup that precedes the [try] block of [insertText].
    [target] is [options?.targetElement]; a path that designates no
    element of the document stands for an absent option. *)
Definition locate_chat_input (target : option Path) : M (option Path) :=
  w ← read id;
  match target with
  | Some p =>
      if has_elem_at p (document w) then ret (Some p)
      else first_match selectors.CHAT_INPUT
  | None => first_match selectors.CHAT_INPUT
  end.

(** [currentText ? currentText + '\n\n' + text : text]. *)
Definition appended (currentText text : string) : string :=
  if JsString.truthy currentText
  then currentText +:+ JsString.separator +:+ text
  else text.

(** [currentText && currentText.trim() !== '']. *)
Definition not_blank (currentText : string) : bool :=
  JsString.truthy currentText &&
  negb (String.eqb (JsString.trim currentText) "").

(** The body of the [try] block of [insertText]. *)
Definition insertText_body (text : string) (p : Path) : M bool :=
  focus p ;;
  d ← read (data_at p);
  (if String.eqb (tagName d) "TEXTAREA" then
     let currentText := textarea_value d in
     let newContent := appended currentText text in
     set_value p newContent ;;
     textarea ← read (data_at p);
     let len := String.length (textarea_value textarea) in
     set_selectionEnd p len ;;
     set_selectionStart p len ;;
     construct ;; dispatchEvent p InputEvent ;;
     construct ;; dispatchEvent p ChangeEvent
   else if attr_is d "contenteditable" "true" then
     currentText ← read (textContent_at p);
     move_caret_to_end p ;;
     (if not_blank currentText
      then execCommand "insertText" JsString.separator
      else ret tt) ;;
     execCommand "insertText" text ;;
     construct ;; dispatchEvent p InputEvent ;;
     construct ;; dispatchEvent p ChangeEvent
   else ret tt) ;;
  emitExecutionCompleted "insertText" (tagName d) ;;
  ret true.

Definition insertText (text : string) (target : option Path) : M bool :=
  targetElement ← locate_chat_input target;
  match targetElement with
  | None =>
      emitExecutionFailed "insertText" "Chat input element not found" ;;
      ret false
  | Some p =>
      try_catch (insertText_body text p)
        (fun errorMessage =>
           emitExecutionFailed "insertText" errorMessage ;; ret false)
  end.

(** *** [submitForm] *)

(** [selectors.find(s => document.querySelector(s.trim()) === button)]. *)
Fixpoint find_selector (sels : list Selector) (button : Path) : M unit :=
  match sels with
  | [] => ret tt
  | sel :: rest =>
      r ← query sel;
      if bool_decide (r = Some button) then ret tt
      else find_selector rest button
  end.

Definition submitForm_body (p : Path) : M bool :=
  d ← read (data_at p);
  if disabled d then
    emitExecutionFailed "submitForm" "Submit button is disabled" ;;
    ret false
  else
    rect ← dom_get (fun w => (rect_width (data_at p w), rect_height (data_at p w)));
    if (N.eqb (fst rect) 0 || N.eqb (snd rect) 0)%bool then
      emitExecutionFailed "submitForm" "Submit button is not visible" ;;
      ret false
    else
      dispatchEvent p ClickEvent ;;
      find_selector selectors.SUBMIT_BUTTON p ;;
      emitExecutionCompleted "submitForm" "submitButton.click" ;;
      ret true.

Definition submitForm : M bool :=
  submitButton ← first_match selectors.SUBMIT_BUTTON;
  match submitButton with
  | None =>
      emitExecutionFailed "submitForm" "Submit button not found" ;;
      ret false
  | Some p =>
      try_catch (submitForm_body p)
        (fun errorMessage =>
           emitExecutionFailed "submitForm" errorMessage ;; ret false)
  end.

(** *** [attachFile] *)

Fixpoint any_match (sels : list Selector) : M bool :=
  match sels with
  | [] => ret false
  | sel :: rest =>
      r ← query sel;
      match r with
      | Some _ => ret true
      | None => any_match rest
      end
  end.

Definition supportsFileUpload : M bool :=
  dropZone ← any_match selectors.DROP_ZONE;
  if (dropZone : bool) then ret true
  else
    fileInput ← query selectors.FILE_INPUT;
    match fileInput with
    | Some _ => ret true
    | None => ret false
    end.

(** [new DataTransfer(); dataTransfer.items.add(file)]. *)
Definition new_DataTransfer (file : File) : M (list File) :=
  dom_do id ;; dom_do id ;; ret [file].

Definition simulateFileDrop (file : File) : M bool :=
  try_catch
    (dropZone ← first_match selectors.DROP_ZONE;
     match dropZone with
     | None => ret false
     | Some z =>
         dataTransfer ← new_DataTransfer file;
         construct ;; construct ;; construct ;;   (* the three [new DragEvent] *)
         dispatchEvent z (DragEvent "dragenter" dataTransfer) ;;
         dispatchEvent z (DragEvent "dragover" dataTransfer) ;;
         dispatchEvent z (DragEvent "drop" dataTransfer) ;;
         ret true
     end)
    (fun _ => ret false).

(** The body of the [try] block of [attachFile]. [inputElement] is
    [options?.inputElement]. *)
Definition attachFile_body (file : File) (inputElement : option Path) : M bool :=
  if N.eqb (file_size file) 0 then
    emitExecutionFailed "attachFile" "Invalid file: file is empty or null" ;;
    ret false
  else
    supported ← supportsFileUpload;
    if negb supported then
      emitExecutionFailed "attachFile" "File upload not supported on current page" ;;
      ret false
    else
      w ← read id;
      fileInput ←
        match inputElement with
        | Some p =>
            if has_elem_at p (document w) then ret (Some p)
            else query selectors.FILE_INPUT
        | None => query selectors.FILE_INPUT
        end;
      match fileInput with
      | Some p =>
          dataTransfer ← new_DataTransfer file;
          set_files p dataTransfer ;;
          construct ;; dispatchEvent p ChangeEvent ;;
          emitExecutionCompleted "attachFile" "direct-input" ;;
          ret true
      | None =>
          dropSuccess ← simulateFileDrop file;
          if (dropSuccess : bool) then
            emitExecutionCompleted "attachFile" "drag-drop-simulation" ;;
            ret true
          else
            emitExecutionFailed "attachFile" "All file attachment methods failed" ;;
            ret false
      end.

Definition attachFile (file : File) (inputElement : option Path) : M bool :=
  try_catch (attachFile_body file inputElement)
    (fun errorMessage =>
       emitExecutionFailed "attachFile" errorMessage ;; ret false).

End ClaudeAdapter.

(** ** The chat input handler for Claude

    In the listing of this file the declarations of [contentEditableDiv]
    and [textarea] in [findChatInputElement] stand at the end of the
    comment lines that precede them; they are embedded as declarations. *)

Module ChatInputHandler.
Import Dom Selector Effects DomApi.

Definition composer_input : Selector :=
  [Single (simple [Tag "div"; AttrEq "contenteditable" "true";
                   AttrEq "data-testid" "composer-input"])].

Definition any_contenteditable_div : Selector :=
  [Single (simple [Tag "div"; AttrEq "contenteditable" "true"])].

Definition reply_or_talk_textarea : Selector :=
  [Single (simple [Tag "textarea"; AttrContains "placeholder" "Reply"]);
   Single (simple [Tag "textarea"; AttrContains "placeholder" "Talk"])].

Definition remember (p : Path) : M (option Path) :=
  modify (upd_lastFoundInputElement (fun _ => Some p)) ;; ret (Some p).

Definition findChatInputElement : M (option Path) :=
  claudeInput ← query composer_input;
  match claudeInput with
  | Some p => remember p
  | None =>
      contentEditableDiv ← query any_contenteditable_div;
      match contentEditableDiv with
      | Some p => remember p
      | None =>
          textarea ← query reply_or_talk_textarea;
          match textarea with
          | Some p => remember p
          | None => ret None
          end
      end
  end.

(** [currentText ? `${currentText}\n\n${text}` : text]. *)
Definition formatted (currentText text : string) : string :=
  if JsString.truthy currentText
  then currentText +:+ JsString.separator +:+ text
  else text.

(** [!chatInput.lastChild || chatInput.lastChild.nodeType !==
    Node.TEXT_NODE]. *)
Definition lacks_trailing_text (kids : list Node) : bool :=
  match List.last (map Some kids) None with
  | Some (Text _) => false
  | _ => true
  end.

Definition insertTextToChatInput (text : string) : M bool :=
  try_catch
    (chatInput ← findChatInputElement;
     match chatInput with
     | None => ret false
     | Some p =>
         d ← read (data_at p);
         if String.eqb (tagName d) "TEXTAREA" then
           let currentText := textarea_value d in
           let formattedText := formatted currentText text in
           set_value p formattedText ;;
           textarea ← read (data_at p);
           let len := String.length (textarea_value textarea) in
           set_selectionEnd p len ;;
           set_selectionStart p len ;;
           construct ;;
           dispatchEvent p InputEvent ;;
           focus p ;;
           ret true
         else if attr_is d "contenteditable" "true" then
           focus p ;;
           currentText ← read (textContent_at p);
           (if JsString.truthy currentText &&
               negb (String.eqb (JsString.trim currentText) "")
            then
              kids ← read (kids_at p);
              (if lacks_trailing_text kids
               then construct ;;
                    dom_do (upd_document (append_child p (Text "")))
               else ret tt) ;;
              move_caret_to_end p ;;
              execCommand "insertText" JsString.separator
            else ret tt) ;;
           execCommand "insertText" text ;;
           construct ;;
           dispatchEvent p InputEvent ;;
           ret true
         else if has_value_property d then
           let currentValue := value d in
           set_value p (formatted currentValue text) ;;
           construct ;;
           dispatchEvent p InputEvent ;;
           focus p ;;
           ret true
         else
           currentText ← read (textContent_at p);
           set_textContent p (formatted currentText text) ;;
           construct ;;
           dispatchEvent p InputEvent ;;
           focus p ;;
           ret true
     end)
    (fun _ => ret false).

(** *** [attachFileToChatInput] *)

(** The listener that [addEventListener('dragover', ..., { once: true })]
    registers calls [preventDefault()] on the event; the registration is
    a call of the DOM API, and what the listener does to the event is not
    part of the state. *)
Definition addEventListener (p : Path) (type : string) : M unit := dom_do id.

Definition attachFileToChatInput (file : File) : M bool :=
  try_catch
    (chatInput ← findChatInputElement;
     match chatInput with
     | None => ret false
     | Some p =>
         dataTransfer ← ClaudeAdapter.new_DataTransfer file;
         construct ;; construct ;;           (* the two [new DragEvent] *)
         addEventListener p "dragover" ;;
         dispatchEvent p (DragEvent "dragover" dataTransfer) ;;
         dispatchEvent p (DragEvent "drop" dataTransfer) ;;
         ret true
     end)
    (fun _ => ret false).

(** *** [submitChatInput] *)

Definition send_button : Selector :=
  [Single (simple [Tag "button"; AttrContains "aria-label" "Send"])].
Definition submit_button : Selector :=
  [Single (simple [Tag "button"; AttrEq "type" "submit"])].
Definition svg_in_button : Selector :=
  [Descendant (simple [Tag "button"])
     (simple [Tag "svg"; AttrEq "viewBox" "0 0 16 16"])].
Definition button : Selector := [Single (simple [Tag "button"])].
Definition form : Selector := [Single (simple [Tag "form"])].
Definition fieldset : Selector := [Single (simple [Tag "fieldset"])].
Definition last_child_button : Selector :=
  [Single (simple [Tag "button"; LastChild])].

(** [a?.f(x)]: the call is made when [a] is an element. *)
Definition and_then (a : option Path) (f : Path -> M (option Path))
    : M (option Path) :=
  match a with
  | Some p => f p
  | None => ret None
  end.

(** [a || b]: [b] is evaluated when [a] is [null]. *)
Definition or_else (a : M (option Path)) (b : M (option Path))
    : M (option Path) :=
  r ← a;
  match r with
  | Some p => ret (Some p)
  | None => b
  end.

Definition findSubmitButton (chatInput : Path) : M (option Path) :=
  or_else (query send_button)
 (or_else (query submit_button)
 (or_else (svg ← query svg_in_button;
           and_then svg (fun p => closest_of p button))
 (or_else (f ← closest_of chatInput form;
           and_then f (fun p => query_in p submit_button))
          (f ← closest_of chatInput fieldset;
           and_then f (fun p => query_in p last_child_button))))).

Definition isDisabled (d : ElemData) : bool :=
  disabled d ||
  (match getAttribute d "disabled" with Some _ => true | None => false end) ||
  attr_is d "aria-disabled" "true" ||
  has_class d "disabled".

Definition tryClickingButton (promise : nat) (chatInput : Path) : M unit :=
  b ← findSubmitButton chatInput;
  match b with
  | None => resolve promise false
  | Some p =>
      d ← read (data_at p);
      if negb (isDisabled d)
      then click p ;; resolve promise true
      else ret tt
  end.

(** The alternative methods: a submit event on the enclosing form, or
    else the key events of [Enter] on the chat input. *)
Definition alternative_methods (promise : nat) (chatInput : Path) : M unit :=
  f ← closest_of chatInput form;
  match f with
  | Some fp =>
      construct ;;
      dispatchEvent fp SubmitEvent ;;
      resolve promise true
  | None =>
      focus chatInput ;;
      construct ;; construct ;; construct ;;
      dispatchEvent chatInput (KeyboardEvent "keydown") ;;
      dispatchEvent chatInput (KeyboardEvent "keypress") ;;
      dispatchEvent chatInput (KeyboardEvent "keyup") ;;
      resolve promise true
  end.

Definition checkInterval : Z := 200.

(** The callback given to [setInterval], for the timer with handle
    [intervalId]; [elapsedTime] is the value of the variable before the
    tick. *)
Definition poll_tick (intervalId promise : nat) (chatInput : Path)
    (elapsedTime maxWaitTime : Z) : M unit :=
  let elapsedTime' := (elapsedTime + checkInterval)%Z in
  modify (upd_pending (fun m =>
    <[intervalId := SubmitPoll promise chatInput elapsedTime' maxWaitTime]> m)) ;;
  tryClickingButton promise chatInput ;;
  if (maxWaitTime <=? elapsedTime')%Z then
    clearTimer intervalId ;;
    alternative_methods promise chatInput
  else ret tt.

(** The [try] block of the executor of the promise. *)
Definition submit_executor (promise : nat) (maxWaitTime : Z) : M unit :=
  w ← read id;
  chatInput ←
    match lastFoundInputElement w with
    | Some p => ret (Some p)
    | None => findChatInputElement
    end;
  match chatInput with
  | None => resolve promise false
  | Some ci =>
      submitButton ← findSubmitButton ci;
      match submitButton with
      | Some sb =>
          intervalId ← setTimer (SubmitPoll promise ci 0 maxWaitTime);
          tryClickingButton promise ci ;;
          d ← read (data_at sb);
          if negb (disabled d) then clearTimer intervalId else ret tt
      | None => alternative_methods promise ci
      end
  end.

(** [submitChatInput(maxWaitTime)]; the result is the promise. *)
Definition submitChatInput (maxWaitTime : Z) : M nat :=
  promise ← newPromise;
  try_catch (submit_executor promise maxWaitTime)
    (fun _ => resolve promise false) ;;
  ret promise.

End ChatInputHandler.

(** ** The life cycle of [ClaudeAdapter] *)

Module Lifecycle.
Import Dom Selector Effects DomApi ClaudeAdapter.

(** The id of the container of the popover and of the injected style
    sheet. *)
Definition container_id : string := "mcp-popover-container".
Definition style_id : string := "mcp-claude-button-styles".

(** A fresh instance, as the field initialisers leave it. *)
Definition new_adapter : Adapter :=
  {| currentStatus := Uninitialized; lastUrl := "";
     urlCheckInterval := None; mcpPopoverContainer := None;
     mcpPopoverRoot := None; mutationObserver := None;
     popoverCheckInterval := None; storeEventListenersSetup := false;
     domObserversSetup := false; uiIntegrationSetup := false;
     claudeStylesInjected := false |}.

Definition get {A} (f : Adapter -> A) : M A := read (fun w => f (adapter w)).
Definition set (f : Adapter -> Adapter) : M unit := modify (upd_adapter f).

(** *** The base class *)

(** Modelled from the spec: [BaseAdapterPlugin.initialize] is not among
    the sources; the adapter goes from uninitialized to initializing. *)
Definition super_initialize : M unit :=
  set (with_currentStatus (fun _ => Initializing)).

(** Modelled from the spec: [BaseAdapterPlugin.activate] is not among the
    sources; the adapter becomes active. *)
Definition super_activate : M unit :=
  set (with_currentStatus (fun _ => Active)).

(** Modelled from the spec: [BaseAdapterPlugin.deactivate] is not among
    the sources; the adapter becomes inactive. *)
Definition super_deactivate : M unit :=
  set (with_currentStatus (fun _ => Inactive)).

(** Modelled from the spec: [BaseAdapterPlugin.cleanup] is not among the
    sources; the adapter returns to uninitialized. *)
Definition super_cleanup : M unit :=
  set (with_currentStatus (fun _ => Uninitialized)).

(** *** [document.head] and [document.body] *)

Fixpoint first_child_named (names : list string) (i : nat) (kids : list Node)
    : option nat :=
  match kids with
  | [] => None
  | Elem d _ :: kids' =>
      if existsb (String.eqb (localName d)) names then Some i
      else first_child_named names (S i) kids'
  | Text _ :: kids' => first_child_named names (S i) kids'
  end.

(** The document element: the first element among the children of the
    document. *)
Fixpoint first_element (i : nat) (l : list Node) : option (nat * ElemData) :=
  match l with
  | [] => None
  | Elem d _ :: _ => Some (i, d)
  | Text _ :: l' => first_element (S i) l'
  end.

(** The path of the [html] element, when the document element is one. *)
Definition html_path (f : Document) : option Path :=
  match first_element 0 f with
  | Some (i, d) => if String.eqb (localName d) "html" then Some [i] else None
  | None => None
  end.

Definition child_of_html (names : list string) (f : Document) : option Path :=
  match html_path f with
  | Some h =>
      match elem_at h f with
      | Some (_, kids) =>
          match first_child_named names 0 kids with
          | Some i => Some (h ++ [i])
          | None => None
          end
      | None => None
      end
  | None => None
  end.

Definition head_path (f : Document) : option Path := child_of_html ["head"] f.
Definition body_path (f : Document) : option Path :=
  child_of_html ["body"; "frameset"] f.

(** *** Node creation and removal *)

(** [document.createElement(name)]: the identity of the new node. *)
Definition createElement : M nat :=
  dom_call (fun w => (next_uid w, upd_next_uid S w)).

(** [parent.removeChild(node)] and [node.remove()]. *)
Definition remove (p : Path) : M unit := dom_do (upd_document (remove_at p)).

Definition appendChild (container : Path) (n : Node) : M unit :=
  dom_do (upd_document (append_child container n)).

Definition insertAfter (container : Path) (i : nat) (n : Node) : M unit :=
  dom_do (upd_document (insert_after_child container i n)).

(** *** Styles *)

(** The text of the style sheet; its rules are not reproduced. *)
Definition getClaudeButtonStyles : string :=
  "/* Claude MCP Button Styles - Matching native design */".

Definition injectClaudeButtonStyles : M unit :=
  injected ← get claudeStylesInjected;
  if (injected : bool) then ret tt
  else
    try_catch
      (existingStyles ← byId style_id;
       match existingStyles with
       | Some p => remove p
       | None => ret tt
       end ;;
       u ← createElement;
       dom_do id ;;                        (* [styleElement.id = styleId] *)
       dom_do id ;;                        (* [styleElement.textContent = ...] *)
       w ← read id;
       match head_path (document w) with
       | Some h =>
           appendChild h
             (element u "style" [("id", style_id)] [Text getClaudeButtonStyles])
       | None => throw "TypeError: document.head is null"
       end ;;
       set (with_claudeStylesInjected (fun _ => true)))
      (fun _ => ret tt).

(** *** The insertion point *)

Definition tag_fieldset : Selector := [Single (simple [Tag "fieldset"])].
Definition tag_button : Selector := [Single (simple [Tag "button"])].
Definition composer_controls : Selector :=
  [Single (simple [Class "composer-controls"]);
   Single (simple [AttrEq "data-testid" "composer-footer"])].
Definition fallbackSelectors : list Selector :=
  [ [Single (simple [AttrEq "data-testid" "composer"])];
    [Single (simple [Class "composer-parent"])];
    [Single (simple [Class "input-area"])] ].

(** [container.querySelectorAll('button')]. *)
Definition buttons_in (container : Path) : M (list Path) :=
  dom_get (fun w => map e_path (querySelectorAll_in container tag_button (document w))).

(** [{ container, insertAfter }]. *)
Definition InsertionPoint : Type := Path * option Path.

Definition after_first_button (container : Path) : M (option InsertionPoint) :=
  buttons ← buttons_in container;
  ret (Some (container, head buttons)).

Fixpoint fallback_insertion (sels : list Selector) : M (option InsertionPoint) :=
  match sels with
  | [] => ret None
  | sel :: rest =>
      container ← query sel;
      match container with
      | Some c =>
          buttons ← buttons_in c;
          ret (Some (c, List.last (map Some buttons) None))
      | None => fallback_insertion rest
      end
  end.

Definition findButtonInsertionPoint : M (option InsertionPoint) :=
  fieldset ← query tag_fieldset;
  match fieldset with
  | Some c => after_first_button c
  | None =>
      composerControls ← query composer_controls;
      match composerControls with
      | Some c => after_first_button c
      | None => fallback_insertion fallbackSelectors
      end
  end.

(** *** The popover *)

(** [React]'s [root.unmount()], [createRoot(container)] and
    [root.render(...)]: what React does inside the container is not
    part of the sources. *)
Definition react_call : M unit := dom_do id.

(** [if (this.mcpPopoverRoot) { try { unmount } catch {} ;
    this.mcpPopoverRoot = null }]. *)
Definition unmount_root : M unit :=
  root ← get mcpPopoverRoot;
  match root with
  | Some _ =>
      try_catch react_call (fun _ => ret tt) ;;
      set (with_mcpPopoverRoot (fun _ => None))
  | None => ret tt
  end.

(** The reaction to the three dynamic imports of [renderMCPPopover], for
    the container with identity [u]. *)
Definition renderImported (u : nat) : M unit :=
  connected ← read (fun w => isConnected u (document w));
  if negb connected then ret tt
  else
    try_catch
      (unmount_root ;;
       react_call ;;
       set (with_mcpPopoverRoot (fun _ => Some u)) ;;
       react_call)
      (fun _ => unmount_root).

Definition renderMCPPopover (u : nat) : M unit :=
  try_catch
    (connected ← read (fun w => isConnected u (document w));
     if negb connected then ret tt
     else
       h ← setTimer (RenderImported u);
       ret tt)
    (fun _ => ret tt).

Definition container_node (u : nat) : Node :=
  element u "div"
    [("id", container_id); ("style", "display: inline-block; margin: 0px 4px;")]
    [].

Definition injectMCPPopover (insertionPoint : InsertionPoint) : M unit :=
  try_catch
    (existing ← byId container_id;
     match existing with
     | Some _ => ret tt
     | None =>
         u ← createElement;
         dom_do id ;; dom_do id ;; dom_do id ;;   (* [id], [style.display], [style.margin] *)
         let '(container, after) := insertionPoint in
         match after with
         | Some a =>
             if bool_decide (a <> [] /\ parent_path a = container)
             then insertAfter container (child_index a) (container_node u)
             else appendChild container (container_node u)
         | None => appendChild container (container_node u)
         end ;;
         set (with_mcpPopoverContainer (fun _ => Some u)) ;;
         renderMCPPopover u
     end)
    (fun _ => ret tt).

(** [attemptInjection(attempt)] inside
    [injectMCPPopoverWithRetry(maxRetries)]. *)
Definition attemptInjection (attempt maxRetries : nat) : M unit :=
  existing ← byId container_id;
  match existing with
  | Some _ => ret tt
  | None =>
      insertionPoint ← findButtonInsertionPoint;
      match insertionPoint with
      | Some ip => injectMCPPopover ip
      | None =>
          if attempt <? maxRetries then
            h ← setTimer (AttemptInjection (S attempt) maxRetries);
            ret tt
          else ret tt
      end
  end.

Definition injectMCPPopoverWithRetry (maxRetries : nat) : M unit :=
  attemptInjection 1 maxRetries.

(** The callback [checkReady] of [waitForPageReady], with the reaction
    [.then(() => this.injectMCPPopoverWithRetry()).catch(...)] that
    [setupUIIntegration] attaches; [attempts] is the value of the variable
    before the call. *)
Definition checkReady (attempts : nat) : M unit :=
  let attempts' := S attempts in
  insertionPoint ← findButtonInsertionPoint;
  match insertionPoint with
  | Some _ => try_catch (injectMCPPopoverWithRetry 5) (fun _ => ret tt)
  | None =>
      if 10 <=? attempts' then ret tt
      else h ← setTimer (CheckReady attempts'); ret tt
  end.

Definition setupUIIntegration : M unit :=
  set (with_uiIntegrationSetup (fun _ => true)) ;;
  h ← setTimer (CheckReady 0);
  ret tt.

(** [injectMCPPopoverManually()]; the default of [maxRetries] is 5. *)
Definition injectMCPPopoverManually : M unit := injectMCPPopoverWithRetry 5.

Definition isMCPPopoverInjected : M bool :=
  existing ← byId container_id;
  match existing with
  | Some _ => ret true
  | None => ret false
  end.

Definition ensureMCPPopoverConnection : M unit :=
  try_catch
    (injected ← isMCPPopoverInjected;
     if negb injected then injectMCPPopoverWithRetry 3 else ret tt)
    (fun _ => ret tt).

Definition checkAndRestoreSidebar : M unit :=
  try_catch
    (manager ← read activeSidebarManager;
     if negb manager then ret tt else ensureMCPPopoverConnection)
    (fun _ => ret tt).

(** *** Set-up and tear-down *)

Definition setupUrlTracking : M unit :=
  h ← get urlCheckInterval;
  match h with
  | Some _ => ret tt
  | None =>
      i ← setTimer UrlCheck;
      set (with_urlCheckInterval (fun _ => Some i))
  end.

Definition setupStoreEventListeners : M unit :=
  done ← get storeEventListenersSetup;
  if (done : bool) then ret tt
  else
    modify (upd_bus_handlers (fun n => n + 2)) ;;
    set (with_storeEventListenersSetup (fun _ => true)).

Definition setupDOMObservers : M unit :=
  done ← get domObserversSetup;
  if (done : bool) then ret tt
  else
    construct ;;
    set (with_mutationObserver (fun _ => Some false)) ;;
    w ← read id;
    match body_path (document w) with
    | Some _ => dom_do id
    | None => throw "TypeError: document.body is null"
    end ;;
    set (with_mutationObserver (fun _ => Some true)) ;;
    set (with_domObserversSetup (fun _ => true)).

Definition cleanupDOMObservers : M unit :=
  o ← get mutationObserver;
  match o with
  | Some _ =>
      dom_do id ;;
      set (with_mutationObserver (fun _ => None))
  | None => ret tt
  end.

(** An element that [getElementById] returns is connected and has a
    parent, so the branch for a disconnected container is not taken. *)
Definition cleanupUIIntegration : M unit :=
  try_catch
    (unmount_root ;;
     popoverContainer ← byId container_id;
     match popoverContainer with
     | Some p =>
         try_catch (remove p)
           (fun _ => try_catch (remove p) (fun _ => ret tt))
     | None => ret tt
     end)
    (fun _ => ret tt) ;;
  set (with_mcpPopoverContainer (fun _ => None)).

(** *** The public methods *)

Definition emit (e : BusEvent) : M unit := modify (upd_bus (fun l => l ++ [e])).

Definition initialize : M unit :=
  s ← get currentStatus;
  match s with
  | Initializing | Active => ret tt
  | _ =>
      super_initialize ;;
      href ← read (fun w => href (location w));
      set (with_lastUrl (fun _ => href)) ;;
      setupUrlTracking ;;
      setupStoreEventListeners
  end.

Definition activate : M unit :=
  s ← get currentStatus;
  match s with
  | Active => ret tt
  | _ =>
      super_activate ;;
      injectClaudeButtonStyles ;;
      setupDOMObservers ;;
      setupUIIntegration ;;
      emit (AdapterActivated name)
  end.

Definition reset_setup_flags : M unit :=
  set (with_storeEventListenersSetup (fun _ => false)) ;;
  set (with_domObserversSetup (fun _ => false)) ;;
  set (with_uiIntegrationSetup (fun _ => false)).

Definition deactivate : M unit :=
  s ← get currentStatus;
  match s with
  | Inactive | Disabled => ret tt
  | _ =>
      super_deactivate ;;
      cleanupUIIntegration ;;
      cleanupDOMObservers ;;
      reset_setup_flags ;;
      emit (AdapterDeactivated name)
  end.

(** [if (this.h) { clearInterval(this.h); this.h = null }]. *)
Definition clear_handle (h : option nat) (reset : M unit) : M unit :=
  match h with
  | Some i => clearTimer i ;; reset
  | None => ret tt
  end.

(** [const styleElement = document.getElementById(...); if
    (styleElement) { styleElement.remove(); this.claudeStylesInjected =
    false }]. *)
Definition removeStyleElement : M unit :=
  styleElement ← byId style_id;
  match styleElement with
  | Some p =>
      remove p ;;
      set (with_claudeStylesInjected (fun _ => false))
  | None => ret tt
  end.

Definition cleanup : M unit :=
  super_cleanup ;;
  u ← get urlCheckInterval;
  clear_handle u (set (with_urlCheckInterval (fun _ => None))) ;;
  c ← get popoverCheckInterval;
  clear_handle c (set (with_popoverCheckInterval (fun _ => None))) ;;
  cleanupUIIntegration ;;
  cleanupDOMObservers ;;
  removeStyleElement ;;
  reset_setup_flags ;;
  set (with_claudeStylesInjected (fun _ => false)).

(** *** Hooks and callbacks *)

Definition onPageChanged (url : string) : M unit :=
  set (with_lastUrl (fun _ => url)) ;;
  stillSupported ← read (fun w => SupportedUrl.isSupported (location w));
  (if (stillSupported : bool) then
     injectClaudeButtonStyles ;;
     h1 ← setTimer DelayedSetupUIIntegration;
     h2 ← setTimer DelayedCheckAndRestoreSidebar;
     ret tt
   else ret tt) ;;
  w ← read id;
  emit (SiteChanged url (hostname (location w))).

Definition onHostChanged : M unit :=
  stillSupported ← read (fun w => SupportedUrl.isSupported (location w));
  if negb stillSupported then emit (AdapterDeactivated name)
  else setupUIIntegration.

(** The callback of the interval of [setupUrlTracking]. *)
Definition urlCheck : M unit :=
  currentUrl ← read (fun w => href (location w));
  last ← get lastUrl;
  if String.eqb currentUrl last then ret tt
  else
    onPageChanged currentUrl ;;
    set (with_lastUrl (fun _ => currentUrl)).

(** The callback of the mutation observer, for a list of records with
    one of type [childList]. *)
Definition observerCallback : M unit :=
  existing ← byId container_id;
  match existing with
  | Some _ => ret tt
  | None =>
      insertionPoint ← findButtonInsertionPoint;
      match insertionPoint with
      | Some _ => setupUIIntegration
      | None => ret tt
      end
  end.

(** *** The event loop *)

(** The event loop runs the pending callback with handle [h]; a timeout
    leaves the table before it runs, an interval stays. *)
Definition run_task (h : nat) : M unit :=
  w ← read id;
  match pending w !! h with
  | None => ret tt
  | Some t =>
      (if is_interval t then ret tt else clearTimer h) ;;
      match t with
      | SubmitPoll promise chatInput elapsedTime maxWaitTime =>
          ChatInputHandler.poll_tick h promise chatInput elapsedTime maxWaitTime
      | UrlCheck => urlCheck
      | CheckReady attempts => checkReady attempts
      | AttemptInjection attempt maxRetries => attemptInjection attempt maxRetries
      | DelayedSetupUIIntegration => setupUIIntegration
      | DelayedCheckAndRestoreSidebar => checkAndRestoreSidebar
      | RenderImported u => renderImported u
      end
  end.

(** What can happen to an adapter in a page: the plugin host calls a
    method, the event loop runs a pending callback, the mutation observer
    reports a change of the child lists, the page navigates, or the host
    page replaces its tree. An error that a callback raises is reported
    and goes no further. *)
Inductive Op : Type :=
| CallInitialize
| CallActivate
| CallDeactivate
| CallCleanup
| CallOnHostChanged
| CallOnPageChanged (url : string)
| CallInjectMCPPopoverManually
| Run (h : nat)
| Observed
| Navigate (l : Location)
| HostRenders (f : Document).

Definition step (op : Op) (w : World) : World :=
  match op with
  | CallInitialize => exec initialize w
  | CallActivate => exec activate w
  | CallDeactivate => exec deactivate w
  | CallCleanup => exec cleanup w
  | CallOnHostChanged => exec onHostChanged w
  | CallOnPageChanged url => exec (onPageChanged url) w
  | CallInjectMCPPopoverManually => exec injectMCPPopoverManually w
  | Run h => exec (run_task h) w
  | Observed =>
      match mutationObserver (adapter w) with
      | Some true => exec observerCallback w
      | _ => w
      end
  | Navigate l => upd_location (fun _ => l) w
  | HostRenders f => upd_document (fun _ => f) w
  end.

Definition run (ops : list Op) (w : World) : World :=
  fold_left (fun w op => step op w) ops w.

(** An operation of the adapter or of the event loop that leaves the
    tree of the page to the adapter. *)
Definition adapter_op (op : Op) : bool :=
  match op with
  | HostRenders _ => false
  | _ => true
  end.

(** An identity that no element of the document has. *)
Definition fresh_uid (f : Document) : nat :=
  S (foldr (fun e m => Nat.max (uid (f_data (e_frame e))) m) 0 (entries f)).

(** A page as the adapter finds it, with a fresh instance. *)
Definition initial (f : Document) (l : Location) : World :=
  {| document := f; next_uid := fresh_uid f; location := l;
     focused := None; caret := None; dispatched := []; commands := [];
     bus := []; bus_handlers := 0; calls := 0;
     fault_at := fun _ => None; lastFoundInputElement := None;
     pending := ∅; next_handle := 1; resolved := ∅;
     activeSidebarManager := false; adapter := new_adapter |}.

End Lifecycle.

(** ** Notions used in the statements *)

Module Notions.
Import Dom Selector Effects DomApi ClaudeAdapter.

(** *** The location of the page

    The URL of a page with an http or https URL, by its parts, as
    [window.location] holds it. The URL parser of the browser never
    leaves the path of such a URL empty (a URL without path gets the path
    [/]); the query string, when there is one, starts with [?], and the
    fragment, when there is one, with [#]. *)
Record Url : Type := {
  u_protocol : string;      (* [location.protocol], as in [https:] *)
  u_credentials : string;   (* user name and password with their [@], or nothing *)
  u_hostname : string;      (* [location.hostname] *)
  u_port : string;          (* the port with its colon, or nothing *)
  u_pathname : string;      (* [location.pathname] *)
  u_search : string;        (* the query string with its [?], or nothing *)
  u_hash : string           (* the fragment with its [#], or nothing *)
}.

(** Scheme and authority: what precedes the path in the serialised URL. *)
Definition origin (u : Url) : string :=
  u_protocol u +:+ "//" +:+ u_credentials u +:+ u_hostname u +:+ u_port u.

(** [location.hostname] and [location.href], the serialised URL. *)
Definition location_of (u : Url) : Location :=
  {| hostname := u_hostname u;
     href := origin u +:+ u_pathname u +:+ u_search u +:+ u_hash u |}.

(** The same URL with the query string [q]. *)
Definition with_search (q : string) (u : Url) : Url :=
  {| u_protocol := u_protocol u; u_credentials := u_credentials u;
     u_hostname := u_hostname u; u_port := u_port u;
     u_pathname := u_pathname u; u_search := q; u_hash := u_hash u |}.

(** A path that starts with a slash. *)
Definition absolute (path : string) : bool :=
  match path with
  | EmptyString => false
  | String c _ => Ascii.eqb c "/"%char
  end.

(** A query string: nothing, or [?] and what follows it. *)
Definition is_query (q : string) : bool :=
  match q with
  | EmptyString => true
  | String c _ => Ascii.eqb c "?"%char
  end.

(** A fragment: nothing, or [#] and what follows it. *)
Definition is_fragment (h : string) : bool :=
  match h with
  | EmptyString => true
  | String c _ => Ascii.eqb c "#"%char
  end.

(** What may follow the path: nothing, a query string or a fragment. *)
Definition is_tail (t : string) : bool :=
  match t with
  | EmptyString => true
  | String c _ => Ascii.eqb c "?"%char || Ascii.eqb c "#"%char
  end.

(** A string without [?] and [#]. *)
Fixpoint no_delimiter (s : string) : bool :=
  match s with
  | EmptyString => true
  | String c s' =>
      negb (Ascii.eqb c "?"%char || Ascii.eqb c "#"%char) && no_delimiter s'
  end.

(** The number of slashes in a string. *)
Fixpoint slashes (s : string) : nat :=
  match s with
  | EmptyString => 0
  | String c s' => (if Ascii.eqb c "/"%char then 1 else 0) + slashes s'
  end.

(** The URL [https://claude.ai/chat/abc], and the bare root as the
    browser holds it, with the path [/]. *)
Definition chat_url : Url :=
  {| u_protocol := "https:"; u_credentials := ""; u_hostname := "claude.ai";
     u_port := ""; u_pathname := "/chat/abc"; u_search := ""; u_hash := "" |}.

Definition root_url : Url :=
  {| u_protocol := "https:"; u_credentials := ""; u_hostname := "claude.ai";
     u_port := ""; u_pathname := "/"; u_search := ""; u_hash := "" |}.

(** The state [w] after [n] DOM API calls in all. *)
Definition after_calls (n : nat) (w : World) : World := upd_calls (fun _ => n) w.

(** The editing commands that [insertText] issues on an editable
    region whose text is [currentText]. *)
Definition insert_commands (currentText text : string) : list (string * string) :=
  (if not_blank currentText then [("insertText", JsString.separator)] else [])
  ++ [("insertText", text)].

(** The state [w] after [n] DOM API calls in all, with the chat input
    last found at [r]. *)
Definition found_after (r : option Path) (n : nat) (w : World) : World :=
  upd_lastFoundInputElement (fun _ => r) (after_calls n w).

(** A string that is not empty and that [trim] empties. *)
Definition whitespace_only (s : string) : Prop :=
  s <> "" /\ JsString.trim s = "".

(** The element that the loop over [sels] stops at: the first match of
    the first selector that has one. *)
Fixpoint first_hit (sels : list Selector) (f : Document) : option Path :=
  match sels with
  | [] => None
  | sel :: rest =>
      match querySelector sel f with
      | Some e => Some (e_path e)
      | None => first_hit rest f
      end
  end.

(** The computation returns in state [w]. *)
Definition completes {A} (m : M A) (w : World) : Prop :=
  exists r w1, m w = (Ok r, w1).

(** The last event on the bus reports a failure of the tool. *)
Definition failure_reported (tool : string) (w : World) : Prop :=
  exists reason, List.last (map Some (bus w)) None = Some (ExecutionFailed tool reason).

(** The operation returns a boolean in state [w], and it returns false
    only with a failure event of the tool as the last event on the bus. *)
Definition reports (tool : string) (m : M bool) (w : World) : Prop :=
  exists b w', m w = (Ok b, w') /\ (b = false -> failure_reported tool w').

(** When the [try] block raises from state [w1], the operation, run from
    [w], returns false and its last event on the bus is the failure
    event with the tool name and the message raised. *)
Definition catches (tool : string) (body m : M bool) (w1 w : World) : Prop :=
  forall msg w2,
    body w1 = (Throw msg, w2) ->
    exists w', m w = (Ok false, w') /\
               bus w' = bus w2 ++ [ExecutionFailed tool msg].

(** The number of clicks dispatched so far. *)
Definition clicks (w : World) : nat :=
  length (List.filter
            (fun d => match snd d with ClickEvent => true | _ => false end)
            (dispatched w)).

(** *** Counting elements *)

(** The number of elements in and below [n] whose data satisfy [P]. *)
Fixpoint tally (P : ElemData -> bool) (n : Node) : nat :=
  match n with
  | Text _ => 0
  | Elem d kids =>
      (if P d then 1 else 0) +
      (fix go (l : list Node) : nat :=
         match l with
         | [] => 0
         | k :: l' => tally P k + go l'
         end) kids
  end.

Fixpoint tally_forest (P : ElemData -> bool) (l : list Node) : nat :=
  match l with
  | [] => 0
  | k :: l' => tally P k + tally_forest P l'
  end.

(** The children of the node at [p]; the empty path is the document
    node. *)
Definition children_at (p : Path) (f : Document) : option (list Node) :=
  match p with
  | [] => Some f
  | _ => snd <$> elem_at p f
  end.

Definition is_container (d : ElemData) : bool :=
  attr_is d "id" Lifecycle.container_id.
Definition is_style (d : ElemData) : bool :=
  attr_is d "id" Lifecycle.style_id.

(** The number of popover containers and of injected style sheets in
    the document. *)
Definition containers (w : World) : nat :=
  count_id Lifecycle.container_id (document w).
Definition style_sheets (w : World) : nat :=
  count_id Lifecycle.style_id (document w).

(** The injection handle of the adapter. *)
Definition handle (w : World) : option nat := mcpPopoverContainer (adapter w).

(** What the invariants of the life cycle depend on: the document, the
    injection handle and the oracle. *)
Definition core (w : World) : Document * option nat * (nat -> option string) :=
  (document w, handle w, fault_at w).

(** A fresh instance of the adapter on the page [f] at the location [l],
    in a run in which the DOM calls raise as the oracle [o] tells: the
    call with index [k] raises [msg] when [o k = Some msg]. *)
Definition created (f : Document) (l : Location) (o : nat -> option string) : World :=
  upd_fault_at (fun _ => o) (Lifecycle.initial f l).

(** The selectors that [findButtonInsertionPoint] tries. *)
Definition insertion_selectors : list Selector :=
  Lifecycle.tag_fieldset :: Lifecycle.composer_controls :: Lifecycle.fallbackSelectors.

(** The container of the insertion point is the first match of one of
    these selectors. *)
Definition candidate (ip : Lifecycle.InsertionPoint) (f : Document) : Prop :=
  exists sel e,
    In sel insertion_selectors /\ querySelector sel f = Some e /\ e_path e = fst ip.

End Notions.

(** ** Example pages *)

Module Scenario.
Import Dom Selector Effects DomApi ClaudeAdapter Lifecycle.

Definition claude_new : Location :=
  {| hostname := "claude.ai"; href := "https://claude.ai/new" |}.

(** A composer in a field set: an attach button, the editable region
    (holding two spaces) and a send button that is disabled. *)
Definition composer (send_attrs : list (string * string)) : Document :=
  [element 1 "html" []
     [element 2 "head" [] [];
      element 3 "body" []
        [element 4 "fieldset" []
           [element 5 "button" [("aria-label", "Attach")] [];
            element 6 "div"
              [("contenteditable", "true"); ("data-testid", "composer-input")]
              [Text "  "];
            element 7 "button" (("aria-label", "Send message") :: send_attrs) []]]]].

Definition composer_page : Document := composer [("disabled", "")].
Definition composer_page_enabled : Document := composer [].

(** The same composer once the host page has rendered it anew and so
    dropped what the adapter had put into it. *)
Definition composer_page_rerendered : Document := composer [("disabled", "")].

(** A form with a text area that holds a draft, a file input and a
    submit button. *)
Definition draft : ElemData :=
  {| uid := 5; localName := "textarea";
     attrs := [("placeholder", "Reply to Claude")];
     value := "draft"; files := []; selectionStart := 0; selectionEnd := 0;
     rect_width := 300; rect_height := 80 |}.

Definition form (area : ElemData) : Document :=
  [element 1 "html" []
     [element 2 "head" [] [];
      element 3 "body" []
        [element 4 "form" []
           [Elem area [];
            element 6 "input" [("type", "file")] [];
            element 7 "button" [("type", "submit")] []]]]].

Definition form_page : Document := form draft.

(** The same form when the text area holds two spaces. *)
Definition blank : ElemData :=
  {| uid := 5; localName := "textarea";
     attrs := [("placeholder", "Reply to Claude")];
     value := "  "; files := []; selectionStart := 0; selectionEnd := 0;
     rect_width := 300; rect_height := 80 |}.

Definition blank_form_page : Document := form blank.

(** The same form when the text area is empty. *)
Definition empty_area : ElemData :=
  {| uid := 5; localName := "textarea";
     attrs := [("placeholder", "Reply to Claude")];
     value := ""; files := []; selectionStart := 0; selectionEnd := 0;
     rect_width := 300; rect_height := 80 |}.

Definition empty_form_page : Document := form empty_area.

(** A text of two lines separated by CR LF, and the same text with one
    LF between the lines. *)
Definition two_lines : string :=
  String "a" (String JsString.CR (String JsString.LF "b")).
Definition two_lines_read : string :=
  String "a" (String JsString.LF "b").

Definition form_start : World := initial form_page claude_new.
Definition blank_form_start : World := initial blank_form_page claude_new.
Definition empty_form_start : World := initial empty_form_page claude_new.
Definition composer_start : World := initial composer_page claude_new.

(** The path of the text area in the form, of the file input, and of
    the editable region in the composer. *)
Definition area_path : Path := [0; 1; 0; 0].
Definition file_input_path : Path := [0; 1; 0; 1].
Definition region_path : Path := [0; 1; 0; 1].

Definition region : ElemData :=
  {| uid := 6; localName := "div";
     attrs := [("contenteditable", "true"); ("data-testid", "composer-input")];
     value := ""; files := []; selectionStart := 0; selectionEnd := 0;
     rect_width := 0; rect_height := 0 |}.

Definition notes : File :=
  {| file_name := "notes.txt"; file_type := "text/plain"; file_size := 12 |}.

(** A page whose send button is found by its icon only. *)
Definition icon_page : Document :=
  [element 1 "html" []
     [element 2 "head" [] [];
      element 3 "body" []
        [element 4 "div" [("contenteditable", "true")] [Text "hello"];
         element 5 "button" []
           [element 6 "svg" [("viewBox", "0 0 16 16")] []]]]].

(** The state in which the call with index [n] of a DOM API raises
    [msg]. *)
Definition failing_at (n : nat) (msg : string) (w : World) : World :=
  upd_fault_at (fun _ k => if Nat.eqb k n then Some msg else None) w.

(** The composer page, where the second call of a DOM API, [focus()] in
    [insertText], raises. *)
Definition focus_raises : World :=
  failing_at 1 "NotAllowedError" (initial composer_page claude_new).

(** The icon page, where the third call of a DOM API, the query with
    the [:has()] selector in [submitForm], raises. *)
Definition has_selector_raises : World :=
  failing_at 2 "SyntaxError" (initial icon_page claude_new).

(** The composer page with an enabled send button, as a fresh instance
    of the adapter finds it. *)
Definition fresh : World := initial composer_page_enabled claude_new.

(** [submitChatInput(600)] is called on the composer page while the send
    button is disabled: the promise has id 1 and the interval handle 2. *)
Definition submit_called : World :=
  exec (ChatInputHandler.submitChatInput 600) (initial composer_page claude_new).

(** The page then enables the button, and the interval ticks once. *)
Definition after_first_tick : World :=
  run [HostRenders composer_page_enabled; Run 2] submit_called.

(** The interval ticks twice more, which uses up the 600 ms. *)
Definition after_third_tick : World :=
  run [Run 2; Run 2] after_first_tick.

(** The send button carries [aria-disabled="true"], not [disabled]. *)
Definition composer_page_aria : Document := composer [("aria-disabled", "true")].

(** The call when the send button is enabled. *)
Definition submit_called_enabled : World :=
  exec (ChatInputHandler.submitChatInput 600) fresh.

Definition submit_called_aria : World :=
  exec (ChatInputHandler.submitChatInput 600) (initial composer_page_aria claude_new).

(** [initialize()] and [activate()] are called, and the timeout of
    [waitForPageReady] (handle 2) fires: the control is mounted. *)
Definition mounted : World := run [CallInitialize; CallActivate; Run 2] fresh.


(** A new instance of the adapter on the page on which an earlier
    instance has mounted the control. *)
Definition second_instance : World := initial (document mounted) claude_new.

(** The control is mounted, and the two calls of a DOM API with
    indices 19 and 20, [removeChild()] and [remove()] in
    [cleanupUIIntegration], will raise. *)
Definition removal_raises : World :=
  upd_fault_at
    (fun _ k => if Nat.eqb k 19 || Nat.eqb k 20 then Some "NotFoundError" else None)
    mounted.

End Scenario.

(** ** Further example pages *)

Module Cases.
Import Dom Selector Effects DomApi ClaudeAdapter Lifecycle.

(** A search field: an [input] element that is neither a text area nor
    editable. *)
Definition search_field : ElemData :=
  {| uid := 4; localName := "input"; attrs := [("type", "search")];
     value := "query"; files := []; selectionStart := 0; selectionEnd := 0;
     rect_width := 200; rect_height := 30 |}.

Definition search_page : Document :=
  [element 1 "html" []
     [element 2 "head" [] [];
      element 3 "body" [] [Elem search_field []]]].

Definition search_path : Path := [0; 1; 0].
Definition search_start : World := initial search_page Scenario.claude_new.

(** A send button with a layout box. *)
Definition send_button (a : list (string * string)) (width height : N) : ElemData :=
  {| uid := 5; localName := "button"; attrs := ("aria-label", "Send message") :: a;
     value := ""; files := []; selectionStart := 0; selectionEnd := 0;
     rect_width := width; rect_height := height |}.

(** An editable region that holds a draft, followed by a send button. *)
Definition chat (send : ElemData) : Document :=
  [element 1 "html" []
     [element 2 "head" [] [];
      element 3 "body" []
        [element 4 "div" [("contenteditable", "true")]
           [Text "draft"; element 6 "br" [] []];
         Elem send []]]].

Definition editor : ElemData :=
  {| uid := 4; localName := "div"; attrs := [("contenteditable", "true")];
     value := ""; files := []; selectionStart := 0; selectionEnd := 0;
     rect_width := 0; rect_height := 0 |}.

Definition editor_path : Path := [0; 1; 0].
Definition send_path : Path := [0; 1; 1].

Definition chat_page : Document := chat (send_button [] 32 32).
Definition chat_start : World := initial chat_page Scenario.claude_new.

(** The same page with the send button disabled, collapsed, and
    disabled for assistive technology only. *)
Definition chat_disabled : World :=
  initial (chat (send_button [("disabled", "")] 32 32)) Scenario.claude_new.
Definition chat_collapsed : World :=
  initial (chat (send_button [] 0 32)) Scenario.claude_new.
Definition chat_aria_disabled : World :=
  initial (chat (send_button [("aria-disabled", "true")] 32 32)) Scenario.claude_new.

(** A page without chat input and without buttons. *)
Definition empty_page : Document :=
  [element 1 "html" [] [element 2 "head" [] []; element 3 "body" [] []]].
Definition empty_start : World := initial empty_page Scenario.claude_new.


(** The chat page while a poll of [submitChatInput] for promise 1 runs
    under the handle 7, started when the send button was disabled. *)
Definition polling : World :=
  upd_pending (fun m => <[7 := SubmitPoll 1 editor_path 0 5000]> m) chat_start.

(** The same poll after 4800 of its 5000 ms. *)
Definition polling_late : World :=
  upd_pending (fun m => <[7 := SubmitPoll 1 editor_path 4800 5000]> m) chat_start.

(** The empty page once [setupUIIntegration] has scheduled the first
    check of [waitForPageReady], under the handle 1. *)
Definition waiting : World := exec setupUIIntegration empty_start.

(** The empty page after a manual injection request: the first attempt
    has failed and the second is scheduled under the handle 1. *)
Definition retrying : World := exec injectMCPPopoverManually empty_start.

(** The control is mounted, and then the host page renders the composer
    anew, which drops the container. *)
Definition rerendered : World :=
  step (HostRenders Scenario.composer_page_rerendered) Scenario.mounted.

(** A fresh instance on the composer page, in a run in which every call
    of a DOM API raises. *)
Definition hostile : World :=
  Notions.created Scenario.composer_page_enabled Scenario.claude_new
    (fun _ => Some "NotAllowedError").

End Cases.

(** ** Invariants of the life cycle *)

Module Invariants.
Import Dom Selector Effects Notions.

(** At most one element of the document has the id of the container. *)
Definition at_most_one (w : World) : Prop := containers w <= 1.

(** At most one element of the document has the id of the style
    sheet. *)
Definition at_most_one_style (w : World) : Prop := style_sheets w <= 1.

(** No element of the document has the id of the container. *)
Definition no_container (w : World) : Prop := containers w = 0.

(** The data of a style element as [injectClaudeButtonStyles] makes it. *)
Definition style_data (d : ElemData) : bool :=
  String.eqb (localName d) "style" &&
  bool_decide (attrs d = [("id", Lifecycle.style_id)]).

Definition no_elements (l : list Node) : bool :=
  forallb (fun n => negb (is_element n)) l.

(** Every element in and below [n] that has the id of the style sheet is
    a style element as the adapter makes it, with no element inside. *)
Fixpoint plain_node (n : Node) : bool :=
  match n with
  | Text _ => true
  | Elem d kids =>
      implb (is_style d) (style_data d && no_elements kids) &&
      (fix go (l : list Node) : bool :=
         match l with
         | [] => true
         | k :: l' => plain_node k && go l'
         end) kids
  end.

Fixpoint plain_forest (l : list Node) : bool :=
  match l with
  | [] => true
  | k :: l' => plain_node k && plain_forest l'
  end.

(** No DOM call raises and the document has [n] containers. *)
Definition bare (n : nat) (w : World) : Prop :=
  faultless w /\ containers w = n.

(** No DOM call raises, the style sheets are the adapter's own and the
    document has [n] containers. *)
Definition holds (n : nat) (w : World) : Prop :=
  faultless w /\ plain_forest (document w) = true /\ containers w = n.

(** A property of the state that depends on the document, the handle
    and the oracle only. *)
Definition closed (P : World -> Prop) : Prop :=
  forall w w', core w' = core w -> P w -> P w'.

(** One of the selectors of [findButtonInsertionPoint] selects an
    element of the document. *)
Definition has_insertion_point (f : Document) : bool :=
  existsb (fun sel => match querySelector sel f with
                      | Some _ => true
                      | None => false
                      end)
    insertion_selectors.

(** What a test of a compound selector reads of the data of an element,
    for the tests that read nothing else. *)
Definition atom_on_data (a : Atom) (d : ElemData) : bool :=
  match a with
  | Tag name => String.eqb (localName d) name
  | AttrEq name v => attr_is d name v
  | AttrContains name v =>
      match getAttribute d name with
      | Some x => JsString.truthy v && JsString.includes v x
      | None => false
      end
  | Class name => has_class d name
  | LastChild => false
  end.

Definition data_selects (sel : Selector) (d : ElemData) : bool :=
  existsb (fun s => match s with
                    | Single c => forallb (fun a => atom_on_data a d) (atoms c)
                    | Descendant _ _ => false
                    end) sel.

(** A page on which [activate] leads to the control: no DOM call
    raises, there is no container yet, there is an insertion point, and
    the document has a body. *)
Definition ready (w : World) : Prop :=
  faultless w /\ containers w = 0 /\
  has_insertion_point (document w) = true /\
  Lifecycle.body_path (document w) <> None.

(** The page is ready and the next timer gets the handle [h]. *)
Definition ready_at (h : nat) (w : World) : Prop :=
  ready w /\ next_handle w = h.

(** What the invariants depend on, and the handle of the next timer. *)
Definition view (w : World) : Document * option nat * (nat -> option string) * nat :=
  (core w, next_handle w).

(** The status of the adapter. *)
Definition status (w : World) : Status := currentStatus (adapter w).

(** The table of pending callbacks and the two interval handles of the
    adapter. *)
Definition timers (w : World) : gmap nat Task * option nat * option nat :=
  (pending w, urlCheckInterval (adapter w), popoverCheckInterval (adapter w)).

Definition frame (w : World) :=
  (core w, timers w).


(** No DOM call raises, the timers are [T], and the document has at most
    [c] containers and [s] style sheets of the adapter. *)
Definition tidy (T : gmap nat Task * option nat * option nat) (c s : nat)
    (w : World) : Prop :=
  faultless w /\ timers w = T /\ containers w <= c /\ style_sheets w <= s.

(** The same, once the handle is released. *)
Definition released (T : gmap nat Task * option nat * option nat) (c s : nat)
    (w : World) : Prop :=
  tidy T c s w /\ handle w = None.

(** The state of a page that only the adapter has touched, seen from
    the injection handle: no DOM call raises, the style sheets are the
    adapter's own, there is at most one container, and the handle is null
    exactly when there is none. *)
Definition consistent (w : World) : Prop :=
  faultless w /\
  plain_forest (document w) = true /\
  containers w <= 1 /\
  (handle w = None <-> containers w = 0).

End Invariants.

(** ** Notions for reasoning about runs *)

Section Logic.
Import Dom Selector Effects Notions.

(** What holds of every result that [m] returns. *)
Definition returns {A} (m : M A) (Q : A -> World -> Prop) : Prop :=
  forall w a w', m w = (Ok a, w') -> Q a w'.

(** A computation that never raises. *)
Definition total {A} (m : M A) : Prop := forall w, exists a w', m w = (Ok a, w').

(** A result that is true, or false with a failure event of the tool
    as the last event on the bus. *)
Definition ok_or_reported (tool : string) (b : bool) (w : World) : Prop :=
  b = false -> failure_reported tool w.

(** [m] calls no [resolve], however it ends. *)
Definition silent {A} (m : M A) : Prop :=
  forall w r w', m w = (r, w') -> resolved w' = resolved w.

(** When [m] raises, it has called no [resolve]. *)
Definition quiet {A} (m : M A) : Prop :=
  forall w msg w', m w = (Throw msg, w') -> resolved w' = resolved w.

(** The data and the children in the frame of [e] are those of the
    element at the path [q] below the list [l]. *)
Definition frame_at (q : Path) (l : list Node) (e : Entry) : Prop :=
  elem_at q l = Some (f_data (e_frame e), f_kids (e_frame e)).

Definition node_entries_valid (n : Node) : Prop :=
  forall here anc lastc e,
    In e (entries_node here anc lastc n) ->
    exists q, e_path e = here ++ q /\ frame_at (0 :: q) [n] e.

Definition forest_entries_valid (l : list Node) : Prop :=
  forall here anc i e,
    In e (entries_from here anc i l) ->
    exists j q, e_path e = here ++ (i + j) :: q /\ frame_at (j :: q) l e.

(** From a state that satisfies [P], [m] returns in a state that
    satisfies [Q] with its result, or raises in a state that satisfies
    [E]. *)
Definition hoare {A} (P : World -> Prop) (m : M A)
    (Q : A -> World -> Prop) (E : World -> Prop) : Prop :=
  forall w, P w ->
    match m w with
    | (Ok a, w') => Q a w'
    | (Throw _, w') => E w'
    end.

(** [m] maintains [I]: from a state that satisfies [I] it ends, one way
    or the other, in a state that satisfies [I]. *)
Definition maintains {A} (I : World -> Prop) (m : M A) : Prop :=
  hoare I m (fun _ => I) I.

(** [m] does not change the part [proj] of the state, however it
    ends. *)
Definition keeps {T A} (proj : World -> T) (m : M A) : Prop :=
  forall w r w', m w = (r, w') -> proj w' = proj w.

(** In a state that satisfies [P], [m] returns, in a state that satisfies
    [P]. *)
Definition calm (P : World -> Prop) {A} (m : M A) : Prop :=
  forall E, hoare P m (fun _ => P) E.

(** The reasons that [attachFile] reports. *)
Definition empty_file_error : string := "Invalid file: file is empty or null".
Definition unsupported_error : string := "File upload not supported on current page".

End Logic.

(** ** Notions for the statements about the handler and the timers *)

Module Observations.
Import Dom Selector Effects DomApi ChatInputHandler Notions.

(** In a run without faults [m] returns [g] of the document and changes
    nothing but the count of API calls. *)
Definition lookup {A} (m : M A) (g : Document -> A) : Prop :=
  forall w, faultless w ->
    exists n, m w = (Ok (g (document w)), after_calls n w).

(** [lastFoundInputElement || findChatInputElement()] is the element at
    [ci]. *)
Definition chat_input_is (ci : Path) (w : World) : Prop :=
  lastFoundInputElement w = Some ci \/
  (lastFoundInputElement w = None /\ (findChatInputElement w).1 = Ok (Some ci)).

(** The events of the alternative methods of [submitChatInput]: a submit
    event at the form around the chat input, or else the three key
    events at the chat input. *)
Definition alternative_events (ci : Path) (f : Document) : list (Path * DomEvent) :=
  match closest ci form f with
  | Some e => [(e_path e, SubmitEvent)]
  | None => [(ci, KeyboardEvent "keydown"); (ci, KeyboardEvent "keypress");
             (ci, KeyboardEvent "keyup")]
  end.

(** The timers as the adapter sees them: the pending callbacks, the
    next handle, and the handle of the URL poll that the adapter holds. *)
Definition clock (w : World) : gmap nat Task * nat * option nat :=
  (pending w, next_handle w, urlCheckInterval (adapter w)).

(** The URL poll is the adapter's: a pending callback of the URL poll is
    the one whose handle the adapter holds, and no callback is pending
    under a handle that is still to be given out. *)
Definition url_poll_held (w : World) : Prop :=
  (forall h, pending w !! h = Some UrlCheck ->
             urlCheckInterval (adapter w) = Some h) /\
  (forall h, next_handle w <= h -> pending w !! h = None).

(** No callback of the URL poll is pending. *)
Definition no_url_poll (w : World) : Prop :=
  url_poll_held w /\ forall h, pending w !! h <> Some UrlCheck.

(** The callbacks of the table [m] are still pending, under handles
    that have been given out. *)
Definition still_pending (m : gmap nat Task) (w : World) : Prop :=
  (forall k t, m !! k = Some t -> pending w !! k = Some t) /\
  (forall k t, m !! k = Some t -> k < next_handle w).

End Observations.

(** * Properties *)

(** ** Strings and regular expressions *)

Section StringFacts.

Lemma append_nil_l s : "" +:+ s = s.
Proof. reflexivity. Qed.

Lemma append_cons c s t : String c s +:+ t = String c (s +:+ t).
Proof. reflexivity. Qed.

Lemma append_nil_r s : s +:+ "" = s.
Proof. induction s as [|c s IH]; [reflexivity|]. now rewrite append_cons, IH. Qed.

Lemma append_assoc s t u : (s +:+ t) +:+ u = s +:+ (t +:+ u).
Proof. induction s as [|c s IH]; [reflexivity|]. now rewrite !append_cons, IH. Qed.

Lemma prefix_cons a p c s :
  String.prefix (String a p) (String c s) = Ascii.eqb a c && String.prefix p s.
Proof.
  simpl. destruct (Ascii.ascii_dec a c) as [->|Hne].
  - now rewrite Ascii.eqb_refl.
  - apply Ascii.eqb_neq in Hne. now rewrite Hne.
Qed.

Lemma prefix_split p s :
  String.prefix p s = true <-> exists rest, s = p +:+ rest.
Proof.
  revert s. induction p as [|a p IH]; intros s.
  - split; [intros _; now exists s|]. intros _. now destruct s.
  - destruct s as [|c s].
    + split; [discriminate|]. intros [rest Heq]. discriminate.
    + rewrite prefix_cons, andb_true_iff, Ascii.eqb_eq, IH.
      split.
      * intros [-> [rest ->]]. now exists rest.
      * intros [rest Heq]. rewrite append_cons in Heq.
        injection Heq as -> ->. eauto.
Qed.


(** *** Line breaks *)

Lemma normalize_newlines_no_CR s :
  JsString.no_CR (JsString.normalize_newlines s) = true.
Proof.
  induction s as [|c s IH]; [reflexivity|].
  cbn [JsString.normalize_newlines].
  destruct (Ascii.eqb c JsString.CR) eqn:Hc.
  - destruct s as [|c' s]; [reflexivity|].
    destruct (Ascii.eqb c' JsString.LF); [exact IH|].
    cbn [JsString.no_CR]. now rewrite IH.
  - cbn [JsString.no_CR]. now rewrite Hc, IH.
Qed.

(** A string without carriage return is kept as it is. *)
Lemma normalize_newlines_plain s :
  JsString.no_CR s = true -> JsString.normalize_newlines s = s.
Proof.
  induction s as [|c s IH]; [reflexivity|].
  cbn [JsString.no_CR JsString.normalize_newlines].
  intros [Hc Hs]%andb_true_iff. apply negb_true_iff in Hc.
  now rewrite Hc, IH.
Qed.

Lemma normalize_newlines_idempotent s :
  JsString.normalize_newlines (JsString.normalize_newlines s)
  = JsString.normalize_newlines s.
Proof. apply normalize_newlines_plain, normalize_newlines_no_CR. Qed.

(** After a string without carriage return the line breaks of what
    follows are normalised on their own. *)
Lemma normalize_newlines_app s t :
  JsString.no_CR s = true ->
  JsString.normalize_newlines (s +:+ t) = s +:+ JsString.normalize_newlines t.
Proof.
  induction s as [|c s IH]; [reflexivity|].
  cbn [JsString.no_CR]. intros [Hc Hs]%andb_true_iff. apply negb_true_iff in Hc.
  rewrite !append_cons. cbn [JsString.normalize_newlines].
  now rewrite Hc, IH.
Qed.

End StringFacts.

Section RegExpFacts.
Import RegExp.

Lemma matches_Void s : matches Void s = false.
Proof. induction s; simpl; auto. Qed.

Lemma matches_prefix_Void s : matches_prefix Void s = false.
Proof. induction s; simpl; auto. Qed.

Lemma matches_Alt r1 r2 s : matches (Alt r1 r2) s = matches r1 s || matches r2 s.
Proof. revert r1 r2. induction s; intros; simpl; auto. Qed.

Lemma matches_prefix_Alt r1 r2 s :
  matches_prefix (Alt r1 r2) s = matches_prefix r1 s || matches_prefix r2 s.
Proof.
  revert r1 r2. induction s as [|c s IH]; intros; simpl.
  - now rewrite !orb_false_r.
  - rewrite IH.
    destruct (nullable r1), (nullable r2),
      (matches_prefix (deriv c r1) s), (matches_prefix (deriv c r2) s);
      reflexivity.
Qed.

Lemma matches_Seq_Void r s : matches (Seq Void r) s = false.
Proof. induction s; simpl; auto. Qed.

Lemma matches_prefix_Seq_Void r s : matches_prefix (Seq Void r) s = false.
Proof. induction s; simpl; auto. Qed.

Lemma matches_Seq_Eps r s : matches (Seq Eps r) s = matches r s.
Proof.
  destruct s as [|c s]; simpl; auto.
  now rewrite matches_Alt, matches_Seq_Void.
Qed.

Lemma matches_prefix_Seq_Eps r s :
  matches_prefix (Seq Eps r) s = matches_prefix r s.
Proof.
  destruct s as [|c s]; simpl; auto.
  now rewrite matches_prefix_Alt, matches_prefix_Seq_Void.
Qed.

(** A character followed by [r] matches a string that starts with the
    character and goes on with a match of [r]. *)
Lemma matches_Seq_Chr a r c s :
  matches (Seq (Chr a) r) (String c s) = Ascii.eqb a c && matches r s.
Proof.
  simpl. destruct (Ascii.eqb a c); simpl.
  - apply matches_Seq_Eps.
  - apply matches_Seq_Void.
Qed.

Lemma matches_prefix_Seq_Chr a r c s :
  matches_prefix (Seq (Chr a) r) (String c s)
  = Ascii.eqb a c && matches_prefix r s.
Proof.
  simpl. destruct (Ascii.eqb a c); simpl.
  - apply matches_prefix_Seq_Eps.
  - apply matches_prefix_Seq_Void.
Qed.

(** [^p.*] tests that the string starts with [p]. *)
Lemma matches_prefix_chars_then_any p s :
  matches_prefix (chars_then p (Star Dot)) s = String.prefix p s.
Proof.
  revert s. induction p as [|a p IH]; intros s.
  - now destruct s.
  - destruct s as [|c s]; [reflexivity|].
    cbn [chars_then]. now rewrite matches_prefix_Seq_Chr, prefix_cons, IH.
Qed.

(** [^p$] tests that the string is [p]. *)
Lemma matches_chars_then_end p s :
  matches (chars_then p Eps) s = String.eqb p s.
Proof.
  revert s. induction p as [|a p IH]; intros s.
  - destruct s; simpl; auto using matches_Void.
  - destruct s as [|c s]; [reflexivity|].
    cbn [chars_then]. now rewrite matches_Seq_Chr, IH.
Qed.

End RegExpFacts.

(** ** [isSupported] *)

Section SupportedUrlFacts.
Import Notions.
Import RegExp SupportedUrl.

(** What the four patterns test, in terms of the URL. *)
Lemma isSupported_unfold loc :
  isSupported loc =
    JsString.includes "claude.ai" (hostname loc) &&
    (String.prefix "https://claude.ai/chat/" (href loc)
     || String.prefix "https://claude.ai/new" (href loc)
     || String.prefix "https://claude.ai/project/" (href loc)
     || String.eqb "https://claude.ai" (href loc)).
Proof.
  unfold isSupported, hostnames, supportedPatterns.
  cbn [existsb]. rewrite !orb_false_r.
  destruct (JsString.includes "claude.ai" (hostname loc)); [|reflexivity].
  cbn [negb andb].
  unfold test, match_here, chat_view, new_view, project_view, bare_root.
  cbn [bol eol body].
  now rewrite !matches_prefix_chars_then_any, matches_chars_then_end, !orb_assoc.
Qed.


(** *** Query strings *)

Lemma prefix_ignores_tail p base t :
  no_delimiter p = true -> is_tail t = true ->
  String.prefix p (base +:+ t) = String.prefix p base.
Proof.
  revert base. induction p as [|a p IH]; intros base Hp Ht.
  - now destruct base, t.
  - cbn [no_delimiter] in Hp. apply andb_true_iff in Hp as [Ha Hp].
    destruct base as [|c base].
    + destruct t as [|c t]; [reflexivity|].
      rewrite append_nil_l, prefix_cons.
      cbn [is_tail] in Ht. apply negb_true_iff, orb_false_iff in Ha as [Ha1 Ha2].
      apply orb_true_iff in Ht as [Ht|Ht]; apply Ascii.eqb_eq in Ht as ->.
      * now rewrite Ha1.
      * now rewrite Ha2.
    + rewrite append_cons, !prefix_cons, IH; auto.
Qed.

Lemma is_tail_query_fragment q h :
  is_query q = true -> is_fragment h = true -> is_tail (q +:+ h) = true.
Proof.
  intros Hq Hh. destruct q as [|c q].
  - rewrite append_nil_l. destruct h as [|c h]; [reflexivity|].
    cbn [is_fragment] in Hh. cbn [is_tail]. rewrite Hh. apply orb_true_r.
  - rewrite append_cons. cbn [is_query] in Hq. cbn [is_tail]. now rewrite Hq.
Qed.

Lemma slashes_app a b : slashes (a +:+ b) = slashes a + slashes b.
Proof.
  induction a as [|c a IH]; [reflexivity|].
  rewrite append_cons. cbn [slashes]. rewrite IH. lia.
Qed.

Lemma slashes_absolute path : absolute path = true -> 1 <= slashes path.
Proof.
  destruct path as [|c path]; [discriminate|].
  cbn [absolute slashes]. intros ->. lia.
Qed.

(** The path of the serialised URL follows the two slashes of the
    authority, so the URL has three slashes at least; the pattern for the
    bare root, which admits two, does not match it. *)
Lemma href_not_bare_root u :
  absolute (u_pathname u) = true ->
  String.eqb "https://claude.ai" (href (location_of u)) = false.
Proof.
  intros Hp. apply String.eqb_neq. intros Heq.
  apply (f_equal slashes) in Heq. revert Heq.
  unfold location_of, origin. cbn [href].
  rewrite !slashes_app.
  pose proof (slashes_absolute _ Hp).
  change (slashes "https://claude.ai") with 2.
  change (slashes "//") with 2. lia.
Qed.

Lemma href_with_search q u :
  href (location_of (with_search q u)) =
    (origin u +:+ u_pathname u) +:+ (q +:+ u_hash u).
Proof.
  unfold location_of, with_search, origin. cbn [href u_protocol u_credentials
    u_hostname u_port u_pathname u_search u_hash].
  now rewrite !append_assoc.
Qed.

Lemma prefix_longer a b s :
  String.prefix a s = false -> String.prefix (a +:+ b) s = false.
Proof.
  intros Ha. destruct (String.prefix (a +:+ b) s) eqn:Hab; [|reflexivity].
  apply prefix_split in Hab as [rest ->].
  rewrite append_assoc in Ha.
  assert (Ht : String.prefix a (a +:+ b +:+ rest) = true)
    by (apply prefix_split; eauto).
  congruence.
Qed.

(** A URL that does not start with [https://] matches none of the
    patterns. *)
Lemma isSupported_https_only loc :
  String.prefix "https://" (href loc) = false -> isSupported loc = false.
Proof.
  intros Hs. rewrite isSupported_unfold.
  rewrite (prefix_longer "https://" "claude.ai/chat/") by exact Hs.
  rewrite (prefix_longer "https://" "claude.ai/new") by exact Hs.
  rewrite (prefix_longer "https://" "claude.ai/project/") by exact Hs.
  destruct (String.eqb "https://claude.ai" (href loc)) eqn:He.
  - apply String.eqb_eq in He. rewrite <- He in Hs. discriminate Hs.
  - apply andb_false_r.
Qed.

(** C3: for the location of a page, changing only the query string
    (scheme, authority, path and fragment stay) never changes the result
    of [isSupported()]. This holds in particular at the bare root, whose
    [location.href] is [https://claude.ai/]: with its slash it matches
    none of the four patterns, so the result there is false with and
    without a query string. A location whose URL is no https URL is
    not supported, whatever its query string. *)
Theorem isSupported_query_independent u q1 q2 :
  absolute (u_pathname u) = true ->
  is_fragment (u_hash u) = true ->
  is_query q1 = true -> is_query q2 = true ->
  isSupported (location_of (with_search q1 u))
  = isSupported (location_of (with_search q2 u)) /\
  (origin u = "https://claude.ai" -> u_pathname u = "/" ->
   isSupported (location_of (with_search q1 u)) = false) /\
  (forall loc, String.prefix "https://" (href loc) = false ->
               isSupported loc = false).
Proof.
  intros Hp Hh H1 H2.
  assert (Hview : forall q, is_query q = true ->
            isSupported (location_of (with_search q u)) =
              JsString.includes "claude.ai" (u_hostname u) &&
              (String.prefix "https://claude.ai/chat/" (origin u +:+ u_pathname u)
               || String.prefix "https://claude.ai/new" (origin u +:+ u_pathname u)
               || String.prefix "https://claude.ai/project/" (origin u +:+ u_pathname u))).
  { intros q Hq. rewrite isSupported_unfold.
    rewrite (href_not_bare_root (with_search q u)) by exact Hp.
    rewrite orb_false_r, href_with_search.
    pose proof (is_tail_query_fragment q (u_hash u) Hq Hh) as Ht.
    rewrite (prefix_ignores_tail "https://claude.ai/chat/") by (reflexivity || exact Ht).
    rewrite (prefix_ignores_tail "https://claude.ai/new") by (reflexivity || exact Ht).
    rewrite (prefix_ignores_tail "https://claude.ai/project/") by (reflexivity || exact Ht).
    reflexivity. }
  split; [|split].
  - now rewrite !Hview.
  - intros Ho Hroot. rewrite Hview, Ho, Hroot by assumption.
    apply andb_false_r.
  - apply isSupported_https_only.
Qed.

(** At [https://claude.ai/chat/abc] the query strings [?a=1] and [?b=2]
    give the same result, and at the bare root the result is false with
    and without a query string. *)
Lemma isSupported_query_independent_witness :
  isSupported (location_of (with_search "?a=1" chat_url))
  = isSupported (location_of (with_search "?b=2" chat_url)) /\
  isSupported (location_of (with_search "?a=1" root_url)) = false /\
  isSupported (location_of (with_search "" root_url)) = false.
Proof.
  split; [|split].
  - refine (proj1 (isSupported_query_independent chat_url "?a=1" "?b=2"
                     _ _ _ _)); reflexivity.
  - refine (proj1 (proj2 (isSupported_query_independent root_url "?a=1" ""
                            _ _ _ _)) _ _); reflexivity.
  - refine (proj1 (proj2 (isSupported_query_independent root_url "" "?a=1"
                            _ _ _ _)) _ _); reflexivity.
Defined.

End SupportedUrlFacts.

(** ** Running the monad *)

Section MonadFacts.
Import Dom Selector Effects DomApi.

Context {A B : Type}.

Lemma run_bind (m : M A) (k : A -> M B) w :
  (m ≫= k) w =
    match m w with
    | (Ok a, w') => k a w'
    | (Throw msg, w') => (Throw msg, w')
    end.
Proof. reflexivity. Qed.

Lemma run_bind_ret (a : A) (k : A -> M B) w : (ret a ≫= k) w = k a w.
Proof. reflexivity. Qed.

Lemma run_bind_read (f : World -> A) (k : A -> M B) w :
  (read f ≫= k) w = k (f w) w.
Proof. reflexivity. Qed.

Lemma run_bind_throw msg (k : A -> M B) w :
  (throw msg ≫= k) w = (Throw msg, w).
Proof. reflexivity. Qed.

Lemma run_bind_call (f : World -> A * World) (k : A -> M B) w :
  fault_at w (calls w) = None ->
  (dom_call f ≫= k) w = k (f (upd_calls S w)).1 (f (upd_calls S w)).2.
Proof.
  intros H. unfold mbind, M_bind, bind, dom_call. rewrite H.
  now destruct (f (upd_calls S w)).
Qed.

Lemma run_bind_get (f : World -> A) (k : A -> M B) w :
  fault_at w (calls w) = None ->
  (dom_get f ≫= k) w = k (f (upd_calls S w)) (upd_calls S w).
Proof. intros H. unfold dom_get. now rewrite run_bind_call. Qed.

Lemma run_bind_call_fault (f : World -> A * World) (k : A -> M B) w msg :
  fault_at w (calls w) = Some msg ->
  (dom_call f ≫= k) w = (Throw msg, upd_calls S w).
Proof. intros H. unfold mbind, M_bind, bind, dom_call. now rewrite H. Qed.

Lemma run_try_catch_ok (body : M A) handler w a w' :
  body w = (Ok a, w') -> try_catch body handler w = (Ok a, w').
Proof. intros H. unfold try_catch. now rewrite H. Qed.

Lemma run_try_catch_throw (body : M A) handler w msg w' :
  body w = (Throw msg, w') -> try_catch body handler w = handler msg w'.
Proof. intros H. unfold try_catch. now rewrite H. Qed.

End MonadFacts.

Section MonadFactsUnit.
Import Dom Selector Effects DomApi.

Context {B : Type}.

Lemma run_bind_do (f : World -> World) (k : unit -> M B) w :
  fault_at w (calls w) = None ->
  (dom_do f ≫= k) w = k tt (f (upd_calls S w)).
Proof. intros H. unfold dom_do. now rewrite run_bind_call. Qed.

Lemma run_bind_modify (f : World -> World) (k : unit -> M B) w :
  (modify f ≫= k) w = k tt (f w).
Proof. reflexivity. Qed.

Lemma run_bind_assoc {A C} (m : M A) (k1 : A -> M C) (k2 : C -> M B) w :
  ((m ≫= k1) ≫= k2) w = (m ≫= (fun a => k1 a ≫= k2)) w.
Proof.
  unfold mbind, M_bind, bind. destruct (m w) as [[a|msg] w']; reflexivity.
Qed.

End MonadFactsUnit.

(** The oracle does not change, whatever runs. *)
Ltac faultless_tac :=
  match goal with
  | H : Effects.faultless _ |- Effects.fault_at _ _ = None => apply H
  | H : Effects.faultless _ |- Effects.faultless _ => intros ?; apply H
  end.

(** ** The document: paths *)

Section PathFacts.
Import Dom.

Lemma node_at_cons i p f :
  node_at (i :: p) f =
    match f !! i with
    | Some n =>
        match p with
        | [] => Some n
        | _ => match n with Elem _ kids => node_at p kids | Text _ => None end
        end
    | None => None
    end.
Proof. reflexivity. Qed.

(** Writing a property of the element at [p] changes the data of that
    element and nothing else at [p]. *)
Lemma elem_at_modify_elem p g f d kids :
  elem_at p f = Some (d, kids) ->
  elem_at p (modify_elem p g f) = Some (g d, kids).
Proof.
  unfold elem_at. revert f. induction p as [|i p IH]; intros f H.
  - discriminate.
  - rewrite node_at_cons in H. cbn [modify_elem].
    destruct (f !! i) as [n|] eqn:Hi; [|discriminate].
    assert (Hlt : i < length f) by (eapply lookup_lt_Some; eauto).
    destruct p as [|j p].
    + destruct n as [d0 kids0|]; [|discriminate]. injection H as -> ->.
      rewrite node_at_cons, list_lookup_insert_eq by assumption. reflexivity.
    + destruct n as [d0 kids0|]; [|discriminate].
      rewrite node_at_cons, list_lookup_insert_eq by assumption.
      apply (IH kids0 H).
Qed.

End PathFacts.

(** ** Element lookup *)

Ltac mstep :=
  first
    [ rewrite run_bind_assoc
    | rewrite run_bind_ret
    | rewrite run_bind_read
    | rewrite run_bind_modify
    | rewrite run_bind_do by faultless_tac
    | rewrite run_bind_get by faultless_tac
    | rewrite run_bind_call by faultless_tac ].

Section LookupFacts.
Import Notions.
Import Dom Selector Effects DomApi ClaudeAdapter.

Lemma query_faultless sel w :
  faultless w ->
  query sel w = (Ok (e_path <$> querySelector sel (document w)),
                 after_calls (S (calls w)) w).
Proof.
  intros H. unfold query, dom_get, dom_call. now rewrite (H (calls w)).
Qed.

Lemma faultless_after_calls n w : faultless w -> faultless (after_calls n w).
Proof. intros H k. apply H. Qed.

(** In a run without faults an element lookup returns and only counts
    its calls. *)
Lemma first_match_faultless sels w :
  faultless w ->
  exists r n, first_match sels w = (Ok r, after_calls n w).
Proof.
  intros H. revert w H. induction sels as [|sel rest IH]; intros w H.
  - exists None, (calls w). destruct w; reflexivity.
  - cbn [first_match]. rewrite run_bind, query_faultless by assumption.
    destruct (e_path <$> querySelector sel (document w)) as [p|].
    + now exists (Some p), (S (calls w)).
    + destruct (IH (after_calls (S (calls w)) w)) as (r & n & Heq).
      { now apply faultless_after_calls. }
      exists r, n. exact Heq.
Qed.

Lemma locate_chat_input_faultless target w :
  faultless w ->
  exists r n, locate_chat_input target w = (Ok r, after_calls n w).
Proof.
  intros H. unfold locate_chat_input. rewrite run_bind_read.
  change (id w) with w.
  destruct target as [p|]; [destruct (has_elem_at p (document w))|];
    auto using first_match_faultless.
  exists (Some p), (calls w). destruct w; reflexivity.
Qed.

End LookupFacts.

(** ** [insertText] on a text area *)

Section InsertTextFacts.
Import Notions.
Import Dom Selector Effects DomApi ClaudeAdapter.

Lemma tagName_TEXTAREA d :
  tagName d = "TEXTAREA" -> String.eqb (tagName d) "TEXTAREA" = true.
Proof. intros ->. reflexivity. Qed.

Lemma data_at_elem p w d kids :
  elem_at p (document w) = Some (d, kids) -> data_at p w = d.
Proof. unfold data_at. now intros ->. Qed.

(** The [try] block of [insertText] on a text area, in a run without
    faults. *)
Lemma insertText_body_textarea text p w d kids :
  faultless w ->
  elem_at p (document w) = Some (d, kids) ->
  tagName d = "TEXTAREA" ->
  exists w' d',
    insertText_body text p w = (Ok true, w') /\
    elem_at p (document w') = Some (d', kids) /\
    value d' = JsString.normalize_newlines (appended (textarea_value d) text) /\
    selectionStart d' = String.length (textarea_value d') /\
    selectionEnd d' = String.length (textarea_value d') /\
    dispatched w' = dispatched w ++ [(p, InputEvent); (p, ChangeEvent)] /\
    commands w' = commands w /\
    bus w' = bus w ++ [ExecutionCompleted "insertText" "TEXTAREA"].
Proof.
  intros H He Ht.
  unfold insertText_body, focus, set_value, set_selectionEnd,
    set_selectionStart, dispatchEvent, construct, emitExecutionCompleted.
  rewrite run_bind_do by faultless_tac.
  rewrite run_bind_read.
  rewrite (data_at_elem p (upd_focused (fun _ => Some p) (upd_calls S w)) d kids He),
    (tagName_TEXTAREA d Ht).
  rewrite !run_bind_assoc.
  rewrite run_bind_do by faultless_tac.
  rewrite run_bind_assoc, run_bind_read.
  erewrite data_at_elem by (apply elem_at_modify_elem; exact He).
  rewrite (tagName_TEXTAREA d Ht).
  repeat mstep.
  eexists _, _. split; [reflexivity|].
  split.
  { cbn [id document upd_document upd_calls upd_dispatched upd_bus upd_focused].
    do 3 eapply elem_at_modify_elem. exact He. }
  cbn [id value textarea_value selectionStart selectionEnd document upd_document
       upd_calls upd_dispatched upd_bus upd_focused dispatched commands bus].
  rewrite Ht, <- !app_assoc. auto 10.
Qed.

Lemma node_at_elem p f d kids :
  elem_at p f = Some (d, kids) -> node_at p f = Some (Elem d kids).
Proof.
  unfold elem_at. destruct (node_at p f) as [[d0 k0|]|]; congruence.
Qed.

Lemma textContent_at_elem p w d kids :
  elem_at p (document w) = Some (d, kids) ->
  textContent_at p w = textContent (Elem d kids).
Proof. intros He. unfold textContent_at. now rewrite (node_at_elem _ _ _ _ He). Qed.

(** The [try] block of [insertText] on an editable region, in a run
    without faults. *)
Lemma insertText_body_contenteditable text p w d kids :
  faultless w ->
  elem_at p (document w) = Some (d, kids) ->
  String.eqb (tagName d) "TEXTAREA" = false ->
  attr_is d "contenteditable" "true" = true ->
  exists w',
    insertText_body text p w = (Ok true, w') /\
    document w' = document w /\
    commands w' = commands w ++ insert_commands (textContent (Elem d kids)) text /\
    dispatched w' = dispatched w ++ [(p, InputEvent); (p, ChangeEvent)].
Proof.
  intros H He Ht Hc.
  unfold insertText_body, focus, move_caret_to_end, execCommand,
    dispatchEvent, construct, emitExecutionCompleted.
  rewrite run_bind_do by faultless_tac.
  rewrite run_bind_read.
  rewrite (data_at_elem p (upd_focused (fun _ => Some p) (upd_calls S w)) d kids He),
    Ht, Hc.
  rewrite run_bind_assoc, run_bind_read.
  rewrite (textContent_at_elem p (upd_focused (fun _ => Some p) (upd_calls S w)) d kids He).
  unfold insert_commands.
  destruct (not_blank (textContent (Elem d kids))).
  - repeat mstep. eexists. split; [reflexivity|].
    cbn [id document commands dispatched upd_document upd_calls upd_dispatched
         upd_bus upd_focused upd_caret upd_commands].
    rewrite <- !app_assoc. auto.
  - repeat mstep. eexists. split; [reflexivity|].
    cbn [id document commands dispatched upd_document upd_calls upd_dispatched
         upd_bus upd_focused upd_caret upd_commands].
    rewrite <- !app_assoc. auto.
Qed.

(** [insertText] once the element is located. *)
Lemma insertText_located text target w p n :
  locate_chat_input target w = (Ok (Some p), after_calls n w) ->
  insertText text target w =
    try_catch (insertText_body text p)
      (fun errorMessage =>
         emitExecutionFailed "insertText" errorMessage ;; ret false)
      (after_calls n w).
Proof. intros Hl. unfold insertText. now rewrite run_bind, Hl. Qed.

End InsertTextFacts.

(** ** [insertTextToChatInput] *)

Section HandlerInsertFacts.
Import Notions.
Import Dom Selector Effects DomApi ClaudeAdapter ChatInputHandler.

Lemma findChatInputElement_faultless w :
  faultless w ->
  exists r l n, findChatInputElement w = (Ok r, found_after l n w).
Proof.
  intros H. unfold findChatInputElement, remember.
  rewrite run_bind, query_faultless by assumption.
  destruct (e_path <$> querySelector composer_input (document w)) as [p|].
  { rewrite run_bind_modify. eexists _, _, _. reflexivity. }
  rewrite run_bind, query_faultless by now apply faultless_after_calls.
  destruct (e_path <$> querySelector any_contenteditable_div _) as [p|].
  { rewrite run_bind_modify. eexists _, _, _. reflexivity. }
  rewrite run_bind, query_faultless by now do 2 apply faultless_after_calls.
  destruct (e_path <$> querySelector reply_or_talk_textarea _) as [p|].
  { rewrite run_bind_modify. eexists _, _, _. reflexivity. }
  exists None, (lastFoundInputElement w), (S (S (S (calls w)))).
  destruct w; reflexivity.
Qed.

Lemma faultless_found_after l n w : faultless w -> faultless (found_after l n w).
Proof. intros H k. apply H. Qed.

(** The branch of [insertTextToChatInput] for a text area, in a run
    without faults. *)
Lemma insertTextToChatInput_textarea text w p d kids :
  faultless w ->
  (findChatInputElement w).1 = Ok (Some p) ->
  elem_at p (document w) = Some (d, kids) ->
  tagName d = "TEXTAREA" ->
  exists w' d',
    insertTextToChatInput text w = (Ok true, w') /\
    elem_at p (document w') = Some (d', kids) /\
    value d' = JsString.normalize_newlines (formatted (textarea_value d) text) /\
    selectionStart d' = String.length (textarea_value d') /\
    selectionEnd d' = String.length (textarea_value d') /\
    dispatched w' = dispatched w ++ [(p, InputEvent)] /\
    commands w' = commands w /\
    focused w' = Some p.
Proof.
  intros H Hf He Ht.
  destruct (findChatInputElement_faultless w H) as (r & l & n & Heq).
  rewrite Heq in Hf. cbn [fst] in Hf. injection Hf as ->.
  pose proof (faultless_found_after l n w H) as H1.
  unfold insertTextToChatInput, try_catch.
  rewrite run_bind, Heq, run_bind_read.
  rewrite (data_at_elem p (found_after l n w) d kids He), (tagName_TEXTAREA d Ht).
  unfold focus, set_value, set_selectionEnd, set_selectionStart,
    dispatchEvent, construct.
  rewrite run_bind_do by faultless_tac.
  rewrite run_bind_read.
  erewrite data_at_elem by (apply elem_at_modify_elem; exact He).
  rewrite (tagName_TEXTAREA d Ht).
  repeat mstep.
  cbn [bind ret]. eexists _, _. split; [reflexivity|].
  split.
  { cbn [id document upd_document upd_calls upd_dispatched upd_bus upd_focused].
    do 3 eapply elem_at_modify_elem. exact He. }
  cbn [id value textarea_value selectionStart selectionEnd document upd_document
       upd_calls upd_dispatched upd_bus upd_focused dispatched commands bus focused].
  rewrite Ht. auto 10.
Qed.

(** The branch of [insertTextToChatInput] for an editable region whose
    text is blank, in a run without faults. *)
Lemma insertTextToChatInput_blank_contenteditable text w p d kids :
  faultless w ->
  (findChatInputElement w).1 = Ok (Some p) ->
  elem_at p (document w) = Some (d, kids) ->
  String.eqb (tagName d) "TEXTAREA" = false ->
  attr_is d "contenteditable" "true" = true ->
  not_blank (textContent (Elem d kids)) = false ->
  exists w',
    insertTextToChatInput text w = (Ok true, w') /\
    document w' = document w /\
    commands w' = commands w ++ [("insertText", text)] /\
    dispatched w' = dispatched w ++ [(p, InputEvent)].
Proof.
  intros H Hf He Ht Hc Hb.
  destruct (findChatInputElement_faultless w H) as (r & l & n & Heq).
  rewrite Heq in Hf. cbn [fst] in Hf. injection Hf as ->.
  pose proof (faultless_found_after l n w H) as H1.
  unfold insertTextToChatInput, try_catch.
  rewrite run_bind, Heq, run_bind_read.
  rewrite (data_at_elem p (found_after l n w) d kids He), Ht, Hc.
  unfold focus, execCommand, dispatchEvent, construct.
  rewrite run_bind_do by faultless_tac.
  rewrite run_bind_read.
  rewrite (textContent_at_elem p
             (upd_focused (fun _ => Some p) (upd_calls S (found_after l n w)))
             d kids He).
  unfold not_blank in Hb. rewrite Hb.
  repeat mstep.
  cbn [bind ret]. eexists. split; [reflexivity|].
  cbn [id document commands dispatched upd_document upd_calls upd_dispatched
       upd_bus upd_focused upd_caret upd_commands upd_lastFoundInputElement
       found_after after_calls].
  auto.
Qed.

End HandlerInsertFacts.

(** ** Appending text to the chat input *)

Section AppendText.
Import Notions.
Import Dom Selector Effects DomApi ClaudeAdapter ChatInputHandler.

(** The value read back after [v], a value without carriage return,
    has been extended by [text]. *)
Lemma appended_read_back v text :
  JsString.no_CR v = true ->
  JsString.normalize_newlines (appended v text) =
    if JsString.truthy v
    then v +:+ JsString.separator +:+ JsString.normalize_newlines text
    else JsString.normalize_newlines text.
Proof.
  intros Hv. unfold appended. destruct (JsString.truthy v); [|reflexivity].
  rewrite normalize_newlines_app by exact Hv.
  now rewrite normalize_newlines_app by reflexivity.
Qed.

Lemma truthy_nonempty v : v <> "" -> JsString.truthy v = true.
Proof. destruct v; [congruence|reflexivity]. Qed.

(** A value that has been set is read back as it is kept. *)
Lemma textarea_value_kept d v :
  value d = JsString.normalize_newlines v ->
  textarea_value d = JsString.normalize_newlines v.
Proof.
  intros Hv. unfold textarea_value. rewrite Hv.
  apply normalize_newlines_idempotent.
Qed.

(** [insertText] on a located text area, in a run without faults. *)
Lemma insertText_textarea text target w p d kids :
  faultless w ->
  elem_at p (document w) = Some (d, kids) ->
  tagName d = "TEXTAREA" ->
  (locate_chat_input target w).1 = Ok (Some p) ->
  exists w' d',
    insertText text target w = (Ok true, w') /\
    elem_at p (document w') = Some (d', kids) /\
    textarea_value d' =
      JsString.normalize_newlines (appended (textarea_value d) text) /\
    selectionStart d' = String.length (textarea_value d') /\
    selectionEnd d' = String.length (textarea_value d') /\
    dispatched w' = dispatched w ++ [(p, InputEvent); (p, ChangeEvent)].
Proof.
  intros H He Ht Hl.
  destruct (locate_chat_input_faultless target w H) as (r & n & Heq).
  rewrite Heq in Hl. cbn [fst] in Hl. injection Hl as ->.
  destruct (insertText_body_textarea text p (after_calls n w) d kids
              (faultless_after_calls n w H) He Ht)
    as (w' & d' & Hrun & He' & Hv & Hs & Hs' & Hd & _ & _).
  exists w', d'.
  rewrite (insertText_located _ _ _ _ _ Heq). unfold try_catch. rewrite Hrun.
  repeat split; auto using textarea_value_kept.
Qed.

(** [insertTextToChatInput] on the text area it finds, in a run without
    faults. *)
Lemma insertTextToChatInput_found_textarea text w p d kids :
  faultless w ->
  elem_at p (document w) = Some (d, kids) ->
  tagName d = "TEXTAREA" ->
  (findChatInputElement w).1 = Ok (Some p) ->
  exists w' d',
    insertTextToChatInput text w = (Ok true, w') /\
    elem_at p (document w') = Some (d', kids) /\
    textarea_value d' =
      JsString.normalize_newlines (appended (textarea_value d) text) /\
    selectionStart d' = String.length (textarea_value d') /\
    selectionEnd d' = String.length (textarea_value d') /\
    dispatched w' = dispatched w ++ [(p, InputEvent)].
Proof.
  intros H He Ht Hf.
  destruct (insertTextToChatInput_textarea text w p d kids)
    as (w' & d' & Hrun & He' & Hv & Hs & Hs' & Hd & _ & _); auto.
  exists w', d'. repeat split; auto.
  now apply textarea_value_kept.
Qed.

(** C4, as it holds: on a located text area [insertText] (of the
    adapter) and [insertTextToChatInput] (of the chat input handler) leave
    as the value of the text area the text with its line breaks
    normalised (every CR LF and every other CR replaced by one LF) when
    the value was empty, and the previous value, the separator of two line
    feeds and that normalised text otherwise; the caret is at the end of
    the value so read back and an input event is dispatched at the text
    area. A text without carriage return is its own normalised text, so
    the value is then exactly the text, or the previous value, the
    separator and the text. *)
Theorem insertText_textarea_appends text target w p d kids :
  faultless w ->
  elem_at p (document w) = Some (d, kids) ->
  tagName d = "TEXTAREA" ->
  (JsString.no_CR text = true -> JsString.normalize_newlines text = text) /\
  ((locate_chat_input target w).1 = Ok (Some p) ->
   exists w' d',
     insertText text target w = (Ok true, w') /\
     elem_at p (document w') = Some (d', kids) /\
     (textarea_value d = "" ->
      textarea_value d' = JsString.normalize_newlines text) /\
     (textarea_value d <> "" ->
      textarea_value d' =
        textarea_value d +:+ JsString.separator
        +:+ JsString.normalize_newlines text) /\
     selectionStart d' = String.length (textarea_value d') /\
     selectionEnd d' = String.length (textarea_value d') /\
     dispatched w' = dispatched w ++ [(p, InputEvent); (p, ChangeEvent)]) /\
  ((findChatInputElement w).1 = Ok (Some p) ->
   exists w' d',
     insertTextToChatInput text w = (Ok true, w') /\
     elem_at p (document w') = Some (d', kids) /\
     (textarea_value d = "" ->
      textarea_value d' = JsString.normalize_newlines text) /\
     (textarea_value d <> "" ->
      textarea_value d' =
        textarea_value d +:+ JsString.separator
        +:+ JsString.normalize_newlines text) /\
     selectionStart d' = String.length (textarea_value d') /\
     selectionEnd d' = String.length (textarea_value d') /\
     dispatched w' = dispatched w ++ [(p, InputEvent)]).
Proof.
  intros H He Ht.
  pose proof (normalize_newlines_no_CR (value d)) as Hplain.
  fold (textarea_value d) in Hplain.
  split; [apply normalize_newlines_plain|]. split.
  - intros Hl.
    destruct (insertText_textarea text target w p d kids H He Ht Hl)
      as (w' & d' & Hrun & He' & Hv & Hs & Hs' & Hd).
    rewrite appended_read_back in Hv by exact Hplain.
    exists w', d'. repeat split; auto.
    + intros Hv0. now rewrite Hv, Hv0.
    + intros Hv0. now rewrite Hv, truthy_nonempty.
  - intros Hf.
    destruct (insertTextToChatInput_found_textarea text w p d kids H He Ht Hf)
      as (w' & d' & Hrun & He' & Hv & Hs & Hs' & Hd).
    rewrite appended_read_back in Hv by exact Hplain.
    exists w', d'. repeat split; auto.
    + intros Hv0. now rewrite Hv, Hv0.
    + intros Hv0. now rewrite Hv, truthy_nonempty.
Qed.

(** On the form whose text area holds a draft, both operations append
    to the draft. *)
Lemma insertText_textarea_appends_witness :
  (JsString.no_CR "hello" = true -> JsString.normalize_newlines "hello" = "hello") /\
  (exists w' d',
     insertText "hello" None Scenario.form_start = (Ok true, w') /\
     elem_at Scenario.area_path (document w') = Some (d', []) /\
     (textarea_value Scenario.draft = "" ->
      textarea_value d' = JsString.normalize_newlines "hello") /\
     (textarea_value Scenario.draft <> "" ->
      textarea_value d' =
        textarea_value Scenario.draft +:+ JsString.separator
        +:+ JsString.normalize_newlines "hello") /\
     selectionStart d' = String.length (textarea_value d') /\
     selectionEnd d' = String.length (textarea_value d') /\
     dispatched w' = dispatched Scenario.form_start ++
       [(Scenario.area_path, InputEvent); (Scenario.area_path, ChangeEvent)]) /\
  (exists w' d',
     insertTextToChatInput "hello" Scenario.form_start = (Ok true, w') /\
     elem_at Scenario.area_path (document w') = Some (d', []) /\
     (textarea_value Scenario.draft = "" ->
      textarea_value d' = JsString.normalize_newlines "hello") /\
     (textarea_value Scenario.draft <> "" ->
      textarea_value d' =
        textarea_value Scenario.draft +:+ JsString.separator
        +:+ JsString.normalize_newlines "hello") /\
     selectionStart d' = String.length (textarea_value d') /\
     selectionEnd d' = String.length (textarea_value d') /\
     dispatched w' = dispatched Scenario.form_start ++
       [(Scenario.area_path, InputEvent)]).
Proof.
  destruct (insertText_textarea_appends "hello" None Scenario.form_start
              Scenario.area_path Scenario.draft []) as (Hn & Ha & Hh).
  - intros n. reflexivity.
  - reflexivity.
  - reflexivity.
  - split; [exact Hn|].
    split; [apply Ha|apply Hh]; vm_compute; reflexivity.
Defined.

(** C4 as stated fails for a text with a carriage return. [insertText]
    with the text [a], CR, LF, [b] on the form whose text area is empty
    leaves the value [a], LF, [b], which is not the text given: the text
    has four characters, the value three, and the caret is at 3. *)
Lemma insertText_normalises_line_breaks :
  textarea_value Scenario.empty_area = "" /\
  String.length Scenario.two_lines = 4 /\
  exists w' d',
    insertText Scenario.two_lines None Scenario.empty_form_start = (Ok true, w') /\
    elem_at Scenario.area_path (document w') = Some (d', []) /\
    textarea_value d' = Scenario.two_lines_read /\
    textarea_value d' <> Scenario.two_lines /\
    selectionStart d' = 3 /\ selectionEnd d' = 3.
Proof.
  split; [reflexivity|]. split; [reflexivity|].
  eexists _, _. split; [vm_compute; reflexivity|].
  split; [vm_compute; reflexivity|].
  repeat split; try reflexivity. discriminate.
Qed.

Lemma not_blank_whitespace_only s : whitespace_only s -> not_blank s = false.
Proof. intros [_ Ht]. unfold not_blank. rewrite Ht. apply andb_false_r. Qed.

(** C10: the two kinds of input differ on content that is only white
    space. On a text area whose value is only white space the separator
    is put before the new text: the value read back afterwards is the
    previous value, the separator and the text (with the line breaks of
    the text normalised, as a text area keeps them). On an editable region
    whose text is only white space the one editing command issued inserts
    the text, and none inserts the separator. This holds for [insertText]
    and for [insertTextToChatInput]. *)
Theorem insertText_whitespace_only_content text target w p d kids :
  faultless w ->
  elem_at p (document w) = Some (d, kids) ->
  (tagName d = "TEXTAREA" -> whitespace_only (textarea_value d) ->
   ((locate_chat_input target w).1 = Ok (Some p) ->
    exists w' d',
      insertText text target w = (Ok true, w') /\
      elem_at p (document w') = Some (d', kids) /\
      textarea_value d' =
        textarea_value d +:+ JsString.separator
        +:+ JsString.normalize_newlines text) /\
   ((findChatInputElement w).1 = Ok (Some p) ->
    exists w' d',
      insertTextToChatInput text w = (Ok true, w') /\
      elem_at p (document w') = Some (d', kids) /\
      textarea_value d' =
        textarea_value d +:+ JsString.separator
        +:+ JsString.normalize_newlines text)) /\
  (tagName d <> "TEXTAREA" -> attr_is d "contenteditable" "true" = true ->
   whitespace_only (textContent (Elem d kids)) ->
   ((locate_chat_input target w).1 = Ok (Some p) ->
    exists w',
      insertText text target w = (Ok true, w') /\
      commands w' = commands w ++ [("insertText", text)]) /\
   ((findChatInputElement w).1 = Ok (Some p) ->
    exists w',
      insertTextToChatInput text w = (Ok true, w') /\
      commands w' = commands w ++ [("insertText", text)])).
Proof.
  intros H He. split.
  - intros Ht [Hne _].
    pose proof (normalize_newlines_no_CR (value d)) as Hplain.
    fold (textarea_value d) in Hplain.
    split; intros Hl.
    + destruct (insertText_textarea text target w p d kids H He Ht Hl)
        as (w' & d' & Hrun & He' & Hv & _).
      exists w', d'.
      rewrite Hv, appended_read_back, truthy_nonempty by assumption. auto.
    + destruct (insertTextToChatInput_found_textarea text w p d kids H He Ht Hl)
        as (w' & d' & Hrun & He' & Hv & _).
      exists w', d'.
      rewrite Hv, appended_read_back, truthy_nonempty by assumption. auto.
  - intros Ht Hc Hw.
    assert (Ht' : String.eqb (tagName d) "TEXTAREA" = false)
      by now apply String.eqb_neq.
    pose proof (not_blank_whitespace_only _ Hw) as Hb.
    split; intros Hl.
    + destruct (locate_chat_input_faultless target w H) as (r & n & Heq).
      rewrite Heq in Hl. cbn [fst] in Hl. injection Hl as ->.
      destruct (insertText_body_contenteditable text p (after_calls n w) d kids
                  (faultless_after_calls n w H) He Ht' Hc)
        as (w' & Hrun & _ & Hcmd & _).
      exists w'.
      rewrite (insertText_located _ _ _ _ _ Heq). unfold try_catch. rewrite Hrun.
      split; [reflexivity|].
      rewrite Hcmd. unfold insert_commands. now rewrite Hb.
    + destruct (insertTextToChatInput_blank_contenteditable text w p d kids)
        as (w' & Hrun & _ & Hcmd & _); eauto.
Qed.

(** On the form whose text area holds two spaces the separator follows
    the spaces; on the composer whose editable region holds two spaces
    the text is the one insertion. Both hold for the operation of the
    adapter and for the one of the chat input handler. *)
Lemma insertText_whitespace_only_content_witness :
  ((exists w' d',
      insertText "hello" None Scenario.blank_form_start = (Ok true, w') /\
      elem_at Scenario.area_path (document w') = Some (d', []) /\
      textarea_value d' =
        textarea_value Scenario.blank +:+ JsString.separator
        +:+ JsString.normalize_newlines "hello") /\
   (exists w' d',
      insertTextToChatInput "hello" Scenario.blank_form_start = (Ok true, w') /\
      elem_at Scenario.area_path (document w') = Some (d', []) /\
      textarea_value d' =
        textarea_value Scenario.blank +:+ JsString.separator
        +:+ JsString.normalize_newlines "hello")) /\
  ((exists w',
      insertText "hello" None Scenario.composer_start = (Ok true, w') /\
      commands w' = commands Scenario.composer_start ++ [("insertText", "hello")]) /\
   (exists w',
      insertTextToChatInput "hello" Scenario.composer_start = (Ok true, w') /\
      commands w' = commands Scenario.composer_start ++ [("insertText", "hello")])).
Proof.
  split.
  - destruct (insertText_whitespace_only_content "hello" None
                Scenario.blank_form_start Scenario.area_path Scenario.blank [])
      as [Ha _].
    + intros n. reflexivity.
    + reflexivity.
    + destruct Ha as [Ha Hh].
      * reflexivity.
      * split; [discriminate|reflexivity].
      * split; [apply Ha|apply Hh]; vm_compute; reflexivity.
  - destruct (insertText_whitespace_only_content "hello" None
                Scenario.composer_start Scenario.region_path Scenario.region
                [Text "  "])
      as [_ Hb].
    + intros n. reflexivity.
    + reflexivity.
    + destruct Hb as [Hb Hh].
      * discriminate.
      * reflexivity.
      * split; [discriminate|reflexivity].
      * split; [apply Hb|apply Hh]; vm_compute; reflexivity.
Defined.

End AppendText.

(** ** [attachFile] *)

Section AttachFileFacts.
Import Dom Selector Effects DomApi ClaudeAdapter.
Import Notions.

Lemma first_match_hit sels w :
  faultless w ->
  exists n, first_match sels w = (Ok (first_hit sels (document w)), after_calls n w).
Proof.
  intros H. revert w H. induction sels as [|sel rest IH]; intros w H.
  - exists (calls w). destruct w; reflexivity.
  - cbn [first_match first_hit]. rewrite run_bind, query_faultless by assumption.
    destruct (querySelector sel (document w)) as [e|]; cbn [fmap option_fmap option_map].
    + now exists (S (calls w)).
    + destruct (IH (after_calls (S (calls w)) w)) as (n & Heq).
      { now apply faultless_after_calls. }
      exists n. exact Heq.
Qed.

Lemma any_match_hit sels w :
  faultless w ->
  exists n,
    any_match sels w =
      (Ok (match first_hit sels (document w) with Some _ => true | None => false end),
       after_calls n w).
Proof.
  intros H. revert w H. induction sels as [|sel rest IH]; intros w H.
  - exists (calls w). destruct w; reflexivity.
  - cbn [any_match first_hit]. rewrite run_bind, query_faultless by assumption.
    destruct (querySelector sel (document w)) as [e|]; cbn [fmap option_fmap option_map].
    + now exists (S (calls w)).
    + destruct (IH (after_calls (S (calls w)) w)) as (n & Heq).
      { now apply faultless_after_calls. }
      exists n. exact Heq.
Qed.

(** [supportsFileUpload()] in a run without faults: a drop zone or a
    file input is in the document. *)
Lemma supportsFileUpload_faultless w :
  faultless w ->
  exists n,
    supportsFileUpload w =
      (Ok (match first_hit selectors.DROP_ZONE (document w),
                 querySelector selectors.FILE_INPUT (document w) with
           | None, None => false
           | _, _ => true
           end),
       after_calls n w).
Proof.
  intros H. unfold supportsFileUpload.
  destruct (any_match_hit selectors.DROP_ZONE w H) as (n & Heq).
  rewrite run_bind, Heq.
  destruct (first_hit selectors.DROP_ZONE (document w)) as [z|].
  - now exists n.
  - rewrite run_bind, query_faultless by now apply faultless_after_calls.
    cbn [document after_calls upd_calls].
    destruct (querySelector selectors.FILE_INPUT (document w)) as [e|];
      cbn [fmap option_fmap option_map]; eexists; reflexivity.
Qed.

Lemma simulateFileDrop_faultless file w z :
  faultless w ->
  first_hit selectors.DROP_ZONE (document w) = Some z ->
  exists w',
    simulateFileDrop file w = (Ok true, w') /\
    faultless w' /\
    document w' = document w /\ bus w' = bus w /\
    dispatched w' = dispatched w ++
      [(z, DragEvent "dragenter" [file]); (z, DragEvent "dragover" [file]);
       (z, DragEvent "drop" [file])].
Proof.
  intros H Hz. unfold simulateFileDrop.
  destruct (first_match_hit selectors.DROP_ZONE w H) as (m & Hm).
  rewrite Hz in Hm.
  eexists. split.
  - apply run_try_catch_ok. rewrite run_bind, Hm.
    unfold new_DataTransfer, dispatchEvent, construct.
    pose proof (faultless_after_calls m w H).
    repeat mstep. reflexivity.
  - cbn [id document upd_document upd_calls upd_dispatched upd_bus dispatched
         bus after_calls].
    rewrite <- !app_assoc. repeat split; auto.
Qed.

(** C7: [attachFile(file)] returns false for an empty file, and when the
    document has neither a file input nor a drop zone. For a file that
    is not empty, when the document has a file input the file becomes its
    [files], a change event is dispatched at it and the result is true;
    when it has none but has a drop zone, [dragenter], [dragover] and
    [drop] events that carry the file are dispatched at the first drop
    zone and the result is true. *)
Theorem attachFile_outcomes file inputElement w :
  faultless w ->
  (file_size file = 0%N ->
   exists w',
     attachFile file inputElement w = (Ok false, w') /\
     document w' = document w /\ dispatched w' = dispatched w /\
     bus w' = bus w ++ [ExecutionFailed "attachFile" empty_file_error]) /\
  (querySelector selectors.FILE_INPUT (document w) = None ->
   first_hit selectors.DROP_ZONE (document w) = None ->
   exists w',
     attachFile file inputElement w = (Ok false, w') /\
     document w' = document w /\ dispatched w' = dispatched w) /\
  (file_size file <> 0%N ->
   forall e d kids,
     querySelector selectors.FILE_INPUT (document w) = Some e ->
     elem_at (e_path e) (document w) = Some (d, kids) ->
     exists w' d',
       attachFile file None w = (Ok true, w') /\
       elem_at (e_path e) (document w') = Some (d', kids) /\
       files d' = [file] /\
       dispatched w' = dispatched w ++ [(e_path e, ChangeEvent)]) /\
  (file_size file <> 0%N ->
   forall z,
     querySelector selectors.FILE_INPUT (document w) = None ->
     first_hit selectors.DROP_ZONE (document w) = Some z ->
     exists w',
       attachFile file None w = (Ok true, w') /\
       document w' = document w /\
       dispatched w' = dispatched w ++
         [(z, DragEvent "dragenter" [file]); (z, DragEvent "dragover" [file]);
          (z, DragEvent "drop" [file])]).
Proof.
  intros H. repeat split.
  - intros Hz. unfold attachFile, try_catch, attachFile_body.
    rewrite Hz. cbn [N.eqb]. unfold emitExecutionFailed.
    rewrite run_bind_modify. eexists. split; [reflexivity|]. auto.
  - intros Hi Hz. unfold attachFile, try_catch, attachFile_body.
    destruct (N.eqb (file_size file) 0).
    + unfold emitExecutionFailed. rewrite run_bind_modify.
      eexists. split; [reflexivity|]. auto.
    + destruct (supportsFileUpload_faultless w H) as (n & Heq).
      rewrite run_bind, Heq, Hi, Hz. cbn [negb].
      unfold emitExecutionFailed. rewrite run_bind_modify.
      eexists. split; [reflexivity|]. auto.
  - intros Hs e d kids Hi He. unfold attachFile, try_catch, attachFile_body.
    apply N.eqb_neq in Hs. rewrite Hs.
    destruct (supportsFileUpload_faultless w H) as (n & Heq).
    rewrite run_bind, Heq, Hi.
    replace (match first_hit selectors.DROP_ZONE (document w) with
             | Some _ | _ => true end) with true
      by now destruct (first_hit selectors.DROP_ZONE (document w)).
    cbn [negb]. rewrite run_bind_read.
    rewrite run_bind, query_faultless by now apply faultless_after_calls.
    cbn [document after_calls upd_calls]. rewrite Hi.
    cbn [fmap option_fmap option_map].
    unfold new_DataTransfer, set_files, dispatchEvent, construct,
      emitExecutionCompleted.
    repeat mstep.
    cbn [bind ret]. eexists _, _. split; [reflexivity|].
    split.
    { cbn [id document upd_document upd_calls upd_dispatched upd_bus].
      eapply elem_at_modify_elem. exact He. }
    cbn [id files document upd_document upd_calls upd_dispatched upd_bus dispatched].
    auto.
  - intros Hs z Hi Hz. unfold attachFile, try_catch, attachFile_body.
    apply N.eqb_neq in Hs. rewrite Hs.
    destruct (supportsFileUpload_faultless w H) as (n & Heq).
    rewrite run_bind, Heq, Hi, Hz.
    cbn [negb]. rewrite run_bind_read.
    rewrite run_bind, query_faultless by now apply faultless_after_calls.
    cbn [document after_calls upd_calls]. rewrite Hi.
    cbn [fmap option_fmap option_map].
    destruct (simulateFileDrop_faultless file
                (after_calls (S (calls (after_calls n w))) (after_calls n w)) z)
      as (w1 & Hrun & Hf1 & Hd1 & Hb1 & He1); auto.
    rewrite run_bind, Hrun.
    unfold emitExecutionCompleted. rewrite run_bind_modify.
    eexists. split; [reflexivity|].
    cbn [document upd_bus dispatched]. rewrite Hd1, He1. auto.
Qed.

(** On the form page the file goes to the file input; on the composer
    page, which has no file input, it is dropped on the editable
    region. *)
Lemma attachFile_outcomes_witness :
  (exists w' d',
     attachFile Scenario.notes None Scenario.form_start = (Ok true, w') /\
     elem_at Scenario.file_input_path (document w') = Some (d', []) /\
     files d' = [Scenario.notes] /\
     dispatched w' = dispatched Scenario.form_start ++
       [(Scenario.file_input_path, ChangeEvent)]) /\
  (exists w',
     attachFile Scenario.notes None Scenario.composer_start = (Ok true, w') /\
     document w' = document Scenario.composer_start /\
     dispatched w' = dispatched Scenario.composer_start ++
       [(Scenario.region_path, DragEvent "dragenter" [Scenario.notes]);
        (Scenario.region_path, DragEvent "dragover" [Scenario.notes]);
        (Scenario.region_path, DragEvent "drop" [Scenario.notes])]).
Proof.
  split.
  - destruct (attachFile_outcomes Scenario.notes None Scenario.form_start)
      as (_ & _ & H & _).
    + intros n. reflexivity.
    + edestruct H as (w' & d' & H1 & H2 & H3 & H4).
      * discriminate.
      * vm_compute. reflexivity.
      * vm_compute. reflexivity.
      * exists w', d'. repeat split; assumption.
  - destruct (attachFile_outcomes Scenario.notes None Scenario.composer_start)
      as (_ & _ & _ & H).
    + intros n. reflexivity.
    + apply H.
      * discriminate.
      * vm_compute. reflexivity.
      * vm_compute. reflexivity.
Defined.

End AttachFileFacts.

(** ** Failures *)

Section Returns.
Import Dom Selector Effects DomApi.

Lemma returns_bind {A B} (m : M A) (k : A -> M B) Q :
  (forall a, returns (k a) Q) -> returns (m ≫= k) Q.
Proof.
  intros Hk w b w' H. rewrite run_bind in H.
  destruct (m w) as [[a|msg] w1]; [|discriminate].
  exact (Hk a w1 b w' H).
Qed.

Lemma returns_ret {A} (a : A) (Q : A -> World -> Prop) :
  (forall w, Q a w) -> returns (ret a) Q.
Proof. intros HQ w b w' H. injection H as <- <-. apply HQ. Qed.

Lemma returns_try_catch {A} (body : M A) handler Q :
  returns body Q -> (forall msg, returns (handler msg) Q) ->
  returns (try_catch body handler) Q.
Proof.
  intros Hb Hh w a w' H. unfold try_catch in H.
  destruct (body w) as [[a0|msg] w1] eqn:Hbody.
  - injection H as <- <-. exact (Hb w a0 w1 Hbody).
  - exact (Hh msg w1 a w' H).
Qed.

Lemma total_bind {A B} (m : M A) (k : A -> M B) :
  total m -> (forall a, total (k a)) -> total (m ≫= k).
Proof.
  intros Hm Hk w. destruct (Hm w) as (a & w1 & H1).
  destruct (Hk a w1) as (b & w2 & H2).
  exists b, w2. now rewrite run_bind, H1.
Qed.

Lemma total_ret {A} (a : A) : total (ret a).
Proof. intros w. now exists a, w. Qed.

Lemma total_read {A} (f : World -> A) : total (read f).
Proof. intros w. now exists (f w), w. Qed.

Lemma total_modify f : total (modify f).
Proof. intros w. now exists tt, (f w). Qed.

Lemma total_try_catch {A} (body : M A) handler :
  (forall msg, total (handler msg)) -> total (try_catch body handler).
Proof.
  intros Hh w. unfold try_catch.
  destruct (body w) as [[a|msg] w1]; [now exists a, w1|apply Hh].
Qed.

End Returns.

Section AdapterFailures.
Import Dom Selector Effects DomApi ClaudeAdapter.
Import Notions.

Lemma last_snoc {A} (l : list A) x : List.last (map Some (l ++ [x])) None = Some x.
Proof. rewrite map_app. cbn [map]. apply last_last. Qed.

Lemma returns_failed tool reason :
  returns (emitExecutionFailed tool reason ;; ret false) (ok_or_reported tool).
Proof.
  intros w b w' H. unfold emitExecutionFailed in H.
  rewrite run_bind_modify in H. injection H as <- <-.
  intros _. exists reason. cbn [bus upd_bus]. apply last_snoc.
Qed.

Lemma returns_true tool : returns (ret true) (ok_or_reported tool).
Proof. apply returns_ret. intros w. discriminate. Qed.

Lemma total_failed tool reason : total (emitExecutionFailed tool reason ;; ret false).
Proof.
  apply total_bind; [apply total_modify|]. intros _. apply total_ret.
Qed.

Ltac to_leaf :=
  first [ apply returns_failed
        | apply returns_true
        | apply returns_bind; intros ?; to_leaf ].

Lemma insertText_body_returns text p :
  returns (insertText_body text p) (ok_or_reported "insertText").
Proof. unfold insertText_body. to_leaf. Qed.

Lemma submitForm_body_returns p :
  returns (submitForm_body p) (ok_or_reported "submitForm").
Proof.
  unfold submitForm_body. apply returns_bind. intros d.
  destruct (disabled d); [apply returns_failed|].
  apply returns_bind. intros rect.
  destruct (_ || _)%bool; [apply returns_failed|]. to_leaf.
Qed.

Lemma attachFile_body_returns file inputElement :
  returns (attachFile_body file inputElement) (ok_or_reported "attachFile").
Proof.
  unfold attachFile_body.
  destruct (N.eqb _ _); [apply returns_failed|].
  apply returns_bind. intros supported.
  destruct (negb supported); [apply returns_failed|].
  apply returns_bind. intros w0. apply returns_bind. intros [p|].
  - to_leaf.
  - apply returns_bind. intros [|]; to_leaf.
Qed.

(** An operation made of a lookup, a report when nothing is found, and a
    [try] block whose handler reports the message. *)
Lemma guarded_reports tool (lookup : M (option Path)) (body : Path -> M bool)
    not_found w :
  completes lookup w ->
  (forall p, returns (body p) (ok_or_reported tool)) ->
  reports tool
    (r ← lookup;
     match r with
     | None => emitExecutionFailed tool not_found ;; ret false
     | Some p =>
         try_catch (body p)
           (fun errorMessage => emitExecutionFailed tool errorMessage ;; ret false)
     end) w.
Proof.
  intros (r & w1 & Hl) Hbody. unfold reports. rewrite run_bind, Hl.
  destruct r as [p|].
  - destruct (total_try_catch (body p)
                (fun errorMessage => emitExecutionFailed tool errorMessage ;; ret false)
                (fun msg => total_failed tool msg) w1) as (b & w' & Hrun).
    exists b, w'. split; [exact Hrun|].
    exact (returns_try_catch _ _ _ (Hbody p)
             (fun msg => returns_failed tool msg) w1 b w' Hrun).
  - destruct (total_failed tool not_found w1) as (b & w' & Hrun).
    exists b, w'. split; [exact Hrun|].
    exact (returns_failed tool not_found w1 b w' Hrun).
Qed.

Lemma handler_catches tool (body : M bool) w1 :
  catches tool body
    (try_catch body
       (fun errorMessage => emitExecutionFailed tool errorMessage ;; ret false))
    w1 w1.
Proof.
  intros msg w2 Hb. unfold try_catch. rewrite Hb.
  unfold emitExecutionFailed. rewrite run_bind_modify.
  eexists. split; reflexivity.
Qed.

End AdapterFailures.

Section SubmitFailures.
Import Dom Selector Effects DomApi ClaudeAdapter ChatInputHandler.
Import Notions.

Lemma silent_ret {A} (a : A) : silent (ret a).
Proof. intros w r w' H. now injection H as <- <-. Qed.

Lemma silent_read {A} (f : World -> A) : silent (read f).
Proof. intros w r w' H. now injection H as <- <-. Qed.

Lemma silent_modify f :
  (forall w, resolved (f w) = resolved w) -> silent (modify f).
Proof. intros Hf w r w' H. injection H as <- <-. apply Hf. Qed.

Lemma silent_call {A} (f : World -> A * World) :
  (forall w, resolved (f w).2 = resolved w) -> silent (dom_call f).
Proof.
  intros Hf w r w' H. unfold dom_call in H.
  destruct (fault_at w (calls w)).
  - now injection H as <- <-.
  - specialize (Hf (upd_calls S w)).
    destruct (f (upd_calls S w)) as [a w2]. injection H as <- <-. exact Hf.
Qed.

Lemma silent_do f : (forall w, resolved (f w) = resolved w) -> silent (dom_do f).
Proof. intros Hf. apply silent_call. exact Hf. Qed.

Lemma silent_get {A} (f : World -> A) : silent (dom_get f).
Proof. apply silent_call. reflexivity. Qed.

Lemma silent_bind {A B} (m : M A) (k : A -> M B) :
  silent m -> (forall a, silent (k a)) -> silent (m ≫= k).
Proof.
  intros Hm Hk w r w' H. rewrite run_bind in H.
  destruct (m w) as [[a|msg] w1] eqn:Hmw.
  - rewrite (Hk a w1 r w' H). exact (Hm w _ w1 Hmw).
  - injection H as <- <-. exact (Hm w _ w1 Hmw).
Qed.

Lemma quiet_of_silent {A} (m : M A) : silent m -> quiet m.
Proof. intros H w msg w' Hr. exact (H w _ w' Hr). Qed.

Lemma quiet_of_total {A} (m : M A) : total m -> quiet m.
Proof.
  intros H w msg w' Hr. destruct (H w) as (a & w1 & Hok). congruence.
Qed.

Lemma quiet_bind {A B} (m : M A) (k : A -> M B) :
  silent m -> (forall a, quiet (k a)) -> quiet (m ≫= k).
Proof.
  intros Hm Hk w msg w' H. rewrite run_bind in H.
  destruct (m w) as [[a|msg1] w1] eqn:Hmw.
  - rewrite (Hk a w1 msg w' H). exact (Hm w _ w1 Hmw).
  - injection H as <- <-. exact (Hm w _ w1 Hmw).
Qed.

Lemma quiet_then_total {A B} (m : M A) (k : A -> M B) :
  quiet m -> (forall a, total (k a)) -> quiet (m ≫= k).
Proof.
  intros Hm Hk w msg w' H. rewrite run_bind in H.
  destruct (m w) as [[a|msg1] w1] eqn:Hmw.
  - destruct (Hk a w1) as (b & w2 & Hok). congruence.
  - injection H as <- <-. exact (Hm w _ w1 Hmw).
Qed.

Ltac silence :=
  repeat first
    [ apply silent_ret | apply silent_read | apply silent_get
    | apply silent_do; reflexivity | apply silent_modify; reflexivity
    | apply silent_bind; [|intros ?]
    | match goal with |- silent (match ?x with _ => _ end) => destruct x end ].

Lemma silent_query sel : silent (query sel).
Proof. unfold query. silence. Qed.

Lemma silent_findChatInputElement : silent findChatInputElement.
Proof. unfold findChatInputElement, remember, query. silence. Qed.

Lemma silent_findSubmitButton ci : silent (findSubmitButton ci).
Proof.
  unfold findSubmitButton, or_else, and_then, query, closest_of, query_in.
  silence.
Qed.

Lemma total_resolve p b : total (resolve p b).
Proof. apply total_modify. Qed.

Lemma quiet_tryClickingButton p ci : quiet (tryClickingButton p ci).
Proof.
  unfold tryClickingButton.
  apply quiet_bind; [apply silent_findSubmitButton|]. intros [b|].
  - apply quiet_bind; [apply silent_read|]. intros d.
    destruct (negb (isDisabled d)).
    + apply quiet_bind; [unfold click, dispatchEvent; silence|].
      intros _. apply quiet_of_total, total_resolve.
    + apply quiet_of_total, total_ret.
  - apply quiet_of_total, total_resolve.
Qed.

Lemma quiet_alternative_methods p ci : quiet (alternative_methods p ci).
Proof.
  unfold alternative_methods, closest_of, construct, dispatchEvent, focus.
  apply quiet_bind; [silence|]. intros [fp|].
  - do 2 (apply quiet_bind; [silence|]; intros _).
    apply quiet_of_total, total_resolve.
  - do 7 (apply quiet_bind; [silence|]; intros _).
    apply quiet_of_total, total_resolve.
Qed.

Lemma quiet_submit_executor p maxWaitTime : quiet (submit_executor p maxWaitTime).
Proof.
  unfold submit_executor.
  apply quiet_bind; [apply silent_read|]. intros w0.
  apply quiet_bind.
  { destruct (lastFoundInputElement w0);
      [apply silent_ret|apply silent_findChatInputElement]. }
  intros [ci|]; [|apply quiet_of_total, total_resolve].
  apply quiet_bind; [apply silent_findSubmitButton|]. intros [sb|].
  - apply quiet_bind.
    { intros w r w' H. unfold setTimer in H. now injection H as <- <-. }
    intros intervalId.
    apply quiet_then_total; [apply quiet_tryClickingButton|]. intros _.
    apply total_bind; [apply total_read|]. intros d.
    destruct (negb (disabled d)); [apply total_modify|apply total_ret].
  - apply quiet_alternative_methods.
Qed.

(** [submitChatInput] returns its promise whatever raises, and when the
    [try] block of the executor raises, the one call of [resolve] is
    [resolve(false)]. *)
Lemma submitChatInput_resolves_false maxWaitTime w :
  exists w',
    submitChatInput maxWaitTime w = (Ok (next_handle w), w') /\
    forall msg w2,
      submit_executor (next_handle w) maxWaitTime (exec newPromise w)
        = (Throw msg, w2) ->
      resolved w' !! next_handle w = Some [false] /\
      settled (next_handle w) w' = Some false.
Proof.
  unfold submitChatInput, newPromise.
  rewrite run_bind. cbn [exec snd].
  set (p := next_handle w).
  set (w1 := upd_next_handle S (upd_resolved (fun m => <[p:=[]]> m) w)).
  rewrite run_bind. unfold try_catch.
  destruct (submit_executor p maxWaitTime w1) as [[[]|msg] w2] eqn:Hb.
  - eexists. split; [reflexivity|]. intros msg w2' [=].
  - eexists. split; [reflexivity|]. intros msg' w2' [= <- <-].
    pose proof (quiet_submit_executor p maxWaitTime w1 msg w2 Hb) as Hq.
    assert (Hr : resolved (upd_resolved
                   (fun m => <[p := default [] (m !! p) ++ [false]]> m) w2) !! p
                 = Some [false]).
    { cbn [resolved upd_resolved]. rewrite lookup_insert_eq, Hq.
      subst w1. cbn [resolved upd_resolved upd_next_handle].
      now rewrite lookup_insert_eq. }
    split; [exact Hr|].
    unfold settled. cbn [resolve modify snd] in *. now rewrite Hr.
Qed.

End SubmitFailures.

Section FailuresCaught.
Import Dom Selector Effects DomApi ClaudeAdapter ChatInputHandler.
Import Notions.

(** X26: what the [try] blocks catch. When the element lookup that precedes
    the [try] block returns, [insertText] and [submitForm] return a
    boolean, and so does [attachFile] always; they return false only with a
    [tool:execution-failed] event of their tool as the last event on the
    bus; a failure raised inside the [try] block makes them return false
    with the tool name and the message raised in that event.
    [submitChatInput] returns its promise, and a failure raised in the
    [try] block of its executor resolves the promise to false. *)
Theorem failures_in_try_blocks_are_caught
    text target file inputElement maxWaitTime w :
  completes (locate_chat_input target) w ->
  completes (first_match selectors.SUBMIT_BUTTON) w ->
  reports "insertText" (insertText text target) w /\
  reports "submitForm" submitForm w /\
  reports "attachFile" (attachFile file inputElement) w /\
  (forall p w1,
     locate_chat_input target w = (Ok (Some p), w1) ->
     catches "insertText" (insertText_body text p) (insertText text target) w1 w) /\
  (forall p w1,
     first_match selectors.SUBMIT_BUTTON w = (Ok (Some p), w1) ->
     catches "submitForm" (submitForm_body p) submitForm w1 w) /\
  catches "attachFile" (attachFile_body file inputElement)
    (attachFile file inputElement) w w /\
  (exists w',
     submitChatInput maxWaitTime w = (Ok (next_handle w), w') /\
     forall msg w2,
       submit_executor (next_handle w) maxWaitTime (exec newPromise w)
         = (Throw msg, w2) ->
       settled (next_handle w) w' = Some false).
Proof.
  intros Hl Hs. repeat split.
  - apply (guarded_reports "insertText" (locate_chat_input target)
             (insertText_body text)); [exact Hl|].
    apply insertText_body_returns.
  - apply (guarded_reports "submitForm" (first_match selectors.SUBMIT_BUTTON)
             submitForm_body); [exact Hs|].
    apply submitForm_body_returns.
  - unfold reports, attachFile.
    destruct (total_try_catch (attachFile_body file inputElement)
                (fun errorMessage =>
                   emitExecutionFailed "attachFile" errorMessage ;; ret false)
                (fun msg => total_failed "attachFile" msg) w) as (b & w' & Hrun).
    exists b, w'. split; [exact Hrun|].
    exact (returns_try_catch _ _ _ (attachFile_body_returns file inputElement)
             (fun msg => returns_failed "attachFile" msg) w b w' Hrun).
  - intros p w1 Hp msg w2 Hb.
    destruct (handler_catches "insertText" (insertText_body text p) w1 msg w2 Hb)
      as (w' & Hrun & Hbus).
    exists w'. split; [|exact Hbus].
    unfold insertText. now rewrite run_bind, Hp.
  - intros p w1 Hp msg w2 Hb.
    destruct (handler_catches "submitForm" (submitForm_body p) w1 msg w2 Hb)
      as (w' & Hrun & Hbus).
    exists w'. split; [|exact Hbus].
    unfold submitForm. now rewrite run_bind, Hp.
  - apply handler_catches.
  - destruct (submitChatInput_resolves_false maxWaitTime w) as (w' & Hrun & Hf).
    exists w'. split; [exact Hrun|].
    intros msg w2 Hb. now destruct (Hf msg w2 Hb).
Qed.

(** On the composer page, with [focus()] raising: the lookups return,
    and [insertText] returns false and reports the message. *)
Lemma failures_in_try_blocks_are_caught_witness :
  completes (locate_chat_input None) Scenario.focus_raises /\
  completes (first_match selectors.SUBMIT_BUTTON) Scenario.focus_raises /\
  reports "insertText" (insertText "hello" None) Scenario.focus_raises /\
  (insertText "hello" None Scenario.focus_raises).1 = Ok false.
Proof.
  set (w := Scenario.focus_raises).
  assert (Hl : completes (locate_chat_input None) w)
    by (eexists _, _; vm_compute; reflexivity).
  assert (Hs : completes (first_match selectors.SUBMIT_BUTTON) w)
    by (eexists _, _; vm_compute; reflexivity).
  split; [exact Hl|]. split; [exact Hs|]. split.
  - exact (proj1 (failures_in_try_blocks_are_caught "hello" None
                    {| file_name := ""; file_type := ""; file_size := 0 |}
                    None 5000 w Hl Hs)).
  - vm_compute. reflexivity.
Defined.

(** C8 where a failure is raised outside the [try] block: on the page
    whose send button is found by its icon only, when the query with
    the [:has()] selector raises, [submitForm] raises that error to its
    caller; it returns no boolean and emits no failure event. *)
Theorem lookup_failure_escapes_submitForm :
  (submitForm Scenario.has_selector_raises).1 = Throw "SyntaxError" /\
  bus (exec submitForm Scenario.has_selector_raises) = [] /\
  ~ reports "submitForm" submitForm Scenario.has_selector_raises.
Proof.
  set (w := Scenario.has_selector_raises).
  assert (H : (submitForm w).1 = Throw "SyntaxError") by (vm_compute; reflexivity).
  split; [exact H|]. split; [vm_compute; reflexivity|].
  intros (b & w' & Hrun & _). rewrite Hrun in H. discriminate H.
Qed.

End FailuresCaught.

(** ** [submitChatInput] *)

Section SubmitPoll.
Import Dom Selector Effects DomApi ClaudeAdapter ChatInputHandler Lifecycle.
Import Notions.

(** C1 at a button that is disabled when [submitChatInput(600)] is
    called and enabled before the first tick: the first tick clicks and
    resolves true, and the interval stays; the two ticks that follow click
    again, and the third, at 600 ms, also sends the key events of [Enter].
    The button is clicked three times and [resolve(true)] is called four
    times. *)
Theorem submit_poll_keeps_clicking :
  settled 1 Scenario.submit_called = None /\
  clicks Scenario.submit_called = 0 /\
  settled 1 Scenario.after_first_tick = Some true /\
  clicks Scenario.after_first_tick = 1 /\
  pending Scenario.after_first_tick !! 2
    = Some (SubmitPoll 1 [0; 1; 0; 1] 200 600) /\
  clicks Scenario.after_third_tick = 3 /\
  resolved Scenario.after_third_tick !! 1 = Some [true; true; true; true] /\
  pending Scenario.after_third_tick !! 2 = None /\
  In ([0; 1; 0; 1], KeyboardEvent "keydown") (dispatched Scenario.after_third_tick).
Proof.
  do 8 (split; [vm_compute; reflexivity|]).
  vm_compute. tauto.
Qed.

(** At a button that is disabled through [aria-disabled] only, the call
    clicks nothing, cancels the interval and leaves the promise
    pending. *)
Lemma submit_aria_disabled_never_settles :
  clicks Scenario.submit_called_aria = 0 /\
  pending Scenario.submit_called_aria = ∅ /\
  settled 1 Scenario.submit_called_aria = None.
Proof. do 2 (split; [vm_compute; reflexivity|]). vm_compute. reflexivity. Qed.

(** At a button that is enabled when the function is called, the call
    clicks once, resolves true and cancels the interval. *)
Lemma submit_enabled_clicks_once :
  clicks Scenario.submit_called_enabled = 1 /\
  pending Scenario.submit_called_enabled = ∅ /\
  resolved Scenario.submit_called_enabled !! 1 = Some [true].
Proof. do 2 (split; [vm_compute; reflexivity|]). vm_compute. reflexivity. Qed.

End SubmitPoll.

(** ** The document: counting *)

Section TreeFacts.
Import Dom Selector.
Import Notions.

(** Induction on nodes, with the hypothesis for all children. *)
Lemma Node_induction (P : Node -> Prop) :
  (forall s, P (Text s)) ->
  (forall d kids, Forall P kids -> P (Elem d kids)) ->
  forall n, P n.
Proof.
  intros Ht He.
  fix IH 1. intros [d kids|s]; [|apply Ht].
  apply He. induction kids as [|k kids IHk]; constructor; [apply IH|apply IHk].
Qed.

Lemma tally_Elem P d kids :
  tally P (Elem d kids) = (if P d then 1 else 0) + tally_forest P kids.
Proof.
  cbn [tally]. f_equal. induction kids as [|k kids IH]; [reflexivity|].
  cbn [tally_forest]. now rewrite IH.
Qed.

Lemma tally_forest_app P l1 l2 :
  tally_forest P (l1 ++ l2) = tally_forest P l1 + tally_forest P l2.
Proof.
  induction l1 as [|k l1 IH]; [reflexivity|].
  cbn [app tally_forest]. rewrite IH. lia.
Qed.

Lemma tally_forest_insert P (l : list Node) i n n' :
  l !! i = Some n ->
  tally_forest P (<[i := n']> l) + tally P n = tally_forest P l + tally P n'.
Proof.
  revert i. induction l as [|k l IH]; intros [|i] H; try discriminate.
  - injection H as ->. change (<[0 := n']> (n :: l)) with (n' :: l).
    cbn [tally_forest]. lia.
  - change ((k :: l) !! S i) with (l !! i) in H.
    change (<[S i := n']> (k :: l)) with (k :: <[i := n']> l).
    cbn [tally_forest]. specialize (IH i H). lia.
Qed.

Lemma tally_forest_delete P (l : list Node) i n :
  l !! i = Some n ->
  tally_forest P (delete i l) + tally P n = tally_forest P l.
Proof.
  revert i. induction l as [|k l IH]; intros [|i] H; try discriminate.
  - injection H as ->. change (delete 0 (n :: l)) with l.
    cbn [tally_forest]. lia.
  - change ((k :: l) !! S i) with (l !! i) in H.
    change (delete (S i) (k :: l)) with (k :: delete i l).
    cbn [tally_forest]. specialize (IH i H). lia.
Qed.

Lemma tally_forest_insert_after P (l : list Node) i n :
  tally_forest P (take (S i) l ++ n :: drop (S i) l) = tally_forest P l + tally P n.
Proof.
  rewrite tally_forest_app. cbn [tally_forest].
  rewrite <- (take_drop (S i) l) at 3. rewrite tally_forest_app. lia.
Qed.

(** *** The list of entries *)

Lemma entries_node_Elem here anc lastc d kids :
  entries_node here anc lastc (Elem d kids) =
    let fr := {| f_data := d; f_kids := kids; f_last := lastc |} in
    {| e_path := here; e_frame := fr; e_ancestors := anc |}
      :: entries_from here (fr :: anc) 0 kids.
Proof.
  cbn [entries_node]. cbn zeta. f_equal.
  generalize ({| f_data := d; f_kids := kids; f_last := lastc |} :: anc).
  generalize 0. induction kids as [|k kids IH]; intros i anc'; [reflexivity|].
  cbn [entries_from]. rewrite <- IH. reflexivity.
Qed.

Lemma count_entries P :
  (forall n here anc lastc,
     length (List.filter (fun e => P (f_data (e_frame e)))
               (entries_node here anc lastc n)) = tally P n) /\
  (forall l here anc i,
     length (List.filter (fun e => P (f_data (e_frame e)))
               (entries_from here anc i l)) = tally_forest P l).
Proof.
  assert (Hn : forall n here anc lastc,
             length (List.filter (fun e => P (f_data (e_frame e)))
                       (entries_node here anc lastc n)) = tally P n).
  { induction n as [s|d kids IH] using Node_induction; intros here anc lastc.
    - reflexivity.
    - rewrite entries_node_Elem, tally_Elem. cbn zeta.
      cbn [List.filter f_data e_frame].
      assert (Hk : forall here anc i,
                 length (List.filter (fun e => P (f_data (e_frame e)))
                           (entries_from here anc i kids)) = tally_forest P kids).
      { clear here anc lastc. induction IH as [|k kids Hk _ IHk]; intros here anc i.
        - reflexivity.
        - cbn [entries_from tally_forest].
          now rewrite List.filter_app, length_app, Hk, IHk. }
      destruct (P d); cbn [length]; now rewrite Hk. }
  split; [exact Hn|].
  induction l as [|k l IH]; intros here anc i; [reflexivity|].
  cbn [entries_from tally_forest].
  now rewrite List.filter_app, length_app, Hn, IH.
Qed.

Lemma count_id_tally id f :
  count_id id f = tally_forest (fun d => attr_is d "id" id) f.
Proof.
  unfold count_id, entries, has_id.
  apply (proj2 (count_entries (fun d => attr_is d "id" id))).
Qed.

End TreeFacts.

(** ** The document: entries and paths *)

Section EntryFacts.
Import Dom Selector.
Import Notions.

Lemma elem_at_here i (f : list Node) :
  elem_at [i] f = match f !! i with
                  | Some (Elem d kids) => Some (d, kids)
                  | _ => None
                  end.
Proof. unfold elem_at. cbn [node_at]. now destruct (f !! i) as [[]|]. Qed.

Lemma elem_at_below i j p (f : list Node) :
  elem_at (i :: j :: p) f = match f !! i with
                            | Some (Elem _ kids) => elem_at (j :: p) kids
                            | _ => None
                            end.
Proof. unfold elem_at. cbn [node_at]. now destruct (f !! i) as [[]|]. Qed.

Lemma elem_at_nil (f : list Node) : elem_at [] f = None.
Proof. reflexivity. Qed.

Lemma forest_entries_valid_of l :
  Forall node_entries_valid l -> forest_entries_valid l.
Proof.
  induction 1 as [|k l Hk _ IH]; intros here anc i e Hin.
  - destruct Hin.
  - cbn [entries_from] in Hin. apply in_app_or in Hin as [Hin|Hin].
    + destruct (Hk _ _ _ _ Hin) as (q & Hp & Hf).
      exists 0, q. split.
      * rewrite Hp, <- app_assoc, Nat.add_0_r. reflexivity.
      * unfold frame_at in *. destruct q; [rewrite elem_at_here in *|rewrite elem_at_below in *];
          exact Hf.
    + destruct (IH _ _ _ _ Hin) as (j & q & Hp & Hf).
      exists (S j), q. split.
      * rewrite Hp. now replace (i + S j) with (S i + j) by lia.
      * unfold frame_at in *. destruct q; [rewrite elem_at_here in *|rewrite elem_at_below in *];
          exact Hf.
Qed.

Lemma node_entries_valid_all n : node_entries_valid n.
Proof.
  induction n as [s|d kids IH] using Node_induction; intros here anc lastc e Hin.
  - destruct Hin.
  - rewrite entries_node_Elem in Hin. cbn zeta in Hin. destruct Hin as [<-|Hin].
    + exists []. split; [now rewrite app_nil_r|]. reflexivity.
    + destruct (forest_entries_valid_of kids IH _ _ _ _ Hin) as (j & q & Hp & Hf).
      exists (j :: q). split; [exact Hp|].
      unfold frame_at in *. rewrite elem_at_below. exact Hf.
Qed.

Lemma forest_entries_valid_all l : forest_entries_valid l.
Proof.
  apply forest_entries_valid_of, Forall_forall. intros n _.
  apply node_entries_valid_all.
Qed.

(** The path of an entry leads to its element. *)
Lemma entries_valid f e :
  In e (entries f) ->
  elem_at (e_path e) f = Some (f_data (e_frame e), f_kids (e_frame e)).
Proof.
  intros Hin. destruct (forest_entries_valid_all f _ _ _ _ Hin) as (j & q & Hp & Hf).
  now rewrite Hp.
Qed.

Lemma getElementById_Some id f e :
  getElementById id f = Some e ->
  elem_at (e_path e) f = Some (f_data (e_frame e), f_kids (e_frame e)) /\
  attr_is (f_data (e_frame e)) "id" id = true.
Proof.
  intros H. apply List.find_some in H as [Hin Hid].
  split; [now apply entries_valid|exact Hid].
Qed.

Lemma getElementById_None id f :
  getElementById id f = None <-> count_id id f = 0.
Proof.
  unfold getElementById, count_id. split.
  - intros H. induction (entries f) as [|e l IH]; [reflexivity|].
    cbn [List.find List.filter] in *. destruct (has_id id e); [discriminate|auto].
  - intros H. induction (entries f) as [|e l IH]; [reflexivity|].
    cbn [List.find List.filter] in *. destruct (has_id id e); [discriminate|auto].
Qed.

Lemma querySelector_Some sel f e :
  querySelector sel f = Some e ->
  elem_at (e_path e) f = Some (f_data (e_frame e), f_kids (e_frame e)) /\
  selects sel e = true.
Proof.
  intros H. apply List.find_some in H as [Hin Hs].
  split; [now apply entries_valid|exact Hs].
Qed.

(** *** Parents and children *)

Lemma children_at_elem p f d kids :
  elem_at p f = Some (d, kids) -> children_at p f = Some kids.
Proof.
  intros H. destruct p; [discriminate|]. unfold children_at. now rewrite H.
Qed.

Lemma children_at_cons i p (f : list Node) :
  children_at (i :: p) f = match f !! i with
                           | Some (Elem _ kids) => children_at p kids
                           | _ => None
                           end.
Proof.
  destruct p as [|j p].
  - unfold children_at. rewrite elem_at_here. now destruct (f !! i) as [[]|].
  - unfold children_at. rewrite elem_at_below. now destruct (f !! i) as [[]|].
Qed.

Lemma elem_at_parent p f d kids :
  elem_at p f = Some (d, kids) ->
  p <> [] /\
  exists siblings,
    children_at (parent_path p) f = Some siblings /\
    siblings !! child_index p = Some (Elem d kids).
Proof.
  revert f. induction p as [|i p IH]; intros f H; [discriminate|].
  split; [discriminate|].
  destruct p as [|j p].
  - rewrite elem_at_here in H. exists f. split; [reflexivity|].
    cbn [child_index List.last]. destruct (f !! i) as [[]|]; congruence.
  - rewrite elem_at_below in H.
    destruct (f !! i) as [[d0 k0|]|] eqn:Hi; try discriminate.
    destruct (IH k0 H) as (_ & siblings & Hc & Hs).
    exists siblings. split.
    + change (parent_path (i :: j :: p)) with (i :: parent_path (j :: p)).
      now rewrite children_at_cons, Hi.
    + exact Hs.
Qed.

(** Changing the child list of the node at [p] changes the count by
    what the change does to that list. *)
Lemma tally_modify_children P p g f kids :
  children_at p f = Some kids ->
  tally_forest P (modify_children p g f) + tally_forest P kids
  = tally_forest P f + tally_forest P (g kids).
Proof.
  revert f. induction p as [|i p IH]; intros f H.
  - injection H as ->. cbn [modify_children]. lia.
  - rewrite children_at_cons in H. cbn [modify_children].
    destruct (f !! i) as [[d0 k0|]|] eqn:Hi; try discriminate.
    pose proof (tally_forest_insert P f i _ (Elem d0 (modify_children p g k0)) Hi) as Hins.
    rewrite !tally_Elem in Hins. specialize (IH k0 H). lia.
Qed.

Lemma modify_children_nowhere p g f :
  children_at p f = None -> modify_children p g f = f.
Proof.
  revert f. induction p as [|i p IH]; intros f H; [discriminate|].
  rewrite children_at_cons in H. cbn [modify_children].
  destruct (f !! i) as [[d0 k0|]|] eqn:Hi; try reflexivity.
  rewrite (IH k0 H). now apply list_insert_id.
Qed.

(** Removing the element at [p] takes its count away. *)
Lemma tally_remove_at P p f d kids :
  elem_at p f = Some (d, kids) ->
  tally_forest P (remove_at p f) + tally P (Elem d kids) = tally_forest P f.
Proof.
  intros H. destruct (elem_at_parent p f d kids H) as (Hne & siblings & Hc & Hs).
  unfold remove_at. destruct p as [|i p]; [congruence|].
  pose proof (tally_modify_children P _ (delete (child_index (i :: p))) f siblings Hc) as Hm.
  pose proof (tally_forest_delete P siblings _ _ Hs). lia.
Qed.

(** Appending a child to the element at [p], or inserting one after its
    child [i], adds the count of the new node. *)
Lemma tally_append_child P p n f d kids :
  elem_at p f = Some (d, kids) ->
  tally_forest P (append_child p n f) = tally_forest P f + tally P n.
Proof.
  intros H. apply children_at_elem in H. unfold append_child.
  pose proof (tally_modify_children P p (fun kids => kids ++ [n]) f kids H) as Hm.
  cbn beta in Hm. rewrite tally_forest_app in Hm. cbn [tally_forest] in Hm. lia.
Qed.

Lemma tally_insert_after_child P p i n f d kids :
  elem_at p f = Some (d, kids) ->
  tally_forest P (insert_after_child p i n f) = tally_forest P f + tally P n.
Proof.
  intros H. apply children_at_elem in H. unfold insert_after_child.
  pose proof (tally_modify_children P p
                (fun kids => take (S i) kids ++ n :: drop (S i) kids) f kids H) as Hm.
  cbn beta in Hm. rewrite tally_forest_insert_after in Hm. lia.
Qed.

End EntryFacts.

(** ** Reasoning about runs *)

Section Hoare.
Import Dom Selector Effects DomApi.

Lemma hoare_ret {A} P (a : A) (Q : A -> World -> Prop) E :
  (forall w, P w -> Q a w) -> hoare P (ret a) Q E.
Proof. intros H w Hw. now apply H. Qed.

Lemma hoare_read {A} P (f : World -> A) (Q : A -> World -> Prop) E :
  (forall w, P w -> Q (f w) w) -> hoare P (read f) Q E.
Proof. intros H w Hw. now apply H. Qed.

Lemma hoare_modify P f (Q : unit -> World -> Prop) E :
  (forall w, P w -> Q tt (f w)) -> hoare P (modify f) Q E.
Proof. intros H w Hw. now apply H. Qed.

Lemma hoare_throw {A} P msg (Q : A -> World -> Prop) (E : World -> Prop) :
  (forall w, P w -> E w) -> hoare P (throw msg) Q E.
Proof. intros H w Hw. now apply H. Qed.

Lemma hoare_bind {A B} P (m : M A) (k : A -> M B) R Q E :
  hoare P m R E -> (forall a, hoare (R a) (k a) Q E) -> hoare P (m ≫= k) Q E.
Proof.
  intros Hm Hk w Hw. rewrite run_bind. specialize (Hm w Hw).
  destruct (m w) as [[a|msg] w1]; [exact (Hk a w1 Hm)|exact Hm].
Qed.

Lemma hoare_try_catch {A} P (body : M A) handler Q E E1 :
  hoare P body Q E1 -> (forall msg, hoare E1 (handler msg) Q E) ->
  hoare P (try_catch body handler) Q E.
Proof.
  intros Hb Hh w Hw. unfold try_catch. specialize (Hb w Hw).
  destruct (body w) as [[a|msg] w1]; [exact Hb|exact (Hh msg w1 Hb)].
Qed.

Lemma hoare_call {A} P (f : World -> A * World) (Q : A -> World -> Prop) E :
  (forall w, P w -> E (upd_calls S w)) ->
  (forall w, P w -> Q (f (upd_calls S w)).1 (f (upd_calls S w)).2) ->
  hoare P (dom_call f) Q E.
Proof.
  intros He Hq w Hw. unfold dom_call.
  destruct (fault_at w (calls w)); [now apply He|].
  specialize (Hq w Hw). now destruct (f (upd_calls S w)).
Qed.

Lemma hoare_do P f (Q : unit -> World -> Prop) E :
  (forall w, P w -> E (upd_calls S w)) ->
  (forall w, P w -> Q tt (f (upd_calls S w))) ->
  hoare P (dom_do f) Q E.
Proof. intros He Hq. apply hoare_call; assumption. Qed.

Lemma hoare_get {A} P (f : World -> A) (Q : A -> World -> Prop) E :
  (forall w, P w -> E (upd_calls S w)) ->
  (forall w, P w -> Q (f (upd_calls S w)) (upd_calls S w)) ->
  hoare P (dom_get f) Q E.
Proof. intros He Hq. apply hoare_call; assumption. Qed.

Lemma hoare_weaken {A} (P P' : World -> Prop) (m : M A)
    (Q Q' : A -> World -> Prop) (E E' : World -> Prop) :
  hoare P' m Q' E' ->
  (forall w, P w -> P' w) -> (forall a w, Q' a w -> Q a w) ->
  (forall w, E' w -> E w) ->
  hoare P m Q E.
Proof.
  intros H HP HQ HE w Hw. specialize (H w (HP w Hw)).
  destruct (m w) as [[a|msg] w1]; auto.
Qed.

Lemma hoare_pre {A} (P P' : World -> Prop) (m : M A) Q E :
  hoare P' m Q E -> (forall w, P w -> P' w) -> hoare P m Q E.
Proof. intros H HP w Hw. exact (H w (HP w Hw)). Qed.

Lemma maintains_bind {A B} I (m : M A) (k : A -> M B) :
  maintains I m -> (forall a, maintains I (k a)) -> maintains I (m ≫= k).
Proof. intros Hm Hk. exact (hoare_bind I m k (fun _ => I) _ _ Hm Hk). Qed.

Lemma maintains_try_catch {A} I (body : M A) handler :
  maintains I body -> (forall msg, maintains I (handler msg)) ->
  maintains I (try_catch body handler).
Proof. intros Hb Hh. exact (hoare_try_catch I body handler _ _ I Hb Hh). Qed.

Lemma maintains_exec {A} I (m : M A) w : maintains I m -> I w -> I (exec m w).
Proof.
  intros Hm Hw. specialize (Hm w Hw). unfold exec.
  now destruct (m w) as [[a|msg] w'].
Qed.

(** *** What a computation leaves alone *)

Context {T : Type} (proj : World -> T).

Lemma keeps_ret {A} (a : A) : keeps proj (ret a).
Proof. intros w r w' H. now injection H as <- <-. Qed.

Lemma keeps_read {A} (f : World -> A) : keeps proj (read f).
Proof. intros w r w' H. now injection H as <- <-. Qed.

Lemma keeps_throw {A} msg : keeps proj (throw msg : M A).
Proof. intros w r w' H. now injection H as <- <-. Qed.

Lemma keeps_modify f :
  (forall w, proj (f w) = proj w) -> keeps proj (modify f).
Proof. intros Hf w r w' H. injection H as <- <-. apply Hf. Qed.

Lemma keeps_call {A} (f : World -> A * World) :
  (forall w, proj (upd_calls S w) = proj w) ->
  (forall w, proj (f w).2 = proj w) -> keeps proj (dom_call f).
Proof.
  intros Hc Hf w r w' H. unfold dom_call in H.
  destruct (fault_at w (calls w)).
  - injection H as <- <-. apply Hc.
  - specialize (Hf (upd_calls S w)).
    destruct (f (upd_calls S w)) as [a w2]. injection H as <- <-.
    cbn [snd] in Hf. rewrite Hf. apply Hc.
Qed.

Lemma keeps_do f :
  (forall w, proj (upd_calls S w) = proj w) ->
  (forall w, proj (f w) = proj w) -> keeps proj (dom_do f).
Proof. intros Hc Hf. apply keeps_call; assumption. Qed.

Lemma keeps_get {A} (f : World -> A) :
  (forall w, proj (upd_calls S w) = proj w) -> keeps proj (dom_get f).
Proof. intros Hc. apply keeps_call; [assumption|reflexivity]. Qed.

Lemma keeps_bind {A B} (m : M A) (k : A -> M B) :
  keeps proj m -> (forall a, keeps proj (k a)) -> keeps proj (m ≫= k).
Proof.
  intros Hm Hk w r w' H. rewrite run_bind in H.
  destruct (m w) as [[a|msg] w1] eqn:Hmw.
  - rewrite (Hk a w1 r w' H). exact (Hm w _ w1 Hmw).
  - injection H as <- <-. exact (Hm w _ w1 Hmw).
Qed.

Lemma keeps_try_catch {A} (body : M A) handler :
  keeps proj body -> (forall msg, keeps proj (handler msg)) ->
  keeps proj (try_catch body handler).
Proof.
  intros Hb Hh w r w' H. unfold try_catch in H.
  destruct (body w) as [[a|msg] w1] eqn:Hbw.
  - injection H as <- <-. exact (Hb w _ w1 Hbw).
  - rewrite (Hh msg w1 r w' H). exact (Hb w _ w1 Hbw).
Qed.

Lemma keeps_setTimer t :
  (forall w f g, proj (upd_next_handle f (upd_pending g w)) = proj w) ->
  keeps proj (setTimer t).
Proof. intros Hp w r w' H. unfold setTimer in H. injection H as <- <-. apply Hp. Qed.

(** A computation that keeps [proj] keeps every property of the state
    that depends on [proj] only. *)
Lemma hoare_keeps {A} (m : M A) (I : World -> Prop) :
  keeps proj m ->
  (forall w w', proj w' = proj w -> I w -> I w') ->
  hoare I m (fun _ => I) I.
Proof.
  intros Hk HI w Hw. destruct (m w) as [[a|msg] w'] eqn:Hm;
    exact (HI w w' (Hk w _ w' Hm) Hw).
Qed.

End Hoare.

(** Decompose a goal [keeps proj m] along the structure of [m]. *)
Ltac keep :=
  repeat first
    [ apply keeps_ret | apply keeps_read | apply keeps_throw
    | apply keeps_get; reflexivity
    | apply keeps_do; reflexivity
    | apply keeps_modify; reflexivity
    | apply keeps_setTimer; reflexivity
    | apply keeps_bind; [|intros ?]
    | apply keeps_try_catch; [|intros ?]
    | match goal with
      | |- keeps _ (match ?x with _ => _ end) => destruct x
      | |- keeps _ (if ?x then _ else _) => destruct x
      end ].

(** ** Computations that return and keep a property *)

Section Calm.
Import Dom Selector Effects DomApi.

Context {T : Type} (proj : World -> T) (P : World -> Prop).

Lemma calm_ret {A} (a : A) : calm P (ret a).
Proof. intros E w Hw. exact Hw. Qed.

Lemma calm_read {A} (f : World -> A) : calm P (read f).
Proof. intros E w Hw. exact Hw. Qed.

Lemma calm_bind {A B} (m : M A) (k : A -> M B) :
  calm P m -> (forall a, calm P (k a)) -> calm P (m ≫= k).
Proof.
  intros Hm Hk E. apply hoare_bind with (R := fun _ => P); [apply Hm|].
  intros a. apply Hk.
Qed.

Lemma calm_try_catch {A} (body : M A) handler :
  calm P body -> calm P (try_catch body handler).
Proof.
  intros Hb E. apply hoare_try_catch with (E1 := fun _ => False); [apply Hb|].
  intros msg w [].
Qed.

Hypothesis P_faultless : forall w, P w -> faultless w.
Hypothesis P_proj : forall w w', proj w' = proj w -> P w -> P w'.

Lemma calm_modify f : (forall w, proj (f w) = proj w) -> calm P (modify f).
Proof. intros Hf E w Hw. exact (P_proj w (f w) (Hf w) Hw). Qed.

Lemma calm_call {A} (f : World -> A * World) :
  (forall w, proj (upd_calls S w) = proj w) ->
  (forall w, proj (f w).2 = proj w) -> calm P (dom_call f).
Proof.
  intros Hc Hf E w Hw. unfold dom_call. rewrite (P_faultless w Hw (calls w)).
  pose proof (Hf (upd_calls S w)) as Hf'.
  destruct (f (upd_calls S w)) as [a w2]. cbn [snd] in Hf'.
  apply (P_proj w); [|exact Hw]. now rewrite Hf'.
Qed.

Lemma calm_do f :
  (forall w, proj (upd_calls S w) = proj w) ->
  (forall w, proj (f w) = proj w) -> calm P (dom_do f).
Proof. intros Hc Hf. apply calm_call; assumption. Qed.

Lemma calm_get {A} (f : World -> A) :
  (forall w, proj (upd_calls S w) = proj w) -> calm P (dom_get f).
Proof. intros Hc. apply calm_call; [assumption|reflexivity]. Qed.

Lemma calm_setTimer t :
  (forall w f g, proj (upd_next_handle f (upd_pending g w)) = proj w) ->
  calm P (setTimer t).
Proof. intros Hp E w Hw. apply (P_proj w); [apply Hp|exact Hw]. Qed.

End Calm.

(** Decompose a goal [calm P m] along the structure of [m]; [Hf] and [Hc]
    say that [P] excludes faults and depends on [proj] only. *)
Ltac becalm proj Hf Hc :=
  repeat first
    [ apply calm_ret | apply calm_read
    | apply (calm_get proj _ Hf Hc); reflexivity
    | apply (calm_do proj _ Hf Hc); reflexivity
    | apply (calm_call proj _ Hf Hc); reflexivity
    | apply (calm_modify proj _ Hc); reflexivity
    | apply (calm_setTimer proj _ Hc); reflexivity
    | apply calm_bind; [|intros ?]
    | apply calm_try_catch
    | match goal with
      | |- calm _ (match ?x with _ => _ end) => destruct x
      | |- calm _ (if ?x then _ else _) => destruct x
      end ].

(** ** The life cycle: what leaves the document and the handle alone *)

Section Inert.
Import Dom Selector Effects DomApi ClaudeAdapter ChatInputHandler Lifecycle.
Import Notions.

Lemma keeps_core_query sel : keeps core (query sel).
Proof. unfold query. keep. Qed.

Lemma keeps_core_byId id : keeps core (byId id).
Proof. unfold byId. keep. Qed.

Lemma keeps_core_createElement : keeps core createElement.
Proof. unfold createElement. apply keeps_call; reflexivity. Qed.

Lemma keeps_core_buttons_in c : keeps core (buttons_in c).
Proof. unfold buttons_in. keep. Qed.

Lemma keeps_core_fallback_insertion sels : keeps core (fallback_insertion sels).
Proof.
  induction sels as [|sel rest IH]; cbn [fallback_insertion]; [keep|].
  apply keeps_bind; [apply keeps_core_query|]. intros [c|]; [|exact IH].
  unfold buttons_in. keep.
Qed.

Lemma keeps_core_findButtonInsertionPoint : keeps core findButtonInsertionPoint.
Proof.
  unfold findButtonInsertionPoint, after_first_button, buttons_in, query.
  apply keeps_bind; [keep|]. intros [c|]; [keep|].
  apply keeps_bind; [keep|]. intros [c|]; [keep|].
  apply keeps_core_fallback_insertion.
Qed.

Lemma keeps_core_unmount_root : keeps core unmount_root.
Proof. unfold unmount_root, get, set, react_call. keep. Qed.

Lemma keeps_core_renderImported u : keeps core (renderImported u).
Proof. unfold renderImported, unmount_root, get, set, react_call. keep. Qed.

Lemma keeps_core_renderMCPPopover u : keeps core (renderMCPPopover u).
Proof. unfold renderMCPPopover. keep. Qed.

Lemma keeps_core_setupUrlTracking : keeps core setupUrlTracking.
Proof. unfold setupUrlTracking, get, set. keep. Qed.

Lemma keeps_core_setupStoreEventListeners : keeps core setupStoreEventListeners.
Proof. unfold setupStoreEventListeners, get, set. keep. Qed.

Lemma keeps_core_setupDOMObservers : keeps core setupDOMObservers.
Proof. unfold setupDOMObservers, get, set, construct. keep. Qed.

Lemma keeps_core_cleanupDOMObservers : keeps core cleanupDOMObservers.
Proof. unfold cleanupDOMObservers, get, set. keep. Qed.

Lemma keeps_core_setupUIIntegration : keeps core setupUIIntegration.
Proof. unfold setupUIIntegration, set. keep. Qed.

Lemma keeps_core_emit e : keeps core (emit e).
Proof. unfold emit. keep. Qed.

Lemma keeps_core_reset_setup_flags : keeps core reset_setup_flags.
Proof. unfold reset_setup_flags, set. keep. Qed.

Lemma keeps_core_clear_handle h reset :
  keeps core reset -> keeps core (clear_handle h reset).
Proof.
  intros Hr. unfold clear_handle, clearTimer. destruct h; [|keep].
  apply keeps_bind; [keep|]. intros _. exact Hr.
Qed.

Lemma keeps_core_findSubmitButton ci : keeps core (findSubmitButton ci).
Proof.
  unfold findSubmitButton, or_else, and_then, query, closest_of, query_in. keep.
Qed.

Lemma keeps_core_resolve p b : keeps core (resolve p b).
Proof. unfold resolve. keep. Qed.

Lemma keeps_core_poll_tick h p ci e m : keeps core (poll_tick h p ci e m).
Proof.
  unfold poll_tick, tryClickingButton, alternative_methods, clearTimer.
  apply keeps_bind; [keep|]. intros _.
  apply keeps_bind.
  { apply keeps_bind; [apply keeps_core_findSubmitButton|]. intros [b|].
    - unfold click, dispatchEvent, resolve. keep.
    - apply keeps_core_resolve. }
  intros _. destruct (_ <=? _)%Z; [|keep].
  unfold closest_of, construct, dispatchEvent, focus, resolve. keep.
Qed.

End Inert.

(** ** The life cycle: invariants

    An invariant that depends on the document, the handle and the oracle
    only, and that the four operations on injected nodes maintain, is
    maintained by every operation of the adapter and of the event loop. *)

Create HintDb inert.
#[export] Hint Resolve keeps_core_query keeps_core_byId keeps_core_buttons_in
  keeps_core_fallback_insertion keeps_core_findButtonInsertionPoint
  keeps_core_unmount_root keeps_core_renderImported keeps_core_renderMCPPopover
  keeps_core_setupUrlTracking keeps_core_setupStoreEventListeners
  keeps_core_setupDOMObservers keeps_core_cleanupDOMObservers
  keeps_core_setupUIIntegration keeps_core_emit keeps_core_reset_setup_flags
  keeps_core_findSubmitButton keeps_core_resolve keeps_core_poll_tick : inert.

Section Composite.
Import Dom Selector Effects DomApi ClaudeAdapter ChatInputHandler Lifecycle.
Import Notions.

Variable I : World -> Prop.
Hypothesis I_core : forall w w', core w' = core w -> I w -> I w'.
Hypothesis I_styles : maintains I injectClaudeButtonStyles.
Hypothesis I_inject :
  forall ip,
    hoare (fun w => I w /\ candidate ip (document w)) (injectMCPPopover ip)
      (fun _ => I) I.
Hypothesis I_cleanupUI : maintains I cleanupUIIntegration.
Hypothesis I_removeStyle : maintains I removeStyleElement.

Lemma maintains_keeps {A} (m : M A) : keeps core m -> maintains I m.
Proof. intros Hk. exact (hoare_keeps core m I Hk I_core). Qed.

(** A fact about the document stays true while the document does. *)
Lemma hoare_keeps_doc {A} (m : M A) (F : Document -> Prop) :
  keeps core m ->
  hoare (fun w => I w /\ F (document w)) m
    (fun _ w => I w /\ F (document w)) I.
Proof.
  intros Hk w [Hw HF]. destruct (m w) as [[a|msg] w'] eqn:Hm.
  - pose proof (Hk w _ w' Hm) as Hc. split; [exact (I_core w w' Hc Hw)|].
    injection Hc as -> _ _. exact HF.
  - exact (I_core w w' (Hk w _ w' Hm) Hw).
Qed.

Ltac maintain :=
  repeat first
    [ assumption
    | apply maintains_keeps; solve [auto with inert | keep]
    | apply maintains_bind; [|intros ?]
    | apply maintains_try_catch; [|intros ?]
    | match goal with
      | |- maintains _ (match ?x with _ => _ end) => destruct x
      | |- maintains _ (if ?x then _ else _) => destruct x
      end ].

(** The element that a query returns is the first match of its
    selector. *)
Lemma hoare_query sel :
  hoare I (query sel)
    (fun r w => I w /\
       forall p, r = Some p ->
         exists e, querySelector sel (document w) = Some e /\ e_path e = p)
    I.
Proof.
  unfold query. apply hoare_get.
  - intros w Hw. now apply (I_core w).
  - intros w Hw. split; [now apply (I_core w)|].
    cbn [document upd_calls]. intros p Hp.
    destruct (querySelector sel (document w)) as [e|]; [|discriminate].
    injection Hp as <-. now exists e.
Qed.

Lemma hoare_after_first_button sel c :
  In sel insertion_selectors ->
  hoare (fun w => I w /\
           exists e, querySelector sel (document w) = Some e /\ e_path e = c)
    (after_first_button c)
    (fun r w => I w /\ forall ip, r = Some ip -> candidate ip (document w)) I.
Proof.
  intros Hsel. unfold after_first_button.
  eapply hoare_bind.
  - apply (hoare_keeps_doc (buttons_in c)
             (fun f => exists e, querySelector sel f = Some e /\ e_path e = c)).
    apply keeps_core_buttons_in.
  - intros buttons. apply hoare_ret. intros w [Hw (e & He & Hp)].
    split; [exact Hw|]. intros ip [= <-]. now exists sel, e.
Qed.

Lemma hoare_fallback_insertion sels :
  (forall sel, In sel sels -> In sel insertion_selectors) ->
  hoare I (fallback_insertion sels)
    (fun r w => I w /\ forall ip, r = Some ip -> candidate ip (document w)) I.
Proof.
  induction sels as [|sel rest IH]; intros Hin; cbn [fallback_insertion].
  - apply hoare_ret. intros w Hw. split; [exact Hw|]. discriminate.
  - eapply hoare_bind; [apply hoare_query|]. intros [c|].
    + eapply hoare_bind.
      * eapply hoare_pre.
        { apply (hoare_keeps_doc (buttons_in c)
                   (fun f => exists e, querySelector sel f = Some e /\ e_path e = c)).
          apply keeps_core_buttons_in. }
        intros w [Hw Hq]. split; [exact Hw|]. now apply Hq.
      * intros buttons. apply hoare_ret. intros w [Hw (e & He & Hp)].
        split; [exact Hw|]. intros ip [= <-].
        exists sel, e. split; [apply Hin; now left|auto].
    + eapply hoare_pre.
      * apply IH. intros s Hs. apply Hin. now right.
      * now intros w [Hw _].
Qed.

Lemma hoare_findButtonInsertionPoint :
  hoare I findButtonInsertionPoint
    (fun r w => I w /\ forall ip, r = Some ip -> candidate ip (document w)) I.
Proof.
  unfold findButtonInsertionPoint.
  eapply hoare_bind; [apply hoare_query|]. intros [c|].
  { eapply hoare_pre.
    - apply (hoare_after_first_button tag_fieldset c). now left.
    - intros w [Hw Hq]. split; [exact Hw|]. now apply Hq. }
  eapply hoare_bind.
  { eapply hoare_pre; [apply hoare_query|]. now intros w [Hw _]. }
  intros [c|].
  { eapply hoare_pre.
    - apply (hoare_after_first_button composer_controls c). right. now left.
    - intros w [Hw Hq]. split; [exact Hw|]. now apply Hq. }
  eapply hoare_pre.
  - apply hoare_fallback_insertion. intros sel Hs. right. now right.
  - now intros w [Hw _].
Qed.

Lemma maintains_attemptInjection attempt maxRetries :
  maintains I (attemptInjection attempt maxRetries).
Proof.
  unfold attemptInjection.
  apply maintains_bind; [maintain|]. intros [p|]; [maintain|].
  eapply hoare_bind; [apply hoare_findButtonInsertionPoint|]. intros [ip|].
  - eapply hoare_pre; [apply (I_inject ip)|].
    intros w [Hw Hc]. split; [exact Hw|]. now apply Hc.
  - eapply hoare_pre with (P' := I); [|now intros w [Hw _]].
    change (maintains I (if attempt <? maxRetries
                         then h ← setTimer (AttemptInjection (S attempt) maxRetries);
                              ret tt
                         else ret tt)).
    maintain.
Qed.

Lemma maintains_checkReady attempts : maintains I (checkReady attempts).
Proof.
  unfold checkReady, injectMCPPopoverWithRetry.
  apply maintains_bind; [maintain|]. intros [ip|].
  - apply maintains_try_catch; [apply maintains_attemptInjection|]. intros msg. maintain.
  - maintain.
Qed.

Lemma maintains_checkAndRestoreSidebar : maintains I checkAndRestoreSidebar.
Proof.
  unfold checkAndRestoreSidebar, ensureMCPPopoverConnection, isMCPPopoverInjected,
    injectMCPPopoverWithRetry.
  apply maintains_try_catch; [|intros msg; maintain].
  apply maintains_bind; [maintain|]. intros manager.
  destruct (negb manager); [maintain|].
  apply maintains_try_catch; [|intros msg; maintain].
  apply maintains_bind; [maintain|]. intros injected.
  destruct (negb injected); [apply maintains_attemptInjection|maintain].
Qed.

Lemma maintains_onPageChanged url : maintains I (onPageChanged url).
Proof. unfold onPageChanged, set, emit. maintain. Qed.

Lemma maintains_urlCheck : maintains I urlCheck.
Proof.
  unfold urlCheck, get, set.
  apply maintains_bind; [maintain|]. intros currentUrl.
  apply maintains_bind; [maintain|]. intros last.
  destruct (String.eqb currentUrl last); [maintain|].
  apply maintains_bind; [apply maintains_onPageChanged|]. intros _. maintain.
Qed.

Lemma maintains_run_task h : maintains I (run_task h).
Proof.
  unfold run_task, clearTimer.
  apply maintains_bind; [maintain|]. intros w0.
  destruct (pending w0 !! h) as [t|]; [|maintain].
  apply maintains_bind; [maintain|]. intros _.
  destruct t.
  - maintain.
  - apply maintains_urlCheck.
  - apply maintains_checkReady.
  - apply maintains_attemptInjection.
  - maintain.
  - apply maintains_checkAndRestoreSidebar.
  - maintain.
Qed.

Lemma maintains_initialize : maintains I initialize.
Proof.
  unfold initialize, super_initialize, get, set.
  apply maintains_bind; [maintain|]. intros s. destruct s; maintain.
Qed.

Lemma maintains_activate : maintains I activate.
Proof.
  unfold activate, super_activate, get, set.
  apply maintains_bind; [maintain|]. intros s. destruct s; maintain.
Qed.

Lemma maintains_deactivate : maintains I deactivate.
Proof.
  unfold deactivate, super_deactivate, get, set.
  apply maintains_bind; [maintain|]. intros s. destruct s; maintain.
Qed.

Lemma maintains_cleanup : maintains I cleanup.
Proof.
  unfold cleanup, super_cleanup, get, set.
  apply maintains_bind; [maintain|]. intros _.
  apply maintains_bind; [maintain|]. intros u.
  apply maintains_bind.
  { apply maintains_keeps, keeps_core_clear_handle. keep. }
  intros _. apply maintains_bind; [maintain|]. intros c.
  apply maintains_bind.
  { apply maintains_keeps, keeps_core_clear_handle. keep. }
  intros _. maintain.
Qed.

Lemma maintains_onHostChanged : maintains I onHostChanged.
Proof. unfold onHostChanged. maintain. Qed.

Lemma maintains_observerCallback : maintains I observerCallback.
Proof. unfold observerCallback. maintain. Qed.

(** Every operation that leaves the tree of the page to the adapter
    maintains the invariant. *)
Lemma step_maintains op w : adapter_op op = true -> I w -> I (step op w).
Proof.
  intros Hop Hw. destruct op; cbn [step].
  - apply maintains_exec; [apply maintains_initialize|exact Hw].
  - apply maintains_exec; [apply maintains_activate|exact Hw].
  - apply maintains_exec; [apply maintains_deactivate|exact Hw].
  - apply maintains_exec; [apply maintains_cleanup|exact Hw].
  - apply maintains_exec; [apply maintains_onHostChanged|exact Hw].
  - apply maintains_exec; [apply maintains_onPageChanged|exact Hw].
  - apply maintains_exec; [apply maintains_attemptInjection|exact Hw].
  - apply maintains_exec; [apply maintains_run_task|exact Hw].
  - destruct (mutationObserver (adapter w)) as [[|]|]; try exact Hw.
    apply maintains_exec; [apply maintains_observerCallback|exact Hw].
  - now apply (I_core w).
  - discriminate.
Qed.

Lemma run_maintains ops w :
  forallb adapter_op ops = true -> I w -> I (run ops w).
Proof.
  revert w. induction ops as [|op ops IH]; intros w Hops Hw; [exact Hw|].
  cbn [forallb] in Hops. apply andb_true_iff in Hops as [Hop Hops].
  cbn [run fold_left]. apply IH; [exact Hops|]. now apply step_maintains.
Qed.

End Composite.

(** ** At most one container *)

Section AtMostOne.
Import Dom Selector Effects DomApi ClaudeAdapter ChatInputHandler Lifecycle.
Import Notions Invariants.

Lemma delete_nowhere {A} (l : list A) i : l !! i = None -> delete i l = l.
Proof.
  revert i. induction l as [|x l IH]; intros [|i] Hi; try reflexivity.
  - discriminate.
  - change (delete (S i) (x :: l)) with (x :: delete i l).
    now rewrite IH.
Qed.

Lemma tally_forest_delete_le P (l : list Node) i :
  tally_forest P (delete i l) <= tally_forest P l.
Proof.
  destruct (l !! i) as [n|] eqn:Hi.
  - pose proof (tally_forest_delete P l i n Hi). lia.
  - rewrite delete_nowhere by assumption. lia.
Qed.

Lemma tally_remove_at_le P p f :
  tally_forest P (remove_at p f) <= tally_forest P f.
Proof.
  unfold remove_at. destruct p as [|i p]; [lia|].
  destruct (children_at (parent_path (i :: p)) f) as [siblings|] eqn:Hc.
  - pose proof (tally_modify_children P _ (delete (child_index (i :: p))) f siblings Hc).
    pose proof (tally_forest_delete_le P siblings (child_index (i :: p))). lia.
  - rewrite modify_children_nowhere by assumption. lia.
Qed.

Lemma tally_append_child_le P p n f :
  tally_forest P (append_child p n f) <= tally_forest P f + tally P n.
Proof.
  unfold append_child. destruct (children_at p f) as [kids|] eqn:Hc.
  - pose proof (tally_modify_children P p (fun kids => kids ++ [n]) f kids Hc) as Hm.
    cbn beta in Hm. rewrite tally_forest_app in Hm. cbn [tally_forest] in Hm. lia.
  - rewrite modify_children_nowhere by assumption. lia.
Qed.

Lemma tally_insert_after_child_le P p i n f :
  tally_forest P (insert_after_child p i n f) <= tally_forest P f + tally P n.
Proof.
  unfold insert_after_child. destruct (children_at p f) as [kids|] eqn:Hc.
  - pose proof (tally_modify_children P p
                  (fun kids => take (S i) kids ++ n :: drop (S i) kids) f kids Hc) as Hm.
    cbn beta in Hm. rewrite tally_forest_insert_after in Hm. lia.
  - rewrite modify_children_nowhere by assumption. lia.
Qed.

Lemma containers_tally w : containers w = tally_forest is_container (document w).
Proof. unfold containers. apply count_id_tally. Qed.

Lemma at_most_one_core w w' : core w' = core w -> at_most_one w -> at_most_one w'.
Proof. intros [= Hd _ _]. unfold at_most_one, containers. now rewrite Hd. Qed.

Lemma at_most_one_remove p : maintains at_most_one (remove p).
Proof.
  unfold remove. apply hoare_do; intros w Hw; [exact Hw|].
  unfold at_most_one in *. rewrite containers_tally in *.
  cbn [document upd_document upd_calls].
  pose proof (tally_remove_at_le is_container p (document w)). lia.
Qed.

Lemma tally_style_node u :
  tally is_container
    (element u "style" [("id", style_id)] [Text getClaudeButtonStyles]) = 0.
Proof. reflexivity. Qed.

Lemma tally_container_node u : tally is_container (container_node u) = 1.
Proof. reflexivity. Qed.

Lemma at_most_one_injectClaudeButtonStyles :
  maintains at_most_one injectClaudeButtonStyles.
Proof.
  unfold injectClaudeButtonStyles, get, set.
  apply maintains_bind; [apply maintains_keeps; [apply at_most_one_core|keep]|].
  intros injected. destruct injected.
  { apply maintains_keeps; [apply at_most_one_core|keep]. }
  apply maintains_try_catch;
    [|intros msg; apply maintains_keeps; [apply at_most_one_core|keep]].
  apply maintains_bind; [apply maintains_keeps; [apply at_most_one_core|keep]|].
  intros existingStyles. apply maintains_bind.
  { destruct existingStyles as [p|]; [apply at_most_one_remove|].
    apply maintains_keeps; [apply at_most_one_core|keep]. }
  intros _.
  apply maintains_bind;
    [apply maintains_keeps; [apply at_most_one_core|apply keeps_core_createElement]|].
  intros u.
  do 2 (apply maintains_bind;
        [apply maintains_keeps; [apply at_most_one_core|keep]|]; intros _).
  apply maintains_bind; [apply maintains_keeps; [apply at_most_one_core|keep]|].
  intros w0. apply maintains_bind.
  - destruct (head_path (document w0)) as [h|].
    + unfold appendChild. apply hoare_do; intros w Hw; [exact Hw|].
      unfold at_most_one in *. rewrite containers_tally in *.
      cbn [document upd_document upd_calls].
      pose proof (tally_append_child_le is_container h
                    (element u "style" [("id", style_id)] [Text getClaudeButtonStyles])
                    (document w)) as Hle.
      rewrite tally_style_node in Hle. lia.
    + apply maintains_keeps; [apply at_most_one_core|keep].
  - intros _. apply maintains_keeps; [apply at_most_one_core|keep].
Qed.

Lemma no_container_keeps {A} (m : M A) :
  keeps core m -> hoare no_container m (fun _ => no_container) at_most_one.
Proof.
  intros Hk w Hw. destruct (m w) as [[a|msg] w'] eqn:Hm;
    pose proof (Hk w _ w' Hm) as [= Hd _ _];
    unfold no_container, at_most_one, containers in *; rewrite Hd; lia.
Qed.

Lemma at_most_one_injectMCPPopover ip :
  hoare (fun w => at_most_one w /\ candidate ip (document w)) (injectMCPPopover ip)
    (fun _ => at_most_one) at_most_one.
Proof.
  unfold injectMCPPopover.
  apply hoare_try_catch with (E1 := at_most_one);
    [|intros msg; apply maintains_keeps; [apply at_most_one_core|keep]].
  apply hoare_bind with
    (R := fun r w => at_most_one w /\ (r = None -> no_container w)).
  { unfold byId. apply hoare_get.
    - now intros w [Hw _].
    - intros w [Hw _]. split; [exact Hw|].
      cbn [document upd_calls]. intros Hr.
      destruct (getElementById container_id (document w)) eqn:Hg; [discriminate|].
      now apply getElementById_None in Hg. }
  intros [p|].
  { apply hoare_ret. now intros w [Hw _]. }
  apply hoare_pre with (P' := no_container); [|intros w [_ Hn]; now apply Hn].
  eapply hoare_bind; [apply no_container_keeps; apply keeps_core_createElement|].
  intros u.
  do 3 (eapply hoare_bind; [apply no_container_keeps; keep|]; intros ?; cbv beta).
  destruct ip as [container after].
  apply hoare_bind with (R := fun _ => at_most_one).
  - assert (Happ : hoare no_container (appendChild container (container_node u))
                     (fun _ => at_most_one) at_most_one).
    { unfold appendChild. apply hoare_do; intros w Hw;
        unfold no_container, at_most_one in *; rewrite containers_tally in *;
        cbn [document upd_document upd_calls]; [lia|].
      pose proof (tally_append_child_le is_container container (container_node u)
                    (document w)) as Hle.
      rewrite tally_container_node in Hle. lia. }
    destruct after as [sibling|]; [|exact Happ].
    destruct (bool_decide _); [|exact Happ].
    unfold insertAfter. apply hoare_do; intros w Hw;
      unfold no_container, at_most_one in *; rewrite containers_tally in *;
      cbn [document upd_document upd_calls]; [lia|].
    pose proof (tally_insert_after_child_le is_container container (child_index sibling)
                  (container_node u) (document w)) as Hle.
    rewrite tally_container_node in Hle. lia.
  - intros _. apply maintains_bind.
    + unfold set. apply hoare_modify. intros w Hw. exact Hw.
    + intros _. apply maintains_keeps; [apply at_most_one_core|].
      apply keeps_core_renderMCPPopover.
Qed.

Lemma at_most_one_cleanupUIIntegration : maintains at_most_one cleanupUIIntegration.
Proof.
  unfold cleanupUIIntegration.
  apply maintains_bind.
  - apply maintains_try_catch;
      [|intros msg; apply maintains_keeps; [apply at_most_one_core|keep]].
    apply maintains_bind;
      [apply maintains_keeps; [apply at_most_one_core|apply keeps_core_unmount_root]|].
    intros _.
    apply maintains_bind;
      [apply maintains_keeps; [apply at_most_one_core|apply keeps_core_byId]|].
    intros [p|]; [|apply maintains_keeps; [apply at_most_one_core|keep]].
    apply maintains_try_catch; [apply at_most_one_remove|]. intros msg.
    apply maintains_try_catch; [apply at_most_one_remove|]. intros msg'.
    apply maintains_keeps; [apply at_most_one_core|keep].
  - intros _. unfold set. apply hoare_modify. intros w Hw. exact Hw.
Qed.

Lemma at_most_one_removeStyleElement : maintains at_most_one removeStyleElement.
Proof.
  unfold removeStyleElement.
  apply maintains_bind;
    [apply maintains_keeps; [apply at_most_one_core|apply keeps_core_byId]|].
  intros [p|]; [|apply maintains_keeps; [apply at_most_one_core|keep]].
  apply maintains_bind; [apply at_most_one_remove|]. intros _.
  apply maintains_keeps; [apply at_most_one_core|unfold set; keep].
Qed.

(** Whatever the plugin host calls and whichever callbacks run, and
    whatever DOM calls raise, the adapter never brings the document to
    hold two containers. *)
Lemma at_most_one_run ops w :
  forallb adapter_op ops = true -> at_most_one w -> at_most_one (run ops w).
Proof.
  apply (run_maintains at_most_one at_most_one_core
           at_most_one_injectClaudeButtonStyles at_most_one_injectMCPPopover
           at_most_one_cleanupUIIntegration at_most_one_removeStyleElement).
Qed.

End AtMostOne.

(** ** At most one style sheet, and the oracle *)

Section AtMostOneStyle.
Import Dom Selector Effects DomApi ClaudeAdapter ChatInputHandler Lifecycle.
Import Notions Invariants.

Lemma style_sheets_tally w : style_sheets w = tally_forest is_style (document w).
Proof. unfold style_sheets. apply count_id_tally. Qed.

Lemma at_most_one_style_core w w' :
  core w' = core w -> at_most_one_style w -> at_most_one_style w'.
Proof. intros [= Hd _ _]. unfold at_most_one_style, style_sheets. now rewrite Hd. Qed.

Lemma at_most_one_style_remove p : maintains at_most_one_style (remove p).
Proof.
  unfold remove. apply hoare_do; intros w Hw; [exact Hw|].
  unfold at_most_one_style in *. rewrite style_sheets_tally in *.
  cbn [document upd_document upd_calls].
  pose proof (tally_remove_at_le is_style p (document w)). lia.
Qed.

Lemma no_style_core w w' :
  core w' = core w -> style_sheets w = 0 -> style_sheets w' = 0.
Proof. intros [= Hd _ _]. unfold style_sheets. now rewrite Hd. Qed.

Lemma no_style_keeps {A} (m : M A) :
  keeps core m ->
  hoare (fun w => style_sheets w = 0) m (fun _ w => style_sheets w = 0)
    at_most_one_style.
Proof.
  intros Hk w Hw. destruct (m w) as [[a|msg] w'] eqn:Hm;
    pose proof (no_style_core w w' (Hk w _ w' Hm) Hw) as H;
    [exact H|unfold at_most_one_style; lia].
Qed.

(** The style sheet is injected after an earlier one is removed. *)
Lemma at_most_one_style_injectClaudeButtonStyles :
  maintains at_most_one_style injectClaudeButtonStyles.
Proof.
  unfold injectClaudeButtonStyles, get, set.
  apply maintains_bind;
    [apply maintains_keeps; [apply at_most_one_style_core|keep]|].
  intros injected. destruct injected.
  { apply maintains_keeps; [apply at_most_one_style_core|keep]. }
  apply maintains_try_catch;
    [|intros msg; apply maintains_keeps; [apply at_most_one_style_core|keep]].
  apply hoare_bind with
    (R := fun r w => at_most_one_style w /\
            match r with
            | Some p => exists d kids,
                elem_at p (document w) = Some (d, kids) /\ is_style d = true
            | None => style_sheets w = 0
            end).
  { unfold byId. apply hoare_get; [now intros w Hw|].
    intros w Hw. split; [exact Hw|]. cbn [document upd_calls].
    destruct (getElementById style_id (document w)) as [e|] eqn:Hg;
      cbn [fmap option_fmap option_map].
    - apply getElementById_Some in Hg as [He Hid]. eauto.
    - now apply getElementById_None in Hg. }
  intros existingStyles.
  apply hoare_bind with (R := fun _ w => style_sheets w = 0).
  { destruct existingStyles as [p|].
    - unfold remove. apply hoare_do; [now intros w [Hw _]|].
      intros w [Hw (d & kids & He & Hid)].
      pose proof (tally_remove_at is_style p _ d kids He) as Hr.
      rewrite tally_Elem, Hid in Hr.
      unfold at_most_one_style in Hw. rewrite style_sheets_tally in *.
      cbn [document upd_document upd_calls]. lia.
    - apply hoare_ret. now intros w [_ Hw]. }
  intros _.
  eapply hoare_bind; [apply no_style_keeps, keeps_core_createElement|].
  intros u. cbv beta.
  do 2 (eapply hoare_bind; [apply no_style_keeps; keep|]; intros ?; cbv beta).
  apply hoare_bind with (R := fun w0 w => style_sheets w = 0).
  { apply hoare_read. now intros w Hw. }
  intros w0. apply hoare_bind with (R := fun _ => at_most_one_style).
  - destruct (head_path (document w0)) as [h|].
    + unfold appendChild. apply hoare_do; intros w Hw;
        unfold at_most_one_style; rewrite style_sheets_tally in *;
        cbn [document upd_document upd_calls]; [lia|].
      pose proof (tally_append_child_le is_style h
                    (element u "style" [("id", style_id)] [Text getClaudeButtonStyles])
                    (document w)) as Hle.
      change (tally is_style
                (element u "style" [("id", style_id)] [Text getClaudeButtonStyles]))
        with 1 in Hle.
      lia.
    + apply hoare_throw. intros w Hw. unfold at_most_one_style. lia.
  - intros _. apply maintains_keeps; [apply at_most_one_style_core|keep].
Qed.

Lemma tally_style_container_node u : tally is_style (container_node u) = 0.
Proof. reflexivity. Qed.

Lemma at_most_one_style_injectMCPPopover ip :
  hoare (fun w => at_most_one_style w /\ candidate ip (document w))
    (injectMCPPopover ip) (fun _ => at_most_one_style) at_most_one_style.
Proof.
  apply hoare_pre with (P' := at_most_one_style); [|now intros w [Hw _]].
  unfold injectMCPPopover.
  apply maintains_try_catch;
    [|intros msg; apply maintains_keeps; [apply at_most_one_style_core|keep]].
  apply maintains_bind;
    [apply maintains_keeps; [apply at_most_one_style_core|apply keeps_core_byId]|].
  intros [p|]; [apply maintains_keeps; [apply at_most_one_style_core|keep]|].
  apply maintains_bind;
    [apply maintains_keeps;
     [apply at_most_one_style_core|apply keeps_core_createElement]|].
  intros u.
  do 3 (apply maintains_bind;
        [apply maintains_keeps; [apply at_most_one_style_core|keep]|]; intros _).
  destruct ip as [container after].
  apply maintains_bind.
  - assert (Happ : maintains at_most_one_style
                     (appendChild container (container_node u))).
    { unfold appendChild. apply hoare_do; intros w Hw; [exact Hw|].
      unfold at_most_one_style in *. rewrite style_sheets_tally in *.
      cbn [document upd_document upd_calls].
      pose proof (tally_append_child_le is_style container (container_node u)
                    (document w)) as Hle.
      rewrite tally_style_container_node in Hle. lia. }
    destruct after as [sibling|]; [|exact Happ].
    destruct (bool_decide _); [|exact Happ].
    unfold insertAfter. apply hoare_do; intros w Hw; [exact Hw|].
    unfold at_most_one_style in *. rewrite style_sheets_tally in *.
    cbn [document upd_document upd_calls].
    pose proof (tally_insert_after_child_le is_style container (child_index sibling)
                  (container_node u) (document w)) as Hle.
    rewrite tally_style_container_node in Hle. lia.
  - intros _. apply maintains_bind.
    + unfold set. apply hoare_modify. intros w Hw. exact Hw.
    + intros _. apply maintains_keeps; [apply at_most_one_style_core|].
      apply keeps_core_renderMCPPopover.
Qed.

Lemma at_most_one_style_cleanupUIIntegration :
  maintains at_most_one_style cleanupUIIntegration.
Proof.
  unfold cleanupUIIntegration.
  apply maintains_bind.
  - apply maintains_try_catch;
      [|intros msg; apply maintains_keeps; [apply at_most_one_style_core|keep]].
    apply maintains_bind;
      [apply maintains_keeps;
       [apply at_most_one_style_core|apply keeps_core_unmount_root]|].
    intros _.
    apply maintains_bind;
      [apply maintains_keeps; [apply at_most_one_style_core|apply keeps_core_byId]|].
    intros [p|]; [|apply maintains_keeps; [apply at_most_one_style_core|keep]].
    apply maintains_try_catch; [apply at_most_one_style_remove|]. intros msg.
    apply maintains_try_catch; [apply at_most_one_style_remove|]. intros msg'.
    apply maintains_keeps; [apply at_most_one_style_core|keep].
  - intros _. unfold set. apply hoare_modify. intros w Hw. exact Hw.
Qed.

Lemma at_most_one_style_removeStyleElement :
  maintains at_most_one_style removeStyleElement.
Proof.
  unfold removeStyleElement.
  apply maintains_bind;
    [apply maintains_keeps; [apply at_most_one_style_core|apply keeps_core_byId]|].
  intros [p|]; [|apply maintains_keeps; [apply at_most_one_style_core|keep]].
  apply maintains_bind; [apply at_most_one_style_remove|]. intros _.
  apply maintains_keeps; [apply at_most_one_style_core|unfold set; keep].
Qed.

(** Whatever the plugin host calls and whichever callbacks run, and
    whatever DOM calls raise, the adapter never brings the document to
    hold two style sheets of its id. *)
Lemma at_most_one_style_run ops w :
  forallb adapter_op ops = true -> at_most_one_style w ->
  at_most_one_style (run ops w).
Proof.
  apply (run_maintains at_most_one_style at_most_one_style_core
           at_most_one_style_injectClaudeButtonStyles
           at_most_one_style_injectMCPPopover
           at_most_one_style_cleanupUIIntegration
           at_most_one_style_removeStyleElement).
Qed.

(** *** The oracle *)




End AtMostOneStyle.

(** ** The document: the style sheets of the adapter *)

Section Shape.
Import Dom Selector Effects Lifecycle.
Import Notions Invariants.

Lemma plain_Elem d kids :
  plain_node (Elem d kids) =
    implb (is_style d) (style_data d && no_elements kids) && plain_forest kids.
Proof.
  cbn [plain_node]. f_equal.
Qed.

Lemma plain_forest_lookup (l : list Node) i n :
  plain_forest l = true -> l !! i = Some n -> plain_node n = true.
Proof.
  revert i. induction l as [|k l IH]; intros [|i] Hl Hi; try discriminate;
    cbn [plain_forest] in Hl; apply andb_prop in Hl as [Hk Hl].
  - now injection Hi as <-.
  - exact (IH i Hl Hi).
Qed.

Lemma plain_forest_insert (l : list Node) i n :
  plain_forest l = true -> plain_node n = true -> plain_forest (<[i := n]> l) = true.
Proof.
  revert i. induction l as [|k l IH]; intros [|i] Hl Hn; try reflexivity;
    cbn [plain_forest] in Hl; apply andb_prop in Hl as [Hk Hl].
  - change (<[0 := n]> (k :: l)) with (n :: l). cbn [plain_forest].
    now rewrite Hn, Hl.
  - change (<[S i := n]> (k :: l)) with (k :: <[i := n]> l). cbn [plain_forest].
    now rewrite Hk, IH.
Qed.

Lemma plain_forest_delete (l : list Node) i :
  plain_forest l = true -> plain_forest (delete i l) = true.
Proof.
  revert i. induction l as [|k l IH]; intros [|i] Hl; try reflexivity;
    cbn [plain_forest] in Hl; apply andb_prop in Hl as [Hk Hl].
  - exact Hl.
  - change (delete (S i) (k :: l)) with (k :: delete i l). cbn [plain_forest].
    now rewrite Hk, IH.
Qed.

Lemma plain_forest_app l1 l2 :
  plain_forest (l1 ++ l2) = plain_forest l1 && plain_forest l2.
Proof.
  induction l1 as [|k l1 IH]; [reflexivity|].
  cbn [app plain_forest]. now rewrite IH, andb_assoc.
Qed.

Lemma plain_forest_insert_after (l : list Node) i n :
  plain_forest l = true -> plain_node n = true ->
  plain_forest (take (S i) l ++ n :: drop (S i) l) = true.
Proof.
  intros Hl Hn. rewrite <- (take_drop (S i) l), plain_forest_app in Hl.
  apply andb_prop in Hl as [H1 H2].
  rewrite plain_forest_app. cbn [plain_forest]. now rewrite H1, Hn, H2.
Qed.

Lemma no_elements_lookup (l : list Node) i d kids :
  no_elements l = true -> l !! i = Some (Elem d kids) -> False.
Proof.
  revert i. induction l as [|k l IH]; intros [|i] Hl Hi; try discriminate;
    cbn [no_elements forallb] in Hl; apply andb_prop in Hl as [Hk Hl].
  - injection Hi as ->. discriminate.
  - exact (IH i Hl Hi).
Qed.

Lemma no_elements_delete (l : list Node) i :
  no_elements l = true -> no_elements (delete i l) = true.
Proof.
  revert i. induction l as [|k l IH]; intros [|i] Hl; try reflexivity;
    cbn [no_elements forallb] in Hl; apply andb_prop in Hl as [Hk Hl].
  - exact Hl.
  - change (delete (S i) (k :: l)) with (k :: delete i l).
    cbn [no_elements forallb]. rewrite Hk. exact (IH i Hl).
Qed.

Lemma no_elements_tally P l : no_elements l = true -> tally_forest P l = 0.
Proof.
  induction l as [|k l IH]; [reflexivity|]. intros Hl.
  cbn [no_elements forallb] in Hl. apply andb_prop in Hl as [Hk Hl].
  destruct k; [discriminate|]. cbn [tally_forest tally]. now apply IH.
Qed.

(** A change of the child list of the node at [p] keeps the style sheets
    plain when the new list is plain and, below a style sheet, holds no
    element. *)
Lemma plain_modify_children p g f :
  plain_forest f = true ->
  (forall kids, children_at p f = Some kids -> plain_forest kids = true ->
                plain_forest (g kids) = true) ->
  (forall d kids, elem_at p f = Some (d, kids) -> is_style d = true ->
                  no_elements kids = true -> no_elements (g kids) = true) ->
  plain_forest (modify_children p g f) = true.
Proof.
  revert f. induction p as [|i p IH]; intros f Hf Hg Hs.
  - cbn [modify_children]. now apply Hg.
  - cbn [modify_children].
    destruct (f !! i) as [[d0 k0|]|] eqn:Hi; try exact Hf.
    pose proof (plain_forest_lookup f i _ Hf Hi) as Hn.
    rewrite plain_Elem in Hn. apply andb_prop in Hn as [Hd Hk].
    apply plain_forest_insert; [exact Hf|].
    rewrite plain_Elem. apply andb_true_intro. split.
    + destruct (is_style d0) eqn:Hst; [|reflexivity]. cbn [implb] in *.
      apply andb_prop in Hd as [Hsd Hne]. rewrite Hsd. cbn [andb].
      destruct p as [|j p].
      * cbn [modify_children]. apply (Hs d0 k0); auto.
        now rewrite elem_at_here, Hi.
      * cbn [modify_children].
        destruct (k0 !! j) as [[d1 k1|]|] eqn:Hj; try exact Hne.
        destruct (no_elements_lookup k0 j d1 k1 Hne Hj).
    + apply IH; [exact Hk| |].
      * intros kids Hc. apply Hg. now rewrite children_at_cons, Hi.
      * intros d kids He. destruct p as [|j p]; [discriminate|].
        apply Hs. now rewrite elem_at_below, Hi.
Qed.

Lemma plain_remove_at p f :
  plain_forest f = true -> plain_forest (remove_at p f) = true.
Proof.
  intros Hf. unfold remove_at. destruct p as [|i p]; [exact Hf|].
  apply plain_modify_children; [exact Hf| |].
  - intros kids _. apply plain_forest_delete.
  - intros d kids _ _. apply no_elements_delete.
Qed.

Lemma plain_append_child p n f :
  plain_forest f = true -> plain_node n = true ->
  (forall d kids, elem_at p f = Some (d, kids) -> is_style d = false) ->
  plain_forest (append_child p n f) = true.
Proof.
  intros Hf Hn Hp. unfold append_child.
  apply plain_modify_children; [exact Hf| |].
  - intros kids _ Hk. rewrite plain_forest_app. cbn [plain_forest].
    now rewrite Hk, Hn.
  - intros d kids He Hs. rewrite (Hp d kids He) in Hs. discriminate.
Qed.

Lemma plain_insert_after_child p i n f :
  plain_forest f = true -> plain_node n = true ->
  (forall d kids, elem_at p f = Some (d, kids) -> is_style d = false) ->
  plain_forest (insert_after_child p i n f) = true.
Proof.
  intros Hf Hn Hp. unfold insert_after_child.
  apply plain_modify_children; [exact Hf| |].
  - intros kids _ Hk. now apply plain_forest_insert_after.
  - intros d kids He Hs. rewrite (Hp d kids He) in Hs. discriminate.
Qed.

Lemma plain_elem_at p f d kids :
  plain_forest f = true -> elem_at p f = Some (d, kids) ->
  plain_node (Elem d kids) = true.
Proof.
  revert f. induction p as [|i p IH]; intros f Hf He; [discriminate|].
  destruct p as [|j p].
  - rewrite elem_at_here in He.
    destruct (f !! i) as [[d0 k0|]|] eqn:Hi; try discriminate.
    injection He as <- <-. exact (plain_forest_lookup f i _ Hf Hi).
  - rewrite elem_at_below in He.
    destruct (f !! i) as [[d0 k0|]|] eqn:Hi; try discriminate.
    pose proof (plain_forest_lookup f i _ Hf Hi) as Hn.
    rewrite plain_Elem in Hn. apply andb_prop in Hn as [_ Hk].
    exact (IH k0 Hk He).
Qed.

Lemma style_data_not_container d : style_data d = true -> is_container d = false.
Proof.
  unfold style_data, is_container, attr_is, getAttribute. intros H.
  apply andb_prop in H as [_ H]. apply bool_decide_eq_true in H.
  rewrite H. reflexivity.
Qed.

Lemma style_data_is_style d : style_data d = true -> is_style d = true.
Proof.
  unfold style_data, is_style, attr_is, getAttribute. intros H.
  apply andb_prop in H as [_ H]. apply bool_decide_eq_true in H.
  rewrite H. reflexivity.
Qed.

(** A style sheet of the adapter holds no container and is none. *)
Lemma plain_style_no_container d kids :
  plain_node (Elem d kids) = true -> is_style d = true ->
  tally is_container (Elem d kids) = 0.
Proof.
  intros Hn Hs. rewrite plain_Elem, Hs in Hn. cbn [implb] in Hn.
  apply andb_prop in Hn as [Hd _]. apply andb_prop in Hd as [Hsd Hne].
  rewrite tally_Elem, (style_data_not_container d Hsd).
  now rewrite no_elements_tally.
Qed.

(** A document without an element of the id of the style sheet is
    plain. *)
Lemma plain_without_styles f : tally_forest is_style f = 0 -> plain_forest f = true.
Proof.
  induction f as [|n f IHf]; [reflexivity|]. cbn [tally_forest plain_forest].
  intros H. rewrite IHf by lia. rewrite andb_true_r.
  assert (Hn : tally is_style n = 0) by lia. clear H IHf.
  induction n as [s|d kids IH] using Node_induction; [reflexivity|].
  rewrite tally_Elem in Hn. rewrite plain_Elem.
  destruct (is_style d); [discriminate|]. cbn [implb andb].
  cbn [plus] in Hn. induction IH as [|k kids Hk _ IHk]; [reflexivity|].
  cbn [tally_forest plain_forest] in *. rewrite Hk by lia. now rewrite IHk by lia.
Qed.

(** What the selectors of the insertion point select is no style sheet
    of the adapter. *)
Lemma selected_not_style sel e :
  In sel insertion_selectors -> selects sel e = true ->
  style_data (f_data (e_frame e)) = false.
Proof.
  intros Hin Hsel. destruct (style_data (f_data (e_frame e))) eqn:Hs; [|reflexivity].
  destruct e as [path [[u ln at_ v fs s1 s2 rw rh] kids lastc] anc].
  cbn [e_frame f_data] in Hs. unfold style_data in Hs. cbn [localName attrs] in Hs.
  apply andb_prop in Hs as [Hln Hat]. apply String.eqb_eq in Hln.
  apply bool_decide_eq_true in Hat. subst ln at_.
  unfold insertion_selectors in Hin. cbn [In fallbackSelectors] in Hin.
  repeat (destruct Hin as [<-|Hin]; [vm_compute in Hsel; discriminate|]).
  destruct Hin.
Qed.

Lemma candidate_elem ip f :
  candidate ip f -> plain_forest f = true ->
  exists d kids, elem_at (fst ip) f = Some (d, kids) /\ is_style d = false.
Proof.
  intros (sel & e & Hin & Hq & Hp) Hf.
  apply querySelector_Some in Hq as [He Hsel]. rewrite Hp in He.
  eexists _, _. split; [exact He|].
  pose proof (plain_elem_at _ _ _ _ Hf He) as Hn.
  rewrite plain_Elem in Hn. apply andb_prop in Hn as [Hd _].
  destruct (is_style _) eqn:Hs; [|reflexivity]. cbn [implb] in Hd.
  apply andb_prop in Hd as [Hsd _].
  now rewrite (selected_not_style sel e Hin Hsel) in Hsd.
Qed.

Lemma first_child_named_spec names i0 kids j :
  first_child_named names i0 kids = Some j ->
  exists d k, i0 <= j /\ kids !! (j - i0) = Some (Elem d k) /\
              existsb (String.eqb (localName d)) names = true.
Proof.
  revert i0. induction kids as [|n kids IH]; intros i0 H; [discriminate|].
  cbn [first_child_named] in H. destruct n as [d k|s].
  - destruct (existsb _ names) eqn:Hn.
    + injection H as <-. exists d, k. now rewrite Nat.sub_diag.
    + destruct (IH _ H) as (d' & k' & Hle & Hl & Hx).
      exists d', k'. split; [lia|]. split; [|exact Hx].
      replace (j - i0) with (S (j - S i0)) by lia. exact Hl.
  - destruct (IH _ H) as (d' & k' & Hle & Hl & Hx).
    exists d', k'. split; [lia|]. split; [|exact Hx].
    replace (j - i0) with (S (j - S i0)) by lia. exact Hl.
Qed.

(** [document.head] is an element named [head]. *)
Lemma head_path_elem f h :
  head_path f = Some h ->
  exists d kids, elem_at h f = Some (d, kids) /\ localName d = "head".
Proof.
  unfold head_path, child_of_html, html_path. intros H.
  destruct (first_element 0 f) as [[i d0]|]; [|discriminate].
  destruct (String.eqb (localName d0) "html"); [|discriminate].
  destruct (elem_at [i] f) as [[d1 k1]|] eqn:He; [|discriminate].
  destruct (first_child_named ["head"] 0 k1) as [j|] eqn:Hj; [|discriminate].
  injection H as <-.
  destruct (first_child_named_spec _ _ _ _ Hj) as (d & k & _ & Hl & Hx).
  rewrite Nat.sub_0_r in Hl. exists d, k. split.
  - cbn [app]. rewrite elem_at_below. rewrite elem_at_here in He.
    destruct (f !! i) as [[d2 k2|]|]; try discriminate.
    injection He as _ <-. now rewrite elem_at_here, Hl.
  - cbn [existsb] in Hx. rewrite orb_false_r in Hx. now apply String.eqb_eq in Hx.
Qed.

Lemma head_not_style f h d kids :
  plain_forest f = true -> head_path f = Some h ->
  elem_at h f = Some (d, kids) -> is_style d = false.
Proof.
  intros Hf Hh He. destruct (head_path_elem f h Hh) as (d' & k' & He' & Hln).
  rewrite He in He'. injection He' as <- <-.
  pose proof (plain_elem_at _ _ _ _ Hf He) as Hn.
  rewrite plain_Elem in Hn. apply andb_prop in Hn as [Hd _].
  destruct (is_style d) eqn:Hs; [|reflexivity]. cbn [implb] in Hd.
  apply andb_prop in Hd as [Hsd _]. unfold style_data in Hsd.
  apply andb_prop in Hsd as [Hsd _]. rewrite Hln in Hsd. discriminate.
Qed.

End Shape.

(** ** The handle and the container *)

Section Consistent.
Import Dom Selector Effects DomApi ClaudeAdapter ChatInputHandler Lifecycle.
Import Notions Invariants.

(** *** Calls that do not raise *)

Lemma hoare_call_ok {A} P (f : World -> A * World) (Q : A -> World -> Prop) E :
  (forall w, P w -> faultless w) ->
  (forall w, P w -> Q (f (upd_calls S w)).1 (f (upd_calls S w)).2) ->
  hoare P (dom_call f) Q E.
Proof.
  intros Hf Hq w Hw. unfold dom_call. rewrite (Hf w Hw (calls w)).
  specialize (Hq w Hw). now destruct (f (upd_calls S w)).
Qed.

Lemma hoare_do_ok P f (Q : unit -> World -> Prop) E :
  (forall w, P w -> faultless w) ->
  (forall w, P w -> Q tt (f (upd_calls S w))) -> hoare P (dom_do f) Q E.
Proof. intros Hf Hq. apply hoare_call_ok; assumption. Qed.

Lemma hoare_get_ok {A} P (f : World -> A) (Q : A -> World -> Prop) E :
  (forall w, P w -> faultless w) ->
  (forall w, P w -> Q (f (upd_calls S w)) (upd_calls S w)) ->
  hoare P (dom_get f) Q E.
Proof. intros Hf Hq. apply hoare_call_ok; assumption. Qed.

Lemma hoare_false {A} (m : M A) Q E : hoare (fun _ => False) m Q E.
Proof. intros w []. Qed.

Lemma hoare_inert {A} (m : M A) (P E : World -> Prop) :
  keeps core m -> closed P -> (forall w, P w -> E w) ->
  hoare P m (fun _ => P) E.
Proof.
  intros Hk Hc He w Hw. destruct (m w) as [[a|msg] w'] eqn:Hm.
  - exact (Hc w w' (Hk w _ w' Hm) Hw).
  - apply He. exact (Hc w w' (Hk w _ w' Hm) Hw).
Qed.

Lemma closed_holds n : closed (holds n).
Proof.
  intros w w' [= Hd Hh Hf] (H1 & H2 & H3). unfold holds, faultless, containers.
  rewrite Hd, Hf. auto.
Qed.

Lemma closed_consistent : closed consistent.
Proof.
  intros w w' [= Hd Hh Hf] (H1 & H2 & H3 & H4).
  unfold consistent, faultless, containers, handle in *.
  rewrite Hd, Hh, Hf. auto.
Qed.

Lemma closed_and_doc P (F : Document -> Prop) :
  closed P -> closed (fun w => P w /\ F (document w)).
Proof.
  intros Hc w w' Hcore [Hp Hf]. split; [exact (Hc w w' Hcore Hp)|].
  injection Hcore as -> _ _. exact Hf.
Qed.

(** In a run without faults [unmount_root] returns. *)
Lemma hoare_unmount_root P E :
  (forall w, P w -> faultless w) -> closed P ->
  hoare P unmount_root (fun _ => P) E.
Proof.
  intros Hf Hc. unfold unmount_root, get, set, react_call.
  apply hoare_bind with (R := fun _ => P); [now apply hoare_read|].
  intros [r|]; [|now apply hoare_ret].
  apply hoare_bind with (R := fun _ => P).
  - apply hoare_try_catch with (E1 := fun _ => False); [|intros msg; apply hoare_false].
    apply hoare_do_ok; [exact Hf|]. intros w Hw. now apply (Hc w).
  - intros _. apply hoare_modify. intros w Hw. now apply (Hc w).
Qed.

(** In a run without faults [getElementById] returns, with an element
    of that id or when there is none. *)
Lemma hoare_byId_found P id E :
  (forall w, P w -> faultless w) -> (forall w, P w -> P (upd_calls S w)) ->
  hoare P (byId id)
    (fun r w => P w /\
       match r with
       | Some p => exists d kids,
           elem_at p (document w) = Some (d, kids) /\ attr_is d "id" id = true
       | None => count_id id (document w) = 0
       end) E.
Proof.
  intros Hf Hc. unfold byId. apply hoare_get_ok; [exact Hf|].
  intros w Hw. split; [now apply Hc|]. cbn [document upd_calls].
  destruct (getElementById id (document w)) as [e|] eqn:Hg; cbn [fmap option_fmap option_map].
  - apply getElementById_Some in Hg as [He Hid]. eauto.
  - now apply getElementById_None.
Qed.

Lemma hoare_byId_ok P id E :
  (forall w, P w -> faultless w) -> closed P ->
  hoare P (byId id)
    (fun r w => P w /\
       match r with
       | Some p => exists d kids,
           elem_at p (document w) = Some (d, kids) /\ attr_is d "id" id = true
       | None => count_id id (document w) = 0
       end) E.
Proof.
  intros Hf Hc. apply hoare_byId_found; [exact Hf|].
  intros w Hw. now apply (Hc w).
Qed.

(** *** The style sheet *)

Lemma consistent_remove_style p E :
  hoare (fun w => consistent w /\
           exists d kids, elem_at p (document w) = Some (d, kids) /\ is_style d = true)
    (remove p) (fun _ => consistent) E.
Proof.
  unfold remove. apply hoare_do_ok; [now intros w [(Hf & _) _]|].
  intros w [(Hf & Hp & Hc & Hh) (d & kids & He & Hs)].
  assert (Hsame : tally_forest is_container (remove_at p (document w))
                  = tally_forest is_container (document w)).
  { pose proof (tally_remove_at is_container p _ d kids He) as Hr.
    rewrite (plain_style_no_container d kids) in Hr; [lia| |exact Hs].
    exact (plain_elem_at _ _ _ _ Hp He). }
  unfold consistent, faultless, handle in *. rewrite containers_tally in *.
  cbn [document upd_document upd_calls fault_at adapter].
  rewrite Hsame. repeat split; auto using plain_remove_at; apply Hh.
Qed.

Lemma plain_style_node u :
  plain_node (element u "style" [("id", style_id)] [Text getClaudeButtonStyles]) = true.
Proof. reflexivity. Qed.

Lemma consistent_append_style h u E :
  hoare (fun w => consistent w /\ head_path (document w) = Some h)
    (appendChild h (element u "style" [("id", style_id)] [Text getClaudeButtonStyles]))
    (fun _ => consistent) E.
Proof.
  unfold appendChild. apply hoare_do_ok; [now intros w [(Hf & _) _]|].
  intros w [(Hf & Hp & Hc & Hh) Hhead].
  destruct (head_path_elem _ _ Hhead) as (d & kids & He & _).
  pose proof (tally_append_child is_container h
                (element u "style" [("id", style_id)] [Text getClaudeButtonStyles])
                _ d kids He) as Hsame.
  rewrite tally_style_node, Nat.add_0_r in Hsame.
  unfold consistent, faultless, handle in *. rewrite containers_tally in *.
  cbn [document upd_document upd_calls fault_at adapter].
  rewrite Hsame. repeat split; auto; try apply Hh.
  apply plain_append_child; [exact Hp|apply plain_style_node|].
  intros d' kids' He'. exact (head_not_style _ _ _ _ Hp Hhead He').
Qed.

Lemma consistent_inert {A} (m : M A) : keeps core m -> maintains consistent m.
Proof. intros Hk. apply hoare_inert; auto using closed_consistent. Qed.

Lemma consistent_injectClaudeButtonStyles : maintains consistent injectClaudeButtonStyles.
Proof.
  unfold injectClaudeButtonStyles, get, set.
  apply maintains_bind; [apply consistent_inert; keep|].
  intros injected. destruct injected; [apply consistent_inert; keep|].
  apply maintains_try_catch; [|intros msg; apply consistent_inert; keep].
  eapply hoare_bind.
  { apply hoare_byId_ok; [now intros w (Hf & _)|apply closed_consistent]. }
  intros existingStyles. apply hoare_bind with (R := fun _ => consistent).
  { destruct existingStyles as [p|].
    - apply consistent_remove_style.
    - apply hoare_ret. now intros w [Hw _]. }
  intros _.
  apply maintains_bind; [apply consistent_inert; apply keeps_core_createElement|].
  intros u.
  do 2 (apply maintains_bind; [apply consistent_inert; keep|]; intros _).
  apply hoare_bind with (R := fun w0 w => consistent w /\ w0 = w).
  { apply hoare_read. now intros w Hw. }
  intros w0. apply hoare_bind with (R := fun _ => consistent).
  - destruct (head_path (document w0)) as [h|] eqn:Hh.
    + eapply hoare_pre; [apply (consistent_append_style h u)|].
      intros w [Hw ->]. now split.
    + apply hoare_throw. now intros w [Hw _].
  - intros _. apply consistent_inert. keep.
Qed.

Lemma consistent_removeStyleElement : maintains consistent removeStyleElement.
Proof.
  unfold removeStyleElement.
  eapply hoare_bind.
  { apply hoare_byId_ok; [now intros w (Hf & _)|apply closed_consistent]. }
  intros [p|].
  - apply hoare_bind with (R := fun _ => consistent);
      [apply consistent_remove_style|].
    intros _. apply consistent_inert. unfold set. keep.
  - apply hoare_ret. now intros w [Hw _].
Qed.

(** *** The container *)

Lemma plain_container_node u : plain_node (container_node u) = true.
Proof. reflexivity. Qed.

(** Mounting at an insertion point in a page without a container gives
    a page with one. *)
Lemma holds_mount ip u E :
  hoare (fun w => holds 0 w /\ candidate ip (document w))
    (let '(container, after) := ip in
     match after with
     | Some a =>
         if bool_decide (a <> [] /\ parent_path a = container)
         then insertAfter container (child_index a) (container_node u)
         else appendChild container (container_node u)
     | None => appendChild container (container_node u)
     end)
    (fun _ => holds 1) E.
Proof.
  destruct ip as [container after].
  assert (Happ : hoare (fun w => holds 0 w /\ candidate (container, after) (document w))
                   (appendChild container (container_node u)) (fun _ => holds 1) E).
  { unfold appendChild. apply hoare_do_ok; [now intros w [(Hf & _) _]|].
    intros w [(Hf & Hp & Hc) Hcand].
    destruct (candidate_elem _ _ Hcand Hp) as (d & kids & He & Hs).
    cbn [fst] in He.
    pose proof (tally_append_child is_container container (container_node u)
                  _ d kids He) as Hadd.
    rewrite tally_container_node in Hadd.
    unfold holds, faultless in *. rewrite containers_tally in *.
    cbn [document upd_document upd_calls fault_at].
    rewrite Hadd, Hc. repeat split; auto.
    apply plain_append_child; [exact Hp|apply plain_container_node|].
    intros d' kids' He'. congruence. }
  destruct after as [sibling|]; [|exact Happ].
  destruct (bool_decide _); [|exact Happ].
  unfold insertAfter. apply hoare_do_ok; [now intros w [(Hf & _) _]|].
  intros w [(Hf & Hp & Hc) Hcand].
  destruct (candidate_elem _ _ Hcand Hp) as (d & kids & He & Hs).
  cbn [fst] in He.
  pose proof (tally_insert_after_child is_container container (child_index sibling)
                (container_node u) _ d kids He) as Hadd.
  rewrite tally_container_node in Hadd.
  unfold holds, faultless in *. rewrite containers_tally in *.
  cbn [document upd_document upd_calls fault_at].
  rewrite Hadd, Hc. repeat split; auto.
  apply plain_insert_after_child; [exact Hp|apply plain_container_node|].
  intros d' kids' He'. congruence.
Qed.

Lemma consistent_injectMCPPopover ip :
  hoare (fun w => consistent w /\ candidate ip (document w)) (injectMCPPopover ip)
    (fun _ => consistent) consistent.
Proof.
  unfold injectMCPPopover.
  apply hoare_try_catch with (E1 := consistent);
    [|intros msg; apply consistent_inert; keep].
  eapply hoare_bind.
  { apply hoare_byId_ok; [now intros w [(Hf & _) _]|].
    apply (closed_and_doc consistent (candidate ip)), closed_consistent. }
  intros [p|].
  { apply hoare_ret. now intros w [[Hw _] _]. }
  apply hoare_pre with
    (P' := fun w => (holds 0 w /\ handle w = None) /\ candidate ip (document w)).
  2:{ intros w [[(Hf & Hp & Hc & Hh) Hcand] Hnone].
      fold (containers w) in Hnone. repeat split; auto. now apply Hh. }
  assert (Hcl : closed (fun w => (holds 0 w /\ handle w = None) /\
                                 candidate ip (document w))).
  { apply closed_and_doc. intros w w' Hcore [Hh Hn]. split.
    - exact (closed_holds 0 w w' Hcore Hh).
    - injection Hcore as _ Hhd _. unfold handle in *. congruence. }
  assert (Hsub : forall w, (holds 0 w /\ handle w = None) /\ candidate ip (document w) ->
                           consistent w).
  { intros w [[(Hf & Hp & Hc) Hn] _]. unfold consistent. repeat split; auto; lia. }
  eapply hoare_bind;
    [apply hoare_inert; [apply keeps_core_createElement|exact Hcl|exact Hsub]|].
  intros u. cbv beta.
  do 3 (eapply hoare_bind; [apply hoare_inert; [keep|exact Hcl|exact Hsub]|];
        intros ?; cbv beta).
  apply hoare_pre with (P' := fun w => holds 0 w /\ candidate ip (document w));
    [|now intros w [[Hh _] Hc]].
  destruct ip as [container after].
  apply hoare_bind with (R := fun _ => holds 1).
  { apply (holds_mount (container, after) u). }
  intros _. apply hoare_bind with (R := fun _ => consistent).
  - unfold set. apply hoare_modify. intros w (Hf & Hp & Hc).
    unfold consistent, faultless, containers, handle in *.
    cbn [document upd_adapter fault_at adapter mcpPopoverContainer
         with_mcpPopoverContainer].
    rewrite Hc. repeat split; auto; discriminate.
  - intros _. apply consistent_inert, keeps_core_renderMCPPopover.
Qed.

(** Removing the container leaves a page without one. *)
Lemma holds_remove_container p E :
  hoare (fun w => consistent w /\
           exists d kids, elem_at p (document w) = Some (d, kids) /\
                          is_container d = true)
    (remove p) (fun _ => holds 0) E.
Proof.
  unfold remove. apply hoare_do_ok; [now intros w [(Hf & _) _]|].
  intros w [(Hf & Hp & Hc & Hh) (d & kids & He & Hs)].
  pose proof (tally_remove_at is_container p _ d kids He) as Hr.
  rewrite tally_Elem, Hs in Hr.
  unfold holds, faultless in *. rewrite containers_tally in *.
  cbn [document upd_document upd_calls fault_at].
  repeat split; auto using plain_remove_at. lia.
Qed.

Lemma consistent_cleanupUIIntegration : maintains consistent cleanupUIIntegration.
Proof.
  unfold cleanupUIIntegration.
  apply hoare_bind with (R := fun _ => holds 0).
  - apply hoare_try_catch with (E1 := fun _ => False); [|intros msg; apply hoare_false].
    eapply hoare_bind.
    { apply hoare_unmount_root; [now intros w (Hf & _)|apply closed_consistent]. }
    intros ?. cbv beta. eapply hoare_bind.
    { apply hoare_byId_ok; [now intros w (Hf & _)|apply closed_consistent]. }
    intros [p|].
    + apply hoare_try_catch with (E1 := fun _ => False);
        [|intros msg; apply hoare_false].
      apply holds_remove_container.
    + apply hoare_ret. intros w [(Hf & Hp & Hc & Hh) Hnone].
      fold (containers w) in Hnone. unfold holds. auto.
  - intros _. unfold set. apply hoare_modify. intros w (Hf & Hp & Hc).
    unfold consistent, faultless, containers, handle in *.
    cbn [document upd_adapter fault_at adapter mcpPopoverContainer
         with_mcpPopoverContainer].
    rewrite Hc. repeat split; auto.
Qed.

(** As long as no DOM call raises and only the adapter changes the
    tree, the state stays consistent. *)
Lemma consistent_run ops w :
  forallb adapter_op ops = true -> consistent w -> consistent (run ops w).
Proof.
  apply (run_maintains consistent closed_consistent
           consistent_injectClaudeButtonStyles consistent_injectMCPPopover
           consistent_cleanupUIIntegration consistent_removeStyleElement).
Qed.

End Consistent.

(** ** [activate] twice *)

Section ActivateTwice.
Import Dom Selector Effects DomApi ClaudeAdapter ChatInputHandler Lifecycle.
Import Notions Invariants.

Lemma keeps_status_injectClaudeButtonStyles : keeps status injectClaudeButtonStyles.
Proof.
  unfold injectClaudeButtonStyles, byId, remove, appendChild, createElement, get, set.
  keep. apply keeps_call; reflexivity.
Qed.

Lemma keeps_status_setupDOMObservers : keeps status setupDOMObservers.
Proof. unfold setupDOMObservers, construct, get, set. keep. Qed.

Lemma keeps_status_setupUIIntegration : keeps status setupUIIntegration.
Proof. unfold setupUIIntegration, set. keep. Qed.

(** After [activate] the adapter is active. *)
Lemma activate_sets_active w : status (exec activate w) = Active.
Proof.
  unfold activate, exec, get. rewrite run_bind_read.
  destruct (currentStatus (adapter w)) eqn:Hs; try exact Hs;
    unfold super_activate, set; rewrite run_bind_modify;
    match goal with
    | |- status (?m ?w1).2 = _ =>
        assert (Hk : keeps status m);
        [ apply keeps_bind; [apply keeps_status_injectClaudeButtonStyles|]; intros _;
          apply keeps_bind; [apply keeps_status_setupDOMObservers|]; intros _;
          apply keeps_bind; [apply keeps_status_setupUIIntegration|]; intros _;
          unfold emit; keep
        | destruct (m w1) as [r w'] eqn:Hm; cbn [snd];
          rewrite (Hk w1 r w' Hm); reflexivity ]
    end.
Qed.

(** [activate] on an active adapter does nothing. *)
Lemma activate_when_active w : status w = Active -> activate w = (Ok tt, w).
Proof.
  intros Hs. unfold activate, get. rewrite run_bind_read.
  unfold status in Hs. now rewrite Hs.
Qed.

Lemma activate_twice w : exec activate (exec activate w) = exec activate w.
Proof.
  unfold exec at 1. now rewrite (activate_when_active _ (activate_sets_active w)).
Qed.

(** *** A mount attempt on a page with the container *)

Lemma present_found w :
  containers w <> 0 ->
  exists e, getElementById container_id (document w) = Some e.
Proof.
  intros H. destruct (getElementById container_id (document w)) as [e|] eqn:Hg.
  - now exists e.
  - apply getElementById_None in Hg. contradiction.
Qed.

Lemma byId_then {B} id (k : option Path -> M B) w :
  (byId id ≫= k) w =
    match fault_at w (calls w) with
    | Some msg => (Throw msg, upd_calls S w)
    | None => k (e_path <$> getElementById id (document w)) (upd_calls S w)
    end.
Proof.
  unfold byId, dom_get. destruct (fault_at w (calls w)) as [msg|] eqn:Hf.
  - now rewrite run_bind_call_fault with (msg := msg).
  - now rewrite run_bind_call.
Qed.

Lemma injectMCPPopover_present ip w :
  containers w <> 0 -> core (exec (injectMCPPopover ip) w) = core w.
Proof.
  intros H. destruct (present_found w H) as [e He].
  unfold injectMCPPopover, exec, try_catch. rewrite byId_then, He.
  now destruct (fault_at w (calls w)).
Qed.

Lemma attemptInjection_present attempt maxRetries w :
  containers w <> 0 ->
  core (exec (attemptInjection attempt maxRetries) w) = core w.
Proof.
  intros H. destruct (present_found w H) as [e He].
  unfold attemptInjection, exec. rewrite byId_then, He.
  now destruct (fault_at w (calls w)).
Qed.

(** *** A mount attempt on a page without the container *)

Lemma buttons_in_faultless c w :
  faultless w ->
  buttons_in c w =
    (Ok (map e_path (querySelectorAll_in c tag_button (document w))),
     after_calls (S (calls w)) w).
Proof.
  intros H. unfold buttons_in, dom_get, dom_call. now rewrite (H (calls w)).
Qed.

Lemma after_first_button_faultless sel e w :
  faultless w -> In sel insertion_selectors ->
  querySelector sel (document w) = Some e ->
  exists ip w', after_first_button (e_path e) w = (Ok (Some ip), w') /\
                core w' = core w /\ candidate ip (document w).
Proof.
  intros Hf Hin Hq. unfold after_first_button.
  rewrite run_bind, buttons_in_faultless by assumption.
  eexists _, _. split; [reflexivity|]. split; [reflexivity|].
  now exists sel, e.
Qed.

Lemma fallback_insertion_faultless sels w :
  faultless w ->
  (forall sel, In sel sels -> In sel insertion_selectors) ->
  existsb (fun sel => match querySelector sel (document w) with
                      | Some _ => true
                      | None => false
                      end) sels = true ->
  exists ip w', fallback_insertion sels w = (Ok (Some ip), w') /\
                core w' = core w /\ candidate ip (document w).
Proof.
  revert w. induction sels as [|sel rest IH]; intros w Hf Hin Hex; [discriminate|].
  cbn [fallback_insertion existsb] in *.
  rewrite run_bind, query_faultless by assumption.
  destruct (querySelector sel (document w)) as [e|] eqn:Hq; cbn [fmap option_fmap option_map].
  - rewrite run_bind, buttons_in_faultless by now apply faultless_after_calls.
    eexists _, _. split; [reflexivity|]. split; [reflexivity|].
    exists sel, e. split; [apply Hin; now left|]. now split.
  - destruct (IH (after_calls (S (calls w)) w)) as (ip & w' & Heq & Hcore & Hcand).
    + now apply faultless_after_calls.
    + intros s Hs. apply Hin. now right.
    + exact Hex.
    + exists ip, w'. split; [exact Heq|]. split; [|exact Hcand].
      rewrite Hcore. reflexivity.
Qed.

(** On a page with an insertion point, in a run without faults,
    [findButtonInsertionPoint] finds one. *)
Lemma findButtonInsertionPoint_finds w :
  faultless w -> has_insertion_point (document w) = true ->
  exists ip w', findButtonInsertionPoint w = (Ok (Some ip), w') /\
                core w' = core w /\ candidate ip (document w).
Proof.
  intros Hf Hip. unfold has_insertion_point, insertion_selectors in Hip.
  cbn [existsb] in Hip. unfold findButtonInsertionPoint.
  rewrite run_bind, query_faultless by assumption.
  destruct (querySelector tag_fieldset (document w)) as [e|] eqn:H1;
    cbn [fmap option_fmap option_map].
  { destruct (after_first_button_faultless tag_fieldset e (after_calls (S (calls w)) w))
      as (ip & w' & Heq & Hcore & Hcand);
      [now apply faultless_after_calls|now left|exact H1|].
    exists ip, w'. split; [exact Heq|]. split; [|exact Hcand].
    rewrite Hcore. reflexivity. }
  rewrite run_bind, query_faultless by now apply faultless_after_calls.
  cbn [document after_calls upd_calls].
  destruct (querySelector composer_controls (document w)) as [e|] eqn:H2;
    cbn [fmap option_fmap option_map].
  { destruct (after_first_button_faultless composer_controls e
                (after_calls (S (calls (after_calls (S (calls w)) w)))
                   (after_calls (S (calls w)) w)))
      as (ip & w' & Heq & Hcore & Hcand);
      [now repeat apply faultless_after_calls|right; now left|exact H2|].
    exists ip, w'. split; [exact Heq|]. split; [|exact Hcand].
    rewrite Hcore. reflexivity. }
  cbn [orb] in Hip.
  destruct (fallback_insertion_faultless fallbackSelectors
              (after_calls (S (calls (after_calls (S (calls w)) w)))
                 (after_calls (S (calls w)) w)))
    as (ip & w' & Heq & Hcore & Hcand).
  - now repeat apply faultless_after_calls.
  - intros s Hs. right. now right.
  - exact Hip.
  - exists ip, w'. split; [exact Heq|]. split; [|exact Hcand].
    rewrite Hcore. reflexivity.
Qed.

Lemma hoare_finds P E :
  (forall w, P w -> faultless w) -> closed P ->
  hoare (fun w => P w /\ has_insertion_point (document w) = true)
    findButtonInsertionPoint
    (fun r w => P w /\ exists ip, r = Some ip /\ candidate ip (document w)) E.
Proof.
  intros Hf Hc w [Hw Hip].
  destruct (findButtonInsertionPoint_finds w (Hf w Hw) Hip)
    as (ip & w' & Heq & Hcore & Hcand).
  rewrite Heq. split; [exact (Hc w w' Hcore Hw)|].
  exists ip. split; [reflexivity|]. injection Hcore as -> _ _. exact Hcand.
Qed.

(** An element with the id is counted. *)
Lemma counted id f p d kids :
  elem_at p f = Some (d, kids) -> attr_is d "id" id = true -> count_id id f <> 0.
Proof.
  intros He Hid. rewrite count_id_tally.
  pose proof (tally_remove_at (fun d => attr_is d "id" id) p f d kids He) as Hr.
  rewrite tally_Elem, Hid in Hr. lia.
Qed.

Lemma bare_faultless n w : bare n w -> faultless w.
Proof. now intros (Hf & _). Qed.

Lemma closed_bare n : closed (bare n).
Proof.
  intros w w' [= Hd Hh Hf] (H1 & H2). unfold bare, faultless, containers.
  rewrite Hd, Hf. auto.
Qed.

Lemma calm_renderMCPPopover n u : calm (bare n) (renderMCPPopover u).
Proof.
  unfold renderMCPPopover.
  becalm core (bare_faultless n) (closed_bare n).
Qed.

Lemma candidate_is_element ip f :
  candidate ip f -> exists d kids, elem_at (fst ip) f = Some (d, kids).
Proof.
  intros (sel & e & Hin & Hq & Hp).
  apply querySelector_Some in Hq as [He _]. rewrite Hp in He. eauto.
Qed.

(** The insertion at an insertion point adds one container. *)
Lemma bare_mount ip u E :
  hoare (fun w => bare 0 w /\ candidate ip (document w))
    (let '(container, after) := ip in
     match after with
     | Some a =>
         if bool_decide (a <> [] /\ parent_path a = container)
         then insertAfter container (child_index a) (container_node u)
         else appendChild container (container_node u)
     | None => appendChild container (container_node u)
     end)
    (fun _ => bare 1) E.
Proof.
  destruct ip as [container after].
  assert (Happ : hoare (fun w => bare 0 w /\ candidate (container, after) (document w))
                   (appendChild container (container_node u)) (fun _ => bare 1) E).
  { unfold appendChild. apply hoare_do_ok; [now intros w [(Hf & _) _]|].
    intros w [(Hf & Hc) Hcand].
    destruct (candidate_is_element _ _ Hcand) as (d & kids & He). cbn [fst] in He.
    pose proof (tally_append_child is_container container (container_node u)
                  _ d kids He) as Hadd.
    rewrite tally_container_node in Hadd.
    unfold bare, faultless in *. rewrite containers_tally in *.
    cbn [document upd_document upd_calls fault_at].
    rewrite Hadd, Hc. auto. }
  destruct after as [sibling|]; [|exact Happ].
  destruct (bool_decide _); [|exact Happ].
  unfold insertAfter. apply hoare_do_ok; [now intros w [(Hf & _) _]|].
  intros w [(Hf & Hc) Hcand].
  destruct (candidate_is_element _ _ Hcand) as (d & kids & He). cbn [fst] in He.
  pose proof (tally_insert_after_child is_container container (child_index sibling)
                (container_node u) _ d kids He) as Hadd.
  rewrite tally_container_node in Hadd.
  unfold bare, faultless in *. rewrite containers_tally in *.
  cbn [document upd_document upd_calls fault_at].
  rewrite Hadd, Hc. auto.
Qed.

(** In a run without faults, on a page without a container,
    [injectMCPPopover] mounts one. *)
Lemma injectMCPPopover_mounts ip E :
  hoare (fun w => bare 0 w /\ candidate ip (document w)) (injectMCPPopover ip)
    (fun _ => bare 1) E.
Proof.
  assert (Hf : forall w, bare 0 w /\ candidate ip (document w) -> faultless w)
    by now intros w [(Hf & _) _].
  assert (Hc : closed (fun w => bare 0 w /\ candidate ip (document w)))
    by apply (closed_and_doc (bare 0) (candidate ip)), closed_bare.
  unfold injectMCPPopover.
  apply hoare_try_catch with (E1 := fun _ => False); [|intros msg; apply hoare_false].
  eapply hoare_bind; [apply hoare_byId_ok; assumption|].
  intros [p|].
  { intros w [[(_ & Hn) _] (d & kids & He & Hid)].
    destruct (counted _ _ _ _ _ He Hid). exact Hn. }
  apply hoare_pre with (P' := fun w => bare 0 w /\ candidate ip (document w));
    [|now intros w [Hw _]].
  eapply hoare_bind.
  { unfold createElement. apply (calm_call core _ Hf Hc); reflexivity. }
  intros u. cbv beta.
  do 3 (eapply hoare_bind; [apply (calm_do core _ Hf Hc); reflexivity|];
        intros ?; cbv beta).
  destruct ip as [container after].
  apply hoare_bind with (R := fun _ => bare 1).
  { apply (bare_mount (container, after) u). }
  intros _. apply hoare_bind with (R := fun _ => bare 1).
  - unfold set. apply hoare_modify. intros w Hw. exact Hw.
  - intros _. apply calm_renderMCPPopover.
Qed.

Lemma attemptInjection_mounts attempt maxRetries E :
  hoare (fun w => bare 0 w /\ has_insertion_point (document w) = true)
    (attemptInjection attempt maxRetries) (fun _ => bare 1) E.
Proof.
  assert (Hf : forall w, bare 0 w /\ has_insertion_point (document w) = true ->
                         faultless w)
    by now intros w [(Hf & _) _].
  assert (Hc : closed (fun w => bare 0 w /\ has_insertion_point (document w) = true))
    by apply (closed_and_doc (bare 0) (fun f => has_insertion_point f = true)),
         closed_bare.
  unfold attemptInjection.
  eapply hoare_bind; [apply hoare_byId_ok; assumption|].
  intros [p|].
  { intros w [[(_ & Hn) _] (d & kids & He & Hid)].
    destruct (counted _ _ _ _ _ He Hid). exact Hn. }
  eapply hoare_bind.
  { eapply hoare_pre; [apply (hoare_finds (bare 0)); [apply bare_faultless|apply closed_bare]|].
    now intros w [Hw _]. }
  intros r. cbv beta. destruct r as [ip|].
  - eapply hoare_pre; [apply injectMCPPopover_mounts|].
    intros w [Hw (ip' & [= <-] & Hcand)]. now split.
  - intros w [_ (ip' & Hip & _)]. discriminate.
Qed.

(** The callback that [activate] schedules mounts the container. *)
Lemma checkReady_mounts attempts w :
  bare 0 w -> has_insertion_point (document w) = true ->
  bare 1 (exec (checkReady attempts) w).
Proof.
  intros Hw Hip.
  assert (H : hoare (fun w => bare 0 w /\ has_insertion_point (document w) = true)
                (checkReady attempts) (fun _ => bare 1) (fun _ => False)).
  { unfold checkReady. eapply hoare_bind.
    - eapply hoare_pre.
      + apply (hoare_finds
                 (fun w => bare 0 w /\ has_insertion_point (document w) = true)).
        * now intros w0 [(Hf & _) _].
        * apply (closed_and_doc (bare 0) (fun f => has_insertion_point f = true)),
            closed_bare.
      + intros w0 Hw0. split; [exact Hw0|apply Hw0].
    - intros r. cbv beta. destruct r as [ip|].
      + apply hoare_try_catch with (E1 := fun _ => False);
          [|intros msg; apply hoare_false].
        unfold injectMCPPopoverWithRetry.
        eapply hoare_pre; [apply attemptInjection_mounts|]. now intros w0 [Hw0 _].
      + intros w0 [_ (ip' & Hip' & _)]. discriminate. }
  specialize (H w (conj Hw Hip)). unfold exec.
  destruct (checkReady attempts w) as [[a|msg] w']; [exact H|destruct H].
Qed.

End ActivateTwice.

(** ** From [activate] to the mounted control *)

Section InsertionPointKept.
Import Dom Selector Effects DomApi ClaudeAdapter ChatInputHandler Lifecycle.
Import Notions Invariants.

(** The selectors of the insertion point read the data of the element
    only. *)
Lemma selects_on_data sel e :
  In sel insertion_selectors ->
  selects sel e = data_selects sel (f_data (e_frame e)).
Proof.
  unfold insertion_selectors. cbn [In fallbackSelectors].
  intros H.
  repeat (destruct H as [<-|H];
          [cbv [selects data_selects complex_matches compound_matches existsb
                forallb atoms has simple tag_fieldset composer_controls
                atom_matches atom_on_data];
           now rewrite ?andb_true_r|]).
  destruct H.
Qed.

Lemma find_agree {A} (f g : A -> bool) l :
  (forall x, f x = g x) -> List.find f l = List.find g l.
Proof.
  intros H. induction l as [|x l IH]; [reflexivity|].
  cbn [List.find]. now rewrite H, IH.
Qed.

Lemma find_none_filter {A} (f : A -> bool) l :
  List.find f l = None <-> length (List.filter f l) = 0.
Proof.
  induction l as [|x l IH]; [easy|]. cbn [List.find List.filter].
  destruct (f x); [easy|exact IH].
Qed.

Lemma querySelector_tally sel f :
  In sel insertion_selectors ->
  querySelector sel f = None <-> tally_forest (data_selects sel) f = 0.
Proof.
  intros Hin. unfold querySelector.
  rewrite (find_agree (selects sel)
             (fun e => data_selects sel (f_data (e_frame e))))
    by (intros e; now apply selects_on_data).
  rewrite find_none_filter. unfold entries.
  now rewrite (proj2 (count_entries (data_selects sel))).
Qed.

Lemma has_insertion_point_tally f :
  has_insertion_point f = true <->
  exists sel, In sel insertion_selectors /\ tally_forest (data_selects sel) f <> 0.
Proof.
  unfold has_insertion_point. rewrite existsb_exists. split.
  - intros (sel & Hin & Hq). exists sel. split; [exact Hin|].
    intros Ht. apply (querySelector_tally sel f Hin) in Ht. now rewrite Ht in Hq.
  - intros (sel & Hin & Ht). exists sel. split; [exact Hin|].
    destruct (querySelector sel f) eqn:Hq; [reflexivity|].
    apply (querySelector_tally sel f Hin) in Hq. contradiction.
Qed.

(** A page keeps its insertion point when an element gets one more
    child. *)
Lemma has_insertion_point_append p n f d kids :
  elem_at p f = Some (d, kids) ->
  has_insertion_point f = true -> has_insertion_point (append_child p n f) = true.
Proof.
  intros He. rewrite !has_insertion_point_tally.
  intros (sel & Hin & Ht). exists sel. split; [exact Hin|].
  rewrite (tally_append_child _ p n f d kids He). lia.
Qed.

(** *** [document.body] *)

Lemma first_element_insert (l : list Node) i d k k' s :
  l !! i = Some (Elem d k) ->
  first_element s (<[i := Elem d k']> l) = first_element s l.
Proof.
  revert i s. induction l as [|x l IH]; intros [|i] s H; try discriminate.
  - injection H as ->. reflexivity.
  - change (<[S i := Elem d k']> (x :: l)) with (x :: <[i := Elem d k']> l).
    cbn [first_element]. destruct x; [reflexivity|]. now apply IH.
Qed.

Lemma first_child_named_insert names (l : list Node) i d k k' s :
  l !! i = Some (Elem d k) ->
  first_child_named names s (<[i := Elem d k']> l) = first_child_named names s l.
Proof.
  revert i s. induction l as [|x l IH]; intros [|i] s H; try discriminate.
  - injection H as ->. reflexivity.
  - change (<[S i := Elem d k']> (x :: l)) with (x :: <[i := Elem d k']> l).
    cbn [first_child_named]. destruct x as [dx kx|]; [|now apply IH].
    destruct (existsb _ names); [reflexivity|]. now apply IH.
Qed.

(** A new child of the head leaves the children of [html] what they
    were named. *)
Lemma child_of_html_append names n f h :
  head_path f = Some h ->
  child_of_html names (append_child h n f) = child_of_html names f.
Proof.
  unfold head_path, child_of_html at 1, html_path. intros H.
  destruct (first_element 0 f) as [[i d0]|] eqn:Hfe; [|discriminate].
  destruct (String.eqb (localName d0) "html") eqn:Hhtml; [|discriminate].
  destruct (elem_at [i] f) as [[d1 k1]|] eqn:He; [|discriminate].
  destruct (first_child_named ["head"] 0 k1) as [j|] eqn:Hj; [|discriminate].
  injection H as <-.
  destruct (first_child_named_spec _ _ _ _ Hj) as (dh & kh & _ & Hl & _).
  rewrite Nat.sub_0_r in Hl.
  rewrite elem_at_here in He.
  destruct (f !! i) as [[d2 k2|]|] eqn:Hi; try discriminate.
  injection He as -> ->.
  assert (Hlt : i < length f) by (eapply lookup_lt_Some; eauto).
  unfold append_child. cbn [app modify_children]. rewrite Hi, Hl.
  unfold child_of_html, html_path.
  rewrite (first_element_insert f i d1 k1 _ 0 Hi), Hfe, Hhtml.
  rewrite !elem_at_here, Hi, list_lookup_insert_eq by assumption.
  now rewrite (first_child_named_insert names k1 j dh kh _ 0 Hl).
Qed.

End InsertionPointKept.

Section EndToEnd.
Import Dom Selector Effects DomApi ClaudeAdapter ChatInputHandler Lifecycle.
Import Notions Invariants.

Variable h : nat.

Lemma ready_at_faultless w : ready_at h w -> faultless w.
Proof. now intros [(Hf & _) _]. Qed.

Lemma ready_at_view w w' : view w' = view w -> ready_at h w -> ready_at h w'.
Proof.
  intros [= Hd Hh Hf Hn] [(H1 & H2 & H3 & H4) H5].
  unfold ready_at, ready, faultless, containers. rewrite Hd, Hf, Hn. auto.
Qed.

Lemma ready_at_injectClaudeButtonStyles E :
  hoare (fun w => ready_at h w /\ style_sheets w = 0) injectClaudeButtonStyles
    (fun _ => ready_at h) E.
Proof.
  unfold injectClaudeButtonStyles, get, set.
  apply hoare_bind with (R := fun _ w => ready_at h w /\ style_sheets w = 0);
    [now apply hoare_read|].
  intros injected. destruct injected; [apply hoare_ret; now intros w [Hw _]|].
  apply hoare_try_catch with (E1 := ready_at h); [|intros msg; now apply hoare_ret].
  eapply hoare_bind.
  { apply hoare_byId_found; [now intros w [Hw _]; apply ready_at_faultless|].
    intros w [Hw Hs]. split; [now apply (ready_at_view w)|exact Hs]. }
  intros existingStyles. apply hoare_bind with (R := fun _ => (ready_at h)).
  { destruct existingStyles as [p|].
    - intros w [[_ Hs] (d & kids & He & Hid)].
      destruct (counted _ _ _ _ _ He Hid). exact Hs.
    - apply hoare_ret. now intros w [[Hw _] _]. }
  intros _.
  eapply hoare_bind.
  { unfold createElement.
    apply (calm_call view (ready_at h) ready_at_faultless ready_at_view); reflexivity. }
  intros u. cbv beta.
  do 2 (eapply hoare_bind;
        [apply (calm_do view (ready_at h) ready_at_faultless ready_at_view); reflexivity|];
        intros ?; cbv beta).
  apply hoare_bind with (R := fun w0 w => ready_at h w /\ w0 = w).
  { apply hoare_read. now intros w Hw. }
  intros w0. apply hoare_bind with (R := fun _ => (ready_at h)).
  - destruct (head_path (document w0)) as [hd|] eqn:Hhd.
    + unfold appendChild. apply hoare_do_ok; [now intros w [Hw _]; apply ready_at_faultless|].
      intros w [[(Hf & Hc & Hip & Hb) Hn] ->].
      destruct (head_path_elem _ _ Hhd) as (d & kids & He & _).
      pose proof (tally_append_child is_container hd
                    (element u "style" [("id", style_id)] [Text getClaudeButtonStyles])
                    _ d kids He) as Hadd.
      rewrite tally_style_node, Nat.add_0_r in Hadd.
      unfold ready_at, ready, faultless in *. rewrite containers_tally in *.
      cbn [document upd_document upd_calls fault_at next_handle].
      rewrite Hadd. repeat split; auto.
      * now apply (has_insertion_point_append hd _ _ d kids).
      * unfold body_path in *. now rewrite child_of_html_append.
    + apply hoare_throw. now intros w [Hw _].
  - intros _. apply (calm_modify view (ready_at h) ready_at_view). reflexivity.
Qed.

Lemma ready_at_setupDOMObservers E : hoare (ready_at h) setupDOMObservers (fun _ => ready_at h) E.
Proof.
  unfold setupDOMObservers, get, set, construct.
  apply hoare_bind with (R := fun _ => (ready_at h)); [now apply hoare_read|].
  intros done. destruct done; [now apply hoare_ret|].
  eapply hoare_bind;
    [apply (calm_do view (ready_at h) ready_at_faultless ready_at_view); reflexivity|].
  intros ?; cbv beta.
  eapply hoare_bind; [apply (calm_modify view (ready_at h) ready_at_view); reflexivity|].
  intros ?; cbv beta.
  apply hoare_bind with (R := fun w0 w => ready_at h w /\ w0 = w).
  { apply hoare_read. now intros w Hw. }
  intros w0. apply hoare_bind with (R := fun _ => (ready_at h)).
  - destruct (body_path (document w0)) as [b|] eqn:Hb.
    + apply hoare_do_ok; [now intros w [Hw _]; apply ready_at_faultless|].
      intros w [Hw _]. now apply (ready_at_view w).
    + intros w [[(_ & _ & _ & Hbody) _] ->]. congruence.
  - intros _.
    eapply hoare_bind; [apply (calm_modify view (ready_at h) ready_at_view); reflexivity|].
    intros ?; cbv beta. apply (calm_modify view (ready_at h) ready_at_view). reflexivity.
Qed.

(** [activate] on a ready page returns and has scheduled the page-ready
    check under the handle [h]. *)
Lemma activate_schedules E :
  hoare (fun w => ready_at h w /\ style_sheets w = 0 /\ status w <> Active) activate
    (fun _ w => ready w /\ pending w !! h = Some (CheckReady 0)) E.
Proof.
  unfold activate, get.
  apply hoare_bind with
    (R := fun s w => (ready_at h w /\ style_sheets w = 0) /\ s <> Active).
  { apply hoare_read. intros w (Hw & Hs & Hst). auto. }
  intros s.
  assert (Hrest : hoare (fun w => (ready_at h w /\ style_sheets w = 0) /\ s <> Active)
            (super_activate ;;
             injectClaudeButtonStyles ;;
             setupDOMObservers ;;
             setupUIIntegration ;;
             emit (AdapterActivated name))
            (fun _ w => ready w /\ pending w !! h = Some (CheckReady 0)) E).
  { apply hoare_bind with (R := fun _ w => ready_at h w /\ style_sheets w = 0).
    { unfold super_activate, set. apply hoare_modify. now intros w [Hw _]. }
    intros _.
    eapply hoare_bind; [apply ready_at_injectClaudeButtonStyles|]. intros ?; cbv beta.
    eapply hoare_bind; [apply ready_at_setupDOMObservers|]. intros ?; cbv beta.
    apply hoare_bind with
      (R := fun _ w => ready w /\ pending w !! h = Some (CheckReady 0)).
    - unfold setupUIIntegration, set.
      apply hoare_bind with (R := fun _ => (ready_at h)).
      { apply (calm_modify view (ready_at h) ready_at_view). reflexivity. }
      intros _. intros w [Hw Hn]. unfold mbind, M_bind, bind, setTimer. cbn [ret].
      split; [exact Hw|].
      cbn [pending upd_next_handle upd_pending]. rewrite Hn.
      apply lookup_insert_eq.
    - intros _. unfold emit. apply hoare_modify. now intros w Hw. }
  destruct s; try exact Hrest.
  intros w [_ Hs]. congruence.
Qed.

End EndToEnd.

Section ActivateMounts.
Import Dom Selector Effects DomApi ClaudeAdapter ChatInputHandler Lifecycle.
Import Notions Invariants.

(** On a ready page that holds no style sheet of the adapter, with an
    adapter that is not active: after two calls of [activate] and the
    firing of the timeout that the first has scheduled, the page holds
    exactly one container. *)
Lemma activate_twice_mounts_one w :
  ready w -> style_sheets w = 0 -> status w <> Active ->
  containers (run [CallActivate; CallActivate; Run (next_handle w)] w) = 1.
Proof.
  intros Hr Hs Hst.
  change (run [CallActivate; CallActivate; Run (next_handle w)] w)
    with (exec (run_task (next_handle w)) (exec activate (exec activate w))).
  rewrite activate_twice.
  assert (Hpre : ready_at (next_handle w) w /\ style_sheets w = 0 /\
                 status w <> Active)
    by (split; [split; [exact Hr|reflexivity]|split; assumption]).
  pose proof (activate_schedules (next_handle w) (fun _ => False) w Hpre) as Ha.
  unfold exec at 2. destruct (activate w) as [[[]|msg] w1]; [|destruct Ha].
  destruct Ha as [(Hf & Hc & Hip & Hb) Hp]. cbn [snd].
  unfold exec, run_task. rewrite run_bind_read. change (id w1) with w1.
  rewrite Hp. cbn [is_interval]. unfold clearTimer. rewrite run_bind_modify.
  apply (checkReady_mounts 0); [split|]; assumption.
Qed.

End ActivateMounts.

(** ** [cleanup] *)

Section Cleanup.
Import Dom Selector Effects DomApi ClaudeAdapter ChatInputHandler Lifecycle.
Import Notions Invariants.

Variable T : gmap nat Task * option nat * option nat.

Lemma tidy_faultless c s w : tidy T c s w -> faultless w.
Proof. now intros (Hf & _). Qed.

Lemma tidy_frame c s w w' : frame w' = frame w -> tidy T c s w -> tidy T c s w'.
Proof.
  intros [= Hd Hh Hf Hp Hu Hi] (H1 & H2 & H3 & H4).
  unfold tidy, faultless, containers, style_sheets, timers in *.
  rewrite Hd, Hf, Hp, Hu, Hi. auto.
Qed.

Lemma released_faultless c s w : released T c s w -> faultless w.
Proof. now intros [(Hf & _) _]. Qed.

Lemma released_frame c s w w' :
  frame w' = frame w -> released T c s w -> released T c s w'.
Proof.
  intros Hfr [Ht Hh]. split; [exact (tidy_frame c s w w' Hfr Ht)|].
  injection Hfr as _ Hh' _ _ _ _. unfold handle in *. congruence.
Qed.

(** Removing the container leaves no container and no more style
    sheets than before. *)
Lemma tidy_remove_container s p E :
  hoare (fun w => tidy T 1 s w /\
           exists d kids, elem_at p (document w) = Some (d, kids) /\
                          is_container d = true)
    (remove p) (fun _ => tidy T 0 s) E.
Proof.
  unfold remove. apply hoare_do_ok; [now intros w [(Hf & _) _]|].
  intros w [(Hf & Ht & Hc & Hs) (d & kids & He & Hid)].
  pose proof (tally_remove_at is_container p _ d kids He) as Hr.
  rewrite tally_Elem, Hid in Hr.
  pose proof (tally_remove_at_le is_style p (document w)) as Hle.
  unfold tidy, faultless in *. rewrite containers_tally, style_sheets_tally in *.
  cbn [document upd_document upd_calls fault_at].
  repeat split; auto; lia.
Qed.

Lemma tidy_cleanupUIIntegration s E :
  hoare (tidy T 1 s) cleanupUIIntegration (fun _ => released T 0 s) E.
Proof.
  unfold cleanupUIIntegration.
  apply hoare_bind with (R := fun _ => tidy T 0 s).
  - apply hoare_try_catch with (E1 := fun _ => False); [|intros msg; apply hoare_false].
    eapply hoare_bind.
    { unfold unmount_root, get, set, react_call.
      becalm frame (tidy_faultless 1 s) (tidy_frame 1 s). }
    intros ?. cbv beta. eapply hoare_bind.
    { apply hoare_byId_found; [apply tidy_faultless|].
      intros w. now apply tidy_frame. }
    intros [p|].
    + apply hoare_try_catch with (E1 := fun _ => False);
        [|intros msg; apply hoare_false].
      apply tidy_remove_container.
    + apply hoare_ret. intros w [(Hf & Ht & Hc & Hs) Hnone].
      fold (containers w) in Hnone. unfold tidy. repeat split; auto; lia.
  - intros _. unfold set. apply hoare_modify. intros w Hw. split; [|reflexivity].
    exact Hw.
Qed.

Lemma calm_cleanupDOMObservers c s : calm (released T c s) cleanupDOMObservers.
Proof.
  unfold cleanupDOMObservers, get, set.
  becalm frame (released_faultless c s) (released_frame c s).
Qed.



End Cleanup.

Section CleanupEffect.
Import Dom Selector Effects DomApi ClaudeAdapter ChatInputHandler Lifecycle.
Import Notions Invariants.







End CleanupEffect.

(** ** The life cycle: mounting once, cleaning up, the handle *)

Section LifecycleClaims.
Import Dom Selector Effects DomApi ClaudeAdapter ChatInputHandler Lifecycle.
Import Notions Invariants.

(** C5: calling [activate] twice in a row is calling it once, and
    whatever the plugin host calls and whichever callbacks run after
    that, the document never holds two elements with the id
    [mcp-popover-container]. A mount attempt ([injectMCPPopover],
    [attemptInjection]) on a page that holds the container changes
    neither the document nor the handle. On a page where the first call
    leads to the control (in a run without faults: a page with a body
    and an insertion point and without a container or a style sheet of
    the adapter, the adapter not being active), the document holds
    exactly one container after the two calls and the firing of the
    timeout that the first call has scheduled. *)
Theorem activate_twice_one_container (w : World) (ops : list Op) :
  at_most_one w -> forallb adapter_op ops = true ->
  exec activate (exec activate w) = exec activate w /\
  containers (run ops (exec activate (exec activate w))) <= 1 /\
  (forall w' ip attempt maxRetries,
      containers w' <> 0 ->
      core (exec (injectMCPPopover ip) w') = core w' /\
      core (exec (attemptInjection attempt maxRetries) w') = core w') /\
  (ready w -> style_sheets w = 0 -> status w <> Active ->
   containers (run [CallActivate; CallActivate; Run (next_handle w)] w) = 1).
Proof.
  intros Hw Hops. split; [apply activate_twice|]. split; [|split].
  - apply (at_most_one_run (CallActivate :: CallActivate :: ops) w); assumption.
  - intros w' ip attempt maxRetries Hc. split.
    + now apply injectMCPPopover_present.
    + now apply attemptInjection_present.
  - apply activate_twice_mounts_one.
Qed.

(** On the composer page: the second call changes nothing, the page
    never holds two containers while callbacks run, and it holds one once
    the timeout has fired. *)
Lemma activate_twice_one_container_witness :
  exec activate (exec activate Scenario.fresh) = exec activate Scenario.fresh /\
  containers (run [Run 1; Observed; Run 1; CallInjectMCPPopoverManually]
                (exec activate (exec activate Scenario.fresh))) <= 1 /\
  containers (run [CallActivate; CallActivate; Run 1] Scenario.fresh) = 1.
Proof.
  destruct (activate_twice_one_container Scenario.fresh
              [Run 1; Observed; Run 1; CallInjectMCPPopoverManually])
    as (H1 & H2 & _ & H4).
  - unfold at_most_one. vm_compute. lia.
  - reflexivity.
  - split; [exact H1|]. split; [exact H2|]. apply H4.
    + split; [intros n; reflexivity|].
      split; [vm_compute; reflexivity|].
      split; [vm_compute; reflexivity|].
      vm_compute. discriminate.
    + vm_compute. reflexivity.
    + vm_compute. discriminate.
Defined.

(** On the composer page two calls of [activate] leave one timeout
    pending, and the page holds one container once it has fired. *)
Lemma activate_twice_on_composer_page :
  map_to_list (pending (run [CallActivate; CallActivate] Scenario.fresh))
    = [(1, CheckReady 0)] /\
  containers (run [CallActivate; CallActivate; Run 1] Scenario.fresh) = 1.
Proof. split; vm_compute; reflexivity. Qed.



(** The intervals go and the timeouts stay: after [cleanup] on the page
    with the mounted control, the callback of the dynamic imports is
    what is left of the pending callbacks. *)
Lemma cleanup_on_mounted_page :
  map_to_list (pending Scenario.mounted) = [(3, RenderImported 9); (1, UrlCheck)] /\
  map_to_list (pending (exec cleanup Scenario.mounted)) = [(3, RenderImported 9)].
Proof. split; vm_compute; reflexivity. Qed.


(** C9 (as amended): for an adapter instance on a page that holds no
    element with the id of the container or of the style sheet, with the
    handle null, and for every sequence of operations of the adapter and
    of its callbacks during which no DOM call raises, the document holds
    at most one container, and the handle is null exactly when it holds
    none. *)
Theorem handle_null_iff_unmounted (w : World) (ops : list Op) :
  faultless w -> containers w = 0 -> style_sheets w = 0 -> handle w = None ->
  forallb adapter_op ops = true ->
  containers (run ops w) <= 1 /\
  (handle (run ops w) = None <-> containers (run ops w) = 0).
Proof.
  intros Hf Hc Hs Hh Hops.
  assert (Hw : consistent w).
  { unfold consistent. split; [exact Hf|]. split; [|split; [lia|now split]].
    apply plain_without_styles. now rewrite <- style_sheets_tally. }
  now destruct (consistent_run ops w Hops Hw) as (_ & _ & H1 & H2).
Qed.

Lemma handle_null_iff_unmounted_witness :
  containers (run [CallInitialize; CallActivate; Run 2; CallDeactivate] Scenario.fresh)
    <= 1 /\
  (handle (run [CallInitialize; CallActivate; Run 2; CallDeactivate] Scenario.fresh)
     = None <->
   containers (run [CallInitialize; CallActivate; Run 2; CallDeactivate] Scenario.fresh)
     = 0).
Proof.
  apply (handle_null_iff_unmounted Scenario.fresh
           [CallInitialize; CallActivate; Run 2; CallDeactivate]).
  - intros n. reflexivity.
  - vm_compute. reflexivity.
  - vm_compute. reflexivity.
  - reflexivity.
  - reflexivity.
Defined.

(** C9 (as stated) fails: a new instance on the page on which an
    earlier instance has mounted the control finds the container and
    skips the injection, so its handle stays null while the container
    is in the document. *)
Lemma second_instance_handle_stays_null :
  handle (run [CallInitialize; CallActivate; Run 2] Scenario.second_instance) = None /\
  containers (run [CallInitialize; CallActivate; Run 2] Scenario.second_instance) = 1.
Proof. split; vm_compute; reflexivity. Qed.

(** The handle and the document also part when the host page renders
    its tree anew, and when both removals of the container raise. *)
Lemma host_render_leaves_handle :
  handle (step (HostRenders Scenario.composer_page_rerendered) Scenario.mounted)
    = Some 9 /\
  containers (step (HostRenders Scenario.composer_page_rerendered) Scenario.mounted)
    = 0.
Proof. split; vm_compute; reflexivity. Qed.

Lemma failed_removal_releases_handle :
  handle (step CallDeactivate Scenario.removal_raises) = None /\
  containers (step CallDeactivate Scenario.removal_raises) = 1.
Proof. split; vm_compute; reflexivity. Qed.

End LifecycleClaims.

(** ** The outcomes of [insertText] and [submitForm] *)

Section AdapterOutcomes.
Import Dom Selector Effects DomApi ClaudeAdapter.
Import Notions.

Lemma find_selector_faultless sels p w :
  faultless w -> exists n, find_selector sels p w = (Ok tt, after_calls n w).
Proof.
  intros H. revert w H. induction sels as [|sel rest IH]; intros w H.
  - exists (calls w). destruct w; reflexivity.
  - cbn [find_selector]. rewrite run_bind, query_faultless by assumption.
    destruct (bool_decide _).
    + now exists (S (calls w)).
    + destruct (IH (after_calls (S (calls w)) w)) as (n & Heq).
      { now apply faultless_after_calls. }
      exists n. exact Heq.
Qed.

(** X1: when no selector of [CHAT_INPUT] matches and no target element
    is given, [insertText] returns false, emits the failure event with
    the reason [Chat input element not found], and leaves the document,
    the focus and the logs of events and commands as they were. *)
Theorem insertText_without_chat_input text w :
  faultless w ->
  first_hit selectors.CHAT_INPUT (document w) = None ->
  exists n,
    insertText text None w =
      (Ok false,
       upd_bus (fun l => l ++ [ExecutionFailed "insertText" "Chat input element not found"])
         (after_calls n w)).
Proof.
  intros H Hn. unfold insertText, locate_chat_input.
  rewrite run_bind_assoc, run_bind_read.
  destruct (first_match_hit selectors.CHAT_INPUT w H) as (n & Heq).
  rewrite Hn in Heq. change (id w) with w. cbv beta iota.
  rewrite run_bind, Heq. exists n. reflexivity.
Qed.

Lemma insertText_without_chat_input_witness :
  exists n,
    insertText "hello" None Cases.empty_start =
      (Ok false,
       upd_bus (fun l => l ++ [ExecutionFailed "insertText" "Chat input element not found"])
         (after_calls n Cases.empty_start)).
Proof.
  apply insertText_without_chat_input.
  - intros n. reflexivity.
  - reflexivity.
Defined.

(** X2: on an editable region whose text is not blank, [insertText]
    issues two editing commands, the separator of two line feeds and
    then the text, dispatches an input and a change event at the region
    and returns true. *)
Theorem insertText_editable_separates text target w p d kids :
  faultless w ->
  elem_at p (document w) = Some (d, kids) ->
  tagName d <> "TEXTAREA" ->
  attr_is d "contenteditable" "true" = true ->
  not_blank (textContent (Elem d kids)) = true ->
  (locate_chat_input target w).1 = Ok (Some p) ->
  exists w',
    insertText text target w = (Ok true, w') /\
    document w' = document w /\
    commands w' = commands w ++
      [("insertText", JsString.separator); ("insertText", text)] /\
    dispatched w' = dispatched w ++ [(p, InputEvent); (p, ChangeEvent)].
Proof.
  intros H He Ht Hc Hb Hl.
  assert (Ht' : String.eqb (tagName d) "TEXTAREA" = false)
    by now apply String.eqb_neq.
  destruct (locate_chat_input_faultless target w H) as (r & n & Heq).
  rewrite Heq in Hl. cbn [fst] in Hl. injection Hl as ->.
  destruct (insertText_body_contenteditable text p (after_calls n w) d kids
              (faultless_after_calls n w H) He Ht' Hc)
    as (w' & Hrun & Hdoc & Hcmd & Hdis).
  exists w'.
  rewrite (insertText_located _ _ _ _ _ Heq). unfold try_catch. rewrite Hrun.
  split; [reflexivity|]. split; [exact Hdoc|]. split; [|exact Hdis].
  rewrite Hcmd. unfold insert_commands. now rewrite Hb.
Qed.

Lemma insertText_editable_separates_witness :
  exists w',
    insertText "hello" None Cases.chat_start = (Ok true, w') /\
    document w' = document Cases.chat_start /\
    commands w' = commands Cases.chat_start ++
      [("insertText", JsString.separator); ("insertText", "hello")] /\
    dispatched w' = dispatched Cases.chat_start ++
      [(Cases.editor_path, InputEvent); (Cases.editor_path, ChangeEvent)].
Proof.
  apply (insertText_editable_separates "hello" None Cases.chat_start
           Cases.editor_path Cases.editor
           [Text "draft"; element 6 "br" [] []]).
  - intros n. reflexivity.
  - reflexivity.
  - discriminate.
  - reflexivity.
  - reflexivity.
  - vm_compute. reflexivity.
Defined.

(** X3: when the target element given in the options is neither a
    text area nor an element with [contenteditable="true"], [insertText]
    focuses it, inserts nothing, and still emits the completion event and
    returns true: only the focus, the bus and the count of API calls
    change. *)
Theorem insertText_other_element_reports_success text p w d kids :
  faultless w ->
  elem_at p (document w) = Some (d, kids) ->
  tagName d <> "TEXTAREA" ->
  attr_is d "contenteditable" "true" = false ->
  insertText text (Some p) w =
    (Ok true,
     upd_bus (fun l => l ++ [ExecutionCompleted "insertText" (tagName d)])
       (upd_focused (fun _ => Some p) (after_calls (S (calls w)) w))).
Proof.
  intros H He Ht Hc.
  assert (Ht' : String.eqb (tagName d) "TEXTAREA" = false)
    by now apply String.eqb_neq.
  unfold insertText, locate_chat_input.
  rewrite run_bind_assoc, run_bind_read. change (id w) with w. cbv beta.
  unfold has_elem_at. rewrite He. rewrite run_bind_ret.
  unfold try_catch, insertText_body, focus, emitExecutionCompleted.
  rewrite run_bind_do by faultless_tac.
  rewrite run_bind_read.
  rewrite (data_at_elem p (upd_focused (fun _ => Some p) (upd_calls S w)) d kids He),
    Ht', Hc.
  repeat mstep. reflexivity.
Qed.

Lemma insertText_other_element_reports_success_witness :
  insertText "hello" (Some Cases.search_path) Cases.search_start =
    (Ok true,
     upd_bus (fun l => l ++ [ExecutionCompleted "insertText" "INPUT"])
       (upd_focused (fun _ => Some Cases.search_path)
          (after_calls (S (calls Cases.search_start)) Cases.search_start))).
Proof.
  apply (insertText_other_element_reports_success "hello" Cases.search_path
           Cases.search_start Cases.search_field []).
  - intros n. reflexivity.
  - reflexivity.
  - discriminate.
  - reflexivity.
Defined.

(** X4: the outcomes of [submitForm]. Without a match for [SUBMIT_BUTTON]
    it returns false with the reason [Submit button not found]. For the
    first match: when the button is disabled, or when its layout box has
    width or height zero, it returns false with the matching reason and
    clicks nothing; otherwise it clicks the button once, emits the
    completion event and returns true. An [aria-disabled] attribute is
    not looked at. *)
Theorem submitForm_outcomes w :
  faultless w ->
  (first_hit selectors.SUBMIT_BUTTON (document w) = None ->
   exists w',
     submitForm w = (Ok false, w') /\
     document w' = document w /\ dispatched w' = dispatched w /\
     bus w' = bus w ++ [ExecutionFailed "submitForm" "Submit button not found"]) /\
  (forall p d kids,
     first_hit selectors.SUBMIT_BUTTON (document w) = Some p ->
     elem_at p (document w) = Some (d, kids) ->
     (disabled d = true ->
      exists w',
        submitForm w = (Ok false, w') /\
        document w' = document w /\ dispatched w' = dispatched w /\
        bus w' = bus w ++ [ExecutionFailed "submitForm" "Submit button is disabled"]) /\
     (disabled d = false -> rect_width d = 0%N \/ rect_height d = 0%N ->
      exists w',
        submitForm w = (Ok false, w') /\
        document w' = document w /\ dispatched w' = dispatched w /\
        bus w' = bus w ++ [ExecutionFailed "submitForm" "Submit button is not visible"]) /\
     (disabled d = false -> rect_width d <> 0%N -> rect_height d <> 0%N ->
      exists w',
        submitForm w = (Ok true, w') /\
        document w' = document w /\
        dispatched w' = dispatched w ++ [(p, ClickEvent)] /\
        bus w' = bus w ++ [ExecutionCompleted "submitForm" "submitButton.click"])).
Proof.
  intros H.
  destruct (first_match_hit selectors.SUBMIT_BUTTON w H) as (n & Heq).
  pose proof (faultless_after_calls n w H) as Hn.
  split.
  - intros Hnone. rewrite Hnone in Heq.
    eexists. split.
    + unfold submitForm. rewrite run_bind, Heq. reflexivity.
    + auto.
  - intros p d kids Hp He. rewrite Hp in Heq.
    assert (Hrun : submitForm w =
                     try_catch (submitForm_body p)
                       (fun errorMessage =>
                          emitExecutionFailed "submitForm" errorMessage ;; ret false)
                       (after_calls n w))
      by (unfold submitForm; now rewrite run_bind, Heq).
    rewrite Hrun. unfold try_catch, submitForm_body.
    rewrite run_bind_read.
    rewrite (data_at_elem p (after_calls n w) d kids He).
    split; [|split].
    + intros Hd. rewrite Hd. eexists. split; [reflexivity|]. auto.
    + intros Hd Hz. rewrite Hd.
      rewrite run_bind_get by faultless_tac.
      rewrite (data_at_elem p (upd_calls S (after_calls n w)) d kids He).
      cbn [fst snd].
      assert (Hz' : (N.eqb (rect_width d) 0 || N.eqb (rect_height d) 0)%bool = true).
      { destruct Hz as [-> | ->]; [reflexivity|apply orb_true_r]. }
      rewrite Hz'. eexists. split; [reflexivity|]. auto.
    + intros Hd Hw Hh. rewrite Hd.
      rewrite run_bind_get by faultless_tac.
      rewrite (data_at_elem p (upd_calls S (after_calls n w)) d kids He).
      cbn [fst snd].
      apply N.eqb_neq in Hw, Hh. rewrite Hw, Hh. cbn [orb].
      unfold dispatchEvent. rewrite run_bind_do by faultless_tac.
      set (w1 := upd_dispatched _ _).
      assert (H1 : faultless w1) by (intros k; apply H).
      destruct (find_selector_faultless selectors.SUBMIT_BUTTON p w1 H1) as (m & Hm).
      rewrite run_bind, Hm. eexists. split; [reflexivity|]. auto.
Qed.

Lemma submitForm_outcomes_witness :
  (exists w',
     submitForm Cases.chat_disabled = (Ok false, w') /\
     document w' = document Cases.chat_disabled /\
     dispatched w' = dispatched Cases.chat_disabled /\
     bus w' = bus Cases.chat_disabled ++
       [ExecutionFailed "submitForm" "Submit button is disabled"]) /\
  (exists w',
     submitForm Cases.chat_collapsed = (Ok false, w') /\
     document w' = document Cases.chat_collapsed /\
     dispatched w' = dispatched Cases.chat_collapsed /\
     bus w' = bus Cases.chat_collapsed ++
       [ExecutionFailed "submitForm" "Submit button is not visible"]) /\
  (exists w',
     submitForm Cases.chat_aria_disabled = (Ok true, w') /\
     document w' = document Cases.chat_aria_disabled /\
     dispatched w' = dispatched Cases.chat_aria_disabled ++
       [(Cases.send_path, ClickEvent)] /\
     bus w' = bus Cases.chat_aria_disabled ++
       [ExecutionCompleted "submitForm" "submitButton.click"]).
Proof.
  split; [|split].
  - destruct (submitForm_outcomes Cases.chat_disabled) as [_ Hb].
    + intros n. reflexivity.
    + destruct (Hb Cases.send_path
                  (Cases.send_button [("disabled", "")] 32 32) [])
        as [Hd _]; [reflexivity|reflexivity|].
      apply Hd. reflexivity.
  - destruct (submitForm_outcomes Cases.chat_collapsed) as [_ Hb].
    + intros n. reflexivity.
    + destruct (Hb Cases.send_path (Cases.send_button [] 0 32) [])
        as [_ [Hz _]]; [reflexivity|reflexivity|].
      apply Hz; [reflexivity|left; reflexivity].
  - destruct (submitForm_outcomes Cases.chat_aria_disabled) as [_ Hb].
    + intros n. reflexivity.
    + destruct (Hb Cases.send_path
                  (Cases.send_button [("aria-disabled", "true")] 32 32) [])
        as [_ [_ Hc]]; [reflexivity|reflexivity|].
      apply Hc; [reflexivity|discriminate|discriminate].
Defined.

End AdapterOutcomes.

(** ** The chat input handler: what it finds and what it does *)

Section HandlerOutcomes.
Import Dom Selector Effects DomApi ClaudeAdapter ChatInputHandler.
Import Notions Invariants.

Lemma query_cases sel w :
  query sel w = (Ok (e_path <$> querySelector sel (document w)), upd_calls S w) \/
  exists msg, query sel w = (Throw msg, upd_calls S w).
Proof.
  unfold query, dom_get, dom_call.
  destruct (fault_at w (calls w)) as [msg|]; [right; now exists msg|now left].
Qed.

Lemma simple_selects_data l e :
  selects [Single (simple l)] e = true ->
  forallb (fun a => atom_matches a (e_frame e)) l = true.
Proof.
  unfold selects, complex_matches, compound_matches, simple.
  cbn [existsb atoms has]. rewrite andb_true_r, orb_false_r. auto.
Qed.

Lemma query_returns sel w r w1 :
  query sel w = (Ok r, w1) ->
  r = e_path <$> querySelector sel (document w) /\ w1 = upd_calls S w.
Proof.
  intros Hq. destruct (query_cases sel w) as [Heq | [msg Heq]];
    rewrite Heq in Hq; [|discriminate].
  injection Hq as <- <-. auto.
Qed.

Lemma tagName_textarea d : localName d = "textarea" -> tagName d = "TEXTAREA".
Proof. unfold tagName. now intros ->. Qed.

Lemma editable_div_data e :
  selects any_contenteditable_div e = true ->
  attr_is (f_data (e_frame e)) "contenteditable" "true" = true.
Proof.
  intros Hs. apply simple_selects_data in Hs. cbn [forallb atom_matches] in Hs.
  now apply andb_true_iff in Hs as [_ [Hs _]%andb_true_iff].
Qed.

Lemma composer_input_data e :
  selects composer_input e = true ->
  attr_is (f_data (e_frame e)) "contenteditable" "true" = true.
Proof.
  intros Hs. apply simple_selects_data in Hs. cbn [forallb atom_matches] in Hs.
  now apply andb_true_iff in Hs as [_ [Hs _]%andb_true_iff].
Qed.

Lemma textarea_data e :
  selects reply_or_talk_textarea e = true ->
  tagName (f_data (e_frame e)) = "TEXTAREA".
Proof.
  unfold selects, reply_or_talk_textarea, complex_matches, compound_matches, simple.
  cbn [existsb atoms has forallb atom_matches]. intros Hs.
  apply tagName_textarea, String.eqb_eq.
  destruct (String.eqb (localName (f_data (e_frame e))) "textarea");
    [reflexivity|discriminate Hs].
Qed.

(** X5: the element that [findChatInputElement] returns is an element
    of the document that is a text area or has [contenteditable="true"]
    (so of the four branches of [insertTextToChatInput] only the first
    two are ever taken), and it is stored in [lastFoundInputElement].
    This holds whatever DOM calls raise. *)
Theorem found_chat_input_is_textarea_or_editable w p w' :
  findChatInputElement w = (Ok (Some p), w') ->
  exists d kids,
    elem_at p (document w) = Some (d, kids) /\
    (tagName d = "TEXTAREA" \/ attr_is d "contenteditable" "true" = true) /\
    lastFoundInputElement w' = Some p.
Proof.
  unfold findChatInputElement, remember. rewrite run_bind.
  destruct (query composer_input w) as [[r1|msg] w1] eqn:H1; [|discriminate].
  apply query_returns in H1 as [-> ->].
  destruct (querySelector composer_input (document w)) as [e|] eqn:Hq1;
    cbn [fmap option_fmap option_map].
  { rewrite run_bind_modify. intros [= <- <-].
    apply querySelector_Some in Hq1 as [He Hs].
    eexists _, _. split; [exact He|]. split; [|reflexivity].
    right. now apply composer_input_data. }
  rewrite run_bind.
  destruct (query any_contenteditable_div (upd_calls S w)) as [[r2|msg] w2] eqn:H2;
    [|discriminate].
  apply query_returns in H2 as [-> ->].
  cbn [document upd_calls].
  destruct (querySelector any_contenteditable_div (document w)) as [e|] eqn:Hq2;
    cbn [fmap option_fmap option_map].
  { rewrite run_bind_modify. intros [= <- <-].
    apply querySelector_Some in Hq2 as [He Hs].
    eexists _, _. split; [exact He|]. split; [|reflexivity].
    right. now apply editable_div_data. }
  rewrite run_bind.
  destruct (query reply_or_talk_textarea (upd_calls S (upd_calls S w)))
    as [[r3|msg] w3] eqn:H3; [|discriminate].
  apply query_returns in H3 as [-> ->].
  cbn [document upd_calls].
  destruct (querySelector reply_or_talk_textarea (document w)) as [e|] eqn:Hq3;
    cbn [fmap option_fmap option_map]; [|discriminate].
  rewrite run_bind_modify. intros [= <- <-].
  apply querySelector_Some in Hq3 as [He Hs].
  eexists _, _. split; [exact He|]. split; [|reflexivity].
  left. now apply textarea_data.
Qed.

Lemma found_chat_input_is_textarea_or_editable_witness :
  exists d kids,
    elem_at Scenario.area_path (document Scenario.form_start) = Some (d, kids) /\
    (tagName d = "TEXTAREA" \/ attr_is d "contenteditable" "true" = true) /\
    lastFoundInputElement (exec findChatInputElement Scenario.form_start)
      = Some Scenario.area_path.
Proof.
  apply (found_chat_input_is_textarea_or_editable Scenario.form_start
           Scenario.area_path (exec findChatInputElement Scenario.form_start)).
  vm_compute. reflexivity.
Defined.

Lemma findChatInputElement_none w :
  faultless w ->
  querySelector composer_input (document w) = None ->
  querySelector any_contenteditable_div (document w) = None ->
  querySelector reply_or_talk_textarea (document w) = None ->
  findChatInputElement w = (Ok None, after_calls (3 + calls w) w).
Proof.
  intros H H1 H2 H3. unfold findChatInputElement.
  rewrite run_bind, query_faultless, H1 by assumption.
  cbn [fmap option_fmap option_map].
  rewrite run_bind, query_faultless by now apply faultless_after_calls.
  cbn [document after_calls upd_calls]. rewrite H2.
  cbn [fmap option_fmap option_map].
  rewrite run_bind, query_faultless by now do 2 apply faultless_after_calls.
  cbn [document after_calls upd_calls]. rewrite H3.
  reflexivity.
Qed.

Lemma submitChatInput_run maxWaitTime w w2 :
  submit_executor (next_handle w) maxWaitTime (exec newPromise w) = (Ok tt, w2) ->
  submitChatInput maxWaitTime w = (Ok (next_handle w), w2).
Proof.
  intros Hb. unfold submitChatInput.
  rewrite run_bind. unfold newPromise at 1. cbv beta zeta.
  change (upd_next_handle S (upd_resolved (fun m => <[next_handle w:=[]]> m) w))
    with (exec newPromise w).
  rewrite run_bind. unfold try_catch. now rewrite Hb.
Qed.

(** X6: on a page where none of the three selectors of
    [findChatInputElement] matches, [insertTextToChatInput] and
    [attachFileToChatInput] return false having made the three queries and
    nothing else, and [submitChatInput], when no earlier input is
    remembered, resolves its promise to false without starting the poll
    and without dispatching an event. *)
Theorem handler_without_chat_input text file maxWaitTime w :
  faultless w ->
  querySelector composer_input (document w) = None ->
  querySelector any_contenteditable_div (document w) = None ->
  querySelector reply_or_talk_textarea (document w) = None ->
  insertTextToChatInput text w = (Ok false, after_calls (3 + calls w) w) /\
  attachFileToChatInput file w = (Ok false, after_calls (3 + calls w) w) /\
  (lastFoundInputElement w = None ->
   exists w',
     submitChatInput maxWaitTime w = (Ok (next_handle w), w') /\
     settled (next_handle w) w' = Some false /\
     pending w' = pending w /\ dispatched w' = dispatched w /\
     document w' = document w).
Proof.
  intros H H1 H2 H3.
  pose proof (findChatInputElement_none w H H1 H2 H3) as Hf.
  split; [|split].
  - unfold insertTextToChatInput, try_catch. now rewrite run_bind, Hf.
  - unfold attachFileToChatInput, try_catch. now rewrite run_bind, Hf.
  - intros Hl.
    assert (Hw1 : faultless (exec newPromise w)) by (intros k; apply H).
    pose proof (findChatInputElement_none (exec newPromise w) Hw1 H1 H2 H3) as Hf1.
    eexists. split.
    + apply submitChatInput_run. unfold submit_executor.
      rewrite run_bind_read. change (id ?x) with x. cbv beta.
      replace (lastFoundInputElement (exec newPromise w)) with (@None Path)
        by (symmetry; exact Hl).
      rewrite run_bind, Hf1. reflexivity.
    + unfold settled. cbn. rewrite !lookup_insert_eq. auto.
Qed.

Lemma handler_without_chat_input_witness :
  insertTextToChatInput "hello" Cases.empty_start
    = (Ok false, after_calls (3 + calls Cases.empty_start) Cases.empty_start) /\
  attachFileToChatInput Scenario.notes Cases.empty_start
    = (Ok false, after_calls (3 + calls Cases.empty_start) Cases.empty_start) /\
  (lastFoundInputElement Cases.empty_start = None ->
   exists w',
     submitChatInput 5000 Cases.empty_start
       = (Ok (next_handle Cases.empty_start), w') /\
     settled (next_handle Cases.empty_start) w' = Some false /\
     pending w' = pending Cases.empty_start /\
     dispatched w' = dispatched Cases.empty_start /\
     document w' = document Cases.empty_start).
Proof.
  apply handler_without_chat_input.
  - intros n. reflexivity.
  - reflexivity.
  - reflexivity.
  - reflexivity.
Defined.

(** X7: on an editable region whose text is not blank,
    [insertTextToChatInput] focuses the region, appends an empty text
    node when the last child of the region is not a text node, puts the
    caret at the end, and issues two editing commands, the separator of
    two line feeds and then the text; it dispatches one input event and
    returns true. *)
Theorem insertTextToChatInput_editable_separates text w p d kids :
  faultless w ->
  (findChatInputElement w).1 = Ok (Some p) ->
  elem_at p (document w) = Some (d, kids) ->
  tagName d <> "TEXTAREA" ->
  attr_is d "contenteditable" "true" = true ->
  not_blank (textContent (Elem d kids)) = true ->
  exists w',
    insertTextToChatInput text w = (Ok true, w') /\
    document w' =
      (if lacks_trailing_text kids
       then append_child p (Text "") (document w) else document w) /\
    focused w' = Some p /\ caret w' = Some p /\
    commands w' = commands w ++
      [("insertText", JsString.separator); ("insertText", text)] /\
    dispatched w' = dispatched w ++ [(p, InputEvent)].
Proof.
  intros H Hf He Ht Hc Hb.
  assert (Ht' : String.eqb (tagName d) "TEXTAREA" = false)
    by now apply String.eqb_neq.
  destruct (findChatInputElement_faultless w H) as (r & l & n & Heq).
  rewrite Heq in Hf. cbn [fst] in Hf. injection Hf as ->.
  pose proof (faultless_found_after l n w H) as H1.
  unfold insertTextToChatInput, try_catch.
  rewrite run_bind, Heq, run_bind_read.
  rewrite (data_at_elem p (found_after l n w) d kids He), Ht', Hc.
  unfold focus, execCommand, dispatchEvent, construct, move_caret_to_end.
  rewrite run_bind_do by faultless_tac.
  rewrite run_bind_read.
  rewrite (textContent_at_elem p
             (upd_focused (fun _ => Some p) (upd_calls S (found_after l n w)))
             d kids He).
  unfold not_blank in Hb. rewrite Hb.
  rewrite run_bind_assoc, run_bind_read.
  unfold kids_at at 1.
  cbn [document upd_focused upd_calls found_after after_calls
       upd_lastFoundInputElement].
  rewrite He.
  destruct (lacks_trailing_text kids).
  - repeat mstep. cbn [bind ret]. eexists. split; [reflexivity|].
    cbn [id document commands dispatched focused caret upd_document upd_calls
         upd_dispatched upd_bus upd_focused upd_caret upd_commands
         upd_lastFoundInputElement found_after after_calls].
    rewrite <- !app_assoc. auto 10.
  - repeat mstep. cbn [bind ret]. eexists. split; [reflexivity|].
    cbn [id document commands dispatched focused caret upd_document upd_calls
         upd_dispatched upd_bus upd_focused upd_caret upd_commands
         upd_lastFoundInputElement found_after after_calls].
    rewrite <- !app_assoc. auto 10.
Qed.

Lemma insertTextToChatInput_editable_separates_witness :
  exists w',
    insertTextToChatInput "hello" Cases.chat_start = (Ok true, w') /\
    document w' =
      append_child Cases.editor_path (Text "") (document Cases.chat_start) /\
    focused w' = Some Cases.editor_path /\ caret w' = Some Cases.editor_path /\
    commands w' = commands Cases.chat_start ++
      [("insertText", JsString.separator); ("insertText", "hello")] /\
    dispatched w' = dispatched Cases.chat_start ++ [(Cases.editor_path, InputEvent)].
Proof.
  apply (insertTextToChatInput_editable_separates "hello" Cases.chat_start
           Cases.editor_path Cases.editor
           [Text "draft"; element 6 "br" [] []]).
  - intros n. reflexivity.
  - vm_compute. reflexivity.
  - reflexivity.
  - discriminate.
  - reflexivity.
  - reflexivity.
Defined.

(** X8: when a chat input is found, [attachFileToChatInput] dispatches
    a [dragover] and then a [drop] event that carry the file at it (and
    no [dragenter]), leaves the document as it is and returns true; the
    size of the file is not looked at, so an empty file is dropped as
    well. *)
Theorem attachFileToChatInput_drops file w p :
  faultless w ->
  (findChatInputElement w).1 = Ok (Some p) ->
  exists w',
    attachFileToChatInput file w = (Ok true, w') /\
    document w' = document w /\
    dispatched w' = dispatched w ++
      [(p, DragEvent "dragover" [file]); (p, DragEvent "drop" [file])].
Proof.
  intros H Hf.
  destruct (findChatInputElement_faultless w H) as (r & l & n & Heq).
  rewrite Heq in Hf. cbn [fst] in Hf. injection Hf as ->.
  pose proof (faultless_found_after l n w H) as H1.
  unfold attachFileToChatInput, try_catch.
  rewrite run_bind, Heq.
  unfold new_DataTransfer, addEventListener, dispatchEvent, construct.
  repeat mstep. cbn [bind ret]. eexists. split; [reflexivity|].
  cbn [id document dispatched upd_document upd_calls upd_dispatched
       upd_lastFoundInputElement found_after after_calls].
  rewrite <- !app_assoc. auto.
Qed.

Lemma attachFileToChatInput_drops_witness :
  exists w',
    attachFileToChatInput
      {| file_name := "empty.txt"; file_type := "text/plain"; file_size := 0 |}
      Scenario.form_start = (Ok true, w') /\
    document w' = document Scenario.form_start /\
    dispatched w' = dispatched Scenario.form_start ++
      [(Scenario.area_path,
        DragEvent "dragover"
          [{| file_name := "empty.txt"; file_type := "text/plain"; file_size := 0 |}]);
       (Scenario.area_path,
        DragEvent "drop"
          [{| file_name := "empty.txt"; file_type := "text/plain"; file_size := 0 |}])].
Proof.
  apply attachFileToChatInput_drops.
  - intros n. reflexivity.
  - vm_compute. reflexivity.
Defined.

End HandlerOutcomes.

(** ** [submitChatInput] *)

(** Unfold the updates of the state down to the record. *)
Ltac expose :=
  cbv [Effects.upd_document Effects.upd_next_uid Effects.upd_location
       Effects.upd_focused Effects.upd_caret Effects.upd_dispatched
       Effects.upd_commands Effects.upd_bus Effects.upd_bus_handlers
       Effects.upd_calls Effects.upd_fault_at Effects.upd_lastFoundInputElement
       Effects.upd_pending Effects.upd_next_handle Effects.upd_resolved
       Effects.upd_activeSidebarManager Effects.upd_adapter
       Notions.after_calls Notions.found_after id
       Effects.document Effects.next_uid Effects.location Effects.focused
       Effects.caret Effects.dispatched Effects.commands Effects.bus
       Effects.bus_handlers Effects.calls Effects.fault_at
       Effects.lastFoundInputElement Effects.pending Effects.next_handle
       Effects.resolved Effects.activeSidebarManager Effects.adapter].

Section Lookups.
Import Dom Selector Effects DomApi ClaudeAdapter ChatInputHandler.
Import Notions Invariants Observations.

Lemma lookup_ret {A} (a : A) : lookup (ret a) (fun _ => a).
Proof. intros w _. exists (calls w). destruct w; reflexivity. Qed.

Lemma lookup_get {A} (f : World -> A) (g : Document -> A) :
  (forall w, f w = g (document w)) -> lookup (dom_get f) g.
Proof.
  intros Hf w H. exists (S (calls w)).
  unfold dom_get, dom_call. rewrite (H (calls w)). now rewrite Hf.
Qed.

Lemma lookup_bind {A B} (m : M A) (k : A -> M B) g h :
  lookup m g -> (forall a, lookup (k a) (h a)) ->
  lookup (m ≫= k) (fun f => h (g f) f).
Proof.
  intros Hm Hk w H. destruct (Hm w H) as (n & Hn).
  destruct (Hk (g (document w)) (after_calls n w) (faultless_after_calls n w H))
    as (n' & Hn').
  exists n'. rewrite run_bind, Hn, Hn'. reflexivity.
Qed.

Lemma lookup_or_else a b ga gb :
  lookup a ga -> lookup b gb ->
  lookup (or_else a b)
    (fun f => match ga f with Some p => Some p | None => gb f end).
Proof.
  intros Ha Hb w H. unfold or_else.
  destruct (Ha w H) as (n & Hn). rewrite run_bind, Hn.
  destruct (ga (document w)) as [p|].
  - now exists n.
  - destruct (Hb (after_calls n w) (faultless_after_calls n w H)) as (n' & Hn').
    exists n'. rewrite Hn'. reflexivity.
Qed.

Lemma lookup_and_then (k : Path -> M (option Path)) h a :
  (forall p, lookup (k p) (h p)) ->
  lookup (and_then a k)
    (fun f => match a with Some p => h p f | None => None end).
Proof.
  intros Hk. destruct a as [p|]; cbn [and_then]; [apply Hk|apply lookup_ret].
Qed.

Lemma lookup_query sel :
  lookup (query sel) (fun f => e_path <$> querySelector sel f).
Proof. now apply lookup_get. Qed.

Lemma lookup_closest_of p sel :
  lookup (closest_of p sel) (fun f => e_path <$> closest p sel f).
Proof. now apply lookup_get. Qed.

Lemma lookup_query_in p sel :
  lookup (query_in p sel) (fun f => e_path <$> querySelector_in p sel f).
Proof. now apply lookup_get. Qed.

(** In a run without faults the button that [findSubmitButton] returns
    depends on the document only. *)
Lemma lookup_findSubmitButton ci : exists g, lookup (findSubmitButton ci) g.
Proof.
  eexists. unfold findSubmitButton.
  repeat first
    [ apply lookup_or_else
    | apply lookup_bind; [|intros ?; apply lookup_and_then; intros ?]
    | apply lookup_query | apply lookup_closest_of | apply lookup_query_in ].
Qed.

Lemma lookup_again {A} (m : M A) g w w' a :
  lookup m g -> faultless w -> faultless w' -> document w' = document w ->
  (m w).1 = Ok a ->
  exists n, m w' = (Ok a, after_calls n w').
Proof.
  intros Hm H H' Hd Ha.
  destruct (Hm w H) as (n & Hn). rewrite Hn in Ha. cbn [fst] in Ha.
  injection Ha as <-.
  destruct (Hm w' H') as (n' & Hn'). exists n'. now rewrite Hn', Hd.
Qed.

End Lookups.

Section SubmitOutcomes.
Import Dom Selector Effects DomApi ClaudeAdapter ChatInputHandler Lifecycle.
Import Notions Invariants Observations.

Lemma lookup_value {A} (m : M A) g w a :
  lookup m g -> faultless w -> (m w).1 = Ok a -> g (document w) = a.
Proof.
  intros Hm H Ha. destruct (Hm w H) as (n & Hn). rewrite Hn in Ha.
  now injection Ha.
Qed.

(** In a run without faults the element that [findChatInputElement]
    returns depends on the document only. *)
Lemma findChatInputElement_document :
  exists g, forall w, faultless w ->
    exists l n, findChatInputElement w = (Ok (g (document w)), found_after l n w).
Proof.
  exists (fun f =>
    match querySelector composer_input f with
    | Some e => Some (e_path e)
    | None =>
        match querySelector any_contenteditable_div f with
        | Some e => Some (e_path e)
        | None => e_path <$> querySelector reply_or_talk_textarea f
        end
    end).
  intros w H. unfold findChatInputElement, remember.
  rewrite run_bind, query_faultless by assumption.
  destruct (querySelector composer_input (document w)) as [e|];
    cbn [fmap option_fmap option_map].
  { rewrite run_bind_modify. eexists _, _. reflexivity. }
  rewrite run_bind, query_faultless by now apply faultless_after_calls.
  cbn [document after_calls upd_calls].
  destruct (querySelector any_contenteditable_div (document w)) as [e|];
    cbn [fmap option_fmap option_map].
  { rewrite run_bind_modify. eexists _, _. reflexivity. }
  rewrite run_bind, query_faultless by now do 2 apply faultless_after_calls.
  cbn [document after_calls upd_calls].
  destruct (querySelector reply_or_talk_textarea (document w)) as [e|];
    cbn [fmap option_fmap option_map].
  { rewrite run_bind_modify. eexists _, _. reflexivity. }
  exists (lastFoundInputElement w), (S (S (S (calls w)))).
  destruct w; reflexivity.
Qed.

(** The first step of the executor: the chat input. *)
Lemma chat_input_step ci w w1 :
  faultless w -> chat_input_is ci w ->
  faultless w1 -> document w1 = document w ->
  lastFoundInputElement w1 = lastFoundInputElement w ->
  exists l n,
    match lastFoundInputElement w1 with
    | Some p => ret (Some p)
    | None => findChatInputElement
    end w1 = (Ok (Some ci), found_after l n w1).
Proof.
  intros H Hci H1 Hd Hl. rewrite Hl.
  destruct Hci as [Hm | [Hm Hf]]; rewrite Hm.
  - exists (lastFoundInputElement w1), (calls w1). destruct w1; reflexivity.
  - destruct findChatInputElement_document as [g Hg].
    destruct (Hg w H) as (l & n & Hn). rewrite Hn in Hf. cbn [fst] in Hf.
    destruct (Hg w1 H1) as (l1 & n1 & Hn1).
    exists l1, n1. rewrite Hn1, Hd. congruence.
Qed.

Lemma tryClickingButton_enabled g promise ci w sb d kids :
  lookup (findSubmitButton ci) g -> faultless w ->
  g (document w) = Some sb ->
  elem_at sb (document w) = Some (d, kids) ->
  isDisabled d = false ->
  exists n,
    tryClickingButton promise ci w =
      (Ok tt,
       upd_resolved (fun m => <[promise := default [] (m !! promise) ++ [true]]> m)
         (upd_dispatched (fun l => l ++ [(sb, ClickEvent)]) (after_calls n w))).
Proof.
  intros Hg H Hsb He Hd. unfold tryClickingButton.
  destruct (Hg w H) as (n & Hn). rewrite run_bind, Hn, Hsb.
  rewrite run_bind_read, (data_at_elem sb (after_calls n w) d kids He), Hd.
  cbn [negb]. unfold click, dispatchEvent, resolve.
  pose proof (faultless_after_calls n w H).
  rewrite run_bind_do by faultless_tac.
  exists (S n). reflexivity.
Qed.

Lemma tryClickingButton_disabled g promise ci w sb d kids :
  lookup (findSubmitButton ci) g -> faultless w ->
  g (document w) = Some sb ->
  elem_at sb (document w) = Some (d, kids) ->
  isDisabled d = true ->
  exists n, tryClickingButton promise ci w = (Ok tt, after_calls n w).
Proof.
  intros Hg H Hsb He Hd. unfold tryClickingButton.
  destruct (Hg w H) as (n & Hn). rewrite run_bind, Hn, Hsb.
  rewrite run_bind_read, (data_at_elem sb (after_calls n w) d kids He), Hd.
  now exists n.
Qed.

Lemma isDisabled_false d : isDisabled d = false -> disabled d = false.
Proof.
  unfold isDisabled. intros Hd.
  now apply orb_false_iff in Hd as [[[Hd _]%orb_false_iff _]%orb_false_iff _].
Qed.

Lemma delete_inserted (m : gmap nat Task) h t : delete h (<[h := t]> m) = delete h m.
Proof. apply delete_insert_eq. Qed.

(** X9: when the send button that [findSubmitButton] returns is not
    disabled in any of the four ways the handler tests,
    [submitChatInput] clicks it once, resolves the promise to true and
    cancels the interval it had just started, so that no poll stays
    behind. The chat input is the one remembered in
    [lastFoundInputElement] when there is one; it is not looked up
    again. *)
Theorem submitChatInput_clicks_enabled_button maxWaitTime w ci sb d kids :
  faultless w ->
  chat_input_is ci w ->
  (findSubmitButton ci w).1 = Ok (Some sb) ->
  elem_at sb (document w) = Some (d, kids) ->
  isDisabled d = false ->
  exists w',
    submitChatInput maxWaitTime w = (Ok (next_handle w), w') /\
    settled (next_handle w) w' = Some true /\
    dispatched w' = dispatched w ++ [(sb, ClickEvent)] /\
    pending w' = delete (S (next_handle w)) (pending w) /\
    document w' = document w.
Proof.
  intros H Hci Hsb He Hd.
  destruct (lookup_findSubmitButton ci) as [g Hg].
  pose proof (lookup_value _ g w _ Hg H Hsb) as Hgw.
  set (w1 := exec newPromise w).
  assert (H1 : faultless w1) by (intros k; apply H).
  destruct (chat_input_step ci w w1 H Hci H1 eq_refl eq_refl) as (l & n & Hstep).
  pose proof (faultless_found_after l n w1 H1) as H2.
  destruct (Hg _ H2) as (n2 & Hn2).
  change (document (found_after l n w1)) with (document w) in Hn2.
  rewrite Hgw in Hn2.
  set (w3 := after_calls n2 (found_after l n w1)) in *.
  set (t := SubmitPoll (next_handle w) ci 0 maxWaitTime).
  set (w4 := upd_next_handle S (upd_pending (fun m => <[next_handle w3 := t]> m) w3)).
  assert (H4 : faultless w4) by (intros k; apply H).
  destruct (tryClickingButton_enabled g (next_handle w) ci w4 sb d kids Hg H4 Hgw He Hd)
    as (n5 & Hn5).
  eexists. split.
  - apply submitChatInput_run. fold w1. unfold submit_executor.
    rewrite run_bind_read. change (id w1) with w1. cbv beta.
    rewrite run_bind, Hstep. rewrite run_bind, Hn2.
    rewrite run_bind. unfold setTimer at 1. cbv beta zeta. fold t. fold w4.
    rewrite run_bind, Hn5. rewrite run_bind_read.
    match goal with |- context [data_at sb ?x] =>
      rewrite (data_at_elem sb x d kids He) end.
    rewrite (isDisabled_false d Hd). cbn [negb]. reflexivity.
  - unfold settled. cbn. rewrite !lookup_insert_eq. cbn.
    rewrite delete_inserted. auto.
Qed.

Lemma submitChatInput_clicks_enabled_button_witness :
  exists w',
    submitChatInput 5000 Cases.chat_start
      = (Ok (next_handle Cases.chat_start), w') /\
    settled (next_handle Cases.chat_start) w' = Some true /\
    dispatched w' = dispatched Cases.chat_start ++ [(Cases.send_path, ClickEvent)] /\
    pending w' = delete (S (next_handle Cases.chat_start)) (pending Cases.chat_start) /\
    document w' = document Cases.chat_start.
Proof.
  apply (submitChatInput_clicks_enabled_button 5000 Cases.chat_start
           Cases.editor_path Cases.send_path (Cases.send_button [] 32 32) []).
  - intros n. reflexivity.
  - right. split; [reflexivity|vm_compute; reflexivity].
  - vm_compute. reflexivity.
  - reflexivity.
  - reflexivity.
Defined.

(** X10: when the send button that [findSubmitButton] returns is
    disabled in one of the four ways the handler tests,
    [submitChatInput] clicks nothing and returns with the promise
    unsettled. The poll stays pending only when the [disabled] property
    of the button is true; when the button is disabled through
    [aria-disabled] or the class [disabled] alone, the interval is
    cancelled at once, and nothing is left that could settle the
    promise. *)
Theorem submitChatInput_disabled_button maxWaitTime w ci sb d kids :
  faultless w ->
  chat_input_is ci w ->
  (findSubmitButton ci w).1 = Ok (Some sb) ->
  elem_at sb (document w) = Some (d, kids) ->
  isDisabled d = true ->
  exists w',
    submitChatInput maxWaitTime w = (Ok (next_handle w), w') /\
    settled (next_handle w) w' = None /\
    dispatched w' = dispatched w /\
    pending w' =
      (if disabled d
       then <[S (next_handle w) := SubmitPoll (next_handle w) ci 0 maxWaitTime]>
              (pending w)
       else delete (S (next_handle w)) (pending w)).
Proof.
  intros H Hci Hsb He Hd.
  destruct (lookup_findSubmitButton ci) as [g Hg].
  pose proof (lookup_value _ g w _ Hg H Hsb) as Hgw.
  set (w1 := exec newPromise w).
  assert (H1 : faultless w1) by (intros k; apply H).
  destruct (chat_input_step ci w w1 H Hci H1 eq_refl eq_refl) as (l & n & Hstep).
  pose proof (faultless_found_after l n w1 H1) as H2.
  destruct (Hg _ H2) as (n2 & Hn2).
  change (document (found_after l n w1)) with (document w) in Hn2.
  rewrite Hgw in Hn2.
  set (w3 := after_calls n2 (found_after l n w1)) in *.
  set (t := SubmitPoll (next_handle w) ci 0 maxWaitTime).
  set (w4 := upd_next_handle S (upd_pending (fun m => <[next_handle w3 := t]> m) w3)).
  assert (H4 : faultless w4) by (intros k; apply H).
  destruct (tryClickingButton_disabled g (next_handle w) ci w4 sb d kids Hg H4 Hgw He Hd)
    as (n5 & Hn5).
  assert (Hrun : submitChatInput maxWaitTime w =
                   (Ok (next_handle w),
                    ((if negb (disabled d) then clearTimer (next_handle w3) else ret tt)
                       (after_calls n5 w4)).2)).
  { destruct (disabled d) eqn:Hdd; cbn [negb];
      apply submitChatInput_run; fold w1; unfold submit_executor;
      rewrite run_bind_read; change (id w1) with w1; cbv beta;
      rewrite run_bind, Hstep; rewrite run_bind, Hn2;
      rewrite run_bind; unfold setTimer at 1; cbv beta zeta; fold t; fold w4;
      rewrite run_bind, Hn5; rewrite run_bind_read;
      match goal with |- context [data_at sb ?x] =>
        rewrite (data_at_elem sb x d kids He) end;
      rewrite Hdd; reflexivity. }
  eexists. split; [exact Hrun|].
  destruct (disabled d); unfold settled; cbn; rewrite ?lookup_insert_eq; cbn;
    rewrite ?delete_inserted; auto.
Qed.

Lemma submitChatInput_disabled_button_witness :
  (exists w',
     submitChatInput 5000 Cases.chat_disabled
       = (Ok (next_handle Cases.chat_disabled), w') /\
     settled (next_handle Cases.chat_disabled) w' = None /\
     dispatched w' = dispatched Cases.chat_disabled /\
     pending w' =
       <[S (next_handle Cases.chat_disabled) :=
           SubmitPoll (next_handle Cases.chat_disabled) Cases.editor_path 0 5000]>
         (pending Cases.chat_disabled)) /\
  (exists w',
     submitChatInput 5000 Cases.chat_aria_disabled
       = (Ok (next_handle Cases.chat_aria_disabled), w') /\
     settled (next_handle Cases.chat_aria_disabled) w' = None /\
     dispatched w' = dispatched Cases.chat_aria_disabled /\
     pending w' =
       delete (S (next_handle Cases.chat_aria_disabled))
         (pending Cases.chat_aria_disabled)).
Proof.
  split.
  - apply (submitChatInput_disabled_button 5000 Cases.chat_disabled
             Cases.editor_path Cases.send_path
             (Cases.send_button [("disabled", "")] 32 32) []).
    + intros n. reflexivity.
    + right. split; [reflexivity|vm_compute; reflexivity].
    + vm_compute. reflexivity.
    + reflexivity.
    + reflexivity.
  - apply (submitChatInput_disabled_button 5000 Cases.chat_aria_disabled
             Cases.editor_path Cases.send_path
             (Cases.send_button [("aria-disabled", "true")] 32 32) []).
    + intros n. reflexivity.
    + right. split; [reflexivity|vm_compute; reflexivity].
    + vm_compute. reflexivity.
    + reflexivity.
    + reflexivity.
Defined.

(** The alternative methods, in a run without faults. *)
Lemma alternative_methods_faultless promise ci w :
  faultless w ->
  exists n,
    alternative_methods promise ci w =
      (Ok tt,
       upd_resolved (fun m => <[promise := default [] (m !! promise) ++ [true]]> m)
         (upd_dispatched (fun l => l ++ alternative_events ci (document w))
            (match closest ci form (document w) with
             | Some _ => after_calls n w
             | None => upd_focused (fun _ => Some ci) (after_calls n w)
             end))).
Proof.
  intros H. unfold alternative_methods, alternative_events, closest_of.
  rewrite run_bind_get by faultless_tac.
  cbn [document upd_calls].
  destruct (closest ci form (document w)) as [e|];
    cbn [fmap option_fmap option_map];
    unfold construct, dispatchEvent, focus, resolve; repeat mstep.
  - eexists. reflexivity.
  - exists (8 + calls w). unfold modify. f_equal.
    destruct w. expose. rewrite <- !app_assoc. reflexivity.
Qed.



End SubmitOutcomes.

Section SubmitTicks.
Import Dom Selector Effects DomApi ClaudeAdapter ChatInputHandler Lifecycle.
Import Notions Invariants Observations.

Lemma run_task_poll h w promise ci e maxWaitTime :
  pending w !! h = Some (SubmitPoll promise ci e maxWaitTime) ->
  run_task h w = poll_tick h promise ci e maxWaitTime w.
Proof.
  intros Hp. unfold run_task. rewrite run_bind_read. change (id w) with w.
  cbv beta. rewrite Hp. cbn [is_interval]. now rewrite run_bind_ret.
Qed.

Lemma filter_snoc {A} (f : A -> bool) l x :
  List.filter f (l ++ [x]) = List.filter f l ++ (if f x then [x] else []).
Proof.
  induction l as [|y l IH]; cbn [List.filter app].
  - reflexivity.
  - rewrite IH. now destruct (f y).
Qed.

Lemma clicks_snoc_click w p f :
  dispatched (f w) = dispatched w ++ [(p, ClickEvent)] ->
  clicks (f w) = S (clicks w).
Proof.
  intros Hd. unfold clicks. rewrite Hd, filter_snoc. cbn [snd].
  rewrite length_app. cbn [length]. lia.
Qed.

(** A tick before the deadline, with an enabled button. *)
Lemma tick_clicks g h w promise ci e maxWaitTime sb d kids :
  lookup (findSubmitButton ci) g -> faultless w ->
  pending w !! h = Some (SubmitPoll promise ci e maxWaitTime) ->
  (e + 200 < maxWaitTime)%Z ->
  g (document w) = Some sb ->
  elem_at sb (document w) = Some (d, kids) ->
  isDisabled d = false ->
  let w' := step (Run h) w in
  faultless w' /\ document w' = document w /\
  pending w' !! h = Some (SubmitPoll promise ci (e + 200) maxWaitTime) /\
  clicks w' = S (clicks w).
Proof.
  intros Hg H Hp He Hsb Hel Hd. cbn [step]. unfold exec.
  rewrite (run_task_poll h w promise ci e maxWaitTime Hp).
  unfold poll_tick, checkInterval. rewrite run_bind_modify.
  set (w1 := upd_pending _ w).
  assert (H1 : faultless w1) by (intros k; apply H).
  destruct (tryClickingButton_enabled g promise ci w1 sb d kids Hg H1 Hsb Hel Hd)
    as (n & Hn).
  rewrite run_bind, Hn.
  replace (maxWaitTime <=? e + 200)%Z with false by (symmetry; apply Z.leb_gt; lia).
  cbn [ret snd]. split; [intros k; apply H|]. split; [reflexivity|]. split.
  - cbn [pending upd_resolved upd_dispatched after_calls upd_calls].
    subst w1. cbn [pending upd_pending]. apply lookup_insert_eq.
  - unfold clicks. cbn [dispatched upd_resolved upd_dispatched after_calls upd_calls].
    subst w1. cbn [dispatched upd_pending].
    rewrite filter_snoc. cbn [snd]. rewrite length_app. cbn [length]. lia.
Qed.

(** X12: once the poll of [submitChatInput] is running, a click does
    not stop it: while the send button is enabled, every tick before the
    deadline clicks the button again, so [n] ticks make [n] clicks, and
    the interval is still pending with the elapsed time advanced by 200
    ms for each tick. *)
Theorem submit_poll_clicks_every_tick n :
  forall w h promise ci e maxWaitTime sb d kids,
    faultless w ->
    pending w !! h = Some (SubmitPoll promise ci e maxWaitTime) ->
    (e + 200 * Z.of_nat n < maxWaitTime)%Z ->
    (findSubmitButton ci w).1 = Ok (Some sb) ->
    elem_at sb (document w) = Some (d, kids) ->
    isDisabled d = false ->
    let w' := run (replicate n (Run h)) w in
    pending w' !! h =
      Some (SubmitPoll promise ci (e + 200 * Z.of_nat n) maxWaitTime) /\
    clicks w' = clicks w + n.
Proof.
  induction n as [|n IH]; intros w h promise ci e maxWaitTime sb d kids
    H Hp He Hsb Hel Hd.
  - cbn [replicate run fold_left]. rewrite Z.mul_0_r, Z.add_0_r. split; [exact Hp|lia].
  - destruct (lookup_findSubmitButton ci) as [g Hg].
    pose proof (lookup_value _ g w _ Hg H Hsb) as Hgw.
    destruct (tick_clicks g h w promise ci e maxWaitTime sb d kids Hg H Hp)
      as (H1 & Hd1 & Hp1 & Hc1); [lia|assumption..|].
    cbn [replicate run fold_left].
    change (fold_left (fun w0 op => step op w0) (replicate n (Run h))
              (step (Run h) w))
      with (run (replicate n (Run h)) (step (Run h) w)).
    destruct (IH (step (Run h) w) h promise ci (e + 200)%Z maxWaitTime sb d kids)
      as [Hp' Hc']; try assumption.
    + lia.
    + destruct (Hg _ H1) as (k & Hk). rewrite Hk, Hd1, Hgw. reflexivity.
    + now rewrite Hd1.
    + cbv zeta. rewrite Hp', Hc', Hc1. split; [f_equal; f_equal; lia|lia].
Qed.

Lemma submit_poll_clicks_every_tick_witness :
  pending (run (replicate 3 (Run 7)) Cases.polling) !! 7 =
    Some (SubmitPoll 1 Cases.editor_path (0 + 200 * Z.of_nat 3) 5000) /\
  clicks (run (replicate 3 (Run 7)) Cases.polling) = clicks Cases.polling + 3.
Proof.
  apply (submit_poll_clicks_every_tick 3 Cases.polling 7 1 Cases.editor_path 0 5000
           Cases.send_path (Cases.send_button [] 32 32) []).
  - intros n. reflexivity.
  - reflexivity.
  - reflexivity.
  - vm_compute. reflexivity.
  - reflexivity.
  - reflexivity.
Defined.

(** [tryClickingButton] in a run without faults: it returns, and
    touches neither the timers nor the document. *)
Lemma tryClickingButton_faultless promise ci w :
  faultless w ->
  exists w2,
    tryClickingButton promise ci w = (Ok tt, w2) /\
    faultless w2 /\ pending w2 = pending w /\ document w2 = document w /\
    exists pre, dispatched w2 = dispatched w ++ pre.
Proof.
  intros H. destruct (lookup_findSubmitButton ci) as [g Hg].
  destruct (Hg w H) as (n & Hn).
  unfold tryClickingButton. rewrite run_bind, Hn.
  pose proof (faultless_after_calls n w H) as H1.
  destruct (g (document w)) as [sb|].
  - rewrite run_bind_read.
    destruct (negb (isDisabled (data_at sb (after_calls n w)))).
    + unfold click, dispatchEvent, resolve. rewrite run_bind_do by faultless_tac.
      eexists. split; [reflexivity|]. split; [intros k; apply H|].
      split; [reflexivity|]. split; [reflexivity|].
      eexists. reflexivity.
    + eexists. split; [reflexivity|]. split; [exact H1|].
      split; [reflexivity|]. split; [reflexivity|].
      exists []. cbn [dispatched after_calls upd_calls]. now rewrite app_nil_r.
  - eexists. split; [reflexivity|]. split; [intros k; apply H|].
    split; [reflexivity|]. split; [reflexivity|].
    exists []. cbn [dispatched after_calls upd_calls upd_resolved].
    now rewrite app_nil_r.
Qed.

Lemma head_snoc_some {A} (l : list A) x : head (l ++ [x]) <> None.
Proof. now destruct l. Qed.

(** X13: the poll of [submitChatInput] ends at the deadline whatever the
    button does: the tick at which the elapsed time reaches
    [maxWaitTime] cancels the interval, dispatches the events of the
    alternative methods (after the click of that tick, when there is
    one) and leaves the promise settled. *)
Theorem submit_poll_ends_at_deadline w h promise ci e maxWaitTime :
  faultless w ->
  pending w !! h = Some (SubmitPoll promise ci e maxWaitTime) ->
  (maxWaitTime <= e + 200)%Z ->
  let w' := step (Run h) w in
  pending w' = delete h (pending w) /\
  settled promise w' <> None /\
  document w' = document w /\
  exists pre,
    dispatched w' = dispatched w ++ pre ++ alternative_events ci (document w).
Proof.
  intros H Hp He. cbn [step]. unfold exec.
  rewrite (run_task_poll h w promise ci e maxWaitTime Hp).
  unfold poll_tick, checkInterval. rewrite run_bind_modify.
  set (w1 := upd_pending _ w).
  assert (H1 : faultless w1) by (intros k; apply H).
  destruct (tryClickingButton_faultless promise ci w1 H1)
    as (w2 & Hrun & H2 & Hp2 & Hd2 & pre & Hpre).
  rewrite run_bind, Hrun.
  replace (maxWaitTime <=? e + 200)%Z with true by (symmetry; apply Z.leb_le; lia).
  unfold clearTimer. rewrite run_bind_modify.
  set (w3 := upd_pending _ w2).
  assert (H3 : faultless w3) by (intros k; apply H2).
  destruct (alternative_methods_faultless promise ci w3 H3) as (n & Hn).
  rewrite Hn. cbn [snd].
  change (document w3) with (document w2). rewrite Hd2.
  change (document w1) with (document w).
  split; [|split; [|split]].
  - destruct (closest ci form (document w));
      cbn [pending upd_resolved upd_dispatched upd_focused after_calls upd_calls];
      subst w3; cbn [pending upd_pending]; rewrite Hp2; subst w1;
      cbn [pending upd_pending]; apply delete_inserted.
  - unfold settled. cbn [resolved upd_resolved]. rewrite lookup_insert_eq.
    cbn [default]. apply head_snoc_some.
  - destruct (closest ci form (document w));
      cbn [document upd_resolved upd_dispatched upd_focused after_calls upd_calls];
      subst w3; cbn [document upd_pending]; now rewrite Hd2.
  - exists pre.
    destruct (closest ci form (document w));
      cbn [dispatched upd_resolved upd_dispatched upd_focused after_calls upd_calls];
      subst w3; cbn [dispatched upd_pending]; rewrite Hpre; subst w1;
      cbn [dispatched upd_pending]; now rewrite app_assoc.
Qed.

Lemma submit_poll_ends_at_deadline_witness :
  pending (step (Run 7) Cases.polling_late) = delete 7 (pending Cases.polling_late) /\
  settled 1 (step (Run 7) Cases.polling_late) <> None /\
  document (step (Run 7) Cases.polling_late) = document Cases.polling_late /\
  exists pre,
    dispatched (step (Run 7) Cases.polling_late) =
      dispatched Cases.polling_late ++ pre ++
      alternative_events Cases.editor_path (document Cases.polling_late).
Proof.
  apply (submit_poll_ends_at_deadline Cases.polling_late 7 1 Cases.editor_path
           4800 5000).
  - intros n. reflexivity.
  - reflexivity.
  - vm_compute. discriminate.
Defined.

End SubmitTicks.

(** ** The life cycle: callbacks and retries *)

Section UrlCheck.
Import Dom Selector Effects DomApi ClaudeAdapter ChatInputHandler Lifecycle.
Import Notions Invariants.

Lemma total_injectClaudeButtonStyles : total injectClaudeButtonStyles.
Proof.
  unfold injectClaudeButtonStyles, get.
  apply total_bind; [apply total_read|]. intros [|]; [apply total_ret|].
  apply total_try_catch. intros msg. apply total_ret.
Qed.

Lemma total_setTimer t : total (setTimer t).
Proof. intros w. eexists _, _. reflexivity. Qed.

Lemma total_onPageChanged url : total (onPageChanged url).
Proof.
  unfold onPageChanged, set, emit.
  apply total_bind; [apply total_modify|]. intros _.
  apply total_bind; [apply total_read|]. intros b.
  apply total_bind.
  { destruct b; [|apply total_ret].
    apply total_bind; [apply total_injectClaudeButtonStyles|]. intros _.
    apply total_bind; [apply total_setTimer|]. intros _.
    apply total_bind; [apply total_setTimer|]. intros _. apply total_ret. }
  intros _. apply total_bind; [apply total_read|]. intros w0. apply total_modify.
Qed.

Lemma keeps_location_onPageChanged url : keeps location (onPageChanged url).
Proof.
  unfold onPageChanged, injectClaudeButtonStyles, byId, remove, appendChild,
    createElement, get, set, emit.
  keep. apply keeps_call; reflexivity.
Qed.

(** X14: the callback of the URL poll never raises, whatever DOM calls
    do; after it the adapter's [lastUrl] is the URL of the page, and a
    second run right after the first changes nothing: the hook
    [onPageChanged] runs once per change of the URL. *)
Theorem urlCheck_settles w :
  (urlCheck w).1 = Ok tt /\
  location (exec urlCheck w) = location w /\
  lastUrl (adapter (exec urlCheck w)) = href (location w) /\
  exec urlCheck (exec urlCheck w) = exec urlCheck w.
Proof.
  assert (Hrun : (urlCheck w).1 = Ok tt /\
                 location (exec urlCheck w) = location w /\
                 lastUrl (adapter (exec urlCheck w)) = href (location w)).
  { unfold urlCheck, exec, get. rewrite run_bind_read, run_bind_read.
    destruct (String.eqb (href (location w)) (lastUrl (adapter w))) eqn:Heq.
    - apply String.eqb_eq in Heq. cbn [ret fst snd]. auto.
    - destruct (total_onPageChanged (href (location w)) w) as ([] & w1 & H1).
      pose proof (keeps_location_onPageChanged _ w _ w1 H1) as Hl.
      unfold set. rewrite run_bind, H1. cbn [modify fst snd].
      cbn [location adapter upd_adapter lastUrl with_lastUrl]. auto. }
  destruct Hrun as (Hok & Hl & Hu). repeat split; try assumption.
  unfold urlCheck at 1, exec at 1, get. rewrite run_bind_read, run_bind_read.
  now rewrite Hl, Hu, String.eqb_refl.
Qed.

End UrlCheck.

Section Retries.
Import Dom Selector Effects DomApi ClaudeAdapter ChatInputHandler Lifecycle.
Import Notions Invariants Observations.

Lemma fallback_insertion_none sels w :
  faultless w ->
  existsb (fun sel => match querySelector sel (document w) with
                      | Some _ => true
                      | None => false
                      end) sels = false ->
  exists n, fallback_insertion sels w = (Ok None, after_calls n w).
Proof.
  revert w. induction sels as [|sel rest IH]; intros w H Hex.
  - exists (calls w). destruct w; reflexivity.
  - cbn [fallback_insertion existsb] in *.
    apply orb_false_iff in Hex as [Hq Hex].
    rewrite run_bind, query_faultless by assumption.
    destruct (querySelector sel (document w)) as [e|]; [discriminate|].
    cbn [fmap option_fmap option_map].
    destruct (IH (after_calls (S (calls w)) w)) as (n & Hn);
      [now apply faultless_after_calls|exact Hex|].
    exists n. exact Hn.
Qed.

(** On a page without an insertion point, in a run without faults,
    [findButtonInsertionPoint] returns null. *)
Lemma findButtonInsertionPoint_none w :
  faultless w -> has_insertion_point (document w) = false ->
  exists n, findButtonInsertionPoint w = (Ok None, after_calls n w).
Proof.
  intros H Hip. unfold has_insertion_point, insertion_selectors in Hip.
  cbn [existsb] in Hip.
  apply orb_false_iff in Hip as [H1 Hip]. apply orb_false_iff in Hip as [H2 Hip].
  unfold findButtonInsertionPoint.
  rewrite run_bind, query_faultless by assumption.
  destruct (querySelector tag_fieldset (document w)); [discriminate|].
  cbn [fmap option_fmap option_map].
  rewrite run_bind, query_faultless by now apply faultless_after_calls.
  cbn [document after_calls upd_calls].
  destruct (querySelector composer_controls (document w)); [discriminate|].
  cbn [fmap option_fmap option_map].
  destruct (fallback_insertion_none fallbackSelectors
              (after_calls (S (calls (after_calls (S (calls w)) w)))
                 (after_calls (S (calls w)) w))) as (n & Hn).
  - now repeat apply faultless_after_calls.
  - exact Hip.
  - exists n. exact Hn.
Qed.

Lemma run_task_timeout h w t :
  pending w !! h = Some t -> is_interval t = false ->
  run_task h w =
    match t with
    | SubmitPoll promise chatInput elapsedTime maxWaitTime =>
        ChatInputHandler.poll_tick h promise chatInput elapsedTime maxWaitTime
    | UrlCheck => urlCheck
    | CheckReady attempts => checkReady attempts
    | AttemptInjection attempt maxRetries => attemptInjection attempt maxRetries
    | DelayedSetupUIIntegration => setupUIIntegration
    | DelayedCheckAndRestoreSidebar => checkAndRestoreSidebar
    | RenderImported u => renderImported u
    end (upd_pending (fun m => delete h m) w).
Proof.
  intros Hp Hi. unfold run_task. rewrite run_bind_read. change (id w) with w.
  cbv beta. rewrite Hp, Hi. unfold clearTimer. now rewrite run_bind_modify.
Qed.

(** One check of [waitForPageReady] on a page without an insertion
    point. *)
Lemma check_without_insertion_point h w a :
  faultless w -> has_insertion_point (document w) = false ->
  pending w !! h = Some (CheckReady a) ->
  let w' := step (Run h) w in
  faultless w' /\ document w' = document w /\
  (if 10 <=? S a
   then pending w' = delete h (pending w) /\ next_handle w' = next_handle w
   else pending w' = <[next_handle w := CheckReady (S a)]> (delete h (pending w)) /\
        next_handle w' = S (next_handle w)).
Proof.
  intros H Hip Hp. cbn [step]. unfold exec.
  rewrite (run_task_timeout h w _ Hp eq_refl). unfold checkReady.
  set (w1 := upd_pending _ w).
  assert (H1 : faultless w1) by (intros k; apply H).
  destruct (findButtonInsertionPoint_none w1 H1 Hip) as (n & Hn).
  rewrite run_bind, Hn.
  destruct (10 <=? S a).
  - cbn [ret snd]. split; [intros k; apply H|]. split; [reflexivity|]. now split.
  - unfold setTimer. cbn [snd]. split; [intros k; apply H|].
    split; [reflexivity|]. now split.
Qed.

Lemma delete_fresh_insert (m : gmap nat Task) h k t :
  m !! k = None -> delete k (<[k := t]> (delete h m)) = delete h m.
Proof.
  intros Hk. rewrite delete_insert_eq. apply delete_id.
  rewrite lookup_delete_None. now right.
Qed.

Lemma checks_run_out r :
  forall w h a,
    a + r = 9 ->
    faultless w -> has_insertion_point (document w) = false ->
    pending w !! h = Some (CheckReady a) ->
    (forall k, next_handle w <= k -> pending w !! k = None) ->
    let w' := run (Run h :: map Run (seq (next_handle w) r)) w in
    pending w' = delete h (pending w) /\ document w' = document w /\
    next_handle w' = next_handle w + r.
Proof.
  induction r as [|r IH]; intros w h a Ha H Hip Hp Hfresh.
  - cbn [seq map run fold_left].
    destruct (check_without_insertion_point h w a H Hip Hp) as (H1 & Hd & Hc).
    replace (10 <=? S a) with true in Hc by (symmetry; apply Nat.leb_le; lia).
    destruct Hc as [Hc1 Hc2]. cbv zeta. rewrite Hc1, Hd, Hc2. auto with lia.
  - cbn [seq map run fold_left].
    destruct (check_without_insertion_point h w a H Hip Hp) as (H1 & Hd & Hc).
    replace (10 <=? S a) with false in Hc by (symmetry; apply Nat.leb_gt; lia).
    destruct Hc as [Hc1 Hc2].
    set (w1 := step (Run h) w) in *.
    change (fold_left (fun w0 op => step op w0)
              (map Run (seq (S (next_handle w)) r)) (step (Run (next_handle w)) w1))
      with (run (Run (next_handle w) :: map Run (seq (S (next_handle w)) r)) w1).
    rewrite <- Hc2.
    destruct (IH w1 (next_handle w) (S a)) as (Hp' & Hd' & Hn').
    + lia.
    + exact H1.
    + now rewrite Hd.
    + rewrite Hc1. apply lookup_insert_eq.
    + intros k Hk. rewrite Hc1, Hc2 in *.
      rewrite lookup_insert_ne by lia. rewrite lookup_delete_None. right.
      apply Hfresh. lia.
    + cbv zeta. rewrite Hp', Hd', Hn', Hc1, Hc2, Hd.
      split; [|split; [reflexivity|lia]].
      apply delete_fresh_insert. apply Hfresh. lia.
Qed.

(** X15: [waitForPageReady] gives up after ten checks. On a page that
    shows no insertion point, in a run without faults, the check that
    [setupUIIntegration] has scheduled and the nine checks it schedules
    one after the other leave the document as it was and no callback
    behind: no eleventh check is scheduled and nothing is injected. *)
Theorem waitForPageReady_gives_up w h :
  faultless w -> has_insertion_point (document w) = false ->
  pending w !! h = Some (CheckReady 0) ->
  (forall k, next_handle w <= k -> pending w !! k = None) ->
  let w' := run (Run h :: map Run (seq (next_handle w) 9)) w in
  pending w' = delete h (pending w) /\ document w' = document w /\
  next_handle w' = next_handle w + 9.
Proof. intros H Hip Hp Hfresh. now apply (checks_run_out 9 w h 0). Qed.

Lemma waitForPageReady_gives_up_witness :
  pending (run (Run 1 :: map Run (seq (next_handle Cases.waiting) 9)) Cases.waiting)
    = delete 1 (pending Cases.waiting) /\
  document (run (Run 1 :: map Run (seq (next_handle Cases.waiting) 9)) Cases.waiting)
    = document Cases.waiting /\
  next_handle (run (Run 1 :: map Run (seq (next_handle Cases.waiting) 9)) Cases.waiting)
    = next_handle Cases.waiting + 9.
Proof.
  apply waitForPageReady_gives_up.
  - intros n. reflexivity.
  - reflexivity.
  - reflexivity.
  - intros k Hk. vm_compute in Hk. apply lookup_insert_None. split; [reflexivity|vm_compute; lia].
Defined.

(** One attempt of [injectMCPPopoverWithRetry] on a page without
    container and without insertion point. *)
Lemma attempt_without_insertion_point w a maxRetries :
  faultless w -> containers w = 0 -> has_insertion_point (document w) = false ->
  let w' := exec (attemptInjection a maxRetries) w in
  faultless w' /\ document w' = document w /\
  (if a <? maxRetries
   then pending w' = <[next_handle w := AttemptInjection (S a) maxRetries]> (pending w) /\
        next_handle w' = S (next_handle w)
   else pending w' = pending w /\ next_handle w' = next_handle w).
Proof.
  intros H Hc Hip. unfold exec, attemptInjection.
  rewrite byId_then, (H (calls w)).
  apply getElementById_None in Hc. rewrite Hc. cbn [fmap option_fmap option_map].
  assert (H1 : faultless (upd_calls S w)) by (intros k; apply H).
  destruct (findButtonInsertionPoint_none _ H1 Hip) as (n & Hn).
  rewrite run_bind, Hn.
  destruct (a <? maxRetries).
  - unfold setTimer. cbn [snd]. split; [intros k; apply H|].
    split; [reflexivity|]. now split.
  - cbn [ret snd]. split; [intros k; apply H|]. split; [reflexivity|]. now split.
Qed.

(** X16: the retries of [injectMCPPopoverWithRetry] are bounded by
    [maxRetries]. On a page without container and without insertion
    point, in a run without faults, the pending attempt number [a] and
    the attempts it schedules one after the other, [maxRetries - a] of
    them, leave the document as it was and no callback behind. *)
Theorem injection_retries_are_bounded r :
  forall w h a maxRetries,
    a + r = maxRetries ->
    faultless w -> containers w = 0 ->
    has_insertion_point (document w) = false ->
    pending w !! h = Some (AttemptInjection a maxRetries) ->
    (forall k, next_handle w <= k -> pending w !! k = None) ->
    let w' := run (Run h :: map Run (seq (next_handle w) r)) w in
    pending w' = delete h (pending w) /\ document w' = document w /\
    next_handle w' = next_handle w + r.
Proof.
  induction r as [|r IH]; intros w h a maxRetries Ha H Hc Hip Hp Hfresh.
  - cbn [seq map run fold_left step]. unfold exec at 1 2 3.
    rewrite (run_task_timeout h w _ Hp eq_refl).
    set (w0 := upd_pending _ w).
    destruct (attempt_without_insertion_point w0 a maxRetries)
      as (H1 & Hd & Hs); [intros k; apply H|exact Hc|exact Hip|].
    replace (a <? maxRetries) with false in Hs by (symmetry; apply Nat.ltb_ge; lia).
    destruct Hs as [Hs1 Hs2]. unfold exec in *. cbv zeta.
    rewrite Hs1, Hd, Hs2. auto with lia.
  - cbn [seq map run fold_left].
    set (w1 := step (Run h) w).
    assert (Hw1 : faultless w1 /\ document w1 = document w /\
                  pending w1 = <[next_handle w := AttemptInjection (S a) maxRetries]>
                                 (delete h (pending w)) /\
                  next_handle w1 = S (next_handle w)).
    { subst w1. cbn [step]. unfold exec.
      rewrite (run_task_timeout h w _ Hp eq_refl).
      set (w0 := upd_pending _ w).
      destruct (attempt_without_insertion_point w0 a maxRetries)
        as (H1 & Hd & Hs); [intros k; apply H|exact Hc|exact Hip|].
      replace (a <? maxRetries) with true in Hs by (symmetry; apply Nat.ltb_lt; lia).
      destruct Hs as [Hs1 Hs2]. unfold exec in *. auto. }
    destruct Hw1 as (H1 & Hd & Hc1 & Hc2).
    change (fold_left (fun w0 op => step op w0)
              (map Run (seq (S (next_handle w)) r)) (step (Run (next_handle w)) w1))
      with (run (Run (next_handle w) :: map Run (seq (S (next_handle w)) r)) w1).
    rewrite <- Hc2.
    destruct (IH w1 (next_handle w) (S a) maxRetries) as (Hp' & Hd' & Hn').
    + lia.
    + exact H1.
    + unfold containers in *. now rewrite Hd.
    + now rewrite Hd.
    + rewrite Hc1. apply lookup_insert_eq.
    + intros k Hk. rewrite Hc1, Hc2 in *.
      rewrite lookup_insert_ne by lia. rewrite lookup_delete_None. right.
      apply Hfresh. lia.
    + cbv zeta. rewrite Hp', Hd', Hn', Hc1, Hc2, Hd.
      split; [|split; [reflexivity|lia]].
      apply delete_fresh_insert. apply Hfresh. lia.
Qed.

Lemma injection_retries_are_bounded_witness :
  pending (run (Run 1 :: map Run (seq (next_handle Cases.retrying) 3)) Cases.retrying)
    = delete 1 (pending Cases.retrying) /\
  document (run (Run 1 :: map Run (seq (next_handle Cases.retrying) 3)) Cases.retrying)
    = document Cases.retrying /\
  next_handle (run (Run 1 :: map Run (seq (next_handle Cases.retrying) 3)) Cases.retrying)
    = next_handle Cases.retrying + 3.
Proof.
  apply (injection_retries_are_bounded 3 Cases.retrying 1 2 5).
  - reflexivity.
  - intros n. vm_compute. reflexivity.
  - vm_compute. reflexivity.
  - vm_compute. reflexivity.
  - vm_compute. reflexivity.
  - intros k Hk. vm_compute in Hk.
    assert (Hpen : pending Cases.retrying = <[1 := AttemptInjection 2 5]> ∅)
      by (vm_compute; reflexivity).
    rewrite Hpen. apply lookup_insert_None. split; [reflexivity|lia].
Defined.

End Retries.

Section Remount.
Import Dom Selector Effects DomApi ClaudeAdapter ChatInputHandler Lifecycle.
Import Notions Invariants Observations.

Lemma lookup_buttons_in c :
  lookup (buttons_in c)
    (fun f => map e_path (querySelectorAll_in c tag_button f)).
Proof. now apply lookup_get. Qed.

Lemma lookup_fallback_insertion sels : exists g, lookup (fallback_insertion sels) g.
Proof.
  induction sels as [|sel rest [g IH]]; cbn [fallback_insertion].
  - eexists. apply lookup_ret.
  - exists (fun f =>
      match e_path <$> querySelector sel f with
      | Some c =>
          Some (c, List.last (map Some (map e_path (querySelectorAll_in c tag_button f)))
                     None)
      | None => g f
      end).
    intros w H. rewrite run_bind, query_faultless by assumption.
    cbn [document after_calls upd_calls].
    destruct (e_path <$> querySelector sel (document w)) as [c|].
    + rewrite run_bind, buttons_in_faultless by now apply faultless_after_calls.
      eexists. reflexivity.
    + destruct (IH (after_calls (S (calls w)) w)) as (n & Hn);
        [now apply faultless_after_calls|].
      exists n. exact Hn.
Qed.

(** In a run without faults the insertion point that
    [findButtonInsertionPoint] returns depends on the document only. *)
Lemma lookup_findButtonInsertionPoint : exists g, lookup findButtonInsertionPoint g.
Proof.
  destruct (lookup_fallback_insertion fallbackSelectors) as [g Hg].
  exists (fun f =>
    match e_path <$> querySelector tag_fieldset f with
    | Some c => Some (c, head (map e_path (querySelectorAll_in c tag_button f)))
    | None =>
        match e_path <$> querySelector composer_controls f with
        | Some c => Some (c, head (map e_path (querySelectorAll_in c tag_button f)))
        | None => g f
        end
    end).
  intros w H. unfold findButtonInsertionPoint, after_first_button.
  rewrite run_bind, query_faultless by assumption.
  destruct (e_path <$> querySelector tag_fieldset (document w)) as [c|].
  { rewrite run_bind, buttons_in_faultless by now apply faultless_after_calls.
    eexists. reflexivity. }
  rewrite run_bind, query_faultless by now apply faultless_after_calls.
  cbn [document after_calls upd_calls].
  destruct (e_path <$> querySelector composer_controls (document w)) as [c|].
  { rewrite run_bind, buttons_in_faultless by now repeat apply faultless_after_calls.
    eexists. reflexivity. }
  destruct (Hg (after_calls (S (calls (after_calls (S (calls w)) w)))
                  (after_calls (S (calls w)) w))) as (n & Hn);
    [now repeat apply faultless_after_calls|].
  exists n. exact Hn.
Qed.

(** X17: the mutation observer brings the control back. When the host
    page has rendered its tree anew, so that the container is gone, and
    the observer set up by [activate] reports the change on a page with
    an insertion point, the callback of the observer schedules a check,
    and when that timeout fires the container is mounted again (in a run
    without faults). *)
Theorem observer_remounts w :
  faultless w -> containers w = 0 ->
  has_insertion_point (document w) = true ->
  mutationObserver (adapter w) = Some true ->
  containers (run [Observed; Run (next_handle w)] w) = 1.
Proof.
  intros H Hc Hip Hobs. cbn [run fold_left].
  assert (Hs : step Observed w = exec observerCallback w)
    by (cbn [step]; now rewrite Hobs).
  rewrite Hs. clear Hs. unfold exec, observerCallback.
  rewrite byId_then, (H (calls w)).
  pose proof Hc as Hnone. apply getElementById_None in Hnone. rewrite Hnone.
  cbn [fmap option_fmap option_map].
  assert (H1 : faultless (upd_calls S w)) by (intros k; apply H).
  destruct lookup_findButtonInsertionPoint as [g Hg].
  destruct (Hg _ H1) as (n & Hn).
  destruct (findButtonInsertionPoint_finds _ H1 Hip) as (ip & w' & Hfind & _ & _).
  rewrite Hn in Hfind. injection Hfind as Hres _.
  change (document (upd_calls S w)) with (document w) in Hn.
  rewrite Hres in Hn. rewrite run_bind, Hn.
  unfold setupUIIntegration, set. rewrite run_bind_modify.
  rewrite run_bind. unfold setTimer. cbv beta iota zeta. cbn [ret snd].
  cbn [next_handle upd_adapter after_calls upd_calls].
  set (w2 := upd_next_handle S _).
  cbn [step].
  assert (Hp : pending w2 !! next_handle w = Some (CheckReady 0)).
  { subst w2. cbn [pending upd_next_handle upd_pending]. apply lookup_insert_eq. }
  unfold exec. rewrite (run_task_timeout _ w2 _ Hp eq_refl).
  apply (checkReady_mounts 0 (upd_pending (fun m => delete (next_handle w) m) w2)).
  - split; [intros k; apply H|exact Hc].
  - exact Hip.
Qed.

Lemma observer_remounts_witness :
  containers
    (run [Observed; Run (next_handle Cases.rerendered)] Cases.rerendered) = 1.
Proof.
  apply observer_remounts.
  - intros n. reflexivity.
  - reflexivity.
  - reflexivity.
  - reflexivity.
Defined.

End Remount.

(** ** The URL poll *)

(** Decompose a goal [keeps proj m], also through calls that return a
    value. *)
Ltac keep_all :=
  repeat first
    [ apply keeps_ret | apply keeps_read | apply keeps_throw
    | apply keeps_get; reflexivity
    | apply keeps_do; reflexivity
    | apply keeps_call; reflexivity
    | apply keeps_modify; reflexivity
    | apply keeps_setTimer; reflexivity
    | apply keeps_bind; [|intros ?]
    | apply keeps_try_catch; [|intros ?]
    | match goal with
      | |- keeps _ (match ?x with _ => _ end) => destruct x
      | |- keeps _ (if ?x then _ else _) => destruct x
      end ].

Section UrlPoll.
Import Dom Selector Effects DomApi ClaudeAdapter ChatInputHandler Lifecycle.
Import Notions Invariants Observations.

Variable J : World -> Prop.
Hypothesis J_clock : forall w w', clock w' = clock w -> J w -> J w'.
Hypothesis J_setTimer : forall t, t <> UrlCheck -> maintains J (setTimer t).
Hypothesis J_clearTimer : forall h, maintains J (clearTimer h).
Hypothesis J_setupUrlTracking : maintains J setupUrlTracking.
Hypothesis J_cleanup_head :
  maintains J
    (u ← get urlCheckInterval;
     clear_handle u (set (with_urlCheckInterval (fun _ => None)))).
Hypothesis J_retick :
  forall h promise ci e e' maxWaitTime w,
    J w -> pending w !! h = Some (SubmitPoll promise ci e maxWaitTime) ->
    J (upd_pending (fun m => <[h := SubmitPoll promise ci e' maxWaitTime]> m) w).

Lemma timed_keeps {A} (m : M A) : keeps clock m -> maintains J m.
Proof. intros Hk. exact (hoare_keeps clock m J Hk J_clock). Qed.

Lemma keeps_clock_fallback_insertion sels : keeps clock (fallback_insertion sels).
Proof.
  induction sels as [|sel rest IH]; cbn [fallback_insertion]; [keep|].
  unfold query, buttons_in. apply keeps_bind; [keep|]. intros [c|]; [keep|exact IH].
Qed.

Lemma keeps_clock_findSubmitButton ci : keeps clock (findSubmitButton ci).
Proof.
  unfold findSubmitButton, or_else, and_then, query, closest_of, query_in. keep.
Qed.

Ltac timed :=
  repeat first
    [ assumption
    | apply timed_keeps; solve [apply keeps_clock_fallback_insertion | keep_all]
    | apply J_setTimer; discriminate
    | apply J_clearTimer
    | apply maintains_bind; [|intros ?]
    | apply maintains_try_catch; [|intros ?]
    | match goal with
      | |- maintains _ (match ?x with _ => _ end) => destruct x
      | |- maintains _ (if ?x then _ else _) => destruct x
      end ].

Lemma timed_findButtonInsertionPoint : maintains J findButtonInsertionPoint.
Proof.
  unfold findButtonInsertionPoint, after_first_button, buttons_in, query. timed.
Qed.

Lemma timed_injectMCPPopover ip : maintains J (injectMCPPopover ip).
Proof.
  destruct ip as [container after].
  unfold injectMCPPopover, renderMCPPopover, byId, createElement, insertAfter,
    appendChild, set.
  timed.
Qed.

Lemma timed_attemptInjection a maxRetries : maintains J (attemptInjection a maxRetries).
Proof.
  unfold attemptInjection.
  apply maintains_bind; [unfold byId; timed|]. intros [p|]; [timed|].
  apply maintains_bind; [apply timed_findButtonInsertionPoint|]. intros [ip|].
  - apply timed_injectMCPPopover.
  - timed.
Qed.

Lemma timed_injectClaudeButtonStyles : maintains J injectClaudeButtonStyles.
Proof.
  unfold injectClaudeButtonStyles, byId, remove, appendChild, createElement, get, set.
  timed.
Qed.

Lemma timed_setupUIIntegration : maintains J setupUIIntegration.
Proof. unfold setupUIIntegration, set. timed. Qed.

Lemma timed_checkReady a : maintains J (checkReady a).
Proof.
  unfold checkReady, injectMCPPopoverWithRetry.
  apply maintains_bind; [apply timed_findButtonInsertionPoint|]. intros [ip|].
  - apply maintains_try_catch; [apply timed_attemptInjection|]. intros msg. timed.
  - timed.
Qed.

Lemma timed_checkAndRestoreSidebar : maintains J checkAndRestoreSidebar.
Proof.
  unfold checkAndRestoreSidebar, ensureMCPPopoverConnection, isMCPPopoverInjected,
    injectMCPPopoverWithRetry, byId.
  apply maintains_try_catch; [|intros msg; timed].
  apply maintains_bind; [timed|]. intros [|]; cbn [negb]; [|timed].
  apply maintains_try_catch; [|intros msg; timed].
  apply maintains_bind; [timed|]. intros [|]; cbn [negb]; [timed|].
  apply timed_attemptInjection.
Qed.

Lemma timed_onPageChanged url : maintains J (onPageChanged url).
Proof.
  unfold onPageChanged, set, emit.
  apply maintains_bind; [timed|]. intros _.
  apply maintains_bind; [timed|]. intros [|].
  - apply maintains_bind; [|intros _; timed].
    apply maintains_bind; [apply timed_injectClaudeButtonStyles|]. intros _. timed.
  - timed.
Qed.

Lemma timed_urlCheck : maintains J urlCheck.
Proof.
  unfold urlCheck, get, set.
  apply maintains_bind; [timed|]. intros url.
  apply maintains_bind; [timed|]. intros last.
  destruct (String.eqb url last); [timed|].
  apply maintains_bind; [apply timed_onPageChanged|]. intros _. timed.
Qed.

Lemma timed_renderImported u : maintains J (renderImported u).
Proof. unfold renderImported, unmount_root, react_call, get, set. timed. Qed.

Lemma timed_cleanupUIIntegration : maintains J cleanupUIIntegration.
Proof. unfold cleanupUIIntegration, unmount_root, react_call, byId, remove, get, set. timed. Qed.

Lemma timed_poll_tick h promise ci e maxWaitTime w :
  J w -> pending w !! h = Some (SubmitPoll promise ci e maxWaitTime) ->
  J (exec (poll_tick h promise ci e maxWaitTime) w).
Proof.
  intros Hw Hp. unfold exec, poll_tick. rewrite run_bind_modify.
  pose proof (J_retick h promise ci e (e + checkInterval)%Z maxWaitTime w Hw Hp) as H1.
  set (w1 := upd_pending _ w) in *.
  assert (Hm : maintains J
            (tryClickingButton promise ci ;;
             (if (maxWaitTime <=? e + checkInterval)%Z
              then clearTimer h ;; alternative_methods promise ci
              else ret tt))).
  { unfold tryClickingButton, alternative_methods, click, dispatchEvent, focus,
      construct, closest_of, resolve.
    apply maintains_bind.
    - apply maintains_bind; [apply timed_keeps, keeps_clock_findSubmitButton|].
      intros [p|]; timed.
    - intros _. timed. }
  specialize (Hm w1 H1).
  destruct ((tryClickingButton promise ci ;; _) w1) as [[a|msg] w2]; exact Hm.
Qed.

Lemma timed_run_task h w : J w -> J (exec (run_task h) w).
Proof.
  intros Hw. unfold exec, run_task. rewrite run_bind_read. change (id w) with w.
  cbv beta. destruct (pending w !! h) as [t|] eqn:Hp; [|exact Hw].
  destruct t; cbn [is_interval].
  - rewrite run_bind_ret. now apply timed_poll_tick.
  - rewrite run_bind_ret. apply (maintains_exec J urlCheck w timed_urlCheck Hw).
  - apply (maintains_exec J (clearTimer h ;; checkReady attempts) w); [|exact Hw].
    apply maintains_bind; [apply J_clearTimer|]. intros _. apply timed_checkReady.
  - apply (maintains_exec J (clearTimer h ;; attemptInjection attempt maxRetries) w);
      [|exact Hw].
    apply maintains_bind; [apply J_clearTimer|]. intros _. apply timed_attemptInjection.
  - apply (maintains_exec J (clearTimer h ;; setupUIIntegration) w); [|exact Hw].
    apply maintains_bind; [apply J_clearTimer|]. intros _.
    apply timed_setupUIIntegration.
  - apply (maintains_exec J (clearTimer h ;; checkAndRestoreSidebar) w); [|exact Hw].
    apply maintains_bind; [apply J_clearTimer|]. intros _.
    apply timed_checkAndRestoreSidebar.
  - apply (maintains_exec J (clearTimer h ;; renderImported container) w); [|exact Hw].
    apply maintains_bind; [apply J_clearTimer|]. intros _. apply timed_renderImported.
Qed.

Lemma timed_initialize : maintains J initialize.
Proof.
  unfold initialize, super_initialize, setupStoreEventListeners, get, set.
  apply maintains_bind; [timed|]. intros s.
  destruct s; timed.
Qed.

Lemma timed_activate : maintains J activate.
Proof.
  unfold activate, super_activate, setupDOMObservers, construct, emit, get, set.
  apply maintains_bind; [timed|]. intros s.
  assert (Hbody : maintains J
            (modify (upd_adapter (with_currentStatus (fun _ => Active))) ;;
             injectClaudeButtonStyles ;;
             (done ← read (fun w => domObserversSetup (adapter w));
              if (done : bool) then ret tt
              else
                dom_do id ;;
                modify (upd_adapter (with_mutationObserver (fun _ => Some false))) ;;
                w ← read id;
                match body_path (document w) with
                | Some _ => dom_do id
                | None => throw "TypeError: document.body is null"
                end ;;
                modify (upd_adapter (with_mutationObserver (fun _ => Some true))) ;;
                modify (upd_adapter (with_domObserversSetup (fun _ => true)))) ;;
             setupUIIntegration ;;
             modify (upd_bus (fun l => l ++ [AdapterActivated name])))).
  { apply maintains_bind; [timed|]. intros _.
    apply maintains_bind; [apply timed_injectClaudeButtonStyles|]. intros _.
    apply maintains_bind; [timed|]. intros _.
    apply maintains_bind; [apply timed_setupUIIntegration|]. intros _. timed. }
  destruct s; solve [exact Hbody | timed].
Qed.

Lemma timed_deactivate : maintains J deactivate.
Proof.
  unfold deactivate, super_deactivate, cleanupDOMObservers, reset_setup_flags,
    emit, get, set.
  apply maintains_bind; [timed|]. intros s.
  assert (Hbody : maintains J
            (modify (upd_adapter (with_currentStatus (fun _ => Inactive))) ;;
             cleanupUIIntegration ;;
             (o ← read (fun w => mutationObserver (adapter w));
              match o with
              | Some _ =>
                  dom_do id ;;
                  modify (upd_adapter (with_mutationObserver (fun _ => None)))
              | None => ret tt
              end) ;;
             (modify (upd_adapter (with_storeEventListenersSetup (fun _ => false))) ;;
              modify (upd_adapter (with_domObserversSetup (fun _ => false))) ;;
              modify (upd_adapter (with_uiIntegrationSetup (fun _ => false)))) ;;
             modify (upd_bus (fun l => l ++ [AdapterDeactivated name])))).
  { apply maintains_bind; [timed|]. intros _.
    apply maintains_bind; [apply timed_cleanupUIIntegration|]. intros _. timed. }
  destruct s; solve [exact Hbody | timed].
Qed.

Lemma timed_cleanup_tail :
  maintains J
    (c ← get popoverCheckInterval;
     clear_handle c (set (with_popoverCheckInterval (fun _ => None))) ;;
     cleanupUIIntegration ;;
     cleanupDOMObservers ;;
     removeStyleElement ;;
     reset_setup_flags ;;
     set (with_claudeStylesInjected (fun _ => false))).
Proof.
  unfold clear_handle, cleanupDOMObservers, removeStyleElement, reset_setup_flags,
    byId, remove, get, set.
  apply maintains_bind; [timed|]. intros c.
  apply maintains_bind; [timed|]. intros _.
  apply maintains_bind; [apply timed_cleanupUIIntegration|]. intros _. timed.
Qed.

Lemma timed_cleanup : maintains J cleanup.
Proof.
  unfold cleanup, super_cleanup.
  apply maintains_bind; [unfold set; timed|]. intros _.
  change (maintains J
            ((u ← get urlCheckInterval;
              clear_handle u (set (with_urlCheckInterval (fun _ => None)))) ≫=
             (fun _ =>
                c ← get popoverCheckInterval;
                clear_handle c (set (with_popoverCheckInterval (fun _ => None))) ;;
                cleanupUIIntegration ;;
                cleanupDOMObservers ;;
                removeStyleElement ;;
                reset_setup_flags ;;
                set (with_claudeStylesInjected (fun _ => false))))).
  apply maintains_bind; [exact J_cleanup_head|]. intros _. apply timed_cleanup_tail.
Qed.

Lemma timed_observerCallback : maintains J observerCallback.
Proof.
  unfold observerCallback.
  apply maintains_bind; [unfold byId; timed|]. intros [p|]; [timed|].
  apply maintains_bind; [apply timed_findButtonInsertionPoint|]. intros [ip|].
  - apply timed_setupUIIntegration.
  - timed.
Qed.

Lemma timed_onHostChanged : maintains J onHostChanged.
Proof.
  unfold onHostChanged, emit.
  apply maintains_bind; [timed|]. intros [|]; cbn [negb].
  - apply timed_setupUIIntegration.
  - timed.
Qed.

(** Every operation, of the adapter, of the event loop or of the host
    page, maintains the invariant. *)
Lemma timed_step op w : J w -> J (step op w).
Proof.
  intros Hw. destruct op; cbn [step].
  - apply maintains_exec; [apply timed_initialize|exact Hw].
  - apply maintains_exec; [apply timed_activate|exact Hw].
  - apply maintains_exec; [apply timed_deactivate|exact Hw].
  - apply maintains_exec; [apply timed_cleanup|exact Hw].
  - apply maintains_exec; [apply timed_onHostChanged|exact Hw].
  - apply maintains_exec; [apply timed_onPageChanged|exact Hw].
  - apply maintains_exec; [apply timed_attemptInjection|exact Hw].
  - now apply timed_run_task.
  - destruct (mutationObserver (adapter w)) as [[|]|]; try exact Hw.
    apply maintains_exec; [apply timed_observerCallback|exact Hw].
  - now apply (J_clock w).
  - now apply (J_clock w).
Qed.

Lemma timed_run ops w : J w -> J (run ops w).
Proof.
  revert w. induction ops as [|op ops IH]; intros w Hw; [exact Hw|].
  cbn [run fold_left]. apply IH. now apply timed_step.
Qed.

End UrlPoll.

Section UrlPollHeld.
Import Dom Selector Effects DomApi ClaudeAdapter ChatInputHandler Lifecycle.
Import Notions Invariants Observations.

Lemma held_clock w w' : clock w' = clock w -> url_poll_held w -> url_poll_held w'.
Proof.
  unfold clock, url_poll_held. intros [= Hp Hn Hu] [H1 H2].
  rewrite Hp, Hn, Hu. auto.
Qed.

Lemma held_setTimer t : t <> UrlCheck -> maintains url_poll_held (setTimer t).
Proof.
  intros Ht w [H1 H2]. unfold setTimer. split.
  - intros h. cbn [pending upd_next_handle upd_pending adapter].
    destruct (decide (h = next_handle w)) as [->|Hne].
    + rewrite lookup_insert_eq. intros [= ->]. contradiction.
    + rewrite lookup_insert_ne by congruence. apply H1.
  - intros h. cbn [pending next_handle upd_next_handle upd_pending]. intros Hle.
    rewrite lookup_insert_ne by lia. apply H2. lia.
Qed.

Lemma held_clearTimer h : maintains url_poll_held (clearTimer h).
Proof.
  intros w [H1 H2]. unfold clearTimer, modify. split.
  - intros k. cbn [pending upd_pending adapter].
    rewrite lookup_delete_Some. intros [_ Hk]. now apply H1.
  - intros k. cbn [pending next_handle upd_pending]. intros Hle.
    rewrite lookup_delete_None. right. now apply H2.
Qed.

Lemma held_setupUrlTracking : maintains url_poll_held setupUrlTracking.
Proof.
  intros w [H1 H2]. unfold setupUrlTracking, get, set, setTimer.
  rewrite run_bind_read.
  destruct (urlCheckInterval (adapter w)) as [i|] eqn:Hu.
  { cbn [ret]. split; [|exact H2]. intros h Hp. rewrite Hu. now apply H1. }
  rewrite run_bind. cbv beta iota zeta. unfold modify.
  split; intros h;
    cbn [pending next_handle adapter upd_adapter upd_next_handle upd_pending
         urlCheckInterval with_urlCheckInterval].
  - destruct (decide (h = next_handle w)) as [->|Hne]; [reflexivity|].
    rewrite lookup_insert_ne by congruence. intros Hp.
    apply H1 in Hp. discriminate.
  - intros Hle. rewrite lookup_insert_ne by lia. apply H2. lia.
Qed.

Lemma released_url_poll :
  hoare url_poll_held
    (u ← get urlCheckInterval;
     clear_handle u (set (with_urlCheckInterval (fun _ => None))))
    (fun _ w => no_url_poll w /\ urlCheckInterval (adapter w) = None)
    (fun w => no_url_poll w /\ urlCheckInterval (adapter w) = None).
Proof.
  intros w [H1 H2]. unfold get, set, clear_handle, clearTimer.
  rewrite run_bind_read.
  destruct (urlCheckInterval (adapter w)) as [i|] eqn:Hu.
  - rewrite run_bind_modify. unfold modify.
    assert (Hnone : forall h, delete i (pending w) !! h <> Some UrlCheck).
    { intros h. rewrite lookup_delete_Some. intros [Hne Hp].
      apply H1 in Hp. congruence. }
    split; [split; [split|]|reflexivity]; intros h;
      cbn [pending next_handle adapter upd_adapter upd_pending
           urlCheckInterval with_urlCheckInterval].
    + intros Hp. now destruct (Hnone h).
    + intros Hle. rewrite lookup_delete_None. right. now apply H2.
    + apply Hnone.
  - assert (Hnone : forall h, pending w !! h <> Some UrlCheck).
    { intros h Hp. apply H1 in Hp. discriminate. }
    cbn [ret]. split; [|exact Hu]. split; [split; [|exact H2]|exact Hnone].
    intros h Hp. now destruct (Hnone h).
Qed.

Lemma held_cleanup_head :
  maintains url_poll_held
    (u ← get urlCheckInterval;
     clear_handle u (set (with_urlCheckInterval (fun _ => None)))).
Proof.
  apply (hoare_weaken _ _ _ _ _ _ _ released_url_poll); [auto| |];
    now intros; match goal with H : _ /\ _ |- _ => destruct H as [[? _] _] end.
Qed.

Lemma held_retick h promise ci e e' maxWaitTime w :
  url_poll_held w -> pending w !! h = Some (SubmitPoll promise ci e maxWaitTime) ->
  url_poll_held
    (upd_pending (fun m => <[h := SubmitPoll promise ci e' maxWaitTime]> m) w).
Proof.
  intros [H1 H2] Hp. split.
  - intros k. cbn [pending upd_pending adapter].
    destruct (decide (k = h)) as [->|Hne].
    + rewrite lookup_insert_eq. discriminate.
    + rewrite lookup_insert_ne by congruence. apply H1.
  - intros k. cbn [pending next_handle upd_pending]. intros Hle.
    destruct (decide (k = h)) as [->|Hne].
    + rewrite (H2 h Hle) in Hp. discriminate.
    + rewrite lookup_insert_ne by congruence. now apply H2.
Qed.

Lemma held_created f l o : url_poll_held (created f l o).
Proof.
  split; intros h; unfold created; cbn [initial pending upd_fault_at];
    now rewrite lookup_empty.
Qed.

(** X18: there is never a second URL poll. For an adapter created on
    any page, after any sequence of operations of the adapter, of the
    event loop and of the host page, and whatever DOM calls raise (the
    oracle [o] is any), a pending callback of the URL poll is the one
    whose handle the adapter holds in [urlCheckInterval]; so at most one
    is pending, and it is one that [cleanup] can cancel. *)
Theorem url_poll_is_the_one_held f l o ops h :
  pending (run ops (created f l o)) !! h = Some UrlCheck ->
  urlCheckInterval (adapter (run ops (created f l o))) = Some h.
Proof.
  apply (timed_run url_poll_held held_clock held_setTimer held_clearTimer
           held_setupUrlTracking held_cleanup_head held_retick ops (created f l o)
           (held_created f l o)).
Qed.

(** On the composer page, in a run in which every call of a DOM API
    raises, the adapter is initialised, activated and initialised again:
    the one URL poll is the one held. *)
Lemma url_poll_is_the_one_held_witness :
  urlCheckInterval
    (adapter (run [CallInitialize; CallActivate; CallInitialize] Cases.hostile))
  = Some 1.
Proof.
  apply (url_poll_is_the_one_held Scenario.composer_page_enabled
           Scenario.claude_new (fun _ => Some "NotAllowedError")).
  vm_compute. reflexivity.
Defined.

Lemma nup_clock w w' : clock w' = clock w -> no_url_poll w -> no_url_poll w'.
Proof.
  intros Hc [Hh Hn]. split; [exact (held_clock w w' Hc Hh)|].
  injection Hc as -> _ _. exact Hn.
Qed.

Lemma nup_clearTimer h : maintains no_url_poll (clearTimer h).
Proof.
  intros w [Hh Hn]. split; [exact (held_clearTimer h w Hh)|].
  intros k. cbn [pending upd_pending]. rewrite lookup_delete_Some.
  intros [_ Hk]. now destruct (Hn k).
Qed.

Lemma run_snoc ops op w : run (ops ++ [op]) w = step op (run ops w).
Proof. unfold run. now rewrite fold_left_app. Qed.

(** X19: [cleanup] always stops the URL poll. For an adapter created on
    any page, after any sequence of operations, a call of [cleanup]
    leaves no callback of the URL poll pending and the field
    [urlCheckInterval] null, whatever DOM calls raise before and during
    the clean-up (the oracle [o] is any): the interval is cancelled before
    the first DOM call is made. *)
Theorem cleanup_always_stops_url_poll f l o ops :
  let w := run (ops ++ [CallCleanup]) (created f l o) in
  (forall h, pending w !! h <> Some UrlCheck) /\
  urlCheckInterval (adapter w) = None.
Proof.
  cbv zeta. rewrite run_snoc. cbn [step].
  set (w0 := run ops (created f l o)).
  assert (H0 : url_poll_held w0).
  { apply (timed_run url_poll_held held_clock held_setTimer held_clearTimer
             held_setupUrlTracking held_cleanup_head held_retick), held_created. }
  set (Q := fun w => no_url_poll w /\ urlCheckInterval (adapter w) = None).
  assert (HQ : forall w w', clock w' = clock w -> Q w -> Q w').
  { intros w w' Hc [Hn Hu]. split; [exact (nup_clock w w' Hc Hn)|].
    injection Hc as _ _ ->. exact Hu. }
  assert (Hq : forall h, maintains Q (clearTimer h)).
  { intros h w [Hn Hu]. split; [exact (nup_clearTimer h w Hn)|exact Hu]. }
  assert (Hc : hoare url_poll_held cleanup (fun _ => Q) Q).
  { unfold cleanup, super_cleanup.
    apply hoare_bind with (R := fun _ => url_poll_held).
    { unfold set. apply hoare_modify. intros w. now apply held_clock. }
    intros _.
    change (hoare url_poll_held
              ((u ← get urlCheckInterval;
                clear_handle u (set (with_urlCheckInterval (fun _ => None)))) ≫=
               (fun _ =>
                  c ← get popoverCheckInterval;
                  clear_handle c (set (with_popoverCheckInterval (fun _ => None))) ;;
                  cleanupUIIntegration ;;
                  cleanupDOMObservers ;;
                  removeStyleElement ;;
                  reset_setup_flags ;;
                  set (with_claudeStylesInjected (fun _ => false))))
              (fun _ => Q) Q).
    apply hoare_bind with (R := fun _ => Q).
    - apply released_url_poll.
    - intros _. apply (timed_cleanup_tail Q HQ Hq). }
  specialize (Hc w0 H0). unfold exec.
  destruct (cleanup w0) as [[a|msg] w']; cbn [snd];
    destruct Hc as [[_ Hn] Hu]; auto.
Qed.

End UrlPollHeld.

(** ** [deactivate] and what follows it *)

Section Deactivate.
Import Dom Selector Effects DomApi ClaudeAdapter ChatInputHandler Lifecycle.
Import Notions Invariants Observations.

(** What [deactivate] never touches, however it ends: the timers, the
    handlers on the bus and the flag of the style sheet. *)
Lemma keeps_deactivate :
  keeps (fun w => (clock w, bus_handlers w, claudeStylesInjected (adapter w)))
    deactivate.
Proof.
  unfold deactivate, super_deactivate, cleanupUIIntegration, unmount_root,
    react_call, cleanupDOMObservers, reset_setup_flags, emit, byId, remove, get, set.
  keep_all.
Qed.

Lemma keeps_status_cleanupUIIntegration : keeps status cleanupUIIntegration.
Proof.
  unfold cleanupUIIntegration, unmount_root, react_call, byId, remove, get, set.
  keep_all.
Qed.

(** The end of [deactivate], when it returns. *)
Lemma deactivate_tail w w' :
  (cleanupDOMObservers ;; reset_setup_flags ;; emit (AdapterDeactivated name)) w
    = (Ok tt, w') ->
  status w' = status w /\
  mutationObserver (adapter w') = None /\
  storeEventListenersSetup (adapter w') = false /\
  bus w' = bus w ++ [AdapterDeactivated name].
Proof.
  unfold cleanupDOMObservers, reset_setup_flags, emit, get, set.
  rewrite run_bind_assoc, run_bind_read.
  destruct (mutationObserver (adapter w)) as [o|] eqn:Ho.
  - rewrite run_bind_assoc. unfold dom_do. rewrite run_bind.
    unfold dom_call. destruct (fault_at w (calls w)); [discriminate|].
    repeat mstep. unfold modify. intros [= <-]. auto.
  - repeat mstep. unfold modify. intros [= <-]. auto.
Qed.

Lemma deactivate_returns w w' :
  status w <> Inactive -> status w <> Disabled ->
  deactivate w = (Ok tt, w') ->
  status w' = Inactive /\
  mutationObserver (adapter w') = None /\
  storeEventListenersSetup (adapter w') = false /\
  exists b, bus w' = b ++ [AdapterDeactivated name].
Proof.
  intros Hs1 Hs2. unfold deactivate, get. rewrite run_bind_read.
  unfold status in *.
  assert (Hbody : (super_deactivate ;; cleanupUIIntegration ;; cleanupDOMObservers ;;
                   reset_setup_flags ;; emit (AdapterDeactivated name)) w
                  = (Ok tt, w') ->
                  currentStatus (adapter w') = Inactive /\
                  mutationObserver (adapter w') = None /\
                  storeEventListenersSetup (adapter w') = false /\
                  exists b, bus w' = b ++ [AdapterDeactivated name]).
  { unfold super_deactivate, set. rewrite run_bind_modify.
    set (w1 := upd_adapter _ w). rewrite run_bind.
    destruct (cleanupUIIntegration w1) as [[[]|msg] w2] eqn:H2; [|discriminate].
    pose proof (keeps_status_cleanupUIIntegration w1 _ w2 H2) as Hst.
    intros Ht. apply deactivate_tail in Ht as (Hs & Ho & Hf & Hb).
    unfold status in *. rewrite Hs, Hst. eauto. }
  destruct (currentStatus (adapter w)); try exact Hbody; contradiction.
Qed.

(** X20: in a run without faults, on a page with at most one container,
    [deactivate] on an adapter that is neither inactive nor disabled
    returns with the container removed, the handle null and the mutation
    observer disconnected, and it cancels no timer: the table of pending
    callbacks, and with it the URL poll and its handle, are as before, and
    so is the flag of the injected style sheet. *)
Theorem deactivate_removes_container_keeps_timers w :
  faultless w -> containers w <= 1 ->
  status w <> Inactive -> status w <> Disabled ->
  (deactivate w).1 = Ok tt /\
  containers (exec deactivate w) = 0 /\
  handle (exec deactivate w) = None /\
  mutationObserver (adapter (exec deactivate w)) = None /\
  pending (exec deactivate w) = pending w /\
  urlCheckInterval (adapter (exec deactivate w)) = urlCheckInterval (adapter w) /\
  claudeStylesInjected (adapter (exec deactivate w)) = claudeStylesInjected (adapter w).
Proof.
  intros H Hc Hs1 Hs2.
  set (T := timers w). set (s := style_sheets w).
  assert (Hbody : hoare (tidy T 1 s)
            (super_deactivate ;; cleanupUIIntegration ;; cleanupDOMObservers ;;
             reset_setup_flags ;; emit (AdapterDeactivated name))
            (fun _ => released T 0 s) (fun _ => False)).
  { apply hoare_bind with (R := fun _ => tidy T 1 s).
    { unfold super_deactivate, set.
      becalm frame (tidy_faultless T 1 s) (tidy_frame T 1 s). }
    intros _.
    eapply hoare_bind; [apply tidy_cleanupUIIntegration|]. intros ?; cbv beta.
    eapply hoare_bind; [apply calm_cleanupDOMObservers|]. intros ?; cbv beta.
    unfold reset_setup_flags, emit, set.
    becalm frame (released_faultless T 0 s) (released_frame T 0 s). }
  assert (Hw : tidy T 1 s w) by (unfold tidy; subst T s; auto).
  assert (Hrun : deactivate w =
                   (super_deactivate ;; cleanupUIIntegration ;; cleanupDOMObservers ;;
                    reset_setup_flags ;; emit (AdapterDeactivated name)) w).
  { unfold deactivate, get. rewrite run_bind_read. unfold status in *.
    destruct (currentStatus (adapter w)); try reflexivity; contradiction. }
  specialize (Hbody w Hw). rewrite <- Hrun in Hbody.
  pose proof (keeps_deactivate w) as Hk.
  pose proof (deactivate_returns w) as Hr.
  unfold exec. destruct (deactivate w) as [[[]|msg] w'] eqn:Hd; [|destruct Hbody].
  cbn [fst snd].
  destruct Hbody as [(_ & _ & Hc' & _) Hh].
  destruct (Hr w' Hs1 Hs2 eq_refl) as (_ & Ho & _).
  specialize (Hk _ w' eq_refl). injection Hk as Hp _ Hu _ Hst.
  repeat split; auto. lia.
Qed.

Lemma deactivate_removes_container_keeps_timers_witness :
  (deactivate Scenario.mounted).1 = Ok tt /\
  containers (exec deactivate Scenario.mounted) = 0 /\
  handle (exec deactivate Scenario.mounted) = None /\
  mutationObserver (adapter (exec deactivate Scenario.mounted)) = None /\
  pending (exec deactivate Scenario.mounted) = pending Scenario.mounted /\
  urlCheckInterval (adapter (exec deactivate Scenario.mounted))
    = urlCheckInterval (adapter Scenario.mounted) /\
  claudeStylesInjected (adapter (exec deactivate Scenario.mounted))
    = claudeStylesInjected (adapter Scenario.mounted).
Proof.
  apply deactivate_removes_container_keeps_timers.
  - intros n. vm_compute. reflexivity.
  - vm_compute. lia.
  - vm_compute. discriminate.
  - vm_compute. discriminate.
Defined.

Lemma faultless_by_oracle w w' : fault_at w' = fault_at w -> faultless w -> faultless w'.
Proof. intros Hf H n. rewrite Hf. apply H. Qed.

(** In a run without faults [deactivate] returns. *)
Lemma calm_deactivate : calm faultless deactivate.
Proof.
  unfold deactivate, super_deactivate, cleanupUIIntegration, unmount_root,
    react_call, cleanupDOMObservers, reset_setup_flags, emit, byId, remove, get, set.
  becalm fault_at (fun w (H : faultless w) => H) faultless_by_oracle.
Qed.

Lemma keeps_bus_handlers_setupUrlTracking : keeps bus_handlers setupUrlTracking.
Proof. unfold setupUrlTracking, get, set. keep_all. Qed.

(** [initialize] on an adapter that is inactive and has its flag for the
    listeners reset. *)
Lemma initialize_subscribes w :
  status w = Inactive -> storeEventListenersSetup (adapter w) = false ->
  bus_handlers (exec initialize w) = bus_handlers w + 2.
Proof.
  intros Hs Hf. unfold exec, initialize, get. rewrite run_bind_read.
  unfold status in Hs. rewrite Hs.
  unfold super_initialize, set. rewrite run_bind_modify, run_bind_read, run_bind_modify.
  set (w1 := upd_adapter _ (upd_adapter _ w)).
  rewrite run_bind.
  destruct (setupUrlTracking w1) as [[[]|msg] w2] eqn:H2.
  - pose proof (keeps_bus_handlers_setupUrlTracking w1 _ w2 H2) as Hb.
    assert (Hflag : storeEventListenersSetup (adapter w2) = false).
    { assert (Hk : keeps (fun w => storeEventListenersSetup (adapter w)) setupUrlTracking)
        by (unfold setupUrlTracking, get, set; keep_all).
      rewrite (Hk w1 _ w2 H2). exact Hf. }
    unfold setupStoreEventListeners, get, set. rewrite run_bind_read, Hflag.
    rewrite run_bind_modify. cbn [modify snd bus_handlers upd_adapter upd_bus_handlers].
    rewrite Hb. reflexivity.
  - exfalso. revert H2. unfold setupUrlTracking, get, set, setTimer.
    rewrite run_bind_read. destruct (urlCheckInterval (adapter w1)); discriminate.
Qed.

(** X21: the handlers on the event bus are never taken off. In a run
    without faults, [deactivate] resets the flag
    [storeEventListenersSetup] and leaves the two handlers registered, so
    an [initialize] that follows registers two more: after the two calls
    the bus holds two handlers more than before. *)
Theorem deactivate_then_initialize_subscribes_again w :
  faultless w ->
  status w <> Inactive -> status w <> Disabled ->
  bus_handlers (run [CallDeactivate; CallInitialize] w) = bus_handlers w + 2.
Proof.
  intros H Hs1 Hs2. cbn [run fold_left step].
  pose proof (calm_deactivate (fun _ => False) w H) as Hc.
  pose proof (keeps_deactivate w) as Hk.
  pose proof (deactivate_returns w) as Hr.
  unfold exec at 2. destruct (deactivate w) as [[[]|msg] w'] eqn:Hd; [|destruct Hc].
  cbn [snd].
  destruct (Hr w' Hs1 Hs2 eq_refl) as (Hst & _ & Hf & _).
  specialize (Hk _ w' eq_refl). injection Hk as _ _ _ Hb _.
  rewrite (initialize_subscribes w' Hst Hf). now rewrite Hb.
Qed.

Lemma deactivate_then_initialize_subscribes_again_witness :
  bus_handlers (run [CallDeactivate; CallInitialize] Scenario.mounted)
    = bus_handlers Scenario.mounted + 2.
Proof.
  apply deactivate_then_initialize_subscribes_again.
  - intros n. vm_compute. reflexivity.
  - vm_compute. discriminate.
  - vm_compute. discriminate.
Defined.

End Deactivate.

Section Release.
Import Dom Selector Effects DomApi ClaudeAdapter ChatInputHandler Lifecycle.
Import Notions Invariants Observations.

Lemma unmount_root_returns w :
  exists w', unmount_root w = (Ok tt, w') /\ mcpPopoverRoot (adapter w') = None.
Proof.
  unfold unmount_root, get, set, react_call. rewrite run_bind_read.
  destruct (mcpPopoverRoot (adapter w)) as [u|] eqn:Hr.
  - rewrite run_bind. unfold try_catch, dom_do, dom_call.
    destruct (fault_at w (calls w)); eexists; split; reflexivity.
  - now exists w.
Qed.

(** X22: [cleanupUIIntegration] never raises, and whatever the DOM
    calls in it do, also when both ways of removing the container
    raise, it leaves the injection handle [mcpPopoverContainer] and the
    render root [mcpPopoverRoot] null. *)
Theorem cleanupUIIntegration_always_releases w :
  (cleanupUIIntegration w).1 = Ok tt /\
  handle (exec cleanupUIIntegration w) = None /\
  mcpPopoverRoot (adapter (exec cleanupUIIntegration w)) = None.
Proof.
  assert (Htry : exists w2,
             try_catch
               (unmount_root ;;
                popoverContainer ← byId container_id;
                match popoverContainer with
                | Some p =>
                    try_catch (remove p)
                      (fun _ => try_catch (remove p) (fun _ => ret tt))
                | None => ret tt
                end)
               (fun _ => ret tt) w = (Ok tt, w2) /\
             mcpPopoverRoot (adapter w2) = None).
  { destruct (unmount_root_returns w) as (w1 & H1 & Hroot).
    assert (Hk : keeps (fun w => mcpPopoverRoot (adapter w))
              (popoverContainer ← byId container_id;
               match popoverContainer with
               | Some p =>
                   try_catch (remove p)
                     (fun _ => try_catch (remove p) (fun _ => ret tt))
               | None => ret tt
               end))
      by (unfold byId, remove; keep_all).
    unfold try_catch at 1. rewrite run_bind, H1.
    match goal with |- context [match ?m w1 with _ => _ end] =>
      destruct (m w1) as [[[]|msg] w2] eqn:H2; pose proof (Hk w1 _ w2 H2) as Hr
    end; exists w2; (split; [reflexivity|now rewrite Hr]). }
  destruct Htry as (w2 & Hrun & Hroot).
  unfold exec, cleanupUIIntegration. rewrite run_bind, Hrun.
  cbn [set modify fst snd handle adapter upd_adapter mcpPopoverContainer
       mcpPopoverRoot with_mcpPopoverContainer].
  auto.
Qed.

End Release.

(** ** Where the container goes, and the style sheet *)

Section Placement.
Import Dom Selector Effects DomApi ClaudeAdapter ChatInputHandler Lifecycle.
Import Notions Invariants Observations.

(** The children of the element at [c] after a change of its child
    list. *)
Lemma node_at_modified c g f d kids j :
  elem_at c f = Some (d, kids) ->
  node_at (c ++ [j]) (modify_children c g f) = g kids !! j.
Proof.
  revert f. induction c as [|i c IH]; intros f H; [discriminate|].
  cbn [modify_children app].
  destruct c as [|i' c].
  - rewrite elem_at_here in H.
    destruct (f !! i) as [[d0 k0|]|] eqn:Hi; try discriminate.
    injection H as -> ->.
    assert (Hlt : i < length f) by (eapply lookup_lt_Some; eauto).
    cbn [app]. rewrite node_at_cons, list_lookup_insert_eq by assumption.
    cbn [modify_children]. cbn [node_at]. now destruct (g kids !! j).
  - rewrite elem_at_below in H.
    destruct (f !! i) as [[d0 k0|]|] eqn:Hi; try discriminate.
    assert (Hlt : i < length f) by (eapply lookup_lt_Some; eauto).
    rewrite node_at_cons, list_lookup_insert_eq by assumption.
    cbn [app]. apply (IH k0 H).
Qed.

Lemma dom_do_faultless f w :
  faultless w -> dom_do f w = (Ok tt, f (upd_calls S w)).
Proof. intros H. unfold dom_do, dom_call. now rewrite (H (calls w)). Qed.

Lemma total_renderMCPPopover u : total (renderMCPPopover u).
Proof. unfold renderMCPPopover. apply total_try_catch. intros msg. apply total_ret. Qed.

Lemma keeps_mount_renderMCPPopover u :
  keeps (fun w => (document w, handle w)) (renderMCPPopover u).
Proof. unfold renderMCPPopover. keep_all. Qed.

(** [injectMCPPopover] on a page without container, in a run without
    faults. *)
Lemma injectMCPPopover_inserts c after w :
  faultless w -> containers w = 0 ->
  exists w',
    injectMCPPopover (c, after) w = (Ok tt, w') /\
    handle w' = Some (next_uid w) /\
    document w' =
      match after with
      | Some a =>
          if bool_decide (a <> [] /\ parent_path a = c)
          then insert_after_child c (child_index a) (container_node (next_uid w))
                 (document w)
          else append_child c (container_node (next_uid w)) (document w)
      | None => append_child c (container_node (next_uid w)) (document w)
      end.
Proof.
  intros H Hc. apply getElementById_None in Hc.
  unfold injectMCPPopover, try_catch.
  rewrite byId_then, (H (calls w)), Hc. cbn [fmap option_fmap option_map].
  unfold createElement. rewrite run_bind_call by faultless_tac. cbn [fst snd].
  do 3 rewrite run_bind_do by faultless_tac.
  change (next_uid (upd_calls S (upd_calls S w))) with (next_uid w).
  set (u := next_uid w).
  match goal with |- context [(?m ≫= _) ?w'] => set (w0 := w'); set (ins := m) end.
  match goal with |- context [(?m ≫= _) ?w'] =>
    assert (Hins : exists w1,
               m w0 = (Ok tt, w1) /\ faultless w1 /\ handle w1 = handle w /\
               document w1 =
                 match after with
                 | Some a =>
                     if bool_decide (a <> [] /\ parent_path a = c)
                     then insert_after_child c (child_index a) (container_node u)
                            (document w)
                     else append_child c (container_node u) (document w)
                 | None => append_child c (container_node u) (document w)
                 end)
  end.
  { assert (H0 : faultless w0) by (intros k; apply H).
    subst ins. unfold insertAfter, appendChild.
    destruct after as [a|]; [destruct (bool_decide _)|];
      rewrite (dom_do_faultless _ _ H0); (eexists; split; [reflexivity|]);
      (split; [intros k; apply H|]); split; reflexivity. }
  destruct Hins as (w1 & Hrun & H1 & Hh & Hd).
  rewrite run_bind, Hrun. unfold set. rewrite run_bind_modify.
  set (w2 := upd_adapter _ w1).
  destruct (total_renderMCPPopover u w2) as ([] & w3 & H3).
  pose proof (keeps_mount_renderMCPPopover u w2 _ w3 H3) as Hk.
  injection Hk as Hd3 Hh3.
  exists w3. rewrite H3. split; [reflexivity|]. split.
  - rewrite Hh3. reflexivity.
  - rewrite Hd3. exact Hd.
Qed.

(** X23: where the container is put. On a page without container, in
    a run without faults, [injectMCPPopover] creates one node, keeps it
    in the handle, and inserts it into the container element of the
    insertion point: right after the element [insertAfter] when that
    element is a child of the container element, and as the last child
    otherwise (no [insertAfter], or an element further down). *)
Theorem injectMCPPopover_places_container c w d kids :
  faultless w -> containers w = 0 ->
  elem_at c (document w) = Some (d, kids) ->
  (forall a,
     a <> [] -> parent_path a = c -> child_index a < length kids ->
     let w' := exec (injectMCPPopover (c, Some a)) w in
     node_at (c ++ [S (child_index a)]) (document w')
       = Some (container_node (next_uid w)) /\
     handle w' = Some (next_uid w)) /\
  (forall after,
     match after with
     | Some a => parent_path a <> c
     | None => True
     end ->
     let w' := exec (injectMCPPopover (c, after)) w in
     node_at (c ++ [length kids]) (document w')
       = Some (container_node (next_uid w)) /\
     handle w' = Some (next_uid w)).
Proof.
  intros H Hc He. split.
  - intros a Hne Hp Hlt. cbv zeta. unfold exec.
    destruct (injectMCPPopover_inserts c (Some a) w H Hc) as (w' & Hrun & Hh & Hd).
    rewrite Hrun. cbn [snd]. split; [|exact Hh].
    rewrite Hd, bool_decide_eq_true_2 by now split.
    unfold insert_after_child. rewrite (node_at_modified c _ _ d kids _ He).
    rewrite lookup_app_r by (rewrite length_take; lia).
    rewrite length_take. replace (S (child_index a) - _) with 0 by lia. reflexivity.
  - intros after Hafter. cbv zeta. unfold exec.
    destruct (injectMCPPopover_inserts c after w H Hc) as (w' & Hrun & Hh & Hd).
    rewrite Hrun. cbn [snd]. split; [|exact Hh].
    assert (Hd' : document w' = append_child c (container_node (next_uid w)) (document w)).
    { rewrite Hd. destruct after as [a|]; [|reflexivity].
      rewrite bool_decide_eq_false_2; [reflexivity|]. now intros [_ Hp]. }
    rewrite Hd'. unfold append_child. rewrite (node_at_modified c _ _ d kids _ He).
    rewrite lookup_app_r by lia. now rewrite Nat.sub_diag.
Qed.

Lemma injectMCPPopover_places_container_witness :
  node_at [0; 1; 0; 1]
    (document (exec (injectMCPPopover ([0; 1; 0], Some [0; 1; 0; 0])) Scenario.fresh))
    = Some (container_node (next_uid Scenario.fresh)) /\
  handle (exec (injectMCPPopover ([0; 1; 0], Some [0; 1; 0; 0])) Scenario.fresh)
    = Some (next_uid Scenario.fresh).
Proof.
  destruct (injectMCPPopover_places_container [0; 1; 0] Scenario.fresh
              {| uid := 4; localName := "fieldset"; attrs := []; value := "";
                 files := []; selectionStart := 0; selectionEnd := 0;
                 rect_width := 0; rect_height := 0 |}
              [element 5 "button" [("aria-label", "Attach")] [];
               element 6 "div"
                 [("contenteditable", "true"); ("data-testid", "composer-input")]
                 [Text "  "];
               element 7 "button" [("aria-label", "Send message")] []])
    as [Hafter _].
  - intros n. reflexivity.
  - reflexivity.
  - reflexivity.
  - apply (Hafter [0; 1; 0; 0]).
    + discriminate.
    + reflexivity.
    + vm_compute. lia.
Defined.

End Placement.

Section StyleSheet.
Import Dom Selector Effects DomApi ClaudeAdapter ChatInputHandler Lifecycle.
Import Notions Invariants Observations.

(** X24: the adapter never brings the document to hold two style
    sheets of its id. Whatever the plugin host calls and whichever
    callbacks run, and whatever DOM calls raise, a document that held at
    most one element with the id [mcp-claude-button-styles] still holds
    at most one. *)
Theorem style_sheet_never_duplicated ops w :
  forallb adapter_op ops = true ->
  style_sheets w <= 1 ->
  style_sheets (run ops w) <= 1.
Proof. apply at_most_one_style_run. Qed.

Lemma style_sheet_never_duplicated_witness :
  style_sheets
    (run [CallInitialize; CallActivate; CallOnPageChanged "https://claude.ai/new";
          CallCleanup; CallActivate]
       Scenario.fresh) <= 1.
Proof.
  apply style_sheet_never_duplicated.
  - reflexivity.
  - vm_compute. lia.
Defined.

(** X27: on a page with a head and without a style sheet of the
    adapter, in a run without faults, [injectClaudeButtonStyles] appends
    one [style] element with the id [mcp-claude-button-styles] to the
    head and sets the flag [claudeStylesInjected]; a second call then
    does nothing. *)
Theorem injectClaudeButtonStyles_injects_once w h :
  faultless w ->
  claudeStylesInjected (adapter w) = false ->
  style_sheets w = 0 ->
  head_path (document w) = Some h ->
  let w' := exec injectClaudeButtonStyles w in
  document w' =
    append_child h
      (element (next_uid w) "style" [("id", style_id)] [Text getClaudeButtonStyles])
      (document w) /\
  style_sheets w' = 1 /\
  claudeStylesInjected (adapter w') = true /\
  injectClaudeButtonStyles w' = (Ok tt, w').
Proof.
  intros H Hflag Hs Hh. cbv zeta.
  assert (Hrun : exists w',
             injectClaudeButtonStyles w = (Ok tt, w') /\
             document w' =
               append_child h
                 (element (next_uid w) "style" [("id", style_id)]
                    [Text getClaudeButtonStyles])
                 (document w) /\
             claudeStylesInjected (adapter w') = true).
  { unfold injectClaudeButtonStyles, get, set, try_catch.
    rewrite run_bind_read, Hflag.
    apply getElementById_None in Hs.
    rewrite byId_then, (H (calls w)), Hs.
    cbn [fmap option_fmap option_map]. rewrite run_bind_ret.
    unfold createElement. rewrite run_bind_call by faultless_tac. cbn [fst snd].
    do 2 rewrite run_bind_do by faultless_tac.
    rewrite run_bind_read.
    cbn [id document upd_calls upd_next_uid]. rewrite Hh.
    unfold appendChild. rewrite run_bind_do by faultless_tac.
    eexists. split; [reflexivity|]. split; reflexivity. }
  destruct Hrun as (w' & Hrun & Hd & Hf).
  unfold exec. rewrite Hrun. cbn [snd]. split; [exact Hd|]. split; [|split].
  - destruct (head_path_elem _ _ Hh) as (d & kids & He & _).
    rewrite style_sheets_tally in *. rewrite Hd.
    rewrite (tally_append_child is_style h _ _ d kids He), Hs. reflexivity.
  - exact Hf.
  - unfold injectClaudeButtonStyles, get. rewrite run_bind_read, Hf. reflexivity.
Qed.

Lemma injectClaudeButtonStyles_injects_once_witness :
  document (exec injectClaudeButtonStyles Scenario.fresh) =
    append_child [0; 0]
      (element (next_uid Scenario.fresh) "style" [("id", style_id)]
         [Text getClaudeButtonStyles])
      (document Scenario.fresh) /\
  style_sheets (exec injectClaudeButtonStyles Scenario.fresh) = 1 /\
  claudeStylesInjected (adapter (exec injectClaudeButtonStyles Scenario.fresh)) = true /\
  injectClaudeButtonStyles (exec injectClaudeButtonStyles Scenario.fresh)
    = (Ok tt, exec injectClaudeButtonStyles Scenario.fresh).
Proof.
  apply injectClaudeButtonStyles_injects_once.
  - intros n. reflexivity.
  - reflexivity.
  - reflexivity.
  - reflexivity.
Defined.

End StyleSheet.

(** ** A change of page *)

Section Navigation.
Import Dom Selector Effects DomApi ClaudeAdapter ChatInputHandler Lifecycle.
Import Notions Invariants Observations.

Lemma still_pending_clock m w w' :
  clock w' = clock w -> still_pending m w -> still_pending m w'.
Proof.
  unfold clock, still_pending. intros [= Hp Hn Hu] [H1 H2]. rewrite Hp, Hn. auto.
Qed.

Lemma still_pending_setTimer m t :
  t <> UrlCheck -> maintains (still_pending m) (setTimer t).
Proof.
  intros _ w [H1 H2]. unfold setTimer. split; intros k t0 Hk;
    cbn [pending next_handle upd_next_handle upd_pending].
  - pose proof (H2 k t0 Hk). rewrite lookup_insert_ne by lia. now apply H1.
  - pose proof (H2 k t0 Hk). lia.
Qed.

(** [checkAndRestoreSidebar] on a page that holds the container, in a
    run without faults. *)
Lemma checkAndRestoreSidebar_present w :
  faultless w -> containers w <> 0 ->
  core (exec checkAndRestoreSidebar w) = core w.
Proof.
  intros H Hc. destruct (present_found w Hc) as [e He].
  unfold exec, checkAndRestoreSidebar, ensureMCPPopoverConnection,
    isMCPPopoverInjected, try_catch.
  rewrite run_bind_read. destruct (activeSidebarManager w); cbn [negb]; [|reflexivity].
  rewrite run_bind_assoc, byId_then, (H (calls w)), He. reflexivity.
Qed.

(** [onPageChanged] on a supported page whose style sheet is in place. *)
Lemma onPageChanged_schedules url w :
  SupportedUrl.isSupported (location w) = true ->
  claudeStylesInjected (adapter w) = true ->
  exists w',
    onPageChanged url w = (Ok tt, w') /\
    core w' = core w /\
    next_handle w' = S (S (next_handle w)) /\
    pending w' =
      <[S (next_handle w) := DelayedCheckAndRestoreSidebar]>
        (<[next_handle w := DelayedSetupUIIntegration]> (pending w)).
Proof.
  intros Hs Hf. unfold onPageChanged, injectClaudeButtonStyles, set, get, emit.
  rewrite run_bind_modify, run_bind_read.
  cbn [location upd_adapter]. rewrite Hs.
  rewrite run_bind_assoc, run_bind_assoc, run_bind_read.
  cbn [adapter upd_adapter claudeStylesInjected with_lastUrl]. rewrite Hf.
  rewrite run_bind_ret. unfold setTimer.
  eexists. split; [reflexivity|]. auto.
Qed.

(** X25: a change of page on a supported URL brings the control back.
    On a page with an insertion point and without container, with the
    style sheet of the adapter in place, in a run without faults:
    after [onPageChanged] and the three callbacks it leads to, run in the
    order of their delays (the set-up after 1000 ms, the check of
    [waitForPageReady] that the set-up schedules, the check of the
    sidebar after 1500 ms), the page holds exactly one container. *)
Theorem page_change_remounts url w :
  faultless w -> containers w = 0 ->
  has_insertion_point (document w) = true ->
  SupportedUrl.isSupported (location w) = true ->
  claudeStylesInjected (adapter w) = true ->
  containers
    (run [CallOnPageChanged url; Run (next_handle w);
          Run (S (S (next_handle w))); Run (S (next_handle w))] w) = 1.
Proof.
  intros H Hc Hip Hs Hf. set (h := next_handle w).
  change (run [CallOnPageChanged url; Run h; Run (S (S h)); Run (S h)] w)
    with (step (Run (S h)) (step (Run (S (S h)))
            (step (Run h) (step (CallOnPageChanged url) w)))).
  destruct (onPageChanged_schedules url w Hs Hf) as (w1 & Hrun & Hcore & Hn1 & Hp1).
  assert (E1 : step (CallOnPageChanged url) w = w1)
    by (cbn [step]; unfold exec; now rewrite Hrun).
  rewrite E1. clear E1. injection Hcore as Hd1 _ Hf1. fold h in Hn1, Hp1.
  (* the set-up *)
  assert (Hp1h : pending w1 !! h = Some DelayedSetupUIIntegration).
  { rewrite Hp1. rewrite lookup_insert_ne by lia. apply lookup_insert_eq. }
  set (w2 := upd_next_handle S
               (upd_pending (fun m => <[S (S h) := CheckReady 0]> m)
                  (upd_adapter (with_uiIntegrationSetup (fun _ => true))
                     (upd_pending (fun m => delete h m) w1)))).
  assert (E2 : step (Run h) w1 = w2).
  { cbn [step]. unfold exec. rewrite (run_task_timeout h w1 _ Hp1h eq_refl).
    unfold setupUIIntegration, set. rewrite run_bind_modify.
    rewrite run_bind. unfold setTimer. cbv beta iota zeta. cbn [ret snd].
    cbn [next_handle upd_adapter upd_pending]. rewrite Hn1. reflexivity. }
  rewrite E2. clear E2.
  (* the check of the page *)
  assert (Hp2 : pending w2 !! S (S h) = Some (CheckReady 0)).
  { subst w2. cbn [pending upd_next_handle upd_pending]. apply lookup_insert_eq. }
  set (w2' := upd_pending (fun m => delete (S (S h)) m) w2).
  assert (E3 : step (Run (S (S h))) w2 = exec (checkReady 0) w2').
  { cbn [step]. unfold exec. now rewrite (run_task_timeout (S (S h)) w2 _ Hp2 eq_refl). }
  rewrite E3. clear E3.
  set (m := {[S h := DelayedCheckAndRestoreSidebar]} : gmap nat Task).
  assert (Hm : still_pending m w2').
  { split; intros k t Hk; apply lookup_singleton_Some in Hk as [<- <-].
    - subst w2' w2.
      cbn [pending upd_next_handle upd_pending upd_adapter].
      rewrite lookup_delete_ne by lia. rewrite lookup_insert_ne by lia.
      rewrite lookup_delete_ne by lia. rewrite Hp1. apply lookup_insert_eq.
    - subst w2' w2. cbn [next_handle upd_next_handle upd_pending upd_adapter]. lia. }
  assert (Hb : bare 0 w2').
  { split.
    - intros k. subst w2' w2.
      cbn [fault_at upd_next_handle upd_pending upd_adapter]. rewrite Hf1. apply H.
    - unfold containers. subst w2' w2.
      cbn [document upd_next_handle upd_pending upd_adapter]. now rewrite Hd1. }
  assert (Hip2 : has_insertion_point (document w2') = true).
  { subst w2' w2. cbn [document upd_next_handle upd_pending upd_adapter].
    now rewrite Hd1. }
  pose proof (checkReady_mounts 0 w2' Hb Hip2) as [H3 Hc3].
  pose proof (maintains_exec (still_pending m) (checkReady 0) w2'
                (timed_checkReady (still_pending m) (still_pending_clock m)
                   (still_pending_setTimer m) 0) Hm) as [Hm3 _].
  set (w3 := exec (checkReady 0) w2') in *.
  (* the check of the sidebar *)
  assert (Hp3 : pending w3 !! S h = Some DelayedCheckAndRestoreSidebar).
  { apply Hm3. apply lookup_singleton_eq. }
  set (w3' := upd_pending (fun m => delete (S h) m) w3).
  assert (E4 : step (Run (S h)) w3 = exec checkAndRestoreSidebar w3').
  { cbn [step]. unfold exec. now rewrite (run_task_timeout (S h) w3 _ Hp3 eq_refl). }
  rewrite E4. clear E4.
  assert (H3' : faultless w3') by (intros k; apply H3).
  assert (Hc3' : containers w3' <> 0).
  { subst w3'. unfold containers in *. cbn [document upd_pending]. rewrite Hc3. lia. }
  pose proof (checkAndRestoreSidebar_present w3' H3' Hc3') as Hcore.
  injection Hcore as Hd4 _ _.
  unfold containers in *. rewrite Hd4. exact Hc3.
Qed.

Lemma page_change_remounts_witness :
  containers
    (run [CallOnPageChanged "https://claude.ai/chat/1";
          Run (next_handle Cases.rerendered);
          Run (S (S (next_handle Cases.rerendered)));
          Run (S (next_handle Cases.rerendered))] Cases.rerendered) = 1.
Proof.
  apply page_change_remounts.
  - intros n. vm_compute. reflexivity.
  - vm_compute. reflexivity.
  - vm_compute. reflexivity.
  - vm_compute. reflexivity.
  - vm_compute. reflexivity.
Defined.

End Navigation.
